(* ===== verification/_CoqProject ===== *)
-Q . S2P
Prelude.v
BTree.v
Bytes.v
Text.v
Core.v
Identity.v
Temporal.v
CommitV2.v
Rdf.v
Dag.v
DagWalk.v
MergeBase.v
Merge.v
Encoding.v
SemanticContext.v
ValidationRecord.v
ValidationClient.v
Projection.v
Reference.v
Witnesses.v
ValidationWitnesses.v
ProjectionWitnesses.v
