(* ===== verification/Prelude.v ===== *)
(** * Verification of the Sculpin Cognitive Ledger

    The ledger is a Rust workspace that records knowledge graphs as immutable,
    content-addressed commits: a commit names its parents, the digest of an RDF patch, the
    digest of the resulting state and its provenance; branches are mutable pointers into the
    commit graph; two branches are merged by structural key; a candidate is accepted only after
    a validator answered for exactly that candidate; an accepted state is projected into a
    triple store that carries a marker of what it represents. What these parts promise one
    another is bytes (canonical encodings whose digest is an identity) and decisions (which
    commits are ancestors, what a merge keeps, what a projector must do). This library models
    that logic and proves it.

    ** Files and the sources they model

    Foundations:
    - [Prelude]: outcomes of fallible code, notations of [ledger_scope], tactics, hint
      databases, lemmas on lists and results.
    - [BTree], [Bytes], [Text]: what the sources use of Rust's standard library. Ordered
      collections as strictly ascending lists, byte strings, UTF-8, decimal and hexadecimal text.

    [crates/ledger-core]:
    - [Core]: [src/lib.rs]; [LedgerError], [ContentId]/[CommitId], length-prefixed wire fields,
      the v1 commit and its codec.
    - [Identity]: [src/identity.rs]; validated tokens, principals, the actor projection.
    - [Temporal]: [src/temporal.rs]; guards, normalisation and rendering of timestamps.
    - [CommitV2]: [src/commit_v2.rs]; the v2 envelope, its strict decoder, version dispatch.

    [crates/ledger-rdf]: [Rdf] ([src/lib.rs], [diff.rs], [effective_delta.rs]); quads, canonical
    state bytes, patches and their codec, diffs, patch application, effective deltas.

    [crates/ledger-dag]: [Dag] (the windowed walk and the queries of [src/lib.rs]), [DagWalk]
    (their correctness against reachability), [MergeBase] (the second half of the source: best
    common ancestors, [merge_base], [analyze], [window_calls], [MemoryDag]).

    [crates/ledger-merge]: [Merge] ([src/lib.rs]); partition by key, strategies, the bounded
    conflict report, the preview token.

    [crates/ledger-validation-protocol]: [Encoding] ([encoding.rs], [invocation.rs], the error of
    [lib.rs]), [SemanticContext] ([context.rs]), [ValidationRecord] ([record.rs]),
    [ValidationClient] ([client.rs]).

    [crates/ledger-projection]: [Projection] ([error.rs], [target.rs], [marker.rs], [plan.rs],
    [lib.rs]).

    Instances and examples: [Reference] (concrete stand-ins for the external crates, with their
    laws proved), [Witnesses], [ValidationWitnesses], [ProjectionWitnesses] (each theorem with
    hypotheses applied at a concrete input).

    ** How code corresponds to definitions

    - A Rust function is a [Definition] or [Fixpoint] of the same name, prefixed where two
      modules use one name ([commit_canonical_bytes], [v2_canonical_bytes]). Its guards stand in
      the order of the source, because the order decides which error is returned.
    - [Result] is [result], with the constructors [Ok] and [Err] and a third outcome [Panic] for
      a failing [expect] or index, so that the absence of panics is a theorem.
    - Strings and byte vectors are [list byte]; machine integers are [Z] or [N] with their
      bounds written as predicates and checked where the source checks them. A count kept in a
      [usize] that is bounded by the length of a list in memory is an [N] or a [nat]; the sums
      of [window_calls], which nothing bounds, are checked ([usize_add]).
    - [BTreeSet] and [BTreeMap] are the strictly ascending lists their iterators yield.
      [HashMap] and [HashSet], whose order never reaches a result, are stdpp's [gmap] and [gset].
    - Error messages with no interpolated value are kept verbatim, and so are those of the
      projection protocol with their values ([Composed]). Elsewhere an interpolated value in a
      message is dropped, among them the [Debug] rendering of a foreign protocol name in
      [into_context]; the text of a ledger error inside another message is the error itself
      ([Rendered]). Error variants and their data fields are exact.
    - Validated types with private fields are their representation together with a [*_wf]
      predicate that the only constructors establish.
    - Time is an oracle: [now i] is the result of the [i]-th call of [Instant::now]. The walk
      theorems hold for every clock.

    ** External code

    The crates [sha2], [time], [oxttl]/[oxrdf] are not part of the repository. They are the
    classes [Sha256] ([Core]), [TimeCrate] ([Temporal]) and [OxRdf] ([Rdf]), which list the
    operations the sources call; [Sha256Ok], [TimeCrateOk] and [OxRdfOk] state the documented
    behaviour the sources rely on: digests have 32 bytes (collision freedom is never assumed;
    theorems on identities speak about canonical bytes), RFC 3339 parsing and rendering are
    inverse on UTC values, the N-Quads printer writes one line per quad and the parser reads it
    back. [ParentProvider]/[ParentProviderOk] ([Dag]) is the ledger's own interface between the
    DAG walks and their storage: the walks are proved against it and [MergeBase] discharges it
    for [MemoryDag] and for the trait's default window.

    ** What the theorems show

    - Identity by bytes. Every decoder accepts exactly the canonical encodings of well-formed
      values and returns the encoded value: commits behind one version dispatch (C1), patches
      (C3), environments and contexts (C20), records (C24). State bytes (C4), preview tokens
      (C18), invocations (C19) and hints (C26) are injective. What is a set in the protocol is a
      set in the bytes: evidence (C2), contexts (C21, C22), record summaries (C24); the
      environment is independent of the candidate (C23).
    - State changes. Effective deltas and diffs are exact and never panic (C5, C6).
    - Graph queries. Ancestor tests, histories and listings terminate and agree with
      reachability in the graph, every error is justified (C7, C8, C14); retrieval windows change
      nothing but whether a deadline, when one is set, is reached (C9); merge bases and
      ahead/behind counts are exact (C10, C11); the documented number of window calls holds up
      to the last 170 values of a [usize], where the sum overflows (C12); the providers keep
      their contract (C13).
    - Merging. The result per structural key is what the documented rules say, whatever the
      report limits (C15, C16); the conflict report is a deterministic, bounded prefix (C17).
    - Validator answers. Summaries are bounded without hiding invalid entries (C25); a response
      becomes a context exactly when it matches the request (C27).
    - Projection. Graph IRIs are exact and injective (C28); every row of the decision table,
      with its reason or error code, is taken exactly on its condition, so that another stream
      and a version beyond the ledger head are never overwritten, and a marker of the stream is
      replaced only when it cannot be trusted (C29); markers are read strictly (C30); projected
      states are exactly the default-graph states (C31).

    ** Fuel

    Only loops whose length the data does not bound structurally take fuel: the depth-first
    walk and the first-parent walk of [Dag] and the marking loop of [MergeBase]. Running out is
    the separate outcome [None]; C7, C8, C10, C11 and C14 prove that some fuel gives a result
    on every provider that keeps its contract, within the configured visit bounds, and that
    more fuel never changes it. The percent-decoder and the message cut of the validator
    boundary are structural on the remaining bytes. [window_calls] is given the number of commits,
    of which every call retrieves at least one; C12 gives its value.

    ** Not modelled, and the order in which it should be

    Next: the filesystem store and the [Ledger] workflow over it
    ([crates/ledger-store/src/lib.rs]); the request identity of the API
    ([crates/ledger-api/src/request_identity.rs]); the query builder and projector loop
    ([crates/ledger-projection-fuseki/src/sparql.rs], [apps/ledger-projector/src/lib.rs]); the
    decision logic of the PostgreSQL workflow, branches and merges, with transactions as steps.
    Outside the scope: SQL text and migrations, HTTP routing and serialisation, token
    verification by external crypto, process start-up, load generators, benchmarks and fuzz
    harnesses. *)

From Stdlib Require Import ZArith Lia String.
From stdpp Require Import base list gmap sorting.

(** ** Outcomes of fallible Rust code

    [Ok] and [Err] are the two constructors of Rust's [Result]; [Panic] is a third outcome
    for code that reaches a failing [expect], so that "this [expect] cannot fail" is a
    theorem about the model instead of a modelling decision. *)
Inductive result (E A : Type) : Type :=
  | Ok (a : A)
  | Err (e : E)
  | Panic (msg : string).
Arguments Ok {E A} a.
Arguments Err {E A} e.
Arguments Panic {E A} msg.

(** The [?] operator: it propagates [Err] (and [Panic]) unchanged. *)
Definition rbind {E A B} (r : result E A) (f : A → result E B) : result E B :=
  match r with Ok a => f a | Err e => Err e | Panic m => Panic m end.

Declare Scope ledger_scope.
Delimit Scope ledger_scope with ledger.
Notation "x ← y ; z" := (rbind y (λ x, z))
  (at level 20, y at level 100, z at level 200, only parsing) : ledger_scope.
Notation "' x ← y ; z" := (rbind y (λ x, z))
  (at level 20, x pattern, y at level 100, z at level 200, only parsing) : ledger_scope.
Notation "x ;; z" := (rbind x (λ _, z))
  (at level 100, z at level 200, only parsing, right associativity) : ledger_scope.
Local Open Scope ledger_scope.

#[export] Instance result_fmap E : FMap (result E) := λ A B f r,
  match r with Ok a => Ok (f a) | Err e => Err e | Panic m => Panic m end.

#[export] Instance result_eq_dec {E A} `{EqDecision E, EqDecision A} :
  EqDecision (result E A).
Proof. solve_decision. Defined.

(** [if !b { return Err(e) }] *)
Definition ensure {E} (b : bool) (e : E) : result E unit :=
  if b then Ok tt else Err e.

(** [Option::ok_or] *)
Definition ok_or {E A} (o : option A) (e : E) : result E A :=
  match o with Some a => Ok a | None => Err e end.

(** [Result::map_err] *)
Definition map_err {E F A} (f : E → F) (r : result E A) : result F A :=
  match r with Ok a => Ok a | Err e => Err (f e) | Panic m => Panic m end.

(** [Result::expect]: an [Err] becomes a panic. *)
Definition expect {E F A} (r : result E A) (msg : string) : result F A :=
  match r with Ok a => Ok a | Err _ => Panic msg | Panic m => Panic m end.

(** [Option::map(f).transpose()] *)
Definition opt_transpose {E A B} (f : A → result E B) (o : option A) : result E (option B) :=
  match o with
  | None => Ok None
  | Some a => match f a with Ok b => Ok (Some b) | Err e => Err e | Panic m => Panic m end
  end.

(** [iter().map(f).collect::<Result<Vec<_>, _>>()]: stops at the first error. *)
Fixpoint collect {E A B} (f : A → result E B) (l : list A) : result E (list B) :=
  match l with
  | [] => Ok []
  | a :: l => b ← f a; bs ← collect f l; Ok (b :: bs)
  end.

(** [for a in l { f(a)? }] *)
Fixpoint try_each {E A} (f : A → result E unit) (l : list A) : result E unit :=
  match l with
  | [] => Ok tt
  | a :: l => f a ;; try_each f l
  end.

Definition is_ok {E A} (r : result E A) : bool :=
  match r with Ok _ => true | _ => false end.

Definition is_panic {E A} (r : result E A) : bool :=
  match r with Panic _ => true | _ => false end.

(** ** Reasoning about outcomes *)
Section result_lemmas.
Context {E : Type}.

Lemma bind_Ok {A B} (r : result E A) (f : A → result E B) b :
  rbind r f = Ok b ↔ ∃ a, r = Ok a ∧ f a = Ok b.
Proof. destruct r; simpl; naive_solver. Qed.

(** A check with an exact specification, then the rest. *)
Lemma check_bind_Ok {B} (r : result E unit) (k : result E B) (V : Prop) b :
  (∀ u, r = Ok u ↔ V) → rbind r (λ _, k) = Ok b ↔ V ∧ k = Ok b.
Proof.
  intros HV. rewrite bind_Ok. setoid_rewrite HV. split; [by intros (_ & ? & ?)|].
  intros [? ?]. by exists tt.
Qed.

Lemma check_then_Ok {B} (r : result E unit) (k : result E B) (V : Prop) b b' :
  (∀ u, r = Ok u ↔ V) → (V → k = Ok b ↔ b = b') → rbind r (λ _, k) = Ok b ↔ V ∧ b = b'.
Proof. intros HV Hk. rewrite (check_bind_Ok _ _ V) by done. naive_solver. Qed.

Lemma fmap_Ok {A B} (r : result E A) (f : A → B) b :
  (f <$> r) = Ok b ↔ ∃ a, r = Ok a ∧ b = f a.
Proof. destruct r; simpl; naive_solver. Qed.

Lemma ensure_Ok (b : bool) (e : E) u : ensure b e = Ok u ↔ b = true.
Proof. destruct b, u; simpl; naive_solver. Qed.

Lemma ensure_Err (b : bool) (e e' : E) : ensure b e = Err e' ↔ b = false ∧ e = e'.
Proof. destruct b; simpl; naive_solver. Qed.

Lemma ok_or_Ok {A} (o : option A) (e : E) a : ok_or o e = Ok a ↔ o = Some a.
Proof. destruct o; simpl; naive_solver. Qed.

Lemma map_err_Ok {F A} (f : E → F) (r : result E A) a : map_err f r = Ok a ↔ r = Ok a.
Proof. destruct r; simpl; naive_solver. Qed.

Lemma expect_Ok {F A} (r : result E A) msg a :
  expect (F:=F) r msg = Ok a ↔ r = Ok a.
Proof. destruct r; simpl; naive_solver. Qed.

Lemma opt_transpose_Ok {A B} (f : A → result E B) o ob :
  opt_transpose f o = Ok ob ↔
    match o, ob with
    | None, None => True
    | Some a, Some b => f a = Ok b
    | _, _ => False
    end.
Proof. destruct o as [a|], ob as [b|]; simpl; try destruct (f a); naive_solver. Qed.

Lemma collect_Ok {A B} (f : A → result E B) l bs :
  collect f l = Ok bs ↔ Forall2 (λ a b, f a = Ok b) l bs.
Proof.
  revert bs; induction l as [|a l IH]; intros bs; simpl.
  { split; [intros [=<-]; constructor | by inversion_clear 1]. }
  rewrite bind_Ok. setoid_rewrite bind_Ok. setoid_rewrite IH. split.
  - intros (b & Hb & bs' & Hbs & [= <-]). by constructor.
  - inversion_clear 1; eauto.
Qed.

Lemma try_each_Ok {A} (f : A → result E unit) l u :
  try_each f l = Ok u ↔ Forall (λ a, f a = Ok tt) l.
Proof.
  destruct u. induction l as [|a l IH]; simpl.
  { split; [constructor | done]. }
  rewrite bind_Ok, Forall_cons, <-IH. split; [intros ([] & ? & ?); done|naive_solver].
Qed.
End result_lemmas.

(** [inv_res] decomposes hypotheses saying that a composite computation returned [Ok]. *)
Ltac inv_res :=
  repeat match goal with
  | H : rbind _ _ = Ok _ |- _ =>
      apply bind_Ok in H; let a := fresh "a" in let E := fresh "E" in destruct H as (a & E & H)
  | H : fmap _ _ = Ok _ |- _ =>
      apply fmap_Ok in H; let a := fresh "a" in let E := fresh "E" in destruct H as (a & E & H)
  | H : ensure _ _ = Ok _ |- _ => apply ensure_Ok in H
  | H : ok_or _ _ = Ok _ |- _ => apply ok_or_Ok in H
  | H : map_err _ _ = Ok _ |- _ => apply map_err_Ok in H
  | H : expect _ _ = Ok _ |- _ => apply expect_Ok in H
  | H : Ok _ = Ok _ |- _ => injection H; clear H; intros
  | H : Err _ = Ok _ |- _ => discriminate H
  | H : Panic _ = Ok _ |- _ => discriminate H
  | u : unit |- _ => destruct u
  end; subst.

(** [same_res] identifies the values of one computation known to return twice. *)
Ltac same_res :=
  repeat match goal with
  | A : ?x = Ok ?a, B : ?x = Ok ?b |- _ =>
      first [constr_eq a b; fail 1 | rewrite A in B; injection B as B; subst]
  end.

(** [run_res] steps a computation whose first stage is known to have returned. *)
Ltac run_res :=
  cbn [rbind fmap result_fmap ok_or ensure map_err expect].

Create HintDb ledger discriminated.

(** [bool_prop] turns the boolean guards of the code into propositions. *)
Ltac bool_prop :=
  repeat match goal with
  | H : _ && _ = true |- _ => apply andb_true_iff in H; destruct H
  | H : _ || _ = false |- _ => apply orb_false_iff in H; destruct H
  | H : negb _ = true |- _ => apply negb_true_iff in H
  | H : negb _ = false |- _ => apply negb_false_iff in H
  | H : bool_decide _ = true |- _ => apply bool_decide_eq_true in H
  | H : bool_decide _ = false |- _ => apply bool_decide_eq_false in H
  | H : (_ <=? _)%nat = true |- _ => apply Nat.leb_le in H
  | H : (_ <=? _)%nat = false |- _ => apply Nat.leb_gt in H
  | H : (_ <? _)%nat = true |- _ => apply Nat.ltb_lt in H
  | H : (_ <? _)%nat = false |- _ => apply Nat.ltb_ge in H
  | H : (_ =? _)%nat = true |- _ => apply Nat.eqb_eq in H
  | H : (_ =? _)%nat = false |- _ => apply Nat.eqb_neq in H
  | H : (_ <=? _)%Z = true |- _ => apply Z.leb_le in H
  | H : (_ <=? _)%Z = false |- _ => apply Z.leb_gt in H
  | H : (_ <? _)%Z = true |- _ => apply Z.ltb_lt in H
  | H : (_ <? _)%Z = false |- _ => apply Z.ltb_ge in H
  | H : (_ =? _)%Z = true |- _ => apply Z.eqb_eq in H
  | H : (_ =? _)%Z = false |- _ => apply Z.eqb_neq in H
  end.

(** ** Generic list facts *)
Section list_lemmas.
Context {A : Type}.
Implicit Types l k : list A.

Lemma forallb_Forall (f : A → bool) l : forallb f l = true ↔ Forall (λ x, f x = true) l.
Proof.
  induction l as [|x l IH]; simpl; [naive_solver|].
  rewrite andb_true_iff, IH, Forall_cons. done.
Qed.

Lemma existsb_Exists (f : A → bool) l : existsb f l = true ↔ Exists (λ x, f x = true) l.
Proof.
  induction l as [|x l IH]; simpl; [split; [done|inversion 1]|].
  rewrite orb_true_iff, IH, Exists_cons. done.
Qed.

Lemma existsb_false (f : A → bool) l : existsb f l = false ↔ Forall (λ x, f x = false) l.
Proof.
  induction l as [|x l IH]; simpl; [naive_solver|].
  rewrite orb_false_iff, IH, Forall_cons. done.
Qed.

Lemma Forall_weaken (P Q : A → Prop) l : Forall P l → (∀ x, P x → Q x) → Forall Q l.
Proof. induction 1; constructor; auto. Qed.

Lemma elem_of_rev x l : x ∈ rev l ↔ x ∈ l.
Proof. rewrite !list_elem_of_In. symmetry. apply in_rev. Qed.

Lemma elem_of_List_filter (f : A → bool) x l : x ∈ List.filter f l ↔ f x = true ∧ x ∈ l.
Proof. rewrite !list_elem_of_In, filter_In. tauto. Qed.

Lemma NoDup_List_filter (f : A → bool) l : NoDup l → NoDup (List.filter f l).
Proof. rewrite !NoDup_ListNoDup. apply List.NoDup_filter. Qed.

Lemma take_length_app l k : take (length l) (l ++ k) = l.
Proof. apply take_app_length. Qed.

Lemma drop_length_app l k : drop (length l) (l ++ k) = k.
Proof. apply drop_app_length. Qed.

(** Concatenations of chunks cut at the same length are equal chunk by chunk. *)
Lemma app_eq_length l1 l2 k1 k2 :
  length l1 = length l2 → l1 ++ k1 = l2 ++ k2 → l1 = l2 ∧ k1 = k2.
Proof. intros Hl H. by apply app_inj_1 in H. Qed.
End list_lemmas.

Lemma Forall2_strengthen {A B} (R R' : A → B → Prop) (Q : B → Prop) l k :
  Forall2 R l k → Forall Q k → (∀ x y, R x y → Q y → R' x y) → Forall2 R' l k.
Proof. intros HR HQ HRQ. induction HR; [constructor|]. apply Forall_cons in HQ as []. constructor; auto. Qed.
