(* ===== verification/BTree.v ===== *)
(** * Ordered collections

    Rust's [Ord], [BTreeSet] and [BTreeMap], [slice::sort_unstable] and [Vec::dedup]. An
    ordered collection is the strictly ascending list its iterator yields, so iteration
    order, which reaches every canonical encoding, is part of the model, and equality of
    sets is equality of lists. *)

From Stdlib Require Import ZArith Lia.
From stdpp Require Import base list gmap sorting.
From S2P Require Import Prelude.

(** ** [Ord]: a lawful three-way comparison *)
Class Ord (A : Type) : Type := {
  cmp : A → A → comparison;
  cmp_eq x y : cmp x y = Eq ↔ x = y;
  cmp_antisym x y : cmp y x = CompOpp (cmp x y);
  cmp_trans x y z : cmp x y = Lt → cmp y z = Lt → cmp x z = Lt
}.

Section ord.
Context {A : Type} `{Ord A}.
Implicit Types x y z : A.

Definition lt_of x y : Prop := cmp x y = Lt.

Lemma cmp_refl x : cmp x x = Eq.
Proof. by apply cmp_eq. Qed.

Lemma cmp_gt x y : cmp x y = Gt ↔ cmp y x = Lt.
Proof. rewrite (cmp_antisym x y). destruct (cmp x y); simpl; naive_solver. Qed.

#[export] Instance lt_of_trans : Transitive lt_of.
Proof. intros x y z. apply cmp_trans. Qed.

Lemma lt_of_irrefl x : ¬ lt_of x x.
Proof. unfold lt_of. rewrite cmp_refl. done. Qed.

Lemma lt_of_asym x y : lt_of x y → ¬ lt_of y x.
Proof. intros Hx Hy. exact (lt_of_irrefl x (lt_of_trans _ _ _ Hx Hy)). Qed.

Lemma lt_of_ne x y : lt_of x y → x ≠ y.
Proof. intros Hlt ->. by apply lt_of_irrefl in Hlt. Qed.

Lemma ord_eq_dec : EqDecision A.
Proof.
  intros x y. destruct (cmp x y) eqn:E; [left; by apply cmp_eq|right|right];
    intros ->; by rewrite cmp_refl in E.
Defined.

Lemma cmp_cases x y :
  (x = y ∧ cmp x y = Eq) ∨ (lt_of x y ∧ cmp x y = Lt) ∨ (lt_of y x ∧ cmp x y = Gt).
Proof.
  destruct (cmp x y) eqn:E.
  - left. by rewrite cmp_eq in E.
  - right; left. done.
  - right; right. split; [by apply cmp_gt|done].
Qed.
End ord.

(** ** Instances *)
#[export] Instance N_ord : Ord N.
Proof.
  refine {| cmp := N.compare |}.
  - apply N.compare_eq_iff.
  - apply N.compare_antisym.
  - intros x y z. rewrite !N.compare_lt_iff. lia.
Defined.

#[export] Instance Z_ord : Ord Z.
Proof.
  refine {| cmp := Z.compare |}.
  - apply Z.compare_eq_iff.
  - intros x y. apply Z.compare_antisym.
  - intros x y z. rewrite !Z.compare_lt_iff. lia.
Defined.

#[export] Instance nat_ord : Ord nat.
Proof.
  refine {| cmp := Nat.compare |}.
  - apply Nat.compare_eq_iff.
  - intros x y. apply Nat.compare_antisym.
  - intros x y z. rewrite !Nat.compare_lt_iff. lia.
Defined.

(** A derived [Ord] on a struct or fieldless enum: compare through an injective view. *)
Definition ord_via {A B} `{Ord B} (f : A → B) (Hf : ∀ x y, f x = f y → x = y) : Ord A.
Proof.
  refine {| cmp x y := cmp (f x) (f y) |}.
  - intros x y. rewrite cmp_eq. split; [apply Hf|by intros ->].
  - intros x y. apply cmp_antisym.
  - intros x y z. apply cmp_trans.
Defined.

(** Lexicographic comparison of fields in declaration order. *)
#[export] Instance prod_ord {A B} `{Ord A, Ord B} : Ord (A * B).
Proof.
  refine {| cmp x y := match cmp x.1 y.1 with Eq => cmp x.2 y.2 | c => c end |}.
  - intros [a b] [a' b']; simpl. destruct (cmp_cases a a') as [[-> ->]|[[Hl ->]|[Hl ->]]].
    + rewrite cmp_eq. naive_solver.
    + split; [done|]. intros [= -> ->]. by apply lt_of_irrefl in Hl.
    + split; [done|]. intros [= -> ->]. by apply lt_of_irrefl in Hl.
  - intros [a b] [a' b']; simpl. rewrite (cmp_antisym a a').
    destruct (cmp a a'); simpl; [apply cmp_antisym|done..].
  - intros [a b] [a' b'] [a'' b'']; simpl.
    destruct (cmp_cases a a') as [[-> ->]|[[H1 ->]|[H1 ->]]]; [|intros _|done].
    + destruct (cmp a' a''); [apply cmp_trans|done..].
    + destruct (cmp_cases a' a'') as [[<- ->]|[[H2 ->]|[H2 ->]]]; [| |done].
      * by rewrite H1.
      * intros _. by rewrite (cmp_trans _ _ _ H1 H2).
Defined.

(** [None] sorts before [Some]. *)
#[export] Instance option_ord {A} `{Ord A} : Ord (option A).
Proof.
  refine {| cmp x y := match x, y with
                       | None, None => Eq | None, Some _ => Lt | Some _, None => Gt
                       | Some a, Some b => cmp a b end |}.
  - intros [a|] [b|]; rewrite ?cmp_eq; naive_solver.
  - intros [a|] [b|]; simpl; auto using cmp_antisym.
  - intros [a|] [b|] [c|]; try done. apply cmp_trans.
Defined.

Fixpoint list_cmp {A} `{Ord A} (l k : list A) : comparison :=
  match l, k with
  | [], [] => Eq
  | [], _ :: _ => Lt
  | _ :: _, [] => Gt
  | x :: l, y :: k => match cmp x y with Eq => list_cmp l k | c => c end
  end.

(** Slices compare lexicographically; a proper prefix sorts first. *)
#[export] Instance list_ord {A} `{Ord A} : Ord (list A).
Proof.
  refine {| cmp := list_cmp |}.
  - intros l. induction l as [|x l IH]; intros [|y k]; simpl; try naive_solver.
    destruct (cmp_cases x y) as [[-> ->]|[[Hl ->]|[Hl ->]]].
    + rewrite IH. naive_solver.
    + split; [done|]. intros [= -> ->]. by apply lt_of_irrefl in Hl.
    + split; [done|]. intros [= -> ->]. by apply lt_of_irrefl in Hl.
  - intros l. induction l as [|x l IH]; intros [|y k]; simpl; try done.
    rewrite (cmp_antisym x y). destruct (cmp x y); simpl; auto.
  - intros l. induction l as [|x l IH]; intros [|y k] [|z j]; simpl; try done.
    destruct (cmp_cases x y) as [[-> ->]|[[H1 ->]|[H1 ->]]]; [|intros _|done].
    + destruct (cmp y z); [apply IH|done..].
    + destruct (cmp_cases y z) as [[<- ->]|[[H2 ->]|[H2 ->]]]; [| |done].
      * by rewrite H1.
      * intros _. by rewrite (cmp_trans _ _ _ H1 H2).
Defined.

(** ** [BTreeSet] *)
Section btreeset.
Context {A : Type} `{Ord A}.
Implicit Types (x y : A) (l k : list A).

(** The iteration order of a [BTreeSet] is strictly ascending. *)
Abbreviation ascending := (StronglySorted lt_of).

Fixpoint bts_insert x l : list A :=
  match l with
  | [] => [x]
  | y :: l' => match cmp x y with
               | Lt => x :: l
               | Eq => l
               | Gt => y :: bts_insert x l'
               end
  end.

Fixpoint bts_remove x l : list A :=
  match l with
  | [] => []
  | y :: l' => match cmp x y with
               | Lt => l
               | Eq => l'
               | Gt => y :: bts_remove x l'
               end
  end.

Fixpoint bts_contains x l : bool :=
  match l with
  | [] => false
  | y :: l' => match cmp x y with Lt => false | Eq => true | Gt => bts_contains x l' end
  end.

(** [extend]: insert every element of an iterator. *)
Definition bts_extend l k : list A := fold_left (λ s x, bts_insert x s) k l.
(** [collect::<BTreeSet<_>>()] *)
Definition bts_collect k : list A := bts_extend [] k.
(** [a.difference(&b)] *)
Definition bts_difference l k : list A := filter (λ x, negb (bts_contains x k) = true) l.
(** [a.union(&b)] *)
Definition bts_union l k : list A := bts_extend l k.

Lemma ascending_inv x l : ascending (x :: l) → ascending l ∧ Forall (lt_of x) l.
Proof. apply StronglySorted_inv. Qed.

Lemma ascending_nodup l : ascending l → NoDup l.
Proof.
  induction 1 as [|x l Hl IH Hx]; constructor; [|done].
  intros Hin. rewrite Forall_forall in Hx. apply (lt_of_irrefl x), Hx, Hin.
Qed.

Lemma ascending_head_least x y l : ascending (x :: l) → y ∈ x :: l → y = x ∨ lt_of x y.
Proof.
  intros [_ Hx]%ascending_inv. rewrite elem_of_cons. intros [->|Hy]; [by left|].
  right. rewrite Forall_forall in Hx. by apply Hx.
Qed.

(** Two ascending lists with the same members are the same list. *)
Lemma ascending_ext l k :
  ascending l → ascending k → (∀ x, x ∈ l ↔ x ∈ k) → l = k.
Proof.
  revert k. induction l as [|x l IH]; intros [|y k] Hl Hk Hlk.
  - done.
  - exfalso. apply (not_elem_of_nil y), Hlk. left.
  - exfalso. apply (not_elem_of_nil x), Hlk. left.
  - assert (x = y) as ->.
    { destruct (ascending_head_least y x k) as [?|Hyx]; [done|by apply Hlk; left|done|].
      destruct (ascending_head_least x y l) as [?|Hxy]; [done|by apply Hlk; left|done|].
      exfalso. by apply (lt_of_asym x y). }
    pose proof (ascending_nodup _ Hl) as [Hyl _]%NoDup_cons.
    pose proof (ascending_nodup _ Hk) as [Hyk _]%NoDup_cons.
    f_equal. apply IH; [by apply ascending_inv in Hl as []|by apply ascending_inv in Hk as []|].
    intros z. specialize (Hlk z). rewrite !elem_of_cons in Hlk. naive_solver.
Qed.

Lemma elem_of_bts_insert x y l : x ∈ bts_insert y l ↔ x = y ∨ x ∈ l.
Proof.
  induction l as [|z l IH]; simpl; [set_solver|].
  destruct (cmp_cases y z) as [[-> ->]|[[_ ->]|[_ ->]]]; set_solver.
Qed.

Lemma bts_insert_ascending x l : ascending l → ascending (bts_insert x l).
Proof.
  induction l as [|y l IH]; simpl; intros Hl; [by repeat constructor|].
  apply ascending_inv in Hl as [Hl Hy].
  destruct (cmp_cases x y) as [[-> ->]|[[Hxy ->]|[Hxy ->]]].
  - by constructor.
  - constructor; [by constructor|]. constructor; [done|].
    eapply Forall_weaken; [exact Hy|]. intros z Hz. by apply (lt_of_trans _ y).
  - constructor; [by apply IH|]. rewrite Forall_forall. intros z.
    rewrite elem_of_bts_insert. rewrite Forall_forall in Hy. intros [->|?]; auto.
Qed.

Lemma elem_of_bts_remove x y l : ascending l → x ∈ bts_remove y l ↔ x ≠ y ∧ x ∈ l.
Proof.
  induction l as [|z l IH]; simpl; intros Hl; [set_solver|].
  pose proof (ascending_inv _ _ Hl) as [Hl' Hz]. rewrite Forall_forall in Hz.
  destruct (cmp_cases y z) as [[-> ->]|[[Hyz ->]|[Hyz ->]]].
  - split; [|set_solver]. intros Hx. split; [|set_solver].
    intros ->. apply (lt_of_irrefl z). auto.
  - split; [|naive_solver]. intros Hx. split; [|done]. intros ->.
    destruct (ascending_head_least z y l Hl Hx) as [->|?].
    + by apply (lt_of_irrefl z).
    + by apply (lt_of_asym y z).
  - rewrite !elem_of_cons, (IH Hl'). split; [|naive_solver].
    intros [->|[??]]; [|naive_solver]. split; [|by left].
    intros ->. by apply (lt_of_irrefl y).
Qed.

Lemma bts_remove_ascending x l : ascending l → ascending (bts_remove x l).
Proof.
  induction l as [|y l IH]; simpl; intros Hl; [done|].
  pose proof (ascending_inv _ _ Hl) as [Hl' Hy].
  destruct (cmp x y); [done..|]. constructor; [by apply IH|].
  rewrite Forall_forall in Hy |- *. intros z [_ ?]%elem_of_bts_remove; auto.
Qed.

Lemma bts_contains_spec x l : ascending l → bts_contains x l = true ↔ x ∈ l.
Proof.
  induction l as [|y l IH]; simpl; intros Hl; [set_solver|].
  pose proof (ascending_inv _ _ Hl) as [Hl' _].
  destruct (cmp_cases x y) as [[-> ->]|[[Hxy ->]|[Hxy ->]]].
  - set_solver.
  - split; [done|]. intros Hx. destruct (ascending_head_least y x l Hl Hx) as [->|?].
    + by apply lt_of_irrefl in Hxy.
    + by apply (lt_of_asym x y) in Hxy.
  - rewrite (IH Hl'), elem_of_cons. split; [naive_solver|]. intros [->|?]; [|done].
    by apply lt_of_irrefl in Hxy.
Qed.

Lemma bts_contains_false x l : ascending l → bts_contains x l = false ↔ x ∉ l.
Proof. intros Hl. rewrite <-(bts_contains_spec x l Hl). destruct (bts_contains x l); naive_solver. Qed.

Lemma bts_extend_ascending k l : ascending l → ascending (bts_extend l k).
Proof. revert l. induction k; simpl; auto using bts_insert_ascending. Qed.

Lemma elem_of_bts_extend x k l : x ∈ bts_extend l k ↔ x ∈ l ∨ x ∈ k.
Proof.
  revert l. induction k as [|y k IH]; intros l; simpl; [set_solver|].
  rewrite IH, elem_of_bts_insert. set_solver.
Qed.

Lemma bts_collect_ascending k : ascending (bts_collect k).
Proof. apply bts_extend_ascending. constructor. Qed.

Lemma elem_of_bts_collect x k : x ∈ bts_collect k ↔ x ∈ k.
Proof. unfold bts_collect. rewrite elem_of_bts_extend. set_solver. Qed.

Lemma bts_collect_ext k1 k2 : (∀ x, x ∈ k1 ↔ x ∈ k2) → bts_collect k1 = bts_collect k2.
Proof.
  intros Hk. apply ascending_ext; [apply bts_collect_ascending..|].
  intros x. rewrite !elem_of_bts_collect. apply Hk.
Qed.

Lemma bts_collect_id l : ascending l → bts_collect l = l.
Proof.
  intros Hl. apply ascending_ext; [apply bts_collect_ascending|done|].
  intros x. apply elem_of_bts_collect.
Qed.

Lemma ascending_filter (P : A → Prop) `{∀ x, Decision (P x)} l :
  ascending l → ascending (filter P l).
Proof.
  induction 1 as [|x l Hl IH Hx]; [constructor|].
  rewrite filter_cons. case_decide; [|done]. constructor; [done|].
  rewrite Forall_forall in Hx |- *. intros y [_ ?]%list_elem_of_filter. auto.
Qed.

Lemma elem_of_bts_difference x l k :
  ascending k → x ∈ bts_difference l k ↔ x ∈ l ∧ x ∉ k.
Proof.
  intros Hk. unfold bts_difference. rewrite list_elem_of_filter, negb_true_iff.
  rewrite (bts_contains_false x k Hk). naive_solver.
Qed.

Lemma bts_difference_ascending l k : ascending l → ascending (bts_difference l k).
Proof. apply ascending_filter. Qed.

Lemma elem_of_bts_union x l k : x ∈ bts_union l k ↔ x ∈ l ∨ x ∈ k.
Proof. apply elem_of_bts_extend. Qed.

Lemma bts_union_ascending l k : ascending l → ascending (bts_union l k).
Proof. apply bts_extend_ascending. Qed.

Lemma ascending_nil : ascending [].
Proof. constructor. Qed.

Lemma ascending_app_inv l k : ascending (l ++ k) → ascending l ∧ ascending k.
Proof.
  induction l as [|x l IH]; simpl; intros Hl; [split; [constructor|done]|].
  apply ascending_inv in Hl as [[??]%IH Hx]. split; [|done].
  constructor; [done|]. by apply Forall_app in Hx as [].
Qed.
End btreeset.

Global Notation ascending := (StronglySorted lt_of) (only parsing).

#[export] Hint Resolve ascending_nil bts_insert_ascending bts_remove_ascending
  bts_extend_ascending bts_collect_ascending bts_difference_ascending
  bts_union_ascending : ledger.

(** ** [sort_unstable] and [dedup] on a [Vec]

    For a total order in which equal elements are identical the sorted permutation is
    unique, so any sorting algorithm is a faithful model of [sort_unstable]. *)
Section sort_dedup.
Context {A : Type} `{Ord A}.
Implicit Types (x y : A) (l k : list A).

Definition le_of x y : Prop := cmp x y ≠ Gt.

#[export] Instance le_of_dec : RelDecision le_of.
Proof. intros x y. unfold le_of. destruct (cmp x y); [left|left|right]; naive_solver. Defined.

Lemma le_of_lt_eq x y : le_of x y ↔ x = y ∨ lt_of x y.
Proof.
  unfold le_of. destruct (cmp_cases x y) as [[-> ->]|[[Hl ->]|[Hl ->]]].
  - naive_solver.
  - naive_solver.
  - split; [done|]. intros [->|Hl']; [by apply lt_of_irrefl in Hl|].
    by apply (lt_of_asym x y) in Hl'.
Qed.

#[export] Instance le_of_trans : Transitive le_of.
Proof.
  intros x y z. rewrite !le_of_lt_eq. intros [->|Hxy] [->|Hyz]; auto.
  right. by apply (lt_of_trans _ y).
Qed.

#[export] Instance le_of_total : Total le_of.
Proof. intros x y. rewrite !le_of_lt_eq. destruct (cmp_cases x y); naive_solver. Qed.

Definition sort_unstable l : list A := merge_sort le_of l.

(** [Vec::dedup]: drop an element equal to the one kept just before it. *)
Fixpoint dedup l : list A :=
  match l with
  | [] => []
  | x :: l' => match dedup l' with
               | [] => [x]
               | y :: r => match cmp x y with Eq => y :: r | _ => x :: y :: r end
               end
  end.

Lemma elem_of_dedup x l : x ∈ dedup l ↔ x ∈ l.
Proof.
  induction l as [|y l IH]; simpl; [done|].
  destruct (dedup l) as [|z r] eqn:E.
  - rewrite !elem_of_cons, <-IH. done.
  - destruct (cmp_cases y z) as [[-> ->]|[[_ ->]|[_ ->]]]; rewrite !elem_of_cons in *;
      naive_solver.
Qed.

Lemma dedup_ascending l : StronglySorted le_of l → ascending (dedup l).
Proof.
  induction 1 as [|x l Hl IH Hx]; simpl; [constructor|].
  assert (∀ y, y ∈ dedup l → le_of x y) as Hx'.
  { intros y. rewrite elem_of_dedup. rewrite Forall_forall in Hx. apply Hx. }
  destruct (dedup l) as [|z r]; [by repeat constructor|].
  destruct (cmp_cases x z) as [[-> ->]|[[Hxz ->]|[Hxz ->]]]; [done| |].
  - constructor; [done|]. constructor; [done|].
    pose proof (ascending_inv _ _ IH) as [_ Hz]. eapply Forall_weaken; [exact Hz|].
    intros y Hy. by apply (lt_of_trans _ z).
  - exfalso. apply (lt_of_irrefl x). specialize (Hx' z ltac:(left)).
    apply le_of_lt_eq in Hx' as [->|?]; [done|]. by apply (lt_of_trans _ z).
Qed.

(** Sorting and de-duplicating a [Vec] yields the elements of the corresponding set. *)
Lemma sort_dedup_collect l : dedup (sort_unstable l) = bts_collect l.
Proof.
  apply ascending_ext; [|apply bts_collect_ascending|].
  - apply dedup_ascending, StronglySorted_merge_sort; apply _.
  - intros x. rewrite elem_of_dedup, elem_of_bts_collect. unfold sort_unstable.
    by rewrite (merge_sort_Permutation le_of l).
Qed.
End sort_dedup.

(** An order-preserving map commutes with building the set. *)
Lemma fmap_bts_collect {A B} `{Ord A, Ord B} (f : A → B) l :
  (∀ x y, x ∈ l → y ∈ l → cmp (f x) (f y) = cmp x y) → f <$> bts_collect l = bts_collect (f <$> l).
Proof.
  intros Hf. apply ascending_ext; [|apply bts_collect_ascending|].
  - assert (∀ x, x ∈ bts_collect l → x ∈ l) as Hin by (intros x; by rewrite elem_of_bts_collect).
    pose proof (bts_collect_ascending l) as Ha. revert Hin.
    induction Ha as [|x k Hk IH Hx]; intros Hin; [constructor|]. rewrite fmap_cons.
    constructor; [apply IH; intros y Hy; apply Hin; by right|].
    apply Forall_fmap. rewrite Forall_forall in Hx |- *. intros y Hy. unfold compose, lt_of.
    rewrite Hf; [by apply Hx|apply Hin; by left|apply Hin; by right].
  - intros y. rewrite elem_of_bts_collect, !list_elem_of_fmap. by setoid_rewrite elem_of_bts_collect.
Qed.

(** Every element of a set of images has a preimage: the set is the image of a sublist. *)
Lemma bts_collect_preimage {A B} `{Ord B} (f : A → B) l :
  ∃ l', f <$> l' = bts_collect (f <$> l) ∧ ∀ x, x ∈ l' → x ∈ l.
Proof.
  assert (∀ y, y ∈ bts_collect (f <$> l) → ∃ x, y = f x ∧ x ∈ l) as Hy.
  { intros y. rewrite elem_of_bts_collect, list_elem_of_fmap. done. }
  revert Hy. generalize (bts_collect (f <$> l)). intros k.
  induction k as [|y k IH]; intros Hk; [by exists []; split; [|intros x ?%elem_of_nil]|].
  destruct (Hk y ltac:(left)) as (x & -> & Hx).
  destruct IH as (l' & <- & Hl'); [intros z Hz; apply Hk; by right|].
  exists (x :: l'). split; [done|]. intros z [->|Hz]%elem_of_cons; auto.
Qed.

(** ** [BTreeMap] *)
Section btreemap.
Context {K V : Type} `{Ord K}.
Implicit Types (k j : K) (v : V) (m : list (K * V)).

(** [entry(k)] followed by an in-place update of the (possibly vacant) slot. *)
Fixpoint btm_upsert (f : option V → V) k m : list (K * V) :=
  match m with
  | [] => [(k, f None)]
  | (j, v) :: m' => match cmp k j with
                    | Lt => (k, f None) :: m
                    | Eq => (j, f (Some v)) :: m'
                    | Gt => (j, v) :: btm_upsert f k m'
                    end
  end.

Fixpoint btm_get k m : option V :=
  match m with
  | [] => None
  | (j, v) :: m' => match cmp k j with Lt => None | Eq => Some v | Gt => btm_get k m' end
  end.

Definition btm_ascending m : Prop := ascending (m.*1).

Lemma btm_upsert_keys f k m : (btm_upsert f k m).*1 = bts_insert k (m.*1).
Proof.
  induction m as [|[j v] m IH]; csimpl; [done|].
  destruct (cmp_cases k j) as [[-> ->]|[[_ ->]|[_ ->]]]; csimpl; by rewrite ?IH.
Qed.

Lemma btm_upsert_ascending f k m : btm_ascending m → btm_ascending (btm_upsert f k m).
Proof. unfold btm_ascending. rewrite btm_upsert_keys. apply bts_insert_ascending. Qed.

Lemma btm_get_None k m : btm_ascending m → k ∉ m.*1 → btm_get k m = None.
Proof.
  induction m as [|[j v] m IH]; csimpl; intros Hm Hk; [done|].
  destruct (cmp_cases k j) as [[-> ->]|[[_ ->]|[_ ->]]]; [|done|].
  - exfalso. apply Hk. left.
  - apply IH; [by apply ascending_inv in Hm as []|]. intros Hin. apply Hk. by right.
Qed.

Lemma btm_get_Some k v m : btm_ascending m → btm_get k m = Some v ↔ (k, v) ∈ m.
Proof.
  induction m as [|[j w] m IH]; csimpl; intros Hm; [set_solver|].
  pose proof (ascending_inv _ _ Hm) as [Hm' Hj]. rewrite Forall_forall in Hj.
  assert ((k, v) ∈ m → lt_of j k) as Hlt.
  { intros Hin. apply Hj. apply (list_elem_of_fmap_2 fst _ _ Hin). }
  destruct (cmp_cases k j) as [[-> ->]|[[Hkj ->]|[Hkj ->]]].
  - rewrite elem_of_cons. split; [intros [= ->]; by left|].
    intros [[= ->]|Hin]; [done|]. by apply Hlt, lt_of_irrefl in Hin.
  - rewrite elem_of_cons. split; [done|]. intros [[= -> ->]|Hin].
    + by apply lt_of_irrefl in Hkj.
    + by destruct (lt_of_asym k j Hkj (Hlt Hin)).
  - rewrite (IH Hm'), elem_of_cons. split; [by right|].
    intros [[= -> ->]|?]; [|done]. by apply lt_of_irrefl in Hkj.
Qed.

Lemma btm_get_upsert f k j m : btm_ascending m →
  btm_get j (btm_upsert f k m) =
    match cmp j k with Eq => Some (f (btm_get k m)) | _ => btm_get j m end.
Proof.
  induction m as [|[i w] m IH]; intros Hm; simpl.
  { destruct (cmp_cases j k) as [[-> ->]|[[_ ->]|[_ ->]]]; done. }
  pose proof (ascending_inv _ _ Hm) as [Hm' _].
  destruct (cmp_cases k i) as [[-> ->]|[[Hki ->]|[Hki ->]]]; simpl.
  - destruct (cmp_cases j i) as [[-> ->]|[[_ ->]|[_ ->]]]; done.
  - destruct (cmp_cases j k) as [[-> ->]|[[Hjk ->]|[Hjk ->]]]; [done| |done].
    by rewrite (lt_of_trans _ _ _ Hjk Hki : cmp j i = Lt).
  - rewrite (IH Hm'). destruct (cmp_cases j k) as [[-> Ek]|[[Hjk Ek]|[Hjk Ek]]];
      rewrite Ek; [|destruct (cmp j i); done|destruct (cmp j i); done].
    by rewrite (proj2 (cmp_gt k i) Hki).
Qed.
End btreemap.
