(* ===== verification/Bytes.v ===== *)
(** * Byte strings

    Rust's [Vec<u8>], [&[u8]], [String] and [&str] as [list byte]. A [String] is a byte
    string for which [utf8_valid] holds; the constructors of the modelled code that take
    strings from bytes test it exactly where the source calls [from_utf8]. *)

From Stdlib Require Import ZArith Lia String Strings.Byte.
From stdpp Require Import base gmap countable list.
From S2P Require Import Prelude BTree.

Abbreviation bytes := (list byte).

#[export] Instance byte_eq_dec' : EqDecision byte := Byte.byte_eq_dec.

#[export] Program Instance byte_countable : Countable byte :=
  inj_countable Byte.to_N Byte.of_N _.
Next Obligation. intros []; reflexivity. Qed.

Definition Z_of_byte (b : byte) : Z := Z.of_N (Byte.to_N b).
Definition byte_of_Z (z : Z) : byte := default x00 (Byte.of_N (Z.to_N (z mod 256))).

Lemma Z_of_byte_range b : (0 ≤ Z_of_byte b < 256)%Z.
Proof. destruct b; vm_compute; split; congruence. Qed.

Lemma byte_of_Z_of_byte b : byte_of_Z (Z_of_byte b) = b.
Proof. destruct b; reflexivity. Qed.

Lemma Z_of_byte_inj a b : Z_of_byte a = Z_of_byte b → a = b.
Proof. intros Hab. by rewrite <-(byte_of_Z_of_byte a), Hab, byte_of_Z_of_byte. Qed.

Lemma Z_of_byte_of_Z z : Z_of_byte (byte_of_Z z) = (z mod 256)%Z.
Proof.
  unfold byte_of_Z, Z_of_byte.
  assert (0 ≤ z mod 256 < 256)%Z as Hz by (apply Z.mod_pos_bound; lia).
  destruct (Byte.of_N (Z.to_N (z mod 256))) as [b|] eqn:E; simpl.
  - apply Byte.to_of_N in E. rewrite E. lia.
  - apply Byte.of_N_None_iff in E. lia.
Qed.

(** [u8: Ord] and, through [list_ord], the bytewise order of slices and strings. *)
#[export] Instance byte_ord : Ord byte := ord_via Z_of_byte Z_of_byte_inj.

(** A string or byte-string literal. *)
Definition B (s : string) : bytes := String.list_byte_of_string s.
#[global] Arguments B : simpl never.

(** ** Big-endian [u32] *)
Definition u32_max : Z := 4294967295.

Definition u32_to_be_bytes (n : Z) : bytes :=
  [byte_of_Z (Z.shiftr n 24); byte_of_Z (Z.shiftr n 16);
   byte_of_Z (Z.shiftr n 8); byte_of_Z n].

Definition u32_from_be_bytes (bs : bytes) : Z :=
  fold_left (λ acc b, Z.lor (Z.shiftl acc 8) (Z_of_byte b)) bs 0%Z.

#[global] Arguments u32_to_be_bytes : simpl never.
#[global] Arguments u32_from_be_bytes : simpl never.
#[global] Arguments byte_of_Z : simpl never.
#[global] Arguments Z_of_byte : simpl never.

Lemma lor_shiftl_byte a b :
  (0 ≤ a)%Z → Z.lor (Z.shiftl a 8) (Z_of_byte b) = (a * 256 + Z_of_byte b)%Z.
Proof.
  intros Ha. pose proof (Z_of_byte_range b).
  assert (Z.land (Z.shiftl a 8) (Z_of_byte b) = 0)%Z as Hland.
  { apply Z.bits_inj'. intros i Hi. rewrite Z.land_spec, Z.bits_0.
    destruct (decide (i < 8)%Z).
    - by rewrite Z.shiftl_spec_low by lia.
    - rewrite (Z.bits_above_log2 (Z_of_byte b) i), andb_false_r; [done|lia|].
      destruct (decide (Z_of_byte b = 0%Z)) as [->|]; [simpl; lia|].
      apply Z.log2_lt_pow2; [lia|]. apply Z.lt_le_trans with (2 ^ 8)%Z; [lia|].
      apply Z.pow_le_mono_r; lia. }
  rewrite <-Z.lxor_lor, <-Z.add_nocarry_lxor by done.
  rewrite Z.shiftl_mul_pow2 by lia. lia.
Qed.

Lemma u32_from_be_bytes_4 a b c d :
  u32_from_be_bytes [a; b; c; d] =
    (Z_of_byte a * 16777216 + Z_of_byte b * 65536 + Z_of_byte c * 256 + Z_of_byte d)%Z.
Proof.
  unfold u32_from_be_bytes; cbn [fold_left].
  pose proof (Z_of_byte_range a); pose proof (Z_of_byte_range b);
  pose proof (Z_of_byte_range c); pose proof (Z_of_byte_range d).
  rewrite (lor_shiftl_byte 0 a) by lia. rewrite (lor_shiftl_byte _ b) by lia.
  rewrite (lor_shiftl_byte _ c) by lia. rewrite (lor_shiftl_byte _ d) by lia. lia.
Qed.

Lemma length_u32_to_be_bytes n : length (u32_to_be_bytes n) = 4.
Proof. done. Qed.

Lemma u32_be_roundtrip n : (0 ≤ n ≤ u32_max)%Z → u32_from_be_bytes (u32_to_be_bytes n) = n.
Proof.
  unfold u32_max. intros Hn. unfold u32_to_be_bytes. rewrite u32_from_be_bytes_4.
  rewrite !Z_of_byte_of_Z, !Z.shiftr_div_pow2 by lia.
  change (2 ^ 24)%Z with 16777216%Z. change (2 ^ 16)%Z with 65536%Z. change (2 ^ 8)%Z with 256%Z.
  Z.div_mod_to_equations. lia.
Qed.

Lemma u32_from_be_range bs : length bs = 4 → (0 ≤ u32_from_be_bytes bs ≤ u32_max)%Z.
Proof.
  destruct bs as [|a [|b [|c [|d [|]]]]]; try done. intros _. rewrite u32_from_be_bytes_4.
  pose proof (Z_of_byte_range a); pose proof (Z_of_byte_range b);
  pose proof (Z_of_byte_range c); pose proof (Z_of_byte_range d). unfold u32_max. lia.
Qed.

Lemma byte_of_Z_add_mul k b : byte_of_Z (k * 256 + Z_of_byte b) = b.
Proof.
  apply Z_of_byte_inj. rewrite Z_of_byte_of_Z. pose proof (Z_of_byte_range b).
  rewrite Z.add_comm, Z.mod_add by lia. by apply Z.mod_small.
Qed.

Lemma u32_to_from_be bs : length bs = 4 → u32_to_be_bytes (u32_from_be_bytes bs) = bs.
Proof.
  destruct bs as [|a [|b [|c [|d [|]]]]]; try done. intros _. rewrite u32_from_be_bytes_4.
  unfold u32_to_be_bytes. rewrite !Z.shiftr_div_pow2 by lia.
  change (2 ^ 24)%Z with 16777216%Z. change (2 ^ 16)%Z with 65536%Z. change (2 ^ 8)%Z with 256%Z.
  pose proof (Z_of_byte_range a); pose proof (Z_of_byte_range b);
  pose proof (Z_of_byte_range c); pose proof (Z_of_byte_range d).
  set (za := Z_of_byte a) in *; set (zb := Z_of_byte b) in *;
  set (zc := Z_of_byte c) in *; set (zd := Z_of_byte d) in *.
  repeat f_equal.
  - rewrite <-(byte_of_Z_add_mul 0 a). f_equal. fold za. Z.div_mod_to_equations. lia.
  - rewrite <-(byte_of_Z_add_mul za b). f_equal. fold zb. Z.div_mod_to_equations. lia.
  - rewrite <-(byte_of_Z_add_mul (za * 256 + zb) c). f_equal. fold zc.
    Z.div_mod_to_equations. lia.
  - rewrite <-(byte_of_Z_add_mul (za * 65536 + zb * 256 + zc) d). f_equal. fold zd. lia.
Qed.

(** Big-endian encoding preserves order, and a longer tail is only compared on a tie. *)
Lemma cmp_app_length (a b r s : bytes) : length a = length b →
  cmp (a ++ r) (b ++ s) = match cmp a b with Eq => cmp r s | o => o end.
Proof.
  revert b. induction a as [|x a IH]; intros [|y b] Hl; try done.
  injection Hl as Hl. change (cmp ((x :: a) ++ r) ((y :: b) ++ s)) with
    (match cmp x y with Eq => cmp (a ++ r) (b ++ s) | o => o end).
  change (cmp (x :: a) (y :: b)) with (match cmp x y with Eq => cmp a b | o => o end).
  destruct (cmp x y); [by apply IH|done..].
Qed.

Lemma cmp_be_bytes a b c d a' b' c' d' :
  cmp [a; b; c; d] [a'; b'; c'; d'] =
  Z.compare (u32_from_be_bytes [a; b; c; d]) (u32_from_be_bytes [a'; b'; c'; d']).
Proof.
  rewrite !u32_from_be_bytes_4.
  change (cmp [a; b; c; d] [a'; b'; c'; d']) with
    (match Z.compare (Z_of_byte a) (Z_of_byte a') with Eq =>
     match Z.compare (Z_of_byte b) (Z_of_byte b') with Eq =>
     match Z.compare (Z_of_byte c) (Z_of_byte c') with Eq =>
     match Z.compare (Z_of_byte d) (Z_of_byte d') with Eq => Eq | o => o end
     | o => o end | o => o end | o => o end).
  pose proof (Z_of_byte_range a); pose proof (Z_of_byte_range b);
  pose proof (Z_of_byte_range c); pose proof (Z_of_byte_range d);
  pose proof (Z_of_byte_range a'); pose proof (Z_of_byte_range b');
  pose proof (Z_of_byte_range c'); pose proof (Z_of_byte_range d').
  symmetry.
  destruct (Z.compare_spec (Z_of_byte a) (Z_of_byte a')); [|apply Z.compare_lt_iff; lia|apply Z.compare_gt_iff; lia].
  destruct (Z.compare_spec (Z_of_byte b) (Z_of_byte b')); [|apply Z.compare_lt_iff; lia|apply Z.compare_gt_iff; lia].
  destruct (Z.compare_spec (Z_of_byte c) (Z_of_byte c')); [|apply Z.compare_lt_iff; lia|apply Z.compare_gt_iff; lia].
  destruct (Z.compare_spec (Z_of_byte d) (Z_of_byte d'));
    [apply Z.compare_eq_iff; lia|apply Z.compare_lt_iff; lia|apply Z.compare_gt_iff; lia].
Qed.

Lemma cmp_u32_be n m : (0 ≤ n ≤ u32_max)%Z → (0 ≤ m ≤ u32_max)%Z →
  cmp (u32_to_be_bytes n) (u32_to_be_bytes m) = Z.compare n m.
Proof.
  intros Hn Hm. rewrite <-(u32_be_roundtrip n Hn) at 2. rewrite <-(u32_be_roundtrip m Hm) at 2.
  apply cmp_be_bytes.
Qed.

(** ** Prefixes, suffixes and splitting *)
Fixpoint strip_prefix (p s : bytes) : option bytes :=
  match p, s with
  | [], _ => Some s
  | x :: p', y :: s' => if decide (x = y) then strip_prefix p' s' else None
  | _ :: _, [] => None
  end.

Definition starts_with (p s : bytes) : bool :=
  match strip_prefix p s with Some _ => true | None => false end.

Definition strip_suffix (p s : bytes) : option bytes :=
  match strip_prefix (rev p) (rev s) with Some r => Some (rev r) | None => None end.

Lemma strip_prefix_Some p s r : strip_prefix p s = Some r ↔ s = p ++ r.
Proof.
  revert s. induction p as [|x p IH]; intros [|y s]; simpl; [naive_solver..|].
  case_decide; [subst; rewrite IH|]; naive_solver.
Qed.

Lemma strip_prefix_app p r : strip_prefix p (p ++ r) = Some r.
Proof. by apply strip_prefix_Some. Qed.

Lemma starts_with_true p s : starts_with p s = true ↔ ∃ r, s = p ++ r.
Proof.
  unfold starts_with. destruct (strip_prefix p s) as [r|] eqn:E.
  - apply strip_prefix_Some in E. naive_solver.
  - split; [done|]. intros [r ->]. by rewrite strip_prefix_app in E.
Qed.

Lemma strip_suffix_Some p s r : strip_suffix p s = Some r ↔ s = r ++ p.
Proof.
  unfold strip_suffix. destruct (strip_prefix (rev p) (rev s)) as [t|] eqn:E.
  - apply strip_prefix_Some in E. apply (f_equal (@rev byte)) in E.
    rewrite rev_app_distr, !rev_involutive in E. subst s. split.
    + by intros [= <-].
    + intros Hs. f_equal. by apply app_inv_tail in Hs.
  - split; [done|]. intros ->. rewrite rev_app_distr, strip_prefix_app in E. done.
Qed.

(** [str::split_once(c)] for an ASCII delimiter. *)
Fixpoint split_once (c : byte) (s : bytes) : option (bytes * bytes) :=
  match s with
  | [] => None
  | x :: s' => if decide (x = c) then Some ([], s')
               else match split_once c s' with
                    | Some (a, b) => Some (x :: a, b)
                    | None => None
                    end
  end.

Lemma split_once_app c a b : c ∉ a → split_once c (a ++ c :: b) = Some (a, b).
Proof.
  induction a as [|x a IH]; simpl; intros Hc.
  - by rewrite decide_True.
  - rewrite decide_False by (intros ->; apply Hc; left).
    rewrite IH; [done|]. intros ?. apply Hc. by right.
Qed.

Lemma split_once_Some c s a b : split_once c s = Some (a, b) → s = a ++ c :: b ∧ c ∉ a.
Proof.
  revert a. induction s as [|x s IH]; intros a; simpl; [done|].
  case_decide; [intros [= <- <-]; subst; split; [done|apply not_elem_of_nil]|].
  destruct (split_once c s) as [[a' b']|]; [|done]. intros [= <- <-].
  destruct (IH a' eq_refl) as [-> ?]. split; [done|]. rewrite elem_of_cons. naive_solver.
Qed.

(** [str::lines]: cut after every LF, then drop the LF and one CR before it. A last line
    without LF is kept as it is. *)
Definition LF : byte := x0a.
Definition CR : byte := x0d.

Fixpoint split_inclusive (c : byte) (s : bytes) : list bytes :=
  match s with
  | [] => []
  | x :: s' => if decide (x = c) then [x] :: split_inclusive c s'
               else match split_inclusive c s' with
                    | [] => [[x]]
                    | l :: ls => (x :: l) :: ls
                    end
  end.

Definition strip_line_end (l : bytes) : bytes :=
  match strip_suffix [LF] l with
  | None => l
  | Some l' => default l' (strip_suffix [CR] l')
  end.

Definition lines (s : bytes) : list bytes := strip_line_end <$> split_inclusive LF s.

Lemma split_inclusive_app c a s :
  c ∉ a → split_inclusive c (a ++ c :: s) = (a ++ [c]) :: split_inclusive c s.
Proof.
  induction a as [|x a IH]; simpl; intros Hc.
  - by rewrite decide_True.
  - rewrite decide_False by (intros ->; apply Hc; left).
    rewrite IH; [done|]. intros ?. apply Hc. by right.
Qed.

(** A line that holds neither LF nor CR is read back as it was written. *)
Lemma lines_cons a s : LF ∉ a → CR ∉ a → lines (a ++ LF :: s) = a :: lines s.
Proof.
  intros Hlf Hcr. unfold lines. rewrite split_inclusive_app by done. csimpl. f_equal.
  unfold strip_line_end. rewrite (proj2 (strip_suffix_Some [LF] _ a)) by done.
  destruct (strip_suffix [CR] a) as [r|] eqn:E; [|done].
  apply strip_suffix_Some in E. subst a. exfalso. apply Hcr. set_solver.
Qed.
