(* ===== verification/Text.v ===== *)
(** * Text: UTF-8, character classes and decimal numbers

    The part of Rust's [str] and [fmt] the ledger uses: [str::from_utf8], [chars()],
    [char::is_control], the ASCII classes and zero-padded decimal formatting. *)

From Stdlib Require Import ZArith Lia String Strings.Byte.
From stdpp Require Import base list.
From S2P Require Import Prelude BTree Bytes.

Local Open Scope Z_scope.

(** ** UTF-8 *)
Definition in_range (lo x hi : Z) : bool := (lo <=? x) && (x <=? hi).
Definition is_cont (b : byte) : bool := in_range 0x80 (Z_of_byte b) 0xBF.
(** The six payload bits of a continuation byte. *)
Definition cont_bits (b : byte) : Z := Z.land (Z_of_byte b) 0x3F.

(** The bounds [core::str::from_utf8] puts on the second byte of a sequence (no overlong
    forms, no surrogates, nothing above U+10FFFF). *)
Definition second_ok (lead second : Z) : bool :=
  if lead =? 0xE0 then in_range 0xA0 second 0xBF
  else if lead =? 0xED then in_range 0x80 second 0x9F
  else if lead =? 0xF0 then in_range 0x90 second 0xBF
  else if lead =? 0xF4 then in_range 0x80 second 0x8F
  else in_range 0x80 second 0xBF.

(** The first scalar value of a byte string and the bytes after it. *)
Definition utf8_next (bs : bytes) : option (Z * bytes) :=
  match bs with
  | [] => None
  | b0 :: r0 =>
      let x := Z_of_byte b0 in
      if x <? 0x80 then Some (x, r0)
      else if in_range 0xC2 x 0xDF then
        match r0 with
        | b1 :: r1 =>
            if is_cont b1
            then Some (Z.lor (Z.shiftl (Z.land x 0x1F) 6) (cont_bits b1), r1) else None
        | _ => None
        end
      else if in_range 0xE0 x 0xEF then
        match r0 with
        | b1 :: b2 :: r2 =>
            if second_ok x (Z_of_byte b1) && is_cont b2
            then Some (Z.lor (Z.shiftl (Z.land x 0x0F) 12)
                         (Z.lor (Z.shiftl (cont_bits b1) 6) (cont_bits b2)), r2)
            else None
        | _ => None
        end
      else if in_range 0xF0 x 0xF4 then
        match r0 with
        | b1 :: b2 :: b3 :: r3 =>
            if second_ok x (Z_of_byte b1) && is_cont b2 && is_cont b3
            then Some (Z.lor (Z.shiftl (Z.land x 0x07) 18)
                         (Z.lor (Z.shiftl (cont_bits b1) 12)
                            (Z.lor (Z.shiftl (cont_bits b2) 6) (cont_bits b3))), r3)
            else None
        | _ => None
        end
      else None
  end.

Fixpoint utf8_go (fuel : nat) (bs : bytes) : option (list Z) :=
  match bs with
  | [] => Some []
  | _ => match fuel with
         | O => None
         | S fuel => match utf8_next bs with
                     | Some (c, r) => cons c <$> utf8_go fuel r
                     | None => None
                     end
         end
  end.

(** [str::chars]; [None] when the bytes are not UTF-8. Every scalar value takes at least one
    byte, so the length is enough fuel. *)
Definition utf8_decode (bs : bytes) : option (list Z) := utf8_go (length bs) bs.

(** [std::str::from_utf8(bs).is_ok()] *)
Definition utf8_valid (bs : bytes) : bool :=
  match utf8_decode bs with Some _ => true | None => false end.

(** [char::is_control]: the Unicode general category Cc. *)
Definition is_control (c : Z) : bool := in_range 0 c 0x1F || in_range 0x7F c 0x9F.

(** [s.chars().any(char::is_control)] *)
Definition has_control (s : bytes) : bool :=
  match utf8_decode s with Some cs => existsb is_control cs | None => false end.

#[global] Arguments utf8_decode : simpl never.
#[global] Arguments utf8_valid : simpl never.
#[global] Arguments has_control : simpl never.

Lemma utf8_next_app bs c r k : utf8_next bs = Some (c, r) → utf8_next (bs ++ k) = Some (c, r ++ k).
Proof.
  destruct bs as [|b0 r0]; [done|]. simpl.
  destruct (Z_of_byte b0 <? 0x80); [by intros [= <- <-]|].
  destruct (in_range 0xC2 _ 0xDF).
  { destruct r0 as [|b1 r1]; [done|]. simpl. destruct (is_cont b1); [|done].
    by intros [= <- <-]. }
  destruct (in_range 0xE0 _ 0xEF).
  { destruct r0 as [|b1 [|b2 r2]]; [done..|]. simpl. destruct (_ && _); [|done].
    by intros [= <- <-]. }
  destruct (in_range 0xF0 _ 0xF4); [|done].
  destruct r0 as [|b1 [|b2 [|b3 r3]]]; [done..|]. simpl. destruct (_ && _ && _); [|done].
  by intros [= <- <-].
Qed.

Lemma utf8_next_shorter bs c r : utf8_next bs = Some (c, r) → (length r < length bs)%nat.
Proof.
  destruct bs as [|b0 r0]; [done|]. simpl.
  destruct (Z_of_byte b0 <? 0x80); [intros [= <- <-]; lia|].
  destruct (in_range 0xC2 _ 0xDF).
  { destruct r0 as [|b1 r1]; [done|]. destruct (is_cont b1); [|done].
    intros [= <- <-]; simpl; lia. }
  destruct (in_range 0xE0 _ 0xEF).
  { destruct r0 as [|b1 [|b2 r2]]; [done..|]. destruct (_ && _); [|done].
    intros [= <- <-]; simpl; lia. }
  destruct (in_range 0xF0 _ 0xF4); [|done].
  destruct r0 as [|b1 [|b2 [|b3 r3]]]; [done..|]. destruct (_ && _ && _); [|done].
  intros [= <- <-]; simpl; lia.
Qed.

#[global] Arguments utf8_next : simpl never.

Lemma utf8_go_fuel f f' bs cs :
  (f ≤ f')%nat → utf8_go f bs = Some cs → utf8_go f' bs = Some cs.
Proof.
  revert f' bs cs. induction f as [|f IH]; intros f' [|b bs] cs Hf; [by destruct f'|done|by destruct f'|].
  destruct f' as [|f']; [lia|]. simpl.
  destruct (utf8_next (b :: bs)) as [[c r]|]; [|done].
  destruct (utf8_go f r) as [cs'|] eqn:E; [|done]. intros [= <-].
  by rewrite (IH f' r cs' ltac:(lia) E).
Qed.

Lemma utf8_go_app f1 f2 a b ca cb :
  utf8_go f1 a = Some ca → utf8_go f2 b = Some cb → utf8_go (f1 + f2) (a ++ b) = Some (ca ++ cb).
Proof.
  revert a ca. induction f1 as [|f1 IH]; intros [|x a] ca Ha Hb; simpl in Ha; simplify_eq/=.
  - done.
  - apply (utf8_go_fuel f2 (S (f1 + f2)) b cb); [lia|done].
  - change (x :: a ++ b) with ((x :: a) ++ b).
    destruct (utf8_next (x :: a)) as [[c r]|] eqn:E; [|done].
    destruct (utf8_go f1 r) as [cr|] eqn:Er; [|done]. injection Ha as <-.
    rewrite (utf8_next_app _ _ _ b E). by rewrite (IH r cr Er Hb).
Qed.

Lemma utf8_decode_app a b ca cb :
  utf8_decode a = Some ca → utf8_decode b = Some cb → utf8_decode (a ++ b) = Some (ca ++ cb).
Proof. unfold utf8_decode. rewrite length_app. apply utf8_go_app. Qed.

Lemma utf8_valid_app a b : utf8_valid a = true → utf8_valid b = true → utf8_valid (a ++ b) = true.
Proof.
  unfold utf8_valid. destruct (utf8_decode a) eqn:Ha; [|done].
  destruct (utf8_decode b) eqn:Hb; [|done]. by rewrite (utf8_decode_app a b _ _ Ha Hb).
Qed.

(** ** ASCII *)
Definition is_ascii_byte (b : byte) : bool := Z_of_byte b <? 0x80.
Definition is_ascii (s : bytes) : bool := forallb is_ascii_byte s.
Definition is_ascii_digit (b : byte) : bool := in_range 48 (Z_of_byte b) 57.
Definition is_ascii_uppercase (b : byte) : bool := in_range 65 (Z_of_byte b) 90.
Definition is_ascii_lowercase (b : byte) : bool := in_range 97 (Z_of_byte b) 122.
Definition is_ascii_alphanumeric (b : byte) : bool :=
  is_ascii_digit b || is_ascii_uppercase b || is_ascii_lowercase b.
(** [u8::is_ascii_hexdigit]: [0-9A-Fa-f]. *)
Definition is_ascii_hexdigit (b : byte) : bool :=
  is_ascii_digit b || in_range 65 (Z_of_byte b) 70 || in_range 97 (Z_of_byte b) 102.
Definition is_ascii_graphic (b : byte) : bool := in_range 0x21 (Z_of_byte b) 0x7E.

Lemma ascii_decode s : is_ascii s = true → utf8_decode s = Some (Z_of_byte <$> s).
Proof.
  unfold utf8_decode. induction s as [|b s IH]; simpl; [done|].
  intros [Hb Hs]%andb_true_iff. unfold is_ascii_byte in Hb. unfold utf8_next. rewrite Hb.
  by rewrite (IH Hs).
Qed.

Lemma ascii_utf8 s : is_ascii s = true → utf8_valid s = true.
Proof. intros Hs. unfold utf8_valid. by rewrite ascii_decode. Qed.

Lemma is_ascii_app a b : is_ascii (a ++ b) = is_ascii a && is_ascii b.
Proof. apply forallb_app. Qed.

Lemma digit_ascii b : is_ascii_digit b = true → is_ascii_byte b = true.
Proof. unfold is_ascii_digit, is_ascii_byte, in_range. destruct b; vm_compute; congruence. Qed.

(** ** Decimal numbers *)
Definition digit_byte (d : Z) : byte := byte_of_Z (48 + d).
Definition digit_val (b : byte) : Z := Z_of_byte b - 48.

Fixpoint dec_digits (fuel : nat) (n : Z) : bytes :=
  match fuel with
  | O => []
  | S fuel => if n <? 10 then [digit_byte n]
              else dec_digits fuel (n / 10) ++ [digit_byte (n mod 10)]
  end.

(** [n.to_string()] for an unsigned integer: a [k]-bit number has at most [k] digits. *)
Definition dec (n : Z) : bytes := dec_digits (S (Z.to_nat (Z.log2 n))) n.

(** [format!("{:0w$}", n)] for an unsigned integer. *)
Definition pad_dec (w : nat) (n : Z) : bytes :=
  replicate (w - length (dec n)) (digit_byte 0) ++ dec n.

(** The number a digit string denotes. *)
Definition dec_value (s : bytes) : Z := fold_left (λ acc b, acc * 10 + digit_val b) s 0.

#[global] Arguments dec : simpl never.
#[global] Arguments pad_dec : simpl never.
#[global] Arguments dec_value : simpl never.

Lemma digit_byte_val d : 0 ≤ d ≤ 9 → digit_val (digit_byte d) = d.
Proof.
  intros Hd. unfold digit_val, digit_byte. rewrite Z_of_byte_of_Z, Z.mod_small; lia.
Qed.

Lemma digit_byte_digit d : 0 ≤ d ≤ 9 → is_ascii_digit (digit_byte d) = true.
Proof.
  intros Hd. unfold is_ascii_digit, digit_byte, in_range.
  rewrite Z_of_byte_of_Z, Z.mod_small by lia. apply andb_true_iff. lia.
Qed.

Lemma dec_value_app a b :
  dec_value (a ++ b) = dec_value a * 10 ^ Z.of_nat (length b) + dec_value b.
Proof.
  unfold dec_value. rewrite fold_left_app. generalize (fold_left (λ acc x, acc * 10 + digit_val x) a 0).
  induction b as [|x b IH] using rev_ind; intros z; simpl; [lia|].
  rewrite !fold_left_app, IH, length_app. simpl.
  replace (Z.of_nat (length b + 1)) with (Z.succ (Z.of_nat (length b))) by lia.
  rewrite Z.pow_succ_r by lia. lia.
Qed.

Lemma dec_digits_ok f n : 0 ≤ n < 2 ^ Z.of_nat f → (0 < f)%nat →
  dec_value (dec_digits f n) = n ∧ forallb is_ascii_digit (dec_digits f n) = true ∧
  dec_digits f n ≠ [].
Proof.
  revert n. induction f as [|f IH]; intros n Hn Hf; [lia|]. cbn [dec_digits].
  destruct (Z.ltb_spec n 10) as [Hlt|Hge].
  - unfold dec_value; cbn [fold_left]. rewrite digit_byte_val by lia.
    cbn. rewrite digit_byte_digit by lia. split_and!; [lia|done|done].
  - assert (0 ≤ n / 10 < 2 ^ Z.of_nat f) as Hq.
    { replace (Z.of_nat (S f)) with (Z.succ (Z.of_nat f)) in Hn by lia.
      rewrite Z.pow_succ_r in Hn by lia. Z.div_mod_to_equations. lia. }
    destruct f as [|f]; [simpl in Hq; Z.div_mod_to_equations; lia|].
    destruct (IH (n / 10) Hq ltac:(lia)) as (Hv & Hd & Hne).
    rewrite dec_value_app, Hv, forallb_app, Hd. cbn [length].
    pose proof (Z.mod_pos_bound n 10 ltac:(lia)).
    split_and!.
    + unfold dec_value at 1; cbn [fold_left]. rewrite digit_byte_val by lia.
      change (10 ^ Z.of_nat 1) with 10. Z.div_mod_to_equations. lia.
    + cbn. by rewrite digit_byte_digit by lia.
    + by destruct (dec_digits (S f) (n / 10)).
Qed.

Lemma dec_fuel n : 0 ≤ n → 0 ≤ n < 2 ^ Z.of_nat (S (Z.to_nat (Z.log2 n))).
Proof.
  intros Hn. rewrite Nat2Z.inj_succ, Z2Nat.id by apply Z.log2_nonneg.
  destruct (decide (n = 0)) as [->|]; [simpl; lia|].
  pose proof (Z.log2_spec n ltac:(lia)). lia.
Qed.

Lemma dec_value_dec n : 0 ≤ n → dec_value (dec n) = n.
Proof. intros Hn. by apply dec_digits_ok; [apply dec_fuel|lia]. Qed.

Lemma dec_all_digits n : 0 ≤ n → forallb is_ascii_digit (dec n) = true.
Proof. intros Hn. by apply dec_digits_ok; [apply dec_fuel|lia]. Qed.

Lemma dec_digits_length f n w :
  (1 ≤ w)%nat → 0 ≤ n < 10 ^ Z.of_nat w → (length (dec_digits f n) ≤ w)%nat.
Proof.
  revert n w. induction f as [|f IH]; intros n w Hw Hn; simpl; [lia|].
  destruct (Z.ltb_spec n 10) as [Hlt|Hge]; [simpl; lia|].
  rewrite length_app; simpl. destruct w as [|[|w]]; [lia| |].
  - change (10 ^ Z.of_nat 1) with 10 in Hn. lia.
  - replace (Z.of_nat (S (S w))) with (Z.succ (Z.of_nat (S w))) in Hn by lia.
    rewrite Z.pow_succ_r in Hn by lia.
    assert (0 ≤ n / 10 < 10 ^ Z.of_nat (S w)) as Hq by (Z.div_mod_to_equations; lia).
    specialize (IH (n / 10) (S w) ltac:(lia) Hq). lia.
Qed.

Lemma dec_value_zeros k : dec_value (replicate k (digit_byte 0)) = 0.
Proof.
  induction k as [|k IH]; [done|]. change (replicate (S k) (digit_byte 0)) with ([digit_byte 0] ++ replicate k (digit_byte 0)).
  rewrite dec_value_app, IH. done.
Qed.

Lemma dec_value_pad w n : 0 ≤ n → dec_value (pad_dec w n) = n.
Proof.
  intros Hn. unfold pad_dec. rewrite dec_value_app, dec_value_zeros, dec_value_dec by done. lia.
Qed.

Lemma length_pad_dec w n : (1 ≤ w)%nat → 0 ≤ n < 10 ^ Z.of_nat w → length (pad_dec w n) = w.
Proof.
  intros Hw Hn. unfold pad_dec. rewrite length_app, length_replicate.
  pose proof (dec_digits_length (S (Z.to_nat (Z.log2 n))) n w Hw Hn) as Hl.
  unfold dec. lia.
Qed.

Lemma pad_dec_digits w n : 0 ≤ n → forallb is_ascii_digit (pad_dec w n) = true.
Proof.
  intros Hn. unfold pad_dec. rewrite forallb_app, dec_all_digits, andb_true_r by done.
  apply forallb_Forall, Forall_replicate. done.
Qed.

Lemma digits_ascii s : forallb is_ascii_digit s = true → is_ascii s = true.
Proof.
  unfold is_ascii. rewrite !forallb_Forall. intros Hs. eapply Forall_weaken; [exact Hs|].
  intros b. apply digit_ascii.
Qed.

Lemma pad_dec_inj w n m : 0 ≤ n → 0 ≤ m → pad_dec w n = pad_dec w m → n = m.
Proof. intros Hn Hm Heq. rewrite <-(dec_value_pad w n), Heq, dec_value_pad; done. Qed.

(** ** Characters of a string

    [str::chars] with the bytes each character occupies, [str::is_char_boundary], and what
    cutting a string at a boundary leaves. *)
Fixpoint char_go (fuel : nat) (bs : bytes) : option (list (Z * bytes)) :=
  match bs with
  | [] => Some []
  | _ => match fuel with
         | O => None
         | S fuel => match utf8_next bs with
                     | Some (c, r) =>
                         cons (c, take (length bs - length r)%nat bs) <$> char_go fuel r
                     | None => None
                     end
         end
  end.
Definition char_slices (bs : bytes) : option (list (Z * bytes)) := char_go (length bs) bs.

Definition is_char_boundary (s : bytes) (i : nat) : bool :=
  if (i =? 0)%nat then true
  else match s !! i with
       | None => (i =? length s)%nat
       | Some b => negb (is_cont b)
       end.

Section characters.
(** [p] is the encoding of the one character [c]. *)
Definition char_piece (cp : Z * bytes) : Prop :=
  utf8_next cp.2 = Some (cp.1, []) ∧
  ∃ b r, cp.2 = b :: r ∧ Forall (λ x, is_cont x = true) r.

Lemma second_ok_cont lead b : second_ok lead (Z_of_byte b) = true → is_cont b = true.
Proof.
  unfold second_ok, is_cont, in_range. intros Hs.
  repeat match type of Hs with (if ?c then _ else _) = _ => destruct c end; bool_prop;
    apply andb_true_iff; split; apply Z.leb_le; lia.
Qed.

(** The first character as a slice of the string. *)
Lemma utf8_next_piece bs c r : utf8_next bs = Some (c, r) →
  ∃ p, bs = p ++ r ∧ char_piece (c, p).
Proof.
  intros Hn. destruct bs as [|b0 r0]; [done|]. unfold char_piece. cbn [fst snd].
  unfold utf8_next in Hn.
  destruct (Z_of_byte b0 <? 0x80) eqn:E1.
  { injection Hn as <- <-. exists [b0]. split; [done|]. unfold utf8_next. rewrite E1.
    split; [done|]. by exists b0, []. }
  destruct (in_range 0xC2 _ 0xDF) eqn:E2.
  { destruct r0 as [|b1 r1]; [done|]. destruct (is_cont b1) eqn:C1; [|done].
    injection Hn as <- <-. exists [b0; b1]. split; [done|]. unfold utf8_next.
    rewrite E1, E2, C1. split; [done|]. exists b0, [b1]. by repeat constructor. }
  destruct (in_range 0xE0 _ 0xEF) eqn:E3.
  { destruct r0 as [|b1 [|b2 r2]]; [done..|].
    destruct (second_ok _ _ && _) eqn:C; [|done]. injection Hn as <- <-.
    exists [b0; b1; b2]. split; [done|]. unfold utf8_next. rewrite E1, E2, E3, C.
    split; [done|]. bool_prop. exists b0, [b1; b2]. split; [done|].
    repeat constructor; [by eapply second_ok_cont|done]. }
  destruct (in_range 0xF0 _ 0xF4) eqn:E4; [|done].
  destruct r0 as [|b1 [|b2 [|b3 r3]]]; [done..|].
  destruct (second_ok _ _ && _ && _) eqn:C; [|done]. injection Hn as <- <-.
  exists [b0; b1; b2; b3]. split; [done|]. unfold utf8_next. rewrite E1, E2, E3, E4, C.
  split; [done|]. bool_prop. exists b0, [b1; b2; b3]. split; [done|].
  repeat constructor; [by eapply second_ok_cont|done..].
Qed.

Lemma char_piece_next c p k : char_piece (c, p) → utf8_next (p ++ k) = Some (c, k).
Proof. intros [Hn _]. apply (utf8_next_app p c [] k Hn). Qed.

Lemma char_go_sound f bs ps :
  char_go f bs = Some ps → bs = concat ps.*2 ∧ Forall char_piece ps ∧ utf8_go f bs = Some ps.*1.
Proof.
  revert bs ps. induction f as [|f IH]; intros [|b bs] ps; cbn [char_go utf8_go];
    [by intros [= <-]|done|by intros [= <-]|].
  destruct (utf8_next (b :: bs)) as [[c r]|] eqn:En; [|done].
  destruct (char_go f r) as [ps'|] eqn:Eg; [|done]. intros [= <-].
  destruct (IH r ps' Eg) as (Hr & Hps & Hg). destruct (utf8_next_piece _ _ _ En) as (p & Hp & Hc).
  assert (take (S (length bs) - length r)%nat (b :: bs) = p) as Ht.
  { change (S (length bs)) with (length (b :: bs)). rewrite Hp, length_app, Nat.add_sub. apply take_app_length. }
  rewrite Ht, Hg, !fmap_cons. cbn [concat fst snd]. rewrite <-Hr, <-Hp. by split_and!; [|constructor|].
Qed.

Lemma char_go_total f bs cs : utf8_go f bs = Some cs → is_Some (char_go f bs).
Proof.
  revert bs cs. induction f as [|f IH]; intros [|b bs] cs; cbn [char_go utf8_go]; [by eexists|done|by eexists|].
  destruct (utf8_next (b :: bs)) as [[c r]|]; [|done].
  destruct (utf8_go f r) as [cs'|] eqn:Eg; [|done]. intros _.
  destruct (IH r cs' Eg) as [ps ->]. by eexists.
Qed.

(** A UTF-8 string is the concatenation of its characters. *)
Lemma char_slices_valid s : utf8_valid s = true →
  ∃ ps, char_slices s = Some ps ∧ s = concat ps.*2 ∧ Forall char_piece ps.
Proof.
  unfold utf8_valid, utf8_decode, char_slices. destruct (utf8_go (length s) s) as [cs|] eqn:E; [|done].
  intros _. destruct (char_go_total _ _ _ E) as [ps Hps]. exists ps.
  destruct (char_go_sound _ _ _ Hps) as (? & ? & _). done.
Qed.

Lemma pieces_go ps f : Forall char_piece ps → (length (concat ps.*2) ≤ f)%nat →
  char_go f (concat ps.*2) = Some ps ∧ utf8_go f (concat ps.*2) = Some ps.*1.
Proof.
  revert f. induction ps as [|[c p] ps IH]; intros f Hps Hf; [by destruct f|].
  apply Forall_cons in Hps as [Hp Hps]. rewrite fmap_cons in *. cbn [concat snd] in *.
  rewrite length_app in Hf. pose proof (char_piece_next c p (concat ps.*2) Hp) as Hn.
  pose proof Hp as [_ (b & r & Hb & _)]. cbn [snd] in Hb. subst p.
  destruct f as [|f]; [simpl in Hf; lia|].
  change ((b :: r) ++ concat ps.*2) with (b :: (r ++ concat ps.*2)) in *. cbn [char_go utf8_go].
  rewrite Hn. destruct (IH f Hps ltac:(simpl in Hf; lia)) as [-> ->]. split; [|done].
  cbn [fmap option_fmap option_map]. do 3 f_equal.
  change (b :: (r ++ concat ps.*2)) with ((b :: r) ++ concat ps.*2).
  rewrite length_app, Nat.add_sub. apply take_app_length.
Qed.

Lemma pieces_decode ps : Forall char_piece ps →
  char_slices (concat ps.*2) = Some ps ∧ utf8_decode (concat ps.*2) = Some ps.*1.
Proof. intros. by apply pieces_go. Qed.

Lemma pieces_valid ps : Forall char_piece ps → utf8_valid (concat ps.*2) = true.
Proof. intros Hps. unfold utf8_valid. by rewrite (proj2 (pieces_decode ps Hps)). Qed.

Lemma pieces_control ps : Forall char_piece ps →
  has_control (concat ps.*2) = existsb is_control ps.*1.
Proof. intros Hps. unfold has_control. by rewrite (proj2 (pieces_decode ps Hps)). Qed.

(** A boundary falls between two characters. *)
Lemma boundary_split ps i : Forall char_piece ps → (i ≤ length (concat ps.*2))%nat →
  is_char_boundary (concat ps.*2) i = true →
  ∃ k, take i (concat ps.*2) = concat (take k ps).*2.
Proof.
  revert i. induction ps as [|[c p] ps IH]; intros i Hps Hi Hb.
  { exists 0%nat. by destruct i. }
  apply Forall_cons in Hps as [Hp Hps]. rewrite fmap_cons in *. cbn [concat snd] in *.
  rewrite length_app in Hi. pose proof Hp as [_ (b & r & Hbr & Hr)]. cbn [snd] in Hbr.
  destruct (decide (i = 0%nat)) as [->|Hi0]; [by exists 0%nat|].
  destruct (decide (i < length p)%nat) as [Hlt|Hge].
  - exfalso. unfold is_char_boundary in Hb. rewrite (proj2 (Nat.eqb_neq _ _) Hi0) in Hb.
    rewrite lookup_app_l in Hb by done. subst p. destruct i as [|i]; [done|].
    change ((b :: r) !! S i) with (r !! i) in Hb. simpl in Hlt.
    destruct (lookup_lt_is_Some_2 r i ltac:(lia)) as [x Hx]. rewrite Hx in Hb.
    rewrite Forall_forall in Hr. rewrite (Hr x) in Hb by (by eapply list_elem_of_lookup_2). done.
  - destruct (IH (i - length p)%nat Hps ltac:(lia)) as (k & Hk).
    + unfold is_char_boundary in Hb |- *. rewrite (proj2 (Nat.eqb_neq _ _) Hi0) in Hb.
      rewrite lookup_app_r, length_app in Hb by lia.
      destruct (Nat.eqb_spec (i - length p) 0); [done|].
      destruct (concat ps.*2 !! (i - length p)%nat); [done|]. apply Nat.eqb_eq in Hb.
      apply Nat.eqb_eq. lia.
    + exists (S k). rewrite take_app_ge by lia. rewrite Hk. done.
Qed.

Lemma boundary_full s : is_char_boundary s (length s) = true.
Proof.
  unfold is_char_boundary. destruct (length s =? 0)%nat; [done|].
  rewrite lookup_ge_None_2 by done. by apply Nat.eqb_eq.
Qed.
End characters.

(** ** Canonical decimal strings *)
Section canonical_decimal.
Lemma dec_digits_fuel f g n : 0 ≤ n < 2 ^ Z.of_nat f → 0 ≤ n < 2 ^ Z.of_nat g →
  (0 < f)%nat → (0 < g)%nat → dec_digits f n = dec_digits g n.
Proof.
  revert g n. induction f as [|f IH]; intros [|g] n Hf Hg ? ?; [lia..|]. cbn [dec_digits].
  destruct (Z.ltb_spec n 10); [done|]. f_equal.
  rewrite Nat2Z.inj_succ, Z.pow_succ_r in Hf, Hg by lia.
  destruct f as [|f]; [simpl in Hf; lia|]. destruct g as [|g]; [simpl in Hg; lia|].
  apply IH; try lia; Z.div_mod_to_equations; lia.
Qed.

Lemma dec_small n : 0 ≤ n < 10 → dec n = [digit_byte n].
Proof. intros Hn. unfold dec. cbn [dec_digits]. by rewrite (proj2 (Z.ltb_lt n 10)) by lia. Qed.

Lemma dec_step n d : 1 ≤ n → 0 ≤ d < 10 → dec (n * 10 + d) = dec n ++ [digit_byte d].
Proof.
  intros Hn Hd. unfold dec at 1. cbn [dec_digits].
  rewrite (proj2 (Z.ltb_ge (n * 10 + d) 10)) by lia.
  replace ((n * 10 + d) / 10) with n by (Z.div_mod_to_equations; lia).
  replace ((n * 10 + d) mod 10) with d by (Z.div_mod_to_equations; lia).
  f_equal. assert (2 * n ≤ n * 10 + d) as Hle by lia.
  assert (0 < Z.log2 (n * 10 + d)) as Hlog.
  { pose proof (Z.log2_le_mono (2 * n) (n * 10 + d) Hle). rewrite Z.log2_double in H by lia.
    pose proof (Z.log2_nonneg n). lia. }
  apply dec_digits_fuel; [|by apply dec_fuel; lia|lia|lia].
  rewrite Z2Nat.id by lia. split; [lia|].
  pose proof (Z.log2_spec (n * 10 + d) ltac:(lia)) as [_ Hs].
  rewrite Z.pow_succ_r in Hs by lia. lia.
Qed.

Lemma digit_val_byte b : is_ascii_digit b = true →
  0 ≤ digit_val b < 10 ∧ digit_byte (digit_val b) = b.
Proof. destruct b; intros H; try discriminate H; by vm_compute. Qed.

Lemma dec_value_nonneg s : forallb is_ascii_digit s = true → 0 ≤ dec_value s.
Proof.
  induction s as [|b s IH] using rev_ind; [done|]. rewrite forallb_app. intros [Hs Hb]%andb_true_iff.
  rewrite dec_value_app. cbn in Hb. rewrite andb_true_r in Hb. apply digit_val_byte in Hb as [? _].
  specialize (IH Hs). cbn [length]. change (10 ^ Z.of_nat 1) with 10.
  unfold dec_value at 2. cbn [fold_left]. lia.
Qed.

(** A non-empty digit string without a superfluous zero prints back as itself. *)
Lemma dec_canonical s : s ≠ [] → forallb is_ascii_digit s = true →
  (∀ r, s = digit_byte 0 :: r → r = []) →
  dec (dec_value s) = s ∧ (s ≠ [digit_byte 0] → 1 ≤ dec_value s).
Proof.
  induction s as [|b s IH] using rev_ind; [done|]. intros _ Hd Hz.
  rewrite forallb_app in Hd. apply andb_true_iff in Hd as [Hs Hb].
  cbn in Hb. rewrite andb_true_r in Hb. apply digit_val_byte in Hb as [Hr Hb].
  rewrite dec_value_app. cbn [length]. change (10 ^ Z.of_nat 1) with 10.
  unfold dec_value at 2 4. cbn [fold_left]. rewrite Z.mul_0_l, Z.add_0_l.
  destruct (decide (s = [])) as [->|Hne].
  - unfold dec_value. cbn [fold_left]. rewrite Z.mul_0_l, Z.add_0_l, dec_small by lia.
    cbn [app]. split; [by rewrite Hb|]. intros Hn. destruct (decide (digit_val b = 0)) as [H0|]; [|lia].
    exfalso. apply Hn. by rewrite <-Hb, H0.
  - assert (∀ r, s = digit_byte 0 :: r → r = []) as Hz'.
    { intros r ->. specialize (Hz (r ++ [b]) eq_refl). by destruct r. }
    destruct (IH Hne Hs Hz') as [IH1 IH2].
    assert (s ≠ [digit_byte 0]) as Hs0.
    { intros ->. by specialize (Hz [b] eq_refl). }
    specialize (IH2 Hs0). rewrite dec_step, IH1, Hb by lia. split; [done|]. intros _. lia.
Qed.

Lemma dec_no_zero n r : 0 ≤ n → dec n = digit_byte 0 :: r → r = [].
Proof.
  intros Hn. destruct (decide (n < 10)) as [Hlt|Hge].
  { rewrite dec_small by lia. by intros [= _ <-]. }
  revert r Hn Hge. induction n as [n IH] using (well_founded_induction (Z.lt_wf 0)).
  intros r Hn Hge.
  assert (1 ≤ n / 10 < n ∧ 0 ≤ n mod 10 < 10 ∧ n = n / 10 * 10 + n mod 10) as (Hq & Hm & Heq)
    by (Z.div_mod_to_equations; lia).
  rewrite Heq, dec_step by lia. generalize dependent (n / 10). intros q Hq Heq.
  destruct (decide (q < 10)) as [Hs|Hs].
  - rewrite dec_small by lia. cbn [app]. intros [= H0 _]. exfalso.
    apply (f_equal digit_val) in H0. rewrite !digit_byte_val in H0 by lia. lia.
  - pose proof (dec_value_dec q ltac:(lia)) as Hv. destruct (dec q) as [|x l] eqn:E.
    { change (0 = q) in Hv. lia. }
    cbn [app]. intros [= -> Hr]. rewrite (IH q ltac:(lia) l ltac:(lia) Hs E) in Hv.
    change (0 = q) in Hv. lia.
Qed.
End canonical_decimal.
