(* ===== verification/Core.v ===== *)
(** * Protocol core: errors, content identifiers, wire fields and the v1 commit envelope

    Source: [crates/ledger-core/src/lib.rs]. *)

From Stdlib Require Import ZArith Lia String Strings.Byte.
From stdpp Require Import base gmap countable list.
From S2P Require Import Prelude BTree Bytes Text.

Local Open Scope ledger_scope.

(** ** Content identifiers *)

(** [struct ContentId(String)] *)
Record ContentId := mkContentId { cid_str : bytes }.

#[export] Instance ContentId_eq_dec : EqDecision ContentId.
Proof. solve_decision. Defined.
#[export] Program Instance ContentId_countable : Countable ContentId :=
  inj_countable cid_str (λ s, Some (mkContentId s)) _.
Next Obligation. by intros []. Qed.
#[export] Instance ContentId_ord : Ord ContentId.
Proof. apply (ord_via cid_str). intros [x] [y]; simpl; congruence. Defined.

(** [typed_id!(PatchId)], [typed_id!(CommitId)] *)
Record PatchId := mkPatchId { patch_cid : ContentId }.
Record CommitId := mkCommitId { commit_cid : ContentId }.

#[export] Instance PatchId_eq_dec : EqDecision PatchId.
Proof. solve_decision. Defined.
#[export] Instance CommitId_eq_dec : EqDecision CommitId.
Proof. solve_decision. Defined.
#[export] Program Instance CommitId_countable : Countable CommitId :=
  inj_countable commit_cid (λ c, Some (mkCommitId c)) _.
Next Obligation. by intros []. Qed.
#[export] Instance CommitId_ord : Ord CommitId.
Proof. apply (ord_via commit_cid). intros [x] [y]; simpl; congruence. Defined.

(** ** Errors

    [enum LedgerError], constructor by constructor. A [String] that carries a value
    (an identifier, a header) is kept as bytes; a [String] that is human-readable prose is a
    [string] holding the fixed text of the message. *)
Inductive LedgerError :=
  | InvalidContentId (value : bytes)
  | NotFound (id : ContentId)
  | MissingParent (id : CommitId)
  | MissingPatch (id : PatchId)
  | MissingTarget (id : CommitId)
  | HeadChanged (expected actual : option CommitId)
  | ObjectCollision (id : ContentId)
  | CorruptObject (id : ContentId) (reason : string)
  | InvalidCommit (reason : string)
  | UnknownCommitVersion (header : bytes)
  | InvalidIdentifier (field reason : string)
  | InvalidTimestamp (reason : string)
  | GraphBindingConflict (commit : CommitId) (indexed requested : bytes)
  | CrossGraphParent (parent : CommitId) (parent_graph graph : bytes)
  | InvalidPatch (id : PatchId) (reason : string)
  | MigrationSourceMoved (before after : option CommitId)
  | LineageMismatch (reason : string)
  | IdempotencyConflict
  | GraphNotActive (graph status : bytes)
  | BaseMismatch (quad : bytes)
  | NoEffectiveChange
  | ResourceLimit (reason : string)
  | DependencyUnavailable (reason : string)
  | DependencyTimeout (reason : string)
  | SchemaIncompatible (reason : string)
  | RuntimeIdentity (reason : string)
  | ValidationRequired
  | ValidationRejected
  | ValidationStale (reason : string)
  | ValidationNotFound
  | ValidatorUnavailable (reason : string)
  | ValidatorError (reason : string)
  | InvalidValidation (reason : string)
  | BranchNotFound (branch : bytes)
  | BranchExists (branch : bytes)
  | BranchDeleted (branch : bytes)
  | BranchPointUnreachable
  | BranchPolicyViolation (reason : string)
  | BranchStateConflict (reason : string)
  | MergeStale (reason : string)
  | MergeConflict (keys : nat)
  | MergeNothingToDo (reason : string)
  | InvalidMergeBase (reason : string)
  | GraphAlreadyExists (graph : bytes)
  | UnknownGraph (graph : bytes)
  | Storage (reason : string).

#[export] Instance LedgerError_eq_dec : EqDecision LedgerError.
Proof. solve_decision. Defined.

Abbreviation lresult := (result LedgerError).

(** ** SHA-256

    The digest is code of the [sha2] and [hex] crates: [sha256_hex bs] stands for
    [hex::encode(Sha256::digest(bs))]. What the ledger relies on is documented: a digest is
    32 bytes and prints as 64 lowercase hexadecimal digits. No theorem assumes that the
    function is injective. *)
Class Sha256 := sha256_hex : bytes → bytes.

Definition is_lower_hex (b : byte) : bool := is_ascii_hexdigit b && negb (is_ascii_uppercase b).

Class Sha256Ok `{Sha256} : Prop := {
  sha256_len bs : length (sha256_hex bs) = 64;
  sha256_hex_digits bs : forallb is_lower_hex (sha256_hex bs) = true
}.

(** [ContentId::for_bytes] *)
Definition for_bytes `{Sha256} (bs : bytes) : ContentId :=
  mkContentId (B "sha256:" ++ sha256_hex bs).

(** [ContentId::digest_hex] *)
Definition digest_hex (id : ContentId) : bytes := drop 7 (cid_str id).

(** [<ContentId as FromStr>::from_str] *)
Definition content_id_from_str (value : bytes) : lresult ContentId :=
  match strip_prefix (B "sha256:") value with
  | None => Err (InvalidContentId value)
  | Some hex_part =>
      if negb (length hex_part =? 64) || negb (forallb is_lower_hex hex_part)
      then Err (InvalidContentId value)
      else Ok (mkContentId value)
  end.

Definition patch_id_from_str (v : bytes) : lresult PatchId :=
  id ← content_id_from_str v; Ok (mkPatchId id).

Definition commit_id_from_str (v : bytes) : lresult CommitId :=
  id ← content_id_from_str v; Ok (mkCommitId id).

(** [Display] of the identifiers. *)
Definition patch_id_str (id : PatchId) : bytes := cid_str (patch_cid id).
Definition commit_id_str (id : CommitId) : bytes := cid_str (commit_cid id).

(** The invariant of the private field: [sha256:] and 64 lowercase hex digits. *)
Definition cid_wf (id : ContentId) : Prop := content_id_from_str (cid_str id) = Ok id.

#[export] Instance cid_wf_dec id : Decision (cid_wf id).
Proof. unfold cid_wf. apply _. Defined.

(** ** Wire fields: a big-endian [u32] length, then UTF-8 bytes *)
Definition encode_field (out field : bytes) : lresult bytes :=
  if (Z.of_nat (length field) <=? u32_max)%Z
  then Ok (out ++ u32_to_be_bytes (Z.of_nat (length field)) ++ field)
  else Err (InvalidCommit "field exceeds u32").

(** [read_field]: the value and the bytes left in the slice. *)
Definition read_field (rest : bytes) : lresult (bytes * bytes) :=
  if length rest <? 4 then Err (InvalidCommit "truncated length")
  else
    let len := Z.to_nat (u32_from_be_bytes (take 4 rest)) in
    let rest := drop 4 rest in
    if length rest <? len then Err (InvalidCommit "truncated field")
    else
      let value := take len rest in
      if utf8_valid value then Ok (value, drop len rest)
      else Err (InvalidCommit "non-UTF-8 field").

(** ** The v1 commit envelope *)
Record Commit := mkCommit {
  parents : list CommitId;
  patch : PatchId;
  author : bytes;
  message : bytes;
  event_time : bytes;
  recorded_time : bytes
}.

#[export] Instance Commit_eq_dec : EqDecision Commit.
Proof. solve_decision. Defined.

Definition COMMIT_V1_HEADER : bytes := B "sculpin-commit-v1" ++ [x00].

(** Two parents must be distinct ([parents[0] == parents[1]] is refused). *)
Definition same_parents (ps : list CommitId) : bool :=
  match ps with [p; q] => bool_decide (p = q) | _ => false end.

Definition validate_shape (c : Commit) : lresult unit :=
  if 2 <? length (parents c) then
    Err (InvalidCommit "protocol v1 permits at most two parents")
  else if same_parents (parents c) then
    Err (InvalidCommit "merge parents must be distinct")
  else Ok tt.

(** [for field in fields { encode_field(&mut out, field)? }] *)
Fixpoint encode_fields (out : bytes) (fields : list bytes) : lresult bytes :=
  match fields with
  | [] => Ok out
  | f :: fields => out ← encode_field out f; encode_fields out fields
  end.

(** [Commit::canonical_bytes] *)
Definition commit_canonical_bytes (c : Commit) : lresult bytes :=
  validate_shape c ;;
  let fields := [patch_id_str (patch c); author c; message c; event_time c; recorded_time c] in
  let out := COMMIT_V1_HEADER ++ u32_to_be_bytes (Z.of_nat (length (parents c))) in
  out ← encode_fields out (commit_id_str <$> parents c);
  encode_fields out fields.

(** [Commit::id] *)
Definition commit_id `{Sha256} (c : Commit) : lresult CommitId :=
  bs ← commit_canonical_bytes c; Ok (mkCommitId (for_bytes bs)).

(** [for _ in 0..n { parents.push(read_field(&mut rest)?.parse()?) }] *)
Fixpoint read_commit_ids (n : nat) (rest : bytes) : lresult (list CommitId * bytes) :=
  match n with
  | O => Ok ([], rest)
  | S n =>
      '(v, rest) ← read_field rest;
      p ← commit_id_from_str v;
      '(ps, rest) ← read_commit_ids n rest;
      Ok (p :: ps, rest)
  end.

Fixpoint read_fields (n : nat) (rest : bytes) : lresult (list bytes * bytes) :=
  match n with
  | O => Ok ([], rest)
  | S n =>
      '(v, rest) ← read_field rest;
      '(vs, rest) ← read_fields n rest;
      Ok (v :: vs, rest)
  end.

(** [Commit::from_canonical_bytes] *)
Definition commit_from_canonical_bytes (bs : bytes) : lresult Commit :=
  rest ← ok_or (strip_prefix COMMIT_V1_HEADER bs) (InvalidCommit "unknown header");
  if length rest <? 4 then Err (InvalidCommit "truncated parent count")
  else
    let parent_count := Z.to_nat (u32_from_be_bytes (take 4 rest)) in
    let rest := drop 4 rest in
    if 2 <? parent_count then
      Err (InvalidCommit "protocol v1 permits at most two parents")
    else
      '(ps, rest) ← read_commit_ids parent_count rest;
      if same_parents ps then Err (InvalidCommit "merge parents must be distinct")
      else
        '(values, rest) ← read_fields 5 rest;
        if negb (bool_decide (rest = [])) then Err (InvalidCommit "trailing bytes")
        else match values with
             | [v0; v1; v2; v3; v4] =>
                 p ← patch_id_from_str v0;
                 Ok (mkCommit ps p v1 v2 v3 v4)
             | _ => Panic "index out of bounds"
             end.

#[global] Arguments encode_field : simpl never.
#[global] Arguments read_field : simpl never.
#[global] Arguments content_id_from_str : simpl never.
#[global] Arguments commit_id_from_str : simpl never.
#[global] Arguments patch_id_from_str : simpl never.
#[global] Arguments strip_prefix : simpl never.
#[global] Arguments COMMIT_V1_HEADER : simpl never.

(** ** Facts about identifiers *)
Section identifiers.
Lemma content_id_from_str_Ok v id :
  content_id_from_str v = Ok id ↔
    id = mkContentId v ∧ ∃ h, v = B "sha256:" ++ h ∧ length h = 64 ∧ forallb is_lower_hex h = true.
Proof.
  unfold content_id_from_str. destruct (strip_prefix (B "sha256:") v) as [h|] eqn:E.
  - apply strip_prefix_Some in E.
    destruct (Nat.eqb_spec (length h) 64) as [Hl|Hl]; cbn [negb orb];
      [destruct (forallb _ h) eqn:Hh; cbn [negb orb]|].
    + split; [|by intros [-> _]]. intros [= <-]. split; [done|]. by exists h.
    + split; [done|]. intros [_ (h' & -> & _ & Hh')]. apply app_inv_head in E. congruence.
    + split; [done|]. intros [_ (h' & -> & Hh' & _)]. apply app_inv_head in E. congruence.
  - split; [done|]. intros [_ (h & -> & _)]. by rewrite strip_prefix_app in E.
Qed.

Lemma content_id_from_str_wf v id : content_id_from_str v = Ok id → v = cid_str id ∧ cid_wf id.
Proof.
  intros Hv. pose proof Hv as [-> _]%content_id_from_str_Ok. done.
Qed.

Lemma content_id_exact v id : content_id_from_str v = Ok id ↔ v = cid_str id ∧ cid_wf id.
Proof. split; [apply content_id_from_str_wf|by intros [-> ?]]. Qed.

Lemma for_bytes_wf `{Sha256Ok} bs : cid_wf (for_bytes bs).
Proof.
  apply content_id_from_str_Ok. split; [done|]. exists (sha256_hex bs).
  split_and!; [done|apply sha256_len|apply sha256_hex_digits].
Qed.

Lemma lower_hex_ascii b : is_lower_hex b = true → is_ascii_byte b = true.
Proof. destruct b; vm_compute; congruence. Qed.

Lemma cid_wf_length id : cid_wf id → length (cid_str id) = 71.
Proof.
  intros [_ (h & -> & Hl & _)]%content_id_from_str_Ok. rewrite length_app, Hl. done.
Qed.

Lemma cid_wf_ascii id : cid_wf id → is_ascii (cid_str id) = true.
Proof.
  intros [_ (h & -> & _ & Hh)]%content_id_from_str_Ok. rewrite is_ascii_app.
  apply andb_true_iff. split; [done|]. unfold is_ascii. rewrite forallb_Forall in Hh |- *.
  eapply Forall_weaken; [exact Hh|]. intros b. apply lower_hex_ascii.
Qed.

Lemma cid_wf_utf8 id : cid_wf id → utf8_valid (cid_str id) = true.
Proof. intros. by apply ascii_utf8, cid_wf_ascii. Qed.
End identifiers.

(** ** Facts about wire fields *)
Section wire.
(** What a length-prefixed field looks like on the wire, and which strings can be one. *)
Definition wire_field (v : bytes) : bytes := u32_to_be_bytes (Z.of_nat (length v)) ++ v.
#[global] Arguments wire_field : simpl never.
Definition wire_fields (vs : list bytes) : bytes := concat (map wire_field vs).
#[global] Arguments wire_fields : simpl never.
Definition fits_u32 (v : bytes) : Prop := (Z.of_nat (length v) ≤ u32_max)%Z.
Definition wire_ok (v : bytes) : Prop := fits_u32 v ∧ utf8_valid v = true.

Lemma wire_fields_nil : wire_fields [] = [].
Proof. done. Qed.
Lemma wire_fields_cons v vs : wire_fields (v :: vs) = wire_field v ++ wire_fields vs.
Proof. done. Qed.

Lemma encode_field_Ok out v out' :
  encode_field out v = Ok out' ↔ fits_u32 v ∧ out' = out ++ wire_field v.
Proof.
  unfold encode_field, fits_u32, wire_field.
  destruct (Z.leb_spec (Z.of_nat (length v)) u32_max); naive_solver lia.
Qed.

Lemma encode_fields_Ok out vs out' :
  encode_fields out vs = Ok out' ↔
    Forall fits_u32 vs ∧ out' = out ++ wire_fields vs.
Proof.
  revert out. induction vs as [|v vs IH]; intros out; cbn [encode_fields].
  { rewrite wire_fields_nil, app_nil_r, Forall_nil. naive_solver. }
  rewrite bind_Ok, Forall_cons, wire_fields_cons. setoid_rewrite encode_field_Ok. setoid_rewrite IH.
  split.
  - intros (? & [? ->] & [? ->]). by rewrite <-app_assoc.
  - intros [[??] ->]. eexists. split; [by split|]. split; [done|]. by rewrite <-app_assoc.
Qed.

Lemma encode_field_fits out v : fits_u32 v → encode_field out v = Ok (out ++ wire_field v).
Proof. intros. by apply encode_field_Ok. Qed.

Lemma encode_fields_fit out vs :
  Forall fits_u32 vs → encode_fields out vs = Ok (out ++ wire_fields vs).
Proof. intros. by apply encode_fields_Ok. Qed.

Lemma read_field_app v rest : wire_ok v → read_field (wire_field v ++ rest) = Ok (v, rest).
Proof.
  intros [Hl Hu]. unfold fits_u32 in Hl. unfold read_field, wire_field.
  rewrite !length_app, length_u32_to_be_bytes.
  destruct (Nat.ltb_spec (4 + length v + length rest) 4); [lia|].
  rewrite <-app_assoc, take_app_length' by done. rewrite drop_app_length' by done.
  rewrite u32_be_roundtrip by lia. rewrite Nat2Z.id, length_app.
  destruct (Nat.ltb_spec (length v + length rest) (length v)); [lia|].
  by rewrite take_app_length, Hu, drop_app_length.
Qed.

Lemma read_field_Ok inp v rest :
  read_field inp = Ok (v, rest) ↔ wire_ok v ∧ inp = wire_field v ++ rest.
Proof.
  split; [|intros [Hv ->]; by apply read_field_app].
  unfold read_field. destruct (Nat.ltb_spec (length inp) 4) as [|Hlen]; [done|].
  set (n := u32_from_be_bytes (take 4 inp)).
  assert (length (take 4 inp) = 4) as H4 by (rewrite length_take; lia).
  pose proof (u32_from_be_range _ H4) as Hn. fold n in Hn.
  destruct (Nat.ltb_spec (length (drop 4 inp)) (Z.to_nat n)) as [|Hrest]; [done|].
  destruct (utf8_valid (take (Z.to_nat n) (drop 4 inp))) eqn:Hu; [|done]. intros [= <- <-].
  assert (length (take (Z.to_nat n) (drop 4 inp)) = Z.to_nat n) as Hv by (rewrite length_take; lia).
  split; [split; [unfold fits_u32; rewrite Hv; lia|done]|].
  unfold wire_field. rewrite Hv, Z2Nat.id by lia. unfold n.
  rewrite u32_to_from_be by done. by rewrite <-app_assoc, take_drop, take_drop.
Qed.

Lemma wire_field_inj v w r1 r2 :
  fits_u32 v → fits_u32 w → wire_field v ++ r1 = wire_field w ++ r2 → v = w ∧ r1 = r2.
Proof.
  unfold wire_field, fits_u32. intros Hv Hw. rewrite <-!app_assoc. intros Heq.
  apply app_eq_length in Heq as [Hlen Heq]; [|done].
  apply (f_equal u32_from_be_bytes) in Hlen. rewrite !u32_be_roundtrip in Hlen by lia.
  apply app_eq_length; [lia|done].
Qed.

Lemma read_fields_Ok n inp vs rest :
  read_fields n inp = Ok (vs, rest) ↔
    length vs = n ∧ Forall wire_ok vs ∧ inp = wire_fields vs ++ rest.
Proof.
  revert inp vs rest. induction n as [|n IH]; intros inp vs rest; simpl.
  { split; [by intros [= <- <-]|]. intros (Hl & _ & ->). by destruct vs. }
  split.
  - intros Hr. inv_res. destruct a as [v r]. inv_res. destruct a as [vs' r'].
    apply read_field_Ok in E as [Hv ->]. apply IH in E0 as (Hl & Hvs & ->). inv_res.
    rewrite wire_fields_cons, <-app_assoc. split_and!; [simpl; lia|by constructor|done].
  - intros (Hl & Hvs & ->). destruct vs as [|v vs]; [done|]. rewrite wire_fields_cons.
    apply Forall_cons in Hvs as [Hv Hvs]. rewrite <-app_assoc, read_field_app by done. simpl.
    rewrite (proj2 (IH (wire_fields vs ++ rest) vs rest)); [done|].
    simpl in Hl. split_and!; [lia|done|done].
Qed.

Lemma cid_wf_wire_ok id : cid_wf id → wire_ok (cid_str id).
Proof.
  intros Hid. split; [|by apply cid_wf_utf8].
  unfold fits_u32. rewrite cid_wf_length by done. done.
Qed.

Definition commit_id_wf (id : CommitId) : Prop := cid_wf (commit_cid id).
Definition patch_id_wf (id : PatchId) : Prop := cid_wf (patch_cid id).

Lemma commit_id_from_str_Ok v id :
  commit_id_from_str v = Ok id ↔ v = commit_id_str id ∧ commit_id_wf id.
Proof.
  unfold commit_id_from_str. rewrite bind_Ok. split.
  - intros (i & [-> ?]%content_id_from_str_wf & [= <-]). done.
  - intros [-> ?]. exists (commit_cid id). split; [done|]. by destruct id.
Qed.

Lemma patch_id_from_str_Ok v id :
  patch_id_from_str v = Ok id ↔ v = patch_id_str id ∧ patch_id_wf id.
Proof.
  unfold patch_id_from_str. rewrite bind_Ok. split.
  - intros (i & [-> ?]%content_id_from_str_wf & [= <-]). done.
  - intros [-> ?]. exists (patch_cid id). split; [done|]. by destruct id.
Qed.

Lemma read_commit_ids_Ok n inp ps rest :
  read_commit_ids n inp = Ok (ps, rest) ↔
    length ps = n ∧ Forall commit_id_wf ps ∧
    inp = wire_fields (commit_id_str <$> ps) ++ rest.
Proof.
  revert inp ps rest. induction n as [|n IH]; intros inp ps rest; simpl.
  { split; [by intros [= <- <-]|]. intros (Hl & _ & ->). by destruct ps. }
  split.
  - intros Hr. inv_res. destruct a as [v r]. inv_res. destruct a0 as [ps' r'].
    apply read_field_Ok in E as [Hv ->]. apply commit_id_from_str_Ok in E0 as [-> Hwf].
    apply IH in E1 as (Hl & Hps & ->). inv_res.
    rewrite fmap_cons, wire_fields_cons, <-app_assoc.
    split_and!; [simpl; lia|by constructor|done].
  - intros (Hl & Hps & ->). destruct ps as [|p ps]; [done|].
    rewrite fmap_cons, wire_fields_cons.
    apply Forall_cons in Hps as [Hp Hps].
    rewrite <-app_assoc, read_field_app by (by apply cid_wf_wire_ok). simpl.
    rewrite (proj2 (commit_id_from_str_Ok _ p)) by done. simpl.
    rewrite (proj2 (IH (wire_fields (commit_id_str <$> ps) ++ rest) ps rest)); [done|].
    simpl in Hl. split_and!; [lia|done|done].
Qed.
End wire.

(** ** The v1 codec *)
Section commit_v1.
(** The invariants the field types carry: identifiers are well formed, strings are UTF-8. *)
Definition commit_wf (c : Commit) : Prop :=
  Forall commit_id_wf (parents c) ∧ patch_id_wf (patch c) ∧
  utf8_valid (author c) = true ∧ utf8_valid (message c) = true ∧
  utf8_valid (event_time c) = true ∧ utf8_valid (recorded_time c) = true.

(** The bytes after the header. *)
Definition commit_body (c : Commit) : bytes :=
  u32_to_be_bytes (Z.of_nat (length (parents c))) ++
  wire_fields (commit_id_str <$> parents c) ++
  wire_fields [patch_id_str (patch c); author c; message c; event_time c; recorded_time c].

Definition shape_ok (ps : list CommitId) : Prop := length ps ≤ 2 ∧ same_parents ps = false.

Lemma validate_shape_Ok c u : validate_shape c = Ok u ↔ shape_ok (parents c).
Proof.
  unfold validate_shape, shape_ok. destruct u.
  destruct (Nat.ltb_spec 2 (length (parents c))), (same_parents (parents c)); naive_solver lia.
Qed.

Lemma commit_ids_fit ps : Forall commit_id_wf ps → Forall fits_u32 (commit_id_str <$> ps).
Proof.
  intros Hps. apply Forall_fmap. eapply Forall_weaken; [exact Hps|].
  intros p Hp. by apply cid_wf_wire_ok.
Qed.

Lemma commit_canonical_bytes_Ok c bs :
  commit_canonical_bytes c = Ok bs ↔
    shape_ok (parents c) ∧ Forall fits_u32 (commit_id_str <$> parents c) ∧
    Forall fits_u32 [patch_id_str (patch c); author c; message c; event_time c; recorded_time c] ∧
    bs = COMMIT_V1_HEADER ++ commit_body c.
Proof.
  unfold commit_canonical_bytes, commit_body. rewrite bind_Ok.
  setoid_rewrite validate_shape_Ok. setoid_rewrite bind_Ok.
  setoid_rewrite encode_fields_Ok. split.
  - intros ([] & Hs & out & [Hp ->] & Hf & ->). by rewrite <-!app_assoc.
  - intros (Hs & Hp & Hf & ->). exists tt. split; [done|]. eexists. split; [by split|].
    split; [done|]. by rewrite <-!app_assoc.
Qed.

(** The decoder on well-framed input. *)
Lemma commit_decode_body c :
  commit_wf c → shape_ok (parents c) →
  Forall fits_u32 [author c; message c; event_time c; recorded_time c] →
  commit_from_canonical_bytes (COMMIT_V1_HEADER ++ commit_body c) = Ok c.
Proof.
  intros (Hps & Hpt & Ha & Hm & He & Hr) [Hlen Hdis] Hf.
  rewrite !Forall_cons in Hf. destruct Hf as (? & ? & ? & ? & _).
  unfold commit_from_canonical_bytes, commit_body. rewrite strip_prefix_app. run_res.
  rewrite length_app, length_u32_to_be_bytes, take_app_length', drop_app_length' by done.
  rewrite (proj2 (Nat.ltb_ge (4 + _) 4)) by lia. rewrite u32_be_roundtrip by (unfold u32_max; lia). rewrite Nat2Z.id.
  destruct (Nat.ltb_spec 2 (length (parents c))); [lia|].
  rewrite (proj2 (read_commit_ids_Ok (length (parents c)) _ (parents c)
    (wire_fields [patch_id_str (patch c); author c; message c; event_time c; recorded_time c])))
    by done. run_res. rewrite Hdis.
  rewrite (proj2 (read_fields_Ok 5 _
    [patch_id_str (patch c); author c; message c; event_time c; recorded_time c] [])).
  - cbn. rewrite (proj2 (patch_id_from_str_Ok _ (patch c))) by done.
    run_res.
    by destruct c.
  - rewrite app_nil_r. split_and!; [done| |done].
    repeat constructor; try done. all: by apply cid_wf_wire_ok.
Qed.

(** The strict decoder accepts exactly the canonical encodings of well-formed commits. *)
Lemma commit_v1_exact bs c :
  commit_from_canonical_bytes bs = Ok c ↔ commit_wf c ∧ commit_canonical_bytes c = Ok bs.
Proof.
  split.
  - intros Hd. unfold commit_from_canonical_bytes in Hd. inv_res.
    apply strip_prefix_Some in E. subst bs.
    destruct (Nat.ltb_spec (length a) 4) as [|H4]; [done|].
    set (n := u32_from_be_bytes (take 4 a)) in *.
    assert (length (take 4 a) = 4) as Ht by (rewrite length_take; lia).
    pose proof (u32_from_be_range _ Ht) as Hn. fold n in Hn.
    destruct (Nat.ltb_spec 2 (Z.to_nat n)); [done|]. inv_res. destruct a0 as [ps rest].
    apply read_commit_ids_Ok in E as (Hlen & Hps & Hrest).
    destruct (same_parents ps) eqn:Hsame; [done|]. inv_res. destruct a0 as [vs rest'].
    apply read_fields_Ok in E as (Hvl & Hvs & ->).
    case_bool_decide; [|done]. subst rest'. cbn [negb] in Hd.
    destruct vs as [|v0 [|v1 [|v2 [|v3 [|v4 [|]]]]]]; try done. inv_res.
    apply patch_id_from_str_Ok in E as [-> Hpatch].
    rewrite !Forall_cons in Hvs. destruct Hvs as ([??] & [??] & [??] & [??] & [??] & _).
    split; [by repeat split|]. apply commit_canonical_bytes_Ok.
    cbn [parents patch author message event_time recorded_time].
    split_and!; [split; [lia|done]|by apply commit_ids_fit|by repeat constructor|].
    f_equal. unfold commit_body. cbn [parents patch author message event_time recorded_time].
    rewrite Hlen, Z2Nat.id by lia. unfold n. rewrite u32_to_from_be by done.
    rewrite <-(take_drop 4 a) at 1. by rewrite Hrest, app_nil_r.
  - intros [Hwf (Hs & _ & Hf & ->)%commit_canonical_bytes_Ok].
    apply commit_decode_body; [done|done|]. by apply Forall_cons in Hf as [_ Hf].
Qed.
End commit_v1.
