(* ===== verification/Identity.v ===== *)
(** * Identity tokens: graphs, tenants, principals and actors

    Source: [crates/ledger-core/src/identity.rs]. A validated token is a byte string behind a
    private field; its [*_new] constructor is the only way to build one, and the [*_wf]
    predicates state the invariant the constructor establishes. *)

From Stdlib Require Import ZArith Lia String Strings.Byte.
From stdpp Require Import base gmap countable list.
From S2P Require Import Prelude BTree Bytes Text Core.

Local Open Scope ledger_scope.

Definition MAX_IDENTIFIER_BYTES : nat := 512.
Definition MAX_GRAPH_ID_BYTES : nat := 128.
Definition MAX_MESSAGE_BYTES : nat := 4096.
Definition MAX_EVIDENCE_REFS : nat := 64.

(** [validate_token] *)
Definition validate_token (field : string) (value : bytes) (max_bytes : nat) : lresult unit :=
  if bool_decide (value = []) then Err (InvalidIdentifier field "must not be empty")
  else if max_bytes <? length value then Err (InvalidIdentifier field "exceeds the byte bound")
  else if has_control value then
    Err (InvalidIdentifier field "must not contain control characters")
  else Ok tt.

(** The alphabet of a [graph_id]: [[A-Za-z0-9._:-]]. *)
Definition is_graph_byte (b : byte) : bool :=
  is_ascii_alphanumeric b ||
  bool_decide (b = "."%byte) || bool_decide (b = "_"%byte) ||
  bool_decide (b = ":"%byte) || bool_decide (b = "-"%byte).

(** [validate_graph_id] *)
Definition validate_graph_id (value : bytes) : lresult unit :=
  validate_token "graph_id" value MAX_GRAPH_ID_BYTES ;;
  if negb (forallb is_graph_byte value) then
    Err (InvalidIdentifier "graph_id" "must match [A-Za-z0-9._:-]")
  else Ok tt.

Definition validate_tenant_id (value : bytes) : lresult unit :=
  validate_token "tenant_id" value MAX_IDENTIFIER_BYTES.

Definition validate_principal_id (value : bytes) : lresult unit :=
  validate_token "principal_id" value MAX_IDENTIFIER_BYTES.

(** [validated_token!(GraphId | TenantId | PrincipalId)] *)
Record GraphId := mkGraphId { graph_str : bytes }.
Record TenantId := mkTenantId { tenant_str : bytes }.
Record PrincipalId := mkPrincipalId { principal_str : bytes }.

#[export] Instance GraphId_eq_dec : EqDecision GraphId.
Proof. solve_decision. Defined.
#[export] Instance TenantId_eq_dec : EqDecision TenantId.
Proof. solve_decision. Defined.
#[export] Instance PrincipalId_eq_dec : EqDecision PrincipalId.
Proof. solve_decision. Defined.
#[export] Program Instance GraphId_countable : Countable GraphId :=
  inj_countable graph_str (λ s, Some (mkGraphId s)) _.
Next Obligation. by intros []. Qed.
#[export] Program Instance TenantId_countable : Countable TenantId :=
  inj_countable tenant_str (λ s, Some (mkTenantId s)) _.
Next Obligation. by intros []. Qed.

Definition graph_id_new (value : bytes) : lresult GraphId :=
  validate_graph_id value ;; Ok (mkGraphId value).
Definition tenant_id_new (value : bytes) : lresult TenantId :=
  validate_tenant_id value ;; Ok (mkTenantId value).
Definition principal_id_new (value : bytes) : lresult PrincipalId :=
  validate_principal_id value ;; Ok (mkPrincipalId value).

(** [enum PrincipalType] and its wire encoding *)
Inductive PrincipalType := Human | Agent | Service.

#[export] Instance PrincipalType_eq_dec : EqDecision PrincipalType.
Proof. solve_decision. Defined.

Definition wire_byte (t : PrincipalType) : byte :=
  match t with Human => x00 | Agent => x01 | Service => x02 end.

Definition from_wire_byte (b : byte) : lresult PrincipalType :=
  match b with
  | x00 => Ok Human
  | x01 => Ok Agent
  | x02 => Ok Service
  | _ => Err (InvalidCommit "unknown principal_type byte")
  end.

Definition principal_type_str (t : PrincipalType) : bytes :=
  match t with Human => B "human" | Agent => B "agent" | Service => B "service" end.

(** [struct Actor], [struct AuthenticatedPrincipal] and the projection between them *)
Record Actor := mkActor {
  principal_id : PrincipalId;
  principal_type : PrincipalType;
  on_behalf_of : option PrincipalId
}.

#[export] Instance Actor_eq_dec : EqDecision Actor.
Proof. solve_decision. Defined.

Record AuthenticatedPrincipal := mkAuthenticatedPrincipal {
  ap_principal_id : PrincipalId;
  ap_principal_type : PrincipalType;
  ap_tenant_id : TenantId;
  ap_on_behalf_of : option PrincipalId
}.

Definition actor_of (p : AuthenticatedPrincipal) : Actor :=
  mkActor (ap_principal_id p) (ap_principal_type p) (ap_on_behalf_of p).

(** ** What the constructors establish *)
Section identity_facts.
(** A [String] value a token constructor accepts. The UTF-8 part is the invariant of
    [String] itself, which [validate_token] presupposes. *)
Definition token_ok (max : nat) (v : bytes) : Prop :=
  v ≠ [] ∧ length v ≤ max ∧ has_control v = false.

#[export] Instance token_ok_dec max v : Decision (token_ok max v).
Proof. unfold token_ok. apply _. Defined.

Lemma validate_token_Ok f v max u : validate_token f v max = Ok u ↔ token_ok max v.
Proof.
  unfold validate_token, token_ok. destruct u.
  case_bool_decide; [naive_solver|].
  destruct (Nat.ltb_spec max (length v)); [naive_solver lia|].
  destruct (has_control v); naive_solver lia.
Qed.

Definition graph_id_wf (g : GraphId) : Prop :=
  token_ok MAX_GRAPH_ID_BYTES (graph_str g) ∧ forallb is_graph_byte (graph_str g) = true.
Definition principal_id_wf (p : PrincipalId) : Prop :=
  token_ok MAX_IDENTIFIER_BYTES (principal_str p).
Definition tenant_id_wf (t : TenantId) : Prop :=
  token_ok MAX_IDENTIFIER_BYTES (tenant_str t).

#[export] Instance graph_id_wf_dec g : Decision (graph_id_wf g).
Proof. unfold graph_id_wf. apply _. Defined.

Lemma graph_id_new_Ok v g : graph_id_new v = Ok g ↔ v = graph_str g ∧ graph_id_wf g.
Proof.
  unfold graph_id_new, validate_graph_id, graph_id_wf. rewrite bind_Ok. split.
  - intros ([] & Hv & [= <-]). inv_res. apply validate_token_Ok in E. simpl.
    destruct (forallb is_graph_byte v); done.
  - intros [-> [Ht Hg]]. exists tt. rewrite (proj2 (validate_token_Ok _ _ _ tt) Ht).
    run_res. rewrite Hg. cbn [negb]. by destruct g.
Qed.

Lemma principal_id_new_Ok v p : principal_id_new v = Ok p ↔ v = principal_str p ∧ principal_id_wf p.
Proof.
  unfold principal_id_new, validate_principal_id, principal_id_wf. rewrite bind_Ok. split.
  - intros ([] & Hv%validate_token_Ok & [= <-]). done.
  - intros [-> Hp]. exists tt. rewrite validate_token_Ok. by destruct p.
Qed.

Lemma tenant_id_new_Ok v t : tenant_id_new v = Ok t ↔ v = tenant_str t ∧ tenant_id_wf t.
Proof.
  unfold tenant_id_new, validate_tenant_id, tenant_id_wf. rewrite bind_Ok. split.
  - intros ([] & Hv%validate_token_Ok & [= <-]). done.
  - intros [-> Hp]. exists tt. rewrite validate_token_Ok. by destruct t.
Qed.

Lemma graph_byte_ascii b : is_graph_byte b = true → is_ascii_byte b = true.
Proof. destruct b; vm_compute; congruence. Qed.

Lemma graph_id_wf_utf8 g : graph_id_wf g → utf8_valid (graph_str g) = true.
Proof.
  intros [_ Hg]. apply ascii_utf8. unfold is_ascii. rewrite forallb_Forall in Hg |- *.
  eapply Forall_weaken; [exact Hg|]. intros b. apply graph_byte_ascii.
Qed.

Lemma token_ok_fits max v : token_ok max v → (Z.of_nat max ≤ u32_max)%Z → fits_u32 v.
Proof. intros (_ & Hl & _) Hm. unfold fits_u32. lia. Qed.

Lemma from_wire_byte_Ok b t : from_wire_byte b = Ok t ↔ b = wire_byte t.
Proof.
  split; [|intros ->; by destruct t].
  destruct b; simpl; intros [=]; by subst.
Qed.
End identity_facts.

#[global] Arguments validate_token : simpl never.
#[global] Arguments graph_id_new : simpl never.
#[global] Arguments principal_id_new : simpl never.
#[global] Arguments tenant_id_new : simpl never.
#[global] Arguments from_wire_byte : simpl never.
