(* ===== verification/Temporal.v ===== *)
(** * Protocol timestamps

    Source: [crates/ledger-core/src/temporal.rs]. The calendar is code of the [time] crate, so
    [OffsetDateTime] is a parameter of the model: the operations the ledger calls are the class
    [TimeCrate], and what it relies on of their documented behaviour is [TimeCrateOk]. *)

From Stdlib Require Import ZArith Lia String Strings.Byte.
From stdpp Require Import base gmap countable list.
From S2P Require Import Prelude BTree Bytes Text Core.

Local Open Scope ledger_scope.

Local Open Scope Z_scope.

(** ** The [time] crate *)
Class TimeCrate := {
  OffsetDateTime : Type;
  odt_eq_dec : EqDecision OffsetDateTime;
  odt_year : OffsetDateTime → Z;
  odt_month : OffsetDateTime → Z;
  odt_day : OffsetDateTime → Z;
  odt_hour : OffsetDateTime → Z;
  odt_minute : OffsetDateTime → Z;
  odt_second : OffsetDateTime → Z;
  odt_nanosecond : OffsetDateTime → Z;
  (** [OffsetDateTime::parse(_, &Rfc3339)] *)
  odt_parse : bytes → option OffsetDateTime;
  (** [checked_to_offset(UtcOffset::UTC)] *)
  odt_to_utc : OffsetDateTime → option OffsetDateTime;
  (** [replace_nanosecond] *)
  odt_replace_nanosecond : OffsetDateTime → Z → option OffsetDateTime
}.
#[export] Existing Instance odt_eq_dec.

(** [struct LedgerTimestamp(OffsetDateTime)] *)
Record LedgerTimestamp `{TimeCrate} := mkTimestamp { ts_odt : OffsetDateTime }.
Arguments mkTimestamp {_} ts_odt.

#[export] Instance LedgerTimestamp_eq_dec `{TimeCrate} : EqDecision LedgerTimestamp.
Proof. solve_decision. Defined.

Definition CANONICAL_LEN : nat := 27.

Section temporal.
Context `{TimeCrate}.

(** [OffsetDateTime::microsecond] *)
Definition odt_microsecond (t : OffsetDateTime) : Z := odt_nanosecond t / 1000.

(** [LedgerTimestamp::canonical] *)
Definition ts_canonical (ts : LedgerTimestamp) : bytes :=
  let t := ts_odt ts in
  pad_dec 4 (odt_year t) ++ B "-" ++ pad_dec 2 (odt_month t) ++ B "-" ++
  pad_dec 2 (odt_day t) ++ B "T" ++ pad_dec 2 (odt_hour t) ++ B ":" ++
  pad_dec 2 (odt_minute t) ++ B ":" ++ pad_dec 2 (odt_second t) ++ B "." ++
  pad_dec 6 (odt_microsecond t) ++ B "Z".

(** [LedgerTimestamp::try_from_offset_date_time] *)
Definition try_from_offset_date_time (value : OffsetDateTime) : lresult LedgerTimestamp :=
  utc ← ok_or (odt_to_utc value)
              (InvalidTimestamp "instant is outside the supported range");
  if negb (in_range 1 (odt_year utc) 9999) then
    Err (InvalidTimestamp "UTC year is outside 0001..=9999")
  else
    truncated ← ok_or (odt_replace_nanosecond utc (odt_nanosecond utc / 1000 * 1000))
                      (InvalidTimestamp "component range");
    Ok (mkTimestamp truncated).

(** [bytes[i]]; every use is behind a length test. *)
Definition byte_at (i : nat) (bs : bytes) : byte := default x00 (bs !! i).

(** The closure [in_range] of [parse_rfc3339]. *)
Definition offset_part_ok (part : bytes) (max : Z) : bool :=
  (length part =? 2)%nat && forallb is_ascii_digit part && (dec_value part <=? max).

(** [fraction.bytes().take_while(u8::is_ascii_digit).count()] *)
Fixpoint leading_digits (bs : bytes) : nat :=
  match bs with
  | b :: bs => if is_ascii_digit b then S (leading_digits bs) else O
  | [] => O
  end.

(** The checks of [parse_rfc3339] before the text is handed to the parser. *)
Definition rfc3339_guards (input : bytes) : lresult unit :=
  let n := length input in
  if negb (is_ascii input) then Err (InvalidTimestamp "must be ASCII")
  else if (n <? 20)%nat then Err (InvalidTimestamp "too short for an RFC 3339 date-time")
  else if negb (bool_decide (byte_at 10 input = "T"%byte)) then
    Err (InvalidTimestamp "date and time must be separated by an uppercase 'T'")
  else if bool_decide (byte_at (n - 1) input = "z"%byte) then
    Err (InvalidTimestamp "the UTC designator must be an uppercase 'Z'")
  else if bool_decide (take 2 (drop 17 input) = B "60") then
    Err (InvalidTimestamp "leap seconds are not representable")
  else
    match strip_prefix (B ".") (drop 19 input) with
    | Some fraction =>
        let digits := leading_digits fraction in
        if (digits =? 0)%nat || (9 <? digits)%nat then
          Err (InvalidTimestamp "fractional seconds must have 1 to 9 digits")
        else Ok tt
    | None => Ok tt
    end ;;
    if negb (bool_decide (byte_at (n - 1) input = "Z"%byte)) then
      if (n <? 6)%nat || negb (bool_decide (byte_at (n - 3) input = ":"%byte)) then
        Err (InvalidTimestamp "offset must be 'Z' or +-HH:MM")
      else if negb (offset_part_ok (take 2 (drop (n - 5) input)) 23)
              || negb (offset_part_ok (drop (n - 2) input) 59) then
        Err (InvalidTimestamp "offset hours must be 00-23 and minutes 00-59")
      else Ok tt
    else Ok tt.

(** [LedgerTimestamp::parse_rfc3339] *)
Definition parse_rfc3339 (input : bytes) : lresult LedgerTimestamp :=
  rfc3339_guards input ;;
  parsed ← ok_or (odt_parse input) (InvalidTimestamp "unparsable");
  try_from_offset_date_time parsed.

(** [LedgerTimestamp::parse_canonical] *)
Definition parse_canonical (input : bytes) : lresult LedgerTimestamp :=
  parsed ← parse_rfc3339 input;
  if negb (bool_decide (ts_canonical parsed = input)) then
    Err (InvalidTimestamp "not in canonical form")
  else Ok parsed.

(** The invariant of the private field: UTC, a four-digit year, whole microseconds. *)
Definition ts_wf (ts : LedgerTimestamp) : Prop :=
  odt_to_utc (ts_odt ts) = Some (ts_odt ts) ∧ 1 ≤ odt_year (ts_odt ts) ≤ 9999 ∧
  odt_nanosecond (ts_odt ts) mod 1000 = 0.
End temporal.

#[global] Arguments ts_canonical : simpl never.
#[global] Arguments parse_rfc3339 : simpl never.
#[global] Arguments parse_canonical : simpl never.
#[global] Arguments rfc3339_guards : simpl never.

(** What the ledger relies on of the [time] crate. *)
Class TimeCrateOk `{TimeCrate} : Prop := {
  (** The accessors return calendar components. *)
  odt_month_range t : 1 ≤ odt_month t ≤ 12;
  odt_day_range t : 1 ≤ odt_day t ≤ 31;
  odt_hour_range t : 0 ≤ odt_hour t ≤ 23;
  odt_minute_range t : 0 ≤ odt_minute t ≤ 59;
  odt_second_range t : 0 ≤ odt_second t ≤ 59;
  odt_nanosecond_range t : 0 ≤ odt_nanosecond t ≤ 999999999;
  (** Converting to UTC is idempotent. *)
  odt_to_utc_idem t u : odt_to_utc t = Some u → odt_to_utc u = Some u;
  (** [replace_nanosecond] accepts every value below 10^9, sets the nanosecond, and changes
      neither the other components nor the offset; replacing by the current value is the
      identity. *)
  odt_replace_total t n : 0 ≤ n ≤ 999999999 → is_Some (odt_replace_nanosecond t n);
  odt_replace_nano t n u : odt_replace_nanosecond t n = Some u →
    odt_nanosecond u = n ∧ odt_year u = odt_year t;
  odt_replace_utc t n u : odt_replace_nanosecond t n = Some u →
    odt_to_utc t = Some t → odt_to_utc u = Some u;
  odt_replace_id t : odt_replace_nanosecond t (odt_nanosecond t) = Some t;
  (** The RFC 3339 parser reads the six-digit [Z] rendering of a UTC date-time back. *)
  odt_parse_utc t : odt_to_utc t = Some t → 1 ≤ odt_year t ≤ 9999 →
    odt_nanosecond t mod 1000 = 0 → odt_parse (ts_canonical (mkTimestamp t)) = Some t
}.

Section temporal_facts.
Context `{TimeCrateOk}.

Lemma odt_microsecond_range t : 0 ≤ odt_microsecond t < 1000000.
Proof.
  pose proof (odt_nanosecond_range t). unfold odt_microsecond.
  Z.div_mod_to_equations. lia.
Qed.

Lemma ts_wf_length ts : ts_wf ts → length (ts_canonical ts) = CANONICAL_LEN.
Proof.
  intros (_ & Hy & _). unfold ts_canonical.
  pose proof (odt_month_range (ts_odt ts)); pose proof (odt_day_range (ts_odt ts));
  pose proof (odt_hour_range (ts_odt ts)); pose proof (odt_minute_range (ts_odt ts));
  pose proof (odt_second_range (ts_odt ts)); pose proof (odt_microsecond_range (ts_odt ts)).
  rewrite !length_app, !length_pad_dec by lia. done.
Qed.

(** Seven fixed-width decimal fields, as [ts_canonical] lays them out. *)
Definition stamp (y mo d h mi s us : bytes) : bytes :=
  y ++ B "-" ++ mo ++ B "-" ++ d ++ B "T" ++ h ++ B ":" ++ mi ++ B ":" ++ s ++ B "." ++
  us ++ B "Z".

Definition digits_of (w : nat) (s : bytes) : Prop :=
  length s = w ∧ forallb is_ascii_digit s = true.

Lemma digits_pad w n : (1 ≤ w)%nat → 0 ≤ n < 10 ^ Z.of_nat w → digits_of w (pad_dec w n).
Proof. intros Hw Hn. split; [by apply length_pad_dec|apply pad_dec_digits; lia]. Qed.

Lemma leading_digits_app s r :
  forallb is_ascii_digit s = true →
  leading_digits (s ++ r) = (length s + leading_digits r)%nat.
Proof.
  induction s as [|b s IH]; simpl; [done|]. intros [-> Hs]%andb_true_iff. by rewrite IH.
Qed.

(** Every guard of [parse_rfc3339] passes on a canonical layout whose second is not 60. *)
Lemma guards_stamp y mo d h mi s us :
  digits_of 4 y → digits_of 2 mo → digits_of 2 d → digits_of 2 h → digits_of 2 mi →
  digits_of 2 s → digits_of 6 us → s ≠ B "60" →
  rfc3339_guards (stamp y mo d h mi s us) = Ok tt.
Proof.
  intros [Hy Ay] [Hmo Amo] [Hd Ad] [Hh Ah] [Hmi Ami] [Hs As] [Hus Aus] Hne.
  assert (length (stamp y mo d h mi s us) = 27)%nat as Hlen.
  { unfold stamp. rewrite !length_app. rewrite Hy, Hmo, Hd, Hh, Hmi, Hs, Hus. done. }
  assert (is_ascii (stamp y mo d h mi s us) = true) as Hascii.
  { unfold stamp. rewrite !is_ascii_app.
    by rewrite (digits_ascii y), (digits_ascii mo), (digits_ascii d), (digits_ascii h),
      (digits_ascii mi), (digits_ascii s), (digits_ascii us). }
  destruct y as [|y0 [|y1 [|y2 [|y3 [|]]]]]; try done.
  destruct mo as [|mo0 [|mo1 [|]]]; try done. destruct d as [|d0 [|d1 [|]]]; try done.
  destruct h as [|h0 [|h1 [|]]]; try done. destruct mi as [|mi0 [|mi1 [|]]]; try done.
  destruct s as [|s0 [|s1 [|]]]; try done.
  destruct us as [|u0 [|u1 [|u2 [|u3 [|u4 [|u5 [|]]]]]]]; try done.
  unfold rfc3339_guards. rewrite Hascii, Hlen. cbn [negb].
  change (27 <? 20)%nat with false. cbn iota.
  rewrite bool_decide_eq_true_2 by done. cbn [negb].
  rewrite bool_decide_eq_false_2 by done.
  rewrite bool_decide_eq_false_2 by exact Hne.
  change (drop 19 (stamp _ _ _ _ _ _ _)) with (B "." ++ ([u0;u1;u2;u3;u4;u5] ++ B "Z")).
  rewrite strip_prefix_app, leading_digits_app by done.
  rewrite bool_decide_eq_true_2 by done. done.
Qed.

Lemma pad_second_not_60 n : 0 ≤ n ≤ 59 → pad_dec 2 n ≠ B "60".
Proof.
  intros Hn Heq. apply (f_equal dec_value) in Heq. rewrite dec_value_pad in Heq by lia.
  change (dec_value (B "60")) with 60 in Heq. lia.
Qed.

Lemma guards_canonical ts : ts_wf ts → rfc3339_guards (ts_canonical ts) = Ok tt.
Proof.
  intros (_ & Hy & _). unfold ts_canonical.
  pose proof (odt_month_range (ts_odt ts)); pose proof (odt_day_range (ts_odt ts));
  pose proof (odt_hour_range (ts_odt ts)); pose proof (odt_minute_range (ts_odt ts));
  pose proof (odt_second_range (ts_odt ts)); pose proof (odt_microsecond_range (ts_odt ts)).
  apply guards_stamp; try (apply digits_pad; lia). by apply pad_second_not_60.
Qed.

Lemma try_from_wf t ts : try_from_offset_date_time t = Ok ts → ts_wf ts.
Proof.
  unfold try_from_offset_date_time. intros Ht. inv_res. unfold in_range in Ht.
  destruct (1 <=? odt_year a) eqn:E1, (odt_year a <=? 9999) eqn:E2; try done.
  cbn [negb andb] in Ht. inv_res. bool_prop.
  pose proof (odt_to_utc_idem _ _ E) as Hu.
  pose proof (odt_replace_utc _ _ _ E0 Hu). apply odt_replace_nano in E0 as [Hn Hy].
  unfold ts_wf. cbn [ts_odt]. rewrite Hn, Hy. split_and!; [done|lia..|].
  by apply Z.mod_mul.
Qed.

Lemma try_from_id ts : ts_wf ts → try_from_offset_date_time (ts_odt ts) = Ok ts.
Proof.
  intros (Hu & Hy & Hn). unfold try_from_offset_date_time. rewrite Hu. run_res.
  unfold in_range. rewrite (proj2 (Z.leb_le _ _)), (proj2 (Z.leb_le _ _)) by lia.
  cbn [andb negb]. replace (odt_nanosecond (ts_odt ts) / 1000 * 1000)
    with (odt_nanosecond (ts_odt ts)) by (Z.div_mod_to_equations; lia).
  rewrite odt_replace_id. run_res. by destruct ts.
Qed.

Lemma parse_rfc3339_wf s ts : parse_rfc3339 s = Ok ts → ts_wf ts.
Proof. unfold parse_rfc3339. intros Hp. inv_res. by eapply try_from_wf. Qed.

Lemma parse_rfc3339_canonical ts : ts_wf ts → parse_rfc3339 (ts_canonical ts) = Ok ts.
Proof.
  intros Hwf. unfold parse_rfc3339. rewrite guards_canonical by done. run_res.
  pose proof Hwf as (Hu & Hy & Hn). destruct ts as [t].
  rewrite odt_parse_utc by done. run_res. exact (try_from_id (mkTimestamp t) Hwf).
Qed.

Lemma parse_canonical_Ok s ts : parse_canonical s = Ok ts ↔ s = ts_canonical ts ∧ ts_wf ts.
Proof.
  unfold parse_canonical. split.
  - intros Hp. inv_res. case_bool_decide; [|done]. cbn [negb] in Hp. inv_res.
    split; [done|]. by eapply parse_rfc3339_wf.
  - intros [-> Hwf]. rewrite parse_rfc3339_canonical by done. run_res.
    by rewrite bool_decide_eq_true_2.
Qed.

Lemma ts_canonical_ascii ts : ts_wf ts → is_ascii (ts_canonical ts) = true.
Proof.
  intros Hwf. pose proof (guards_canonical ts Hwf) as Hg. unfold rfc3339_guards in Hg.
  by destruct (is_ascii (ts_canonical ts)).
Qed.
End temporal_facts.
