(* ===== verification/CommitV2.v ===== *)
(** * The v2 commit envelope and version dispatch

    Source: [crates/ledger-core/src/commit_v2.rs]. *)

From Stdlib Require Import ZArith Lia String Strings.Byte.
From stdpp Require Import base gmap countable list.
From S2P Require Import Prelude BTree Bytes Text Core Identity Temporal.

Local Open Scope ledger_scope.

Definition COMMIT_V2_HEADER : bytes := B "sculpin-cognitive-commit-v2" ++ [x00].
Definition TAG_ABSENT : byte := x00.
Definition TAG_PRESENT : byte := x01.

(** [struct CommitV2] *)
Record CommitV2 `{TimeCrate} := mkCommitV2 {
  v2_graph_id : GraphId;
  v2_parents : list CommitId;
  v2_patch : PatchId;
  v2_actor : Actor;
  v2_activity : bytes;
  v2_event_time : option LedgerTimestamp;
  v2_recorded_at : LedgerTimestamp;
  v2_evidence_refs : list bytes;
  v2_source_system : option bytes;
  v2_message : bytes
}.

Arguments mkCommitV2 {_}.

#[export] Instance CommitV2_eq_dec `{TimeCrate} : EqDecision CommitV2.
Proof. solve_decision. Defined.

(** ** Wire helpers *)
(** [encode_optional] *)
Definition encode_optional (out : bytes) (value : option bytes) : lresult bytes :=
  match value with
  | None => Ok (out ++ [TAG_ABSENT])
  | Some present =>
      if bool_decide (present = []) then
        Err (InvalidCommit "optional fields are absent or non-empty, never empty")
      else encode_field (out ++ [TAG_PRESENT]) present
  end.

(** [read_u8] *)
Definition read_u8 (rest : bytes) : lresult (byte * bytes) :=
  match rest with
  | [] => Err (InvalidCommit "truncated byte")
  | b :: tail => Ok (b, tail)
  end.

(** [read_u32] *)
Definition read_u32 (rest : bytes) : lresult (Z * bytes) :=
  if length rest <? 4 then Err (InvalidCommit "truncated count")
  else Ok (u32_from_be_bytes (take 4 rest), drop 4 rest).

(** [read_optional] *)
Definition read_optional (rest : bytes) : lresult (option bytes * bytes) :=
  '(tag, rest) ← read_u8 rest;
  if bool_decide (tag = TAG_ABSENT) then Ok (None, rest)
  else if bool_decide (tag = TAG_PRESENT) then
    '(value, rest) ← read_field rest;
    if bool_decide (value = []) then
      Err (InvalidCommit "present-but-empty is not a valid encoding")
    else Ok (Some value, rest)
  else Err (InvalidCommit "unknown optional tag").

(** The evidence loop of the decoder. [previous] is the last reference pushed so far. *)
Fixpoint read_evidence (n : nat) (previous : option bytes) (rest : bytes)
    : lresult (list bytes * bytes) :=
  match n with
  | O => Ok ([], rest)
  | S n =>
      '(reference, rest) ← read_field rest;
      if match previous with
         | Some p => match cmp p reference with Lt => false | _ => true end
         | None => false
         end
      then Err (InvalidCommit "evidence references must be strictly ascending (sorted, unique)")
      else
        '(refs, rest) ← read_evidence n (Some reference) rest;
        Ok (reference :: refs, rest)
  end.

Section commit_v2.
Context `{TimeCrate}.

(** [CommitV2::canonical_evidence_refs] *)
Definition canonical_evidence_refs (c : CommitV2) : list bytes :=
  dedup (sort_unstable (v2_evidence_refs c)).

(** [CommitV2::validate] *)
Definition v2_validate (c : CommitV2) : lresult unit :=
  if 2 <? length (v2_parents c) then
    Err (InvalidCommit "protocol v2 permits at most two parents")
  else if same_parents (v2_parents c) then
    Err (InvalidCommit "merge parents must be distinct")
  else
    validate_token "activity" (v2_activity c) MAX_IDENTIFIER_BYTES ;;
    try_each (λ e, validate_token "evidence_ref" e MAX_IDENTIFIER_BYTES) (v2_evidence_refs c) ;;
    if MAX_EVIDENCE_REFS <? length (canonical_evidence_refs c) then
      Err (InvalidCommit "too many distinct evidence references")
    else
      match v2_source_system c with
      | Some source => validate_token "source_system" source MAX_IDENTIFIER_BYTES
      | None => Ok tt
      end ;;
      if MAX_MESSAGE_BYTES <? length (v2_message c) then
        Err (InvalidCommit "message exceeds the byte bound")
      else Ok tt.

(** [CommitV2::canonical_bytes] *)
Definition v2_canonical_bytes (c : CommitV2) : lresult bytes :=
  v2_validate c ;;
  out ← encode_field COMMIT_V2_HEADER (graph_str (v2_graph_id c));
  let out := out ++ u32_to_be_bytes (Z.of_nat (length (v2_parents c))) in
  out ← encode_fields out (commit_id_str <$> v2_parents c);
  out ← encode_field out (patch_id_str (v2_patch c));
  out ← encode_field out (principal_str (principal_id (v2_actor c)));
  let out := out ++ [wire_byte (principal_type (v2_actor c))] in
  out ← encode_optional out (principal_str <$> on_behalf_of (v2_actor c));
  out ← encode_field out (v2_activity c);
  out ← encode_optional out (ts_canonical <$> v2_event_time c);
  out ← encode_field out (ts_canonical (v2_recorded_at c));
  let evidence := canonical_evidence_refs c in
  let out := out ++ u32_to_be_bytes (Z.of_nat (length evidence)) in
  out ← encode_fields out evidence;
  out ← encode_optional out (v2_source_system c);
  encode_field out (v2_message c).

(** [CommitV2::id] *)
Definition v2_id `{Sha256} (c : CommitV2) : lresult CommitId :=
  bs ← v2_canonical_bytes c; Ok (mkCommitId (for_bytes bs)).

(** [CommitV2::from_canonical_bytes] *)
Definition v2_from_canonical_bytes (bs : bytes) : lresult CommitV2 :=
  rest ← ok_or (strip_prefix COMMIT_V2_HEADER bs) (InvalidCommit "unknown header");
  '(v, rest) ← read_field rest;
  graph_id ← graph_id_new v;
  '(parent_count, rest) ← read_u32 rest;
  if 2 <? Z.to_nat parent_count then
    Err (InvalidCommit "protocol v2 permits at most two parents")
  else
    '(ps, rest) ← read_commit_ids (Z.to_nat parent_count) rest;
    '(v, rest) ← read_field rest;
    p ← patch_id_from_str v;
    '(v, rest) ← read_field rest;
    principal ← principal_id_new v;
    '(b, rest) ← read_u8 rest;
    ptype ← from_wire_byte b;
    '(o, rest) ← read_optional rest;
    behalf ← opt_transpose principal_id_new o;
    '(activity, rest) ← read_field rest;
    '(o, rest) ← read_optional rest;
    event ← opt_transpose parse_canonical o;
    '(v, rest) ← read_field rest;
    recorded ← parse_canonical v;
    '(evidence_count, rest) ← read_u32 rest;
    if MAX_EVIDENCE_REFS <? Z.to_nat evidence_count then
      Err (InvalidCommit "too many evidence references")
    else
      '(evidence, rest) ← read_evidence (Z.to_nat evidence_count) None rest;
      '(source, rest) ← read_optional rest;
      '(message, rest) ← read_field rest;
      if negb (bool_decide (rest = [])) then Err (InvalidCommit "trailing bytes")
      else
        let c := mkCommitV2 graph_id ps p (mkActor principal ptype behalf) activity event
                   recorded evidence source message in
        v2_validate c ;; Ok c.

(** [impl Deserialize for CommitV2]: the fields arrive deserialised, each through its own
    constructor, and the assembled value is validated before it exists. *)
Definition v2_from_wire (wire : CommitV2) : lresult CommitV2 :=
  v2_validate wire ;; Ok wire.
End commit_v2.

(** [enum AnyCommit] *)
Inductive AnyCommit `{TimeCrate} :=
  | V1 (c : Commit)
  | V2 (c : CommitV2).

#[export] Instance AnyCommit_eq_dec `{TimeCrate} : EqDecision AnyCommit.
Proof. solve_decision. Defined.

Section any_commit.
Context `{TimeCrate}.

Fixpoint take_while {A} (f : A → bool) (l : list A) : list A :=
  match l with
  | x :: l => if f x then x :: take_while f l else []
  | [] => []
  end.

(** [AnyCommit::from_canonical_bytes] *)
Definition any_from_canonical_bytes (bs : bytes) : lresult AnyCommit :=
  if starts_with COMMIT_V1_HEADER bs then V1 <$> commit_from_canonical_bytes bs
  else if starts_with COMMIT_V2_HEADER bs then V2 <$> v2_from_canonical_bytes bs
  else Err (UnknownCommitVersion
              (List.filter is_ascii_graphic
                 (take_while (λ b, negb (bool_decide (b = x00))) (take 32 bs)))).

Definition any_version (c : AnyCommit) : Z :=
  match c with V1 _ => 1 | V2 _ => 2 end.
Definition any_graph_id (c : AnyCommit) : option GraphId :=
  match c with V1 _ => None | V2 c => Some (v2_graph_id c) end.
Definition any_parents (c : AnyCommit) : list CommitId :=
  match c with V1 c => parents c | V2 c => v2_parents c end.
Definition any_patch (c : AnyCommit) : PatchId :=
  match c with V1 c => patch c | V2 c => v2_patch c end.
Definition any_canonical_bytes (c : AnyCommit) : lresult bytes :=
  match c with V1 c => commit_canonical_bytes c | V2 c => v2_canonical_bytes c end.
Definition any_id `{Sha256} (c : AnyCommit) : lresult CommitId :=
  match c with V1 c => commit_id c | V2 c => v2_id c end.
End any_commit.

#[global] Arguments encode_optional : simpl never.
#[global] Arguments read_u8 : simpl never.
#[global] Arguments read_u32 : simpl never.
#[global] Arguments read_optional : simpl never.
#[global] Arguments COMMIT_V2_HEADER : simpl never.
#[global] Arguments v2_canonical_bytes : simpl never.
#[global] Arguments v2_from_canonical_bytes : simpl never.
#[global] Arguments any_from_canonical_bytes : simpl never.
#[global] Arguments canonical_evidence_refs : simpl never.

(** ** Facts about the wire helpers *)
Section wire_v2.
Definition wire_opt (o : option bytes) : bytes :=
  match o with None => [TAG_ABSENT] | Some v => TAG_PRESENT :: wire_field v end.
#[global] Arguments wire_opt : simpl never.

Definition opt_all {A} (P : A → Prop) (o : option A) : Prop :=
  match o with Some a => P a | None => True end.

Definition opt_field_ok (v : bytes) : Prop := wire_ok v ∧ v ≠ [].

Lemma encode_optional_Ok out o out' :
  encode_optional out o = Ok out' ↔
    opt_all (λ v, fits_u32 v ∧ v ≠ []) o ∧ out' = out ++ wire_opt o.
Proof.
  unfold encode_optional, wire_opt. destruct o as [v|]; simpl; [|naive_solver].
  case_bool_decide; [naive_solver|]. rewrite encode_field_Ok, <-app_assoc. naive_solver.
Qed.

Lemma encode_optional_fits out o :
  opt_all (λ v, fits_u32 v ∧ v ≠ []) o → encode_optional out o = Ok (out ++ wire_opt o).
Proof. intros. by apply encode_optional_Ok. Qed.

Lemma read_u8_Ok inp b rest : read_u8 inp = Ok (b, rest) ↔ inp = b :: rest.
Proof. unfold read_u8. destruct inp; naive_solver. Qed.

Lemma read_u32_Ok inp n rest :
  read_u32 inp = Ok (n, rest) ↔ (0 ≤ n ≤ u32_max)%Z ∧ inp = u32_to_be_bytes n ++ rest.
Proof.
  unfold read_u32. split.
  - destruct (Nat.ltb_spec (length inp) 4) as [|Hl]; [done|]. intros [= <- <-].
    assert (length (take 4 inp) = 4) as H4 by (rewrite length_take; lia).
    split; [by apply u32_from_be_range|]. by rewrite u32_to_from_be, take_drop.
  - intros [Hn ->]. rewrite length_app, length_u32_to_be_bytes.
    rewrite (proj2 (Nat.ltb_ge (4 + _) 4)) by lia.
    rewrite take_app_length', drop_app_length' by done. by rewrite u32_be_roundtrip.
Qed.

Lemma read_optional_Ok inp o rest :
  read_optional inp = Ok (o, rest) ↔ opt_all opt_field_ok o ∧ inp = wire_opt o ++ rest.
Proof.
  unfold read_optional, wire_opt, opt_field_ok. split.
  - intros Hr. inv_res. destruct a as [tag r]. apply read_u8_Ok in E as ->.
    case_bool_decide; [subst; by inv_res|]. case_bool_decide; [|done]. subst. inv_res.
    destruct a as [v r']. apply read_field_Ok in E as [Hv ->].
    case_bool_decide; [done|]. by inv_res.
  - destruct o as [v|]; cbn [opt_all].
    + intros [[Hv Hne] ->]. cbn [app]. rewrite (proj2 (read_u8_Ok _ TAG_PRESENT _)) by done.
      run_res. rewrite bool_decide_eq_false_2, bool_decide_eq_true_2 by done.
      rewrite read_field_app by done. run_res. by rewrite bool_decide_eq_false_2.
    + by intros [_ ->].
Qed.

Lemma read_u32_app n rest :
  (0 ≤ n ≤ u32_max)%Z → read_u32 (u32_to_be_bytes n ++ rest) = Ok (n, rest).
Proof. intros. by apply read_u32_Ok. Qed.

Lemma read_optional_app o rest :
  opt_all opt_field_ok o → read_optional (wire_opt o ++ rest) = Ok (o, rest).
Proof. intros. by apply read_optional_Ok. Qed.

Lemma read_evidence_Ok n prev inp l rest :
  read_evidence n prev inp = Ok (l, rest) ↔
    length l = n ∧ Forall wire_ok l ∧ ascending l ∧ opt_all (λ p, Forall (lt_of p) l) prev ∧
    inp = wire_fields l ++ rest.
Proof.
  revert prev inp l rest. induction n as [|n IH]; intros prev inp l rest; cbn [read_evidence].
  { split; [intros [= <- <-]; split_and!; [done|by apply Forall_nil|apply ascending_nil|destruct prev; [by apply Forall_nil|done]|done]|].
    intros (Hl & _ & _ & _ & ->). by destruct l. }
  split.
  - intros Hr. inv_res. destruct a as [r rest1]. apply read_field_Ok in E as [Hwr ->].
    destruct (match prev with Some p => _ | None => _ end) eqn:Hp; [done|]. inv_res.
    destruct a as [l' rest2]. apply IH in E as (Hl & Hw & Ha & Hlt & ->). inv_res.
    cbn [opt_all] in Hlt. rewrite wire_fields_cons, <-app_assoc.
    split_and!; [simpl; lia|by constructor|by constructor| |done].
    destruct prev as [p|]; [|done]. cbn [opt_all].
    destruct (cmp p r) eqn:Hc; [done| |done].
    constructor; [done|]. eapply Forall_weaken; [exact Hlt|].
    intros x Hx. by apply (lt_of_trans p r x).
  - intros (Hl & Hw & Ha & Hp & ->). destruct l as [|r l]; [done|].
    apply Forall_cons in Hw as [Hr Hw]. apply ascending_inv in Ha as [Ha Hlt].
    rewrite wire_fields_cons, <-app_assoc, read_field_app by done. run_res.
    replace (match prev with Some p => _ | None => _ end) with false.
    + rewrite (proj2 (IH (Some r) _ l rest)); [done|]. simpl in Hl. split_and!; [lia|done..].
    + destruct prev as [p|]; [|done]. cbn [opt_all] in Hp. apply Forall_cons in Hp as [Hp _].
      unfold lt_of in Hp. by rewrite Hp.
Qed.

Lemma read_evidence_app l rest :
  Forall wire_ok l → ascending l →
  read_evidence (length l) None (wire_fields l ++ rest) = Ok (l, rest).
Proof. intros. by apply read_evidence_Ok. Qed.
End wire_v2.

(** ** The v2 codec *)
Section codec_v2.
Context `{TimeCrate}.

(** The invariants the field types carry: validated tokens, well-formed identifiers and
    timestamps, UTF-8 strings. *)
Definition utf8 (v : bytes) : Prop := utf8_valid v = true.
Definition principal_wf (p : PrincipalId) : Prop :=
  principal_id_wf p ∧ utf8 (principal_str p).

Record v2_wf (c : CommitV2) : Prop := {
  v2_wf_graph : graph_id_wf (v2_graph_id c);
  v2_wf_parents : Forall commit_id_wf (v2_parents c);
  v2_wf_patch : patch_id_wf (v2_patch c);
  v2_wf_principal : principal_wf (principal_id (v2_actor c));
  v2_wf_behalf : opt_all principal_wf (on_behalf_of (v2_actor c));
  v2_wf_activity : utf8 (v2_activity c);
  v2_wf_event : opt_all ts_wf (v2_event_time c);
  v2_wf_recorded : ts_wf (v2_recorded_at c);
  v2_wf_evidence : Forall utf8 (v2_evidence_refs c);
  v2_wf_source : opt_all utf8 (v2_source_system c);
  v2_wf_message : utf8 (v2_message c)
}.

(** What [validate] accepts. *)
Record v2_valid (c : CommitV2) : Prop := {
  v2_valid_shape : shape_ok (v2_parents c);
  v2_valid_activity : token_ok MAX_IDENTIFIER_BYTES (v2_activity c);
  v2_valid_evidence : Forall (token_ok MAX_IDENTIFIER_BYTES) (v2_evidence_refs c);
  v2_valid_count : length (canonical_evidence_refs c) ≤ MAX_EVIDENCE_REFS;
  v2_valid_source : opt_all (token_ok MAX_IDENTIFIER_BYTES) (v2_source_system c);
  v2_valid_message : length (v2_message c) ≤ MAX_MESSAGE_BYTES
}.

Lemma v2_validate_Ok c u : v2_validate c = Ok u ↔ v2_valid c.
Proof.
  unfold v2_validate. destruct u. split.
  - intros Hv. destruct (Nat.ltb_spec 2 (length (v2_parents c))); [done|].
    destruct (same_parents (v2_parents c)) eqn:Hs; [done|]. inv_res.
    apply validate_token_Ok in E. apply try_each_Ok in E0.
    destruct (Nat.ltb_spec MAX_EVIDENCE_REFS (length (canonical_evidence_refs c))); [done|].
    inv_res. destruct (Nat.ltb_spec MAX_MESSAGE_BYTES (length (v2_message c))); [done|].
    split; [by split|done| |done| |done].
    + eapply Forall_weaken; [exact E0|]. by intros e ?%validate_token_Ok.
    + destruct (v2_source_system c); [by apply validate_token_Ok in E1|done].
  - intros [[Hl Hs] Ha He Hc Hsrc Hm].
    rewrite (proj2 (Nat.ltb_ge 2 _)) by done. rewrite Hs.
    rewrite (proj2 (validate_token_Ok _ _ _ tt)) by done. run_res.
    rewrite (proj2 (try_each_Ok _ _ tt)); run_res.
    2: { eapply Forall_weaken; [exact He|]. intros e. apply validate_token_Ok. }
    rewrite (proj2 (Nat.ltb_ge MAX_EVIDENCE_REFS _)) by done.
    destruct (v2_source_system c) as [src|]; cbn [opt_all] in Hsrc.
    1: rewrite (proj2 (validate_token_Ok _ _ _ tt)) by done.
    all: run_res; by rewrite (proj2 (Nat.ltb_ge MAX_MESSAGE_BYTES _)) by done.
Qed.

Lemma canonical_evidence_collect c :
  canonical_evidence_refs c = bts_collect (v2_evidence_refs c).
Proof. apply sort_dedup_collect. Qed.

(** The bytes after the header. *)
Definition v2_body (c : CommitV2) : bytes :=
  wire_field (graph_str (v2_graph_id c)) ++
  u32_to_be_bytes (Z.of_nat (length (v2_parents c))) ++
  wire_fields (commit_id_str <$> v2_parents c) ++
  wire_field (patch_id_str (v2_patch c)) ++
  wire_field (principal_str (principal_id (v2_actor c))) ++
  [wire_byte (principal_type (v2_actor c))] ++
  wire_opt (principal_str <$> on_behalf_of (v2_actor c)) ++
  wire_field (v2_activity c) ++
  wire_opt (ts_canonical <$> v2_event_time c) ++
  wire_field (ts_canonical (v2_recorded_at c)) ++
  u32_to_be_bytes (Z.of_nat (length (canonical_evidence_refs c))) ++
  wire_fields (canonical_evidence_refs c) ++
  wire_opt (v2_source_system c) ++
  wire_field (v2_message c).

Lemma token_wire_ok max v :
  token_ok max v → (Z.of_nat max ≤ u32_max)%Z → utf8 v → opt_field_ok v.
Proof.
  intros Ht Hm Hu. split; [split; [by eapply token_ok_fits|done]|]. by destruct Ht.
Qed.

Lemma ts_wire_ok `{!TimeCrateOk} t : ts_wf t → opt_field_ok (ts_canonical t).
Proof.
  intros Ht. pose proof (ts_wf_length t Ht) as Hl.
  split; [split|].
  - unfold fits_u32. by rewrite Hl.
  - by apply ascii_utf8, ts_canonical_ascii.
  - intros Hn. by rewrite Hn in Hl.
Qed.

Lemma graph_wire_ok g : graph_id_wf g → wire_ok (graph_str g).
Proof.
  intros Hg. split; [|by apply graph_id_wf_utf8]. destruct Hg as [Ht _].
  by eapply token_ok_fits.
Qed.

Lemma principal_wire_ok p : principal_wf p → opt_field_ok (principal_str p).
Proof. intros [Hp Hu]. by eapply token_wire_ok. Qed.

Lemma opt_all_fmap {A B} (P : B → Prop) (f : A → B) o :
  opt_all P (f <$> o) ↔ opt_all (λ a, P (f a)) o.
Proof. by destruct o. Qed.

Lemma opt_all_weaken {A} (P Q : A → Prop) o : (∀ a, P a → Q a) → opt_all P o → opt_all Q o.
Proof. destruct o; simpl; auto. Qed.

Lemma evidence_wire_ok c :
  v2_wf c → v2_valid c → Forall wire_ok (canonical_evidence_refs c).
Proof.
  intros Hwf Hv. rewrite canonical_evidence_collect, Forall_forall. intros e He.
  rewrite elem_of_bts_collect in He.
  pose proof (proj1 (Forall_forall _ _) (v2_wf_evidence c Hwf) e He) as Hu.
  pose proof (proj1 (Forall_forall _ _) (v2_valid_evidence c Hv) e He) as Ht.
  by apply (token_wire_ok MAX_IDENTIFIER_BYTES).
Qed.

Lemma message_fits c : v2_valid c → fits_u32 (v2_message c).
Proof.
  intros Hv. pose proof (v2_valid_message c Hv) as Hm. unfold fits_u32, u32_max.
  change MAX_MESSAGE_BYTES with (Z.to_nat 4096) in Hm. lia.
Qed.

(** On a well-formed commit, validation is the only way encoding can fail. *)
Lemma v2_canonical_bytes_Ok `{!TimeCrateOk} c bs : v2_wf c →
  v2_canonical_bytes c = Ok bs ↔ v2_valid c ∧ bs = COMMIT_V2_HEADER ++ v2_body c.
Proof.
  intros Hwf. unfold v2_canonical_bytes. rewrite bind_Ok. setoid_rewrite v2_validate_Ok. split.
  - intros (_ & Hv & Hbs). split; [done|]. inv_res.
    repeat match goal with
    | E : encode_field _ _ = Ok _ |- _ => apply encode_field_Ok in E as [_ ->]
    | E : encode_fields _ _ = Ok _ |- _ => apply encode_fields_Ok in E as [_ ->]
    | E : encode_optional _ _ = Ok _ |- _ => apply encode_optional_Ok in E as [_ ->]
    end.
    unfold v2_body. by rewrite <-!app_assoc.
  - intros [Hv ->]. exists tt. split; [done|].
    destruct Hwf as [Hg Hps Hpt Hp Hb Ha He Hr Hev Hs Hm] eqn:Heq; clear Heq.
    assert (Forall fits_u32 (canonical_evidence_refs c)) as Hfe.
    { eapply Forall_weaken; [by apply evidence_wire_ok|]. by intros v [? _]. }
    assert (opt_all (λ v, fits_u32 v ∧ v ≠ []) (principal_str <$> on_behalf_of (v2_actor c))).
    { apply opt_all_fmap. eapply opt_all_weaken; [|exact Hb]. by intros p [[? _] ?]%principal_wire_ok. }
    assert (opt_all (λ v, fits_u32 v ∧ v ≠ []) (ts_canonical <$> v2_event_time c)).
    { apply opt_all_fmap. eapply opt_all_weaken; [|exact He]. by intros t [[? _] ?]%ts_wire_ok. }
    assert (opt_all (λ v, fits_u32 v ∧ v ≠ []) (v2_source_system c)).
    { eapply opt_all_weaken; [|exact (v2_valid_source c Hv)].
      intros v Ht. split; [by eapply token_ok_fits|by destruct Ht]. }
    assert (fits_u32 (v2_activity c)) by (eapply token_ok_fits; [apply Hv|done]).
    rewrite encode_field_fits by (by apply graph_wire_ok). run_res.
    rewrite encode_fields_fit by (by apply commit_ids_fit). run_res.
    rewrite encode_field_fits by (by apply cid_wf_wire_ok). run_res.
    rewrite encode_field_fits by (by apply principal_wire_ok). run_res.
    rewrite encode_optional_fits by done. run_res.
    rewrite encode_field_fits by done. run_res.
    rewrite encode_optional_fits by done. run_res.
    rewrite encode_field_fits by (by apply ts_wire_ok). run_res.
    rewrite encode_fields_fit by done. run_res. rewrite encode_optional_fits by done. run_res.
    rewrite encode_field_fits by (by apply message_fits).
    unfold v2_body. by rewrite <-!app_assoc.
Qed.

(** An optional field read back through an exact constructor [f] with printer [g]. *)
Lemma opt_transpose_exact {A} (f : bytes → lresult A) (g : A → bytes) (P : A → Prop) o o' :
  (∀ v a, f v = Ok a ↔ v = g a ∧ P a) →
  opt_transpose f o = Ok o' ↔ o = g <$> o' ∧ opt_all P o'.
Proof.
  intros Hf. rewrite opt_transpose_Ok. destruct o, o'; simpl; rewrite ?Hf; naive_solver.
Qed.

(** The decoder on a well-framed body. *)
Lemma v2_decode_body `{!TimeCrateOk} c :
  v2_wf c → v2_valid c → ascending (v2_evidence_refs c) →
  v2_from_canonical_bytes (COMMIT_V2_HEADER ++ v2_body c) = Ok c.
Proof.
  intros Hwf Hv Hasc. pose proof Hwf as [Hg Hps Hpt Hp Hb Ha He Hr Hev Hs Hm].
  pose proof (v2_valid_shape c Hv) as [Hlen Hdis].
  pose proof (evidence_wire_ok c Hwf Hv) as Hwe.
  pose proof (v2_valid_count c Hv) as Hcount.
  assert (canonical_evidence_refs c = v2_evidence_refs c) as Hce.
  { by rewrite canonical_evidence_collect, bts_collect_id. }
  unfold v2_from_canonical_bytes, v2_body. rewrite strip_prefix_app. run_res.
  rewrite read_field_app by (by apply graph_wire_ok). run_res.
  rewrite (proj2 (graph_id_new_Ok _ (v2_graph_id c))) by done. run_res.
  rewrite read_u32_app by (unfold u32_max; lia). run_res.
  rewrite Nat2Z.id, (proj2 (Nat.ltb_ge 2 _)) by done.
  rewrite (proj2 (read_commit_ids_Ok _ _ (v2_parents c) _)) by done. run_res.
  rewrite read_field_app by (by apply cid_wf_wire_ok). run_res.
  rewrite (proj2 (patch_id_from_str_Ok _ (v2_patch c))) by done. run_res.
  rewrite read_field_app by (by apply principal_wire_ok). run_res.
  rewrite (proj2 (principal_id_new_Ok _ (principal_id (v2_actor c)))) by (split; [done|apply Hp]). run_res.
  rewrite (proj2 (read_u8_Ok _ _ _)) by done. run_res.
  rewrite (proj2 (from_wire_byte_Ok _ (principal_type (v2_actor c)))) by done. run_res.
  rewrite read_optional_app.
  2: { apply opt_all_fmap. eapply opt_all_weaken; [|exact Hb].
       apply principal_wire_ok. }
  run_res. rewrite (proj2 (opt_transpose_exact _ _ _ _ (on_behalf_of (v2_actor c)) principal_id_new_Ok)).
  2: { split; [done|]. eapply opt_all_weaken; [|exact Hb]. by intros p [? _]. }
  run_res. rewrite read_field_app.
  2: { eapply token_wire_ok; [apply Hv|done|done]. }
  run_res. rewrite read_optional_app.
  2: { apply opt_all_fmap. eapply opt_all_weaken; [|exact He]. apply ts_wire_ok. }
  run_res. rewrite (proj2 (opt_transpose_exact _ _ _ _ (v2_event_time c) parse_canonical_Ok)) by done.
  run_res. rewrite read_field_app by (by apply ts_wire_ok). run_res.
  rewrite (proj2 (parse_canonical_Ok _ (v2_recorded_at c))) by done. run_res.
  rewrite read_u32_app.
  2: { unfold u32_max. change MAX_EVIDENCE_REFS with 64 in Hcount. lia. }
  run_res. rewrite Nat2Z.id, (proj2 (Nat.ltb_ge MAX_EVIDENCE_REFS _)) by done.
  rewrite read_evidence_app by (done || by rewrite Hce).
  run_res. rewrite read_optional_app.
  2: { pose proof (v2_valid_source c Hv) as Hvs.
       destruct (v2_source_system c); [|done]. by eapply token_wire_ok. }
  run_res. rewrite <-(app_nil_r (wire_field (v2_message c))).
  rewrite read_field_app by (split; [by apply message_fits|done]). run_res.
  rewrite bool_decide_eq_true_2 by done. cbn [negb]. rewrite Hce.
  replace (mkCommitV2 _ _ _ _ _ _ _ _ _ _) with c by (by destruct c as [???[]]).
  rewrite (proj2 (v2_validate_Ok c tt)) by done. done.
Qed.

(** Everything a successful run of the decoder establishes. *)
Lemma v2_decode_inv `{!TimeCrateOk} bs c :
  v2_from_canonical_bytes bs = Ok c →
  v2_wf c ∧ v2_valid c ∧ ascending (v2_evidence_refs c) ∧ bs = COMMIT_V2_HEADER ++ v2_body c.
Proof.
  intros Hd. unfold v2_from_canonical_bytes in Hd.
  repeat (progress inv_res || match goal with
  | a : (_ * _)%type |- _ => destruct a
  | E : strip_prefix _ _ = Some _ |- _ => apply strip_prefix_Some in E as ->
  | E : read_field _ = Ok _ |- _ => apply read_field_Ok in E as [[? ?] ->]
  | E : graph_id_new _ = Ok _ |- _ => apply graph_id_new_Ok in E as [-> ?]
  | E : read_u32 _ = Ok _ |- _ => apply read_u32_Ok in E as [? ->]
  | E : read_commit_ids _ _ = Ok _ |- _ => apply read_commit_ids_Ok in E as (? & ? & ->)
  | E : patch_id_from_str _ = Ok _ |- _ => apply patch_id_from_str_Ok in E as [-> ?]
  | E : principal_id_new _ = Ok _ |- _ => apply principal_id_new_Ok in E as [-> ?]
  | E : read_u8 _ = Ok _ |- _ => apply read_u8_Ok in E as ->
  | E : from_wire_byte _ = Ok _ |- _ => apply from_wire_byte_Ok in E as ->
  | E : read_optional _ = Ok _ |- _ => apply read_optional_Ok in E as [? ->]
  | E : parse_canonical _ = Ok _ |- _ => apply parse_canonical_Ok in E as [-> ?]
  | E : read_evidence _ _ _ = Ok _ |- _ => apply read_evidence_Ok in E as (? & ? & ? & _ & ->)
  | E : v2_validate _ = Ok _ |- _ => apply v2_validate_Ok in E
  | E : opt_transpose principal_id_new _ = Ok _ |- _ =>
      apply (opt_transpose_exact _ _ _ _ _ principal_id_new_Ok) in E as [-> ?]
  | E : opt_transpose parse_canonical _ = Ok _ |- _ =>
      apply (opt_transpose_exact _ _ _ _ _ parse_canonical_Ok) in E as [-> ?]
  | E : (if ?b then Err _ else _) = Ok _ |- _ => destruct b eqn:?; [discriminate E|]
  end).
  bool_prop. subst. split_and!; [|done|done|].
  - split; cbn; try done.
    + destruct a3; [|done]. cbn in *. split; [done|]. by destruct H19 as [[_ ?] _].
    + eapply Forall_weaken; [exact H27|]. by intros v [_ ?].
    + destruct o; [|done]. by destruct H25 as [[_ ?] _].
  - unfold v2_body. rewrite canonical_evidence_collect.
    cbn [v2_graph_id v2_parents v2_patch v2_actor v2_activity v2_event_time v2_recorded_at
         v2_evidence_refs v2_source_system v2_message principal_id principal_type on_behalf_of].
    rewrite bts_collect_id by done. rewrite H14, H26, !Z2Nat.id by lia. by rewrite app_nil_r.
Qed.

(** [c] with another evidence list. *)
Definition v2_with_evidence (c : CommitV2) (l : list bytes) : CommitV2 :=
  mkCommitV2 (v2_graph_id c) (v2_parents c) (v2_patch c) (v2_actor c) (v2_activity c)
    (v2_event_time c) (v2_recorded_at c) l (v2_source_system c) (v2_message c).

Lemma canonical_evidence_with c l :
  canonical_evidence_refs (v2_with_evidence c l) = bts_collect l.
Proof. apply canonical_evidence_collect. Qed.

(** A commit whose evidence list names the same set has the same validity and body. *)
Lemma v2_with_evidence_same c l : (∀ e, e ∈ l ↔ e ∈ v2_evidence_refs c) →
  (v2_wf c → v2_wf (v2_with_evidence c l)) ∧
  (v2_valid c → v2_valid (v2_with_evidence c l)) ∧
  v2_body (v2_with_evidence c l) = v2_body c.
Proof.
  intros Hl. assert (bts_collect l = bts_collect (v2_evidence_refs c)) as Hc
    by (by apply bts_collect_ext).
  split_and!.
  - intros [????????? ??]. split; try done. cbn. rewrite Forall_forall in *. intros e ?%Hl. auto.
  - intros [?? He ???]. split; try done.
    + cbn. rewrite Forall_forall in *. intros e ?%Hl. auto.
    + rewrite canonical_evidence_with, Hc. by rewrite <-canonical_evidence_collect.
  - unfold v2_body. rewrite canonical_evidence_with, canonical_evidence_collect, Hc. done.
Qed.

Lemma v2_exact `{!TimeCrateOk} bs c :
  v2_from_canonical_bytes bs = Ok c ↔
    v2_wf c ∧ ascending (v2_evidence_refs c) ∧ v2_canonical_bytes c = Ok bs.
Proof.
  split.
  - intros (Hwf & Hv & Ha & ->)%v2_decode_inv. split_and!; [done|done|].
    by apply v2_canonical_bytes_Ok.
  - intros (Hwf & Ha & [Hv ->]%v2_canonical_bytes_Ok); [|done]. by apply v2_decode_body.
Qed.

(** C2. The evidence of a v2 commit is a set: two commits that differ only in the order and
    multiplicity of their evidence references have the same canonical bytes, hence the same
    [CommitId], and decoding those bytes yields the sorted, duplicate-free representative. *)
Theorem commit_v2_evidence_is_a_set `{!TimeCrateOk, Sha256} (c : CommitV2) (l : list bytes) bs :
  v2_wf c → (∀ e, e ∈ l ↔ e ∈ v2_evidence_refs c) → v2_canonical_bytes c = Ok bs →
  v2_canonical_bytes (v2_with_evidence c l) = Ok bs ∧
  v2_id (v2_with_evidence c l) = v2_id c ∧
  v2_from_canonical_bytes bs = Ok (v2_with_evidence c (canonical_evidence_refs c)).
Proof.
  intros Hwf Hl Hbs. pose proof Hbs as [Hv ->]%v2_canonical_bytes_Ok; [|done].
  destruct (v2_with_evidence_same c l Hl) as (Hwf' & Hv' & Hbody).
  assert (v2_canonical_bytes (v2_with_evidence c l) = Ok (COMMIT_V2_HEADER ++ v2_body c)) as Hb'.
  { apply v2_canonical_bytes_Ok; [auto|]. rewrite Hbody. auto. }
  split_and!; [done|unfold v2_id; by rewrite Hbs, Hb'|].
  rewrite canonical_evidence_collect.
  destruct (v2_with_evidence_same c (bts_collect (v2_evidence_refs c))) as (Hwc & Hvc & <-).
  { intros e. apply elem_of_bts_collect. }
  apply v2_decode_body; [auto|auto|]. apply bts_collect_ascending.
Qed.
End codec_v2.

(** ** Version dispatch *)
Section dispatch.
Context `{TimeCrateOk}.

(** A commit as the decoders return it. *)
Definition any_wf (c : AnyCommit) : Prop :=
  match c with
  | V1 c => commit_wf c
  | V2 c => v2_wf c ∧ ascending (v2_evidence_refs c)
  end.

Lemma v1_bytes_header c bs :
  commit_canonical_bytes c = Ok bs → starts_with COMMIT_V1_HEADER bs = true.
Proof.
  intros (_ & _ & _ & ->)%commit_canonical_bytes_Ok. apply starts_with_true. by eexists.
Qed.

Lemma v2_bytes_header c bs : v2_wf c → v2_canonical_bytes c = Ok bs →
  starts_with COMMIT_V1_HEADER bs = false ∧ starts_with COMMIT_V2_HEADER bs = true.
Proof.
  intros Hwf [_ ->]%v2_canonical_bytes_Ok; [|done]. split.
  - reflexivity.
  - apply starts_with_true. by eexists.
Qed.

Lemma any_decode_exact bs c :
  any_from_canonical_bytes bs = Ok c ↔ any_wf c ∧ any_canonical_bytes c = Ok bs.
Proof.
  unfold any_from_canonical_bytes. split.
  - intros Hd. destruct (starts_with COMMIT_V1_HEADER bs).
    { inv_res. by apply commit_v1_exact in E. }
    destruct (starts_with COMMIT_V2_HEADER bs); [|done]. inv_res.
    apply v2_exact in E. simpl. naive_solver.
  - destruct c as [c|c]; cbn [any_wf any_canonical_bytes].
    + intros [Hwf Hb]. rewrite (v1_bytes_header c bs Hb).
      rewrite (proj2 (commit_v1_exact bs c)) by done. done.
    + intros [[Hwf Ha] Hb]. destruct (v2_bytes_header c bs Hwf Hb) as [-> ->].
      rewrite (proj2 (v2_exact bs c)) by done. done.
Qed.

(** The identifier of a decoded commit is the content identifier of the bytes decoded. *)
Lemma any_id_bytes `{Sha256} bs c :
  any_canonical_bytes c = Ok bs → any_id c = Ok (mkCommitId (for_bytes bs)).
Proof. destruct c; cbn; intros Hb; unfold commit_id, v2_id; by rewrite Hb. Qed.

(** C1. Both commit envelope codecs are exact, behind one version dispatch: the decoder
    accepts a byte string if and only if it is the canonical encoding of a well-formed v1
    commit or of a well-formed v2 commit with strictly ascending evidence, and then returns
    that commit (parents in order, actor, optional fields, timestamps, message). Decoding
    inverts encoding, encoding is injective on what decodes, re-hashing a decoded commit
    gives the content identifier of the very bytes read, and bytes with any other header
    are refused as an unknown version rather than reinterpreted. *)
Theorem commit_codec_exact `{Sha256} (bs : bytes) :
  (∀ c, any_from_canonical_bytes bs = Ok c ↔ any_wf c ∧ any_canonical_bytes c = Ok bs) ∧
  (∀ c, any_from_canonical_bytes bs = Ok c → any_id c = Ok (mkCommitId (for_bytes bs))) ∧
  (starts_with COMMIT_V1_HEADER bs = false → starts_with COMMIT_V2_HEADER bs = false →
   ∃ shown, any_from_canonical_bytes bs = Err (UnknownCommitVersion shown)).
Proof.
  split_and!.
  - intros c. apply any_decode_exact.
  - intros c [_ Hb]%any_decode_exact. by apply any_id_bytes.
  - intros Hv1 Hv2. unfold any_from_canonical_bytes. rewrite Hv1, Hv2. by eexists.
Qed.
End dispatch.
