(* ===== verification/Rdf.v ===== *)
(** * RDF states, patches, diffs and effective deltas

    Sources: [crates/ledger-rdf/src/lib.rs], [diff.rs], [effective_delta.rs]. The N-Quads
    parser and the terms are code of the [oxttl] and [oxrdf] crates: the class [OxRdf] lists the
    operations the ledger calls, and [OxRdfOk] what it relies on. *)

From Stdlib Require Import ZArith Lia String Strings.Byte.
From stdpp Require Import base gmap countable list.
From S2P Require Import Prelude BTree Bytes Text Core.

Local Open Scope ledger_scope.

(** ** The RDF crates *)
Class OxRdf := {
  OxQuad : Type;
  (** What iterating [NQuadsParser::new().for_slice(_)] yields; [None] is a syntax error. *)
  nquads_items : bytes → list (option OxQuad);
  ox_subject_blank : OxQuad → bool;
  ox_object_blank : OxQuad → bool;
  ox_graph_blank : OxQuad → bool;
  ox_graph_default : OxQuad → bool;
  (** [Display] of the terms and of the quad. *)
  ox_subject : OxQuad → bytes;
  ox_predicate : OxQuad → bytes;
  ox_object : OxQuad → bytes;
  ox_graph : OxQuad → bytes;
  ox_show : OxQuad → bytes
}.

(** ** Quads *)
Inductive RdfError :=
  | InvalidQuad (reason : bytes)
  | BlankNode
  | ConflictingOperation (quad : bytes)
  | InvalidPatchEncoding (reason : string).

(** [struct Quad(String)] *)
Record Quad := mkQuad { quad_str : bytes }.

#[export] Instance Quad_eq_dec : EqDecision Quad.
Proof. solve_decision. Defined.
#[export] Program Instance Quad_countable : Countable Quad :=
  inj_countable quad_str (λ s, Some (mkQuad s)) _.
Next Obligation. by intros []. Qed.
#[export] Instance Quad_ord : Ord Quad.
Proof. apply (ord_via quad_str). intros [x] [y]; simpl; congruence. Defined.

Section quad.
Context `{OxRdf}.

(** [<Quad as FromStr>::from_str] *)
Definition quad_from_str (v : bytes) : result RdfError Quad :=
  match nquads_items v with
  | [] => Err (InvalidQuad v)
  | None :: _ => Err (InvalidQuad (B "syntax error"))
  | Some quad :: rest =>
      match rest with
      | _ :: _ => Err (InvalidQuad (B "expected exactly one quad"))
      | [] =>
          if ox_subject_blank quad || ox_object_blank quad || ox_graph_blank quad
          then Err BlankNode
          else Ok (mkQuad (ox_show quad ++ B " ."))
      end
  end.

(** [Quad::default_graph_triple] *)
Definition default_graph_triple (q : Quad) : result RdfError (option bytes) :=
  match nquads_items (quad_str q) with
  | [] => Ok None
  | None :: _ => Panic "a Quad holds one canonical N-Quad"
  | Some quad :: _ =>
      if ox_graph_default quad
      then Ok (Some (ox_subject quad ++ B " " ++ ox_predicate quad ++ B " " ++
                     ox_object quad ++ B " ."))
      else Ok None
  end.
End quad.

(** [struct StructuralKey] *)
Record StructuralKey := mkKey {
  key_graph : option bytes;
  key_subject : bytes;
  key_predicate : bytes
}.

#[export] Instance StructuralKey_eq_dec : EqDecision StructuralKey.
Proof. solve_decision. Defined.
#[export] Instance StructuralKey_ord : Ord StructuralKey.
Proof.
  apply (ord_via (λ k, (key_graph k, (key_subject k, key_predicate k)))).
  intros [] []; simpl; congruence.
Defined.

(** [Display] of a structural key *)
Definition key_str (k : StructuralKey) : bytes :=
  match key_graph k with
  | Some g => key_subject k ++ B " " ++ key_predicate k ++ B " " ++ g
  | None => key_subject k ++ B " " ++ key_predicate k
  end.

(** [Quad::structural_key] *)
Definition structural_key `{OxRdf} (q : Quad) : result RdfError StructuralKey :=
  match nquads_items (quad_str q) with
  | Some quad :: _ =>
      Ok (mkKey (if negb (ox_graph_default quad) then Some (ox_graph quad) else None)
                (ox_subject quad) (ox_predicate quad))
  | _ => Panic "a Quad holds one canonical N-Quad"
  end.

(** ** States *)
(** [BTreeSet<Quad>] *)
Abbreviation state := (list Quad).

Definition STATE_V1_HEADER : bytes := B "sculpin-rdf-state/v1" ++ [LF].

(** [canonical_state_bytes] *)
Definition canonical_state_bytes (s : state) : bytes :=
  fold_left (λ out q, out ++ quad_str q ++ [LF]) s STATE_V1_HEADER.

(** [state_digest] *)
Definition state_digest `{Sha256} (s : state) : ContentId := for_bytes (canonical_state_bytes s).

(** ** Patches *)
Inductive OperationKind := Add | Delete.
#[export] Instance OperationKind_eq_dec : EqDecision OperationKind.
Proof. solve_decision. Defined.

Record Operation := mkOp { op_kind : OperationKind; op_quad : Quad }.
#[export] Instance Operation_eq_dec : EqDecision Operation.
Proof. solve_decision. Defined.
(** The derived order: kinds in declaration order first, then the quad. *)
#[export] Instance Operation_ord : Ord Operation.
Proof.
  apply (ord_via (λ o, (match op_kind o with Add => 0 | Delete => 1 end, op_quad o))).
  intros [[] ?] [[] ?]; simpl; congruence.
Defined.

(** [struct Patch]: the operations behind the private field. *)
Record Patch := mkPatch { operations : list Operation }.
#[export] Instance Patch_eq_dec : EqDecision Patch.
Proof. solve_decision. Defined.

(** The loop of [Patch::new] over the sorted operations. *)
Fixpoint check_conflicts (seen : list (Quad * OperationKind)) (ops : list Operation)
    : result RdfError unit :=
  match ops with
  | [] => Ok tt
  | op :: ops =>
      let previous := btm_get (op_quad op) seen in
      let seen := btm_upsert (λ _, op_kind op) (op_quad op) seen in
      if match previous with Some k => negb (bool_decide (k = op_kind op)) | None => false end
      then Err (ConflictingOperation (quad_str (op_quad op)))
      else check_conflicts seen ops
  end.

(** [Patch::new] *)
Definition patch_new (ops : list Operation) : result RdfError Patch :=
  let sorted := bts_collect ops in
  check_conflicts [] sorted ;; Ok (mkPatch sorted).

Definition PATCH_HEADER : bytes := B "sculpin-rdf-patch-v1" ++ [LF].

Definition op_tag (k : OperationKind) : byte :=
  match k with Add => "A"%byte | Delete => "D"%byte end.

(** [Patch::canonical_bytes] *)
Definition patch_canonical_bytes (p : Patch) : bytes :=
  fold_left (λ out op, out ++ [op_tag (op_kind op)] ++ B " " ++ quad_str (op_quad op) ++ [LF])
    (operations p) PATCH_HEADER.

(** [Patch::id] *)
Definition patch_id_of `{Sha256} (p : Patch) : PatchId :=
  mkPatchId (for_bytes (patch_canonical_bytes p)).

(** One line of a patch body. *)
Definition parse_operation `{OxRdf} (line : bytes) : result RdfError Operation :=
  '(tag, q) ← ok_or (split_once " "%byte line) (InvalidPatchEncoding "operation missing separator");
  kind ← (if bool_decide (tag = B "A") then Ok Add
          else if bool_decide (tag = B "D") then Ok Delete
          else Err (InvalidPatchEncoding "unknown operation"));
  quad ← quad_from_str q;
  Ok (mkOp kind quad).

(** [Patch::from_canonical_bytes] *)
Definition patch_from_canonical_bytes `{OxRdf} (bs : bytes) : result RdfError Patch :=
  ensure (utf8_valid bs) (InvalidPatchEncoding "non-UTF-8") ;;
  body ← ok_or (strip_prefix PATCH_HEADER bs) (InvalidPatchEncoding "unknown header");
  ops ← collect parse_operation (lines body);
  patch ← patch_new ops;
  if negb (bool_decide (patch_canonical_bytes patch = bs))
  then Err (InvalidPatchEncoding "bytes are not canonical")
  else Ok patch.

(** [apply_patch] *)
Definition apply_op (s : state) (op : Operation) : state :=
  match op_kind op with
  | Add => bts_insert (op_quad op) s
  | Delete => bts_remove (op_quad op) s
  end.

Definition apply_patch (s : state) (p : Patch) : state := fold_left apply_op (operations p) s.

(** ** Diffs *)
Record StateDiff := mkDiff { deletes : state; adds : state }.

Record DiffSummary := mkSummary {
  sum_adds : nat; sum_deletes : nat; sum_affected_keys : nat; sum_affected_subjects : nat
}.

(** [diff] *)
Definition diff (a b : state) : StateDiff :=
  mkDiff (bts_difference a b) (bts_difference b a).

(** [StateDiff::is_empty] *)
Definition diff_is_empty (d : StateDiff) : bool :=
  bool_decide (adds d = []) && bool_decide (deletes d = []).

(** [StateDiff::affected_keys] *)
Definition affected_keys `{OxRdf} (d : StateDiff) : result RdfError (list StructuralKey) :=
  keys ← collect structural_key (deletes d ++ adds d); Ok (bts_collect keys).

(** [StateDiff::affected_subjects] *)
Definition affected_subjects `{OxRdf} (d : StateDiff)
    : result RdfError (list (option bytes * bytes)) :=
  keys ← affected_keys d; Ok (bts_collect ((λ k, (key_graph k, key_subject k)) <$> keys)).

(** [StateDiff::summary] *)
Definition diff_summary `{OxRdf} (d : StateDiff) : result RdfError DiffSummary :=
  keys ← affected_keys d;
  subjects ← affected_subjects d;
  Ok (mkSummary (length (adds d)) (length (deletes d)) (length keys) (length subjects)).

(** [StateDiff::to_patch] *)
Definition to_patch (d : StateDiff) : result RdfError Patch :=
  expect (E:=RdfError)
    (patch_new ((mkOp Delete <$> deletes d) ++ (mkOp Add <$> adds d)))
    "adds and deletes of a set difference are disjoint".

(** ** Effective deltas *)
Inductive DeltaPolicy := Strict | Permissive.

Inductive DeltaError :=
  | BaseMismatchQuad (q : Quad)
  | NoEffectiveDelta.

(** The loop of [effective_delta]: the operations kept, in order. *)
Fixpoint keep_effective (base : state) (policy : DeltaPolicy) (ops : list Operation)
    : result DeltaError (list Operation) :=
  match ops with
  | [] => Ok []
  | op :: ops =>
      match op_kind op, bts_contains (op_quad op) base with
      | Add, true => keep_effective base policy ops
      | Add, false => kept ← keep_effective base policy ops; Ok (op :: kept)
      | Delete, true => kept ← keep_effective base policy ops; Ok (op :: kept)
      | Delete, false =>
          match policy with
          | Strict => Err (BaseMismatchQuad (op_quad op))
          | Permissive => keep_effective base policy ops
          end
      end
  end.

(** [effective_delta] *)
Definition effective_delta (base : state) (requested : Patch) (policy : DeltaPolicy)
    : result DeltaError Patch :=
  kept ← keep_effective base policy (operations requested);
  if bool_decide (kept = []) then Err NoEffectiveDelta
  else expect (E:=RdfError) (patch_new kept) "a subset of a normalized patch is conflict-free".

#[global] Arguments quad_from_str : simpl never.
#[global] Arguments patch_new : simpl never.
#[global] Arguments PATCH_HEADER : simpl never.
#[global] Arguments STATE_V1_HEADER : simpl never.
#[global] Arguments parse_operation : simpl never.

(** What the ledger relies on of the RDF crates: the canonical form of a quad the parser
    yielded parses back to that quad alone, is one line, and is UTF-8; a default-graph quad
    displays as its three terms. *)
Class OxRdfOk `{OxRdf} : Prop := {
  ox_show_parse s q : Some q ∈ nquads_items s → nquads_items (ox_show q ++ B " .") = [Some q];
  ox_show_line s q : Some q ∈ nquads_items s → LF ∉ ox_show q ∧ CR ∉ ox_show q;
  ox_show_utf8 s q : Some q ∈ nquads_items s → utf8_valid (ox_show q) = true;
  ox_show_default s q : Some q ∈ nquads_items s → ox_graph_default q = true →
    ox_show q = ox_subject q ++ B " " ++ ox_predicate q ++ B " " ++ ox_object q
}.

(** The invariant of [Quad]: it came out of [from_str]. *)
Definition quad_wf `{OxRdf} (q : Quad) : Prop := quad_from_str (quad_str q) = Ok q.

Section quad_facts.
Context `{OxRdfOk}.

Lemma quad_from_str_inv v q : quad_from_str v = Ok q →
  ∃ ox, nquads_items v = [Some ox] ∧ q = mkQuad (ox_show ox ++ B " .") ∧
        ox_subject_blank ox = false ∧ ox_object_blank ox = false ∧ ox_graph_blank ox = false.
Proof.
  unfold quad_from_str. destruct (nquads_items v) as [|[ox|] [|]]; try done.
  destruct (ox_subject_blank ox) eqn:?, (ox_object_blank ox) eqn:?,
    (ox_graph_blank ox) eqn:?; try done. intros [= <-]. eauto 10.
Qed.

(** A parsed quad re-parses to itself. *)
Lemma quad_from_str_wf v q : quad_from_str v = Ok q → quad_wf q.
Proof.
  intros (ox & Hv & -> & Hs & Ho & Hg)%quad_from_str_inv. unfold quad_wf, quad_from_str. simpl.
  rewrite (ox_show_parse v ox) by (rewrite Hv; left). by rewrite Hs, Ho, Hg.
Qed.

Lemma quad_wf_items q : quad_wf q → ∃ ox, nquads_items (quad_str q) = [Some ox] ∧
  quad_str q = ox_show ox ++ B " .".
Proof. intros (ox & Hv & -> & _)%quad_from_str_inv. eauto. Qed.

Lemma quad_wf_line q : quad_wf q → LF ∉ quad_str q ∧ CR ∉ quad_str q.
Proof.
  intros (ox & Hv & Hq)%quad_wf_items. rewrite Hq.
  destruct (ox_show_line (quad_str q) ox) as [? ?]; [rewrite Hv; left|].
  assert (LF ∉ B " ." ∧ CR ∉ B " .") as [? ?] by (split; vm_compute; by intros [|[|[]%not_elem_of_nil]%elem_of_cons]%elem_of_cons).
  rewrite !not_elem_of_app. done.
Qed.

Lemma quad_wf_utf8 q : quad_wf q → utf8_valid (quad_str q) = true.
Proof.
  intros (ox & Hv & Hq)%quad_wf_items. rewrite Hq.
  apply utf8_valid_app; [|done]. apply (ox_show_utf8 (quad_str q)). rewrite Hv. left.
Qed.

Lemma structural_key_total q : quad_wf q → ∃ k, structural_key q = Ok k.
Proof. intros (ox & Hv & _)%quad_wf_items. unfold structural_key. rewrite Hv. eauto. Qed.

(** A default-graph quad is its own triple statement; a named-graph quad has none. *)
Lemma default_graph_triple_total q : quad_wf q →
  default_graph_triple q = Ok (Some (quad_str q)) ∨ default_graph_triple q = Ok None.
Proof.
  intros (ox & Hv & Hq)%quad_wf_items. unfold default_graph_triple. rewrite Hv.
  destruct (ox_graph_default ox) eqn:Hd; [left|by right].
  rewrite Hq, (ox_show_default (quad_str q) ox) by (rewrite ?Hv; done || left).
  by rewrite <-!app_assoc.
Qed.
End quad_facts.

(** ** Lines *)
(** A list of one-line records written one after another. *)
Definition write_lines (ls : list bytes) : bytes := concat (map (λ l, l ++ [LF]) ls).

Definition one_line (l : bytes) : Prop := LF ∉ l ∧ CR ∉ l.

Lemma lines_write ls : Forall one_line ls → lines (write_lines ls) = ls.
Proof.
  induction ls as [|l ls IH]; intros Hls; [done|]. apply Forall_cons in Hls as [[Hlf Hcr] Hls].
  unfold write_lines; cbn [map concat]. fold (write_lines ls).
  rewrite <-app_assoc. cbn [app]. rewrite lines_cons by done. by rewrite IH.
Qed.

Lemma fold_write_lines {A} (f : A → bytes) l out :
  fold_left (λ out a, out ++ f a ++ [LF]) l out = out ++ write_lines (map f l).
Proof.
  revert out. induction l as [|a l IH]; intros out; cbn [fold_left map].
  { by rewrite app_nil_r. }
  rewrite IH. unfold write_lines; cbn [map concat]. by rewrite <-!app_assoc.
Qed.

(** ** Patches *)
Definition conflict_free (ops : list Operation) : Prop :=
  ∀ q, ¬ (mkOp Add q ∈ ops ∧ mkOp Delete q ∈ ops).

Section patch_facts.

Lemma conflict_free_subset ops ops' :
  (∀ o, o ∈ ops → o ∈ ops') → conflict_free ops' → conflict_free ops.
Proof. intros Hsub Hc q [? ?]. apply (Hc q). split; auto. Qed.

(** [seen] maps every quad of the operations visited so far to its kind. *)
Lemma check_conflicts_spec seen ops : btm_ascending seen →
  check_conflicts seen ops = Ok tt ↔
    (∀ o k, o ∈ ops → btm_get (op_quad o) seen = Some k → k = op_kind o) ∧ conflict_free ops.
Proof.
  revert seen. induction ops as [|op ops IH]; intros seen Hs; cbn [check_conflicts].
  { split; [|done]. intros _. split; [intros ?? []%not_elem_of_nil|].
    intros q [[]%not_elem_of_nil _]. }
  pose proof (btm_upsert_ascending (λ _, op_kind op) (op_quad op) seen Hs) as Hs'.
  assert (∀ o k, btm_get (op_quad o) (btm_upsert (λ _, op_kind op) (op_quad op) seen) = Some k ↔
    (op_quad o = op_quad op ∧ k = op_kind op) ∨
    (op_quad o ≠ op_quad op ∧ btm_get (op_quad o) seen = Some k)) as Hget.
  { intros o k. rewrite btm_get_upsert by done.
    destruct (cmp_cases (op_quad o) (op_quad op)) as [[Heq ->]|[[Hlt ->]|[Hlt ->]]].
    - naive_solver.
    - apply lt_of_ne in Hlt. split; [by right|]. intros [[? _]|[_ ?]]; [done|done].
    - apply lt_of_ne in Hlt. split; [by right|]. intros [[? _]|[_ ?]]; [by destruct Hlt|done]. }
  destruct (match btm_get (op_quad op) seen with Some k => _ | None => _ end) eqn:Hp.
  { split; [done|]. intros [Hk _]. destruct (btm_get (op_quad op) seen) as [k|] eqn:Hg; [|done].
    rewrite (Hk op k ltac:(left) Hg) in Hp. by rewrite bool_decide_eq_true_2 in Hp. }
  rewrite (IH _ Hs'). split.
  - intros [Hk Hc]. split.
    + intros o k [->|Ho]%elem_of_cons Hg.
      * rewrite Hg in Hp. bool_prop. done.
      * destruct (decide (op_quad o = op_quad op)) as [Heq|Hne].
        -- rewrite Heq in Hg. rewrite Hg in Hp. bool_prop. subst k.
           apply (Hk o _ Ho). apply Hget. by left.
        -- apply (Hk o k Ho). apply Hget. by right.
    + intros q [[Ha|Ha]%elem_of_cons [Hd|Hd]%elem_of_cons].
      * congruence.
      * assert (Add = Delete); [|done]. apply (Hk (mkOp Delete q) Add Hd). apply Hget. rewrite <-Ha. by left.
      * assert (Delete = Add); [|done]. apply (Hk (mkOp Add q) Delete Ha). apply Hget. rewrite <-Hd. by left.
      * by apply (Hc q).
  - intros [Hk Hc]. split; [|eapply conflict_free_subset; [|exact Hc]; by right].
    intros o k Ho [[Heq ->]|[_ Hg]]%Hget; [|eapply Hk; [by right|done]].
    destruct o as [ko qo], op as [kp qp]. simpl in *. subst qo.
    destruct kp, ko; try done; exfalso; apply (Hc qp); rewrite !elem_of_cons; auto.
Qed.

Lemma patch_new_Ok ops p :
  patch_new ops = Ok p ↔ conflict_free ops ∧ operations p = bts_collect ops.
Proof.
  unfold patch_new. rewrite bind_Ok.
  assert (conflict_free (bts_collect ops) ↔ conflict_free ops) as Hcf.
  { unfold conflict_free. by setoid_rewrite elem_of_bts_collect. }
  assert (btm_ascending (@nil (Quad * OperationKind))) as Hnil by apply ascending_nil.
  split.
  - intros ([] & Hc & [= <-]). apply check_conflicts_spec in Hc as [_ ?]; [|done]. by rewrite <-Hcf.
  - intros [Hc Ho]. exists tt. split; [|by destruct p; simpl in *; subst].
    apply check_conflicts_spec; [done|]. split; [done|by apply Hcf].
Qed.

Lemma patch_new_no_panic ops m : patch_new ops ≠ Panic m.
Proof.
  unfold patch_new. generalize (bts_collect ops) at 1 as l, (@nil (Quad * OperationKind)) as seen.
  intros l. induction l as [|op l IH]; intros seen; cbn [check_conflicts rbind]; [done|].
  destruct (match btm_get _ _ with Some _ => _ | None => _ end); [done|]. apply IH.
Qed.

(** [patch_new] fails exactly on conflicting requests. *)
Lemma patch_new_conflict ops :
  conflict_free ops ∨ ∃ q, patch_new ops = Err (ConflictingOperation q).
Proof.
  destruct (patch_new ops) as [p|e|m] eqn:E.
  - left. by apply patch_new_Ok in E as [? _].
  - right. unfold patch_new in E. revert E.
    generalize (bts_collect ops) at 1 as l, (@nil (Quad * OperationKind)) as seen.
    intros l. induction l as [|op l IH]; intros seen; cbn [check_conflicts rbind]; [done|].
    destruct (match btm_get _ _ with Some _ => _ | None => _ end).
    + intros [= <-]. by eexists.
    + apply IH.
  - by destruct (patch_new_no_panic ops m).
Qed.
End patch_facts.

(** ** The patch codec *)
Section patch_codec.
Context `{OxRdf}.

Definition op_line (o : Operation) : bytes := op_tag (op_kind o) :: B " " ++ quad_str (op_quad o).

Lemma patch_canonical_bytes_lines p :
  patch_canonical_bytes p = PATCH_HEADER ++ write_lines (map op_line (operations p)).
Proof.
  unfold patch_canonical_bytes. rewrite <-fold_write_lines. generalize PATCH_HEADER.
  induction (operations p) as [|o ops IH]; intros out; [done|]. cbn [fold_left]. by rewrite IH.
Qed.

(** The invariant of [Patch] as [new] establishes it. *)
Record patch_wf (p : Patch) : Prop := {
  patch_wf_ascending : ascending (operations p);
  patch_wf_free : conflict_free (operations p);
  patch_wf_quads : Forall (λ o, quad_wf (op_quad o)) (operations p)
}.

Lemma patch_new_wf ops p : Forall (λ o, quad_wf (op_quad o)) ops → patch_new ops = Ok p → patch_wf p.
Proof.
  intros Hq [Hc Ho]%patch_new_Ok. split; rewrite Ho.
  - apply bts_collect_ascending.
  - eapply conflict_free_subset; [|exact Hc]. intros o. by rewrite elem_of_bts_collect.
  - rewrite Forall_forall in *. intros o. rewrite elem_of_bts_collect. auto.
Qed.

Lemma patch_new_id p : patch_wf p → patch_new (operations p) = Ok p.
Proof.
  intros [Ha Hc _]. apply patch_new_Ok. split; [done|]. by rewrite bts_collect_id.
Qed.

Context `{!OxRdfOk}.

Lemma op_line_one_line o : quad_wf (op_quad o) → one_line (op_line o).
Proof.
  intros [Hlf Hcr]%quad_wf_line. unfold one_line, op_line.
  change (B " ") with [" "%byte]. cbn [app].
  rewrite !not_elem_of_cons. destruct (op_kind o); split_and!; done.
Qed.

Lemma parse_operation_line o : quad_wf (op_quad o) → parse_operation (op_line o) = Ok o.
Proof.
  intros Hq. unfold parse_operation, op_line.
  change (op_tag (op_kind o) :: B " " ++ quad_str (op_quad o))
    with ([op_tag (op_kind o)] ++ " "%byte :: quad_str (op_quad o)).
  rewrite split_once_app.
  2: { rewrite list_elem_of_singleton. by destruct (op_kind o). }
  run_res. unfold quad_wf in Hq. rewrite Hq.
  destruct o as [[] q]; run_res; [done|]. by rewrite bool_decide_eq_false_2.
Qed.

Lemma parse_operation_wf l o : parse_operation l = Ok o → quad_wf (op_quad o).
Proof.
  unfold parse_operation. intros Hp. inv_res. destruct a as [tag q]. inv_res.
  by apply quad_from_str_wf in E1.
Qed.

Lemma write_lines_utf8 ls :
  Forall (λ l, utf8_valid l = true) ls → utf8_valid (write_lines ls) = true.
Proof.
  induction 1 as [|l ls Hl Hls IH]; [done|]. unfold write_lines; cbn [map concat].
  fold (write_lines ls). by apply utf8_valid_app; [apply utf8_valid_app|].
Qed.

Lemma patch_canonical_bytes_utf8 p : patch_wf p → utf8_valid (patch_canonical_bytes p) = true.
Proof.
  intros [_ _ Hq]. rewrite patch_canonical_bytes_lines. apply utf8_valid_app; [done|].
  apply write_lines_utf8, Forall_map. eapply Forall_weaken; [exact Hq|].
  intros o Ho%quad_wf_utf8. unfold op_line. apply (utf8_valid_app [_]); [by destruct (op_kind o)|].
  by apply utf8_valid_app.
Qed.

(** C3. The patch codec is exact: [from_canonical_bytes] accepts a byte string if and only if
    it is the canonical serialisation of a normalised patch (operations strictly ascending, no
    quad both added and deleted, every quad canonical), and returns that patch. Decoding
    inverts encoding, and a byte string with unsorted, duplicated, conflicting or
    non-canonical lines, CRLF endings or a missing final newline is never accepted. *)
Theorem patch_codec_exact (bs : bytes) (p : Patch) :
  patch_from_canonical_bytes bs = Ok p ↔ patch_wf p ∧ patch_canonical_bytes p = bs.
Proof.
  unfold patch_from_canonical_bytes. split.
  - intros Hd. inv_res. case_bool_decide as Hbs; [|done]. cbn [negb] in Hd. inv_res.
    split; [|done]. eapply patch_new_wf; [|exact E2]. apply collect_Ok in E1.
    apply Forall_forall. intros o [i Hi]%list_elem_of_lookup.
    destruct (Forall2_lookup_r _ _ _ _ _ E1 Hi) as (l & _ & Hl).
    by apply parse_operation_wf in Hl.
  - intros [Hwf <-]. rewrite (patch_canonical_bytes_utf8 p Hwf). run_res.
    rewrite patch_canonical_bytes_lines, strip_prefix_app. run_res.
    pose proof Hwf as [_ _ Hq].
    rewrite lines_write by (apply Forall_map; eapply Forall_weaken; [exact Hq|]; intros; by apply op_line_one_line).
    rewrite (proj2 (collect_Ok parse_operation _ (operations p))).
    2: { apply Forall2_fmap_l. apply Forall_Forall2_diag. eapply Forall_weaken; [exact Hq|].
         intros o. apply parse_operation_line. }
    run_res. rewrite patch_new_id by done. run_res.
    rewrite bool_decide_eq_true_2 by (by rewrite patch_canonical_bytes_lines). done.
Qed.

(** C4. [canonical_state_bytes] identifies a dataset: two sets of canonical quads with the same
    canonical bytes are equal, whatever order their quads were inserted in. *)
Theorem canonical_state_bytes_injective (s1 s2 : list Quad) :
  Forall quad_wf s1 → Forall quad_wf s2 →
  canonical_state_bytes (bts_collect s1) = canonical_state_bytes (bts_collect s2) ↔
  (∀ q, q ∈ s1 ↔ q ∈ s2).
Proof.
  intros H1 H2.
  assert (∀ s, canonical_state_bytes s = STATE_V1_HEADER ++ write_lines (map quad_str s)) as Hcb.
  { intros s. apply fold_write_lines. }
  assert (∀ s, Forall quad_wf s → Forall one_line (map quad_str (bts_collect s))) as Hol.
  { intros s Hs. apply Forall_map, Forall_forall. intros q. rewrite elem_of_bts_collect.
    rewrite Forall_forall in Hs. intros Hin. apply quad_wf_line. auto. }
  split.
  - rewrite !Hcb. intros Heq%app_inv_head%(f_equal lines) q.
    rewrite !lines_write in Heq by auto.
    assert (Inj eq eq quad_str) by (intros [] []; simpl; congruence).
    apply (inj (fmap quad_str)) in Heq.
    by rewrite <-(elem_of_bts_collect q s1), Heq, elem_of_bts_collect.
  - intros Hset. by rewrite (bts_collect_ext s1 s2 Hset).
Qed.
End patch_codec.

(** ** Applying patches *)
Section apply_facts.

(** An operation that changes the state it is applied to. *)
Definition changes (base : state) (o : Operation) : Prop :=
  match op_kind o with Add => op_quad o ∉ base | Delete => op_quad o ∈ base end.

#[export] Instance changes_dec base o : Decision (changes base o).
Proof. unfold changes. destruct (op_kind o); apply _. Defined.

Lemma apply_op_ascending s o : ascending s → ascending (apply_op s o).
Proof. unfold apply_op. destruct (op_kind o); auto using bts_insert_ascending, bts_remove_ascending. Qed.

Lemma apply_ops_ascending ops s : ascending s → ascending (fold_left apply_op ops s).
Proof. revert s. induction ops; simpl; auto using apply_op_ascending. Qed.

Lemma apply_patch_ascending s p : ascending s → ascending (apply_patch s p).
Proof. apply apply_ops_ascending. Qed.

Lemma elem_of_apply_ops ops s q : ascending s → conflict_free ops →
  q ∈ fold_left apply_op ops s ↔ mkOp Add q ∈ ops ∨ (q ∈ s ∧ mkOp Delete q ∉ ops).
Proof.
  revert s. induction ops as [|[k r] ops IH]; intros s Hs Hc; cbn [fold_left].
  { split; [intros; right; split; [done|by apply not_elem_of_nil]|]. intros [[]%not_elem_of_nil|[? _]]. done. }
  assert (conflict_free ops) as Hc' by (eapply conflict_free_subset; [|exact Hc]; by right).
  rewrite (IH (apply_op s (mkOp k r))) by auto using apply_op_ascending.
  pose proof (Hc r) as Hr. rewrite !elem_of_cons in Hr. rewrite !elem_of_cons.
  unfold apply_op. destruct k; cbn [op_kind op_quad].
  - rewrite elem_of_bts_insert. destruct (decide (q = r)) as [->|Hne].
    + assert (mkOp Delete r ∉ ops) by tauto. split; [tauto|]. intros _. right. tauto.
    + assert (mkOp Add q ≠ mkOp Add r) by congruence.
      assert (mkOp Delete q ≠ mkOp Add r) by congruence. tauto.
  - rewrite elem_of_bts_remove by done. destruct (decide (q = r)) as [->|Hne].
    + assert (mkOp Add r ≠ mkOp Delete r) by congruence. tauto.
    + assert (mkOp Add q ≠ mkOp Delete r) by congruence.
      assert (mkOp Delete q ≠ mkOp Delete r) by congruence. tauto.
Qed.

Lemma keep_effective_spec base policy ops : ascending base →
  match keep_effective base policy ops with
  | Ok kept => kept = filter (changes base) ops ∧
      (policy = Strict → ∀ q, mkOp Delete q ∈ ops → q ∈ base)
  | Err (BaseMismatchQuad q) => policy = Strict ∧ mkOp Delete q ∈ ops ∧ q ∉ base
  | Err NoEffectiveDelta => False
  | Panic _ => False
  end.
Proof.
  intros Hb. induction ops as [|[k q] ops IH]; cbn [keep_effective op_kind op_quad].
  { split; [done|]. intros _ q []%not_elem_of_nil. }
  rewrite filter_cons. unfold changes at 1; cbn [op_kind op_quad].
  destruct k, (bts_contains q base) eqn:Hq;
    [apply bts_contains_spec in Hq|apply bts_contains_false in Hq
    |apply bts_contains_spec in Hq|apply bts_contains_false in Hq]; try done.
  all: destruct policy; try (destruct (keep_effective base _ ops) as [kept|[q'|]|m]); cbn [rbind].
  all: try (destruct IH as (? & ? & ?); split_and!; [done|by right|done]); try done.
  all: try (split_and!; [done|left|done]).
  all: destruct IH as [-> IH]; first [rewrite decide_True by auto|rewrite decide_False by auto].
  all: split; [done|]; intros Hp q0 [Heq|Hin]%elem_of_cons; [by simplify_eq|by apply IH].
Qed.
End apply_facts.

(** ** Effective deltas and diffs *)
Section delta_facts.
Context `{OxRdf}.

(** A subset of a normalised patch, in the same order, is itself normalised. *)
Lemma patch_wf_filter p base : patch_wf p →
  patch_wf (mkPatch (filter (changes base) (operations p))).
Proof.
  intros [Ha Hc Hq]. split; simpl.
  - by apply ascending_filter.
  - eapply conflict_free_subset; [|exact Hc]. by intros o [_ ?]%list_elem_of_filter.
  - rewrite Forall_forall in *. intros o [_ ?]%list_elem_of_filter. auto.
Qed.

Lemma effective_delta_eq base p policy : ascending base → patch_wf p →
  effective_delta base p policy =
    match keep_effective base policy (operations p) with
    | Ok kept => if bool_decide (kept = []) then Err NoEffectiveDelta else Ok (mkPatch kept)
    | r => kept ← r; Ok (mkPatch kept)
    end.
Proof.
  intros Hb Hp. unfold effective_delta. pose proof (keep_effective_spec base policy (operations p) Hb) as Hk.
  destruct (keep_effective base policy (operations p)) as [kept|e|m]; [|done|done].
  destruct Hk as [-> _]. run_res. case_bool_decide; [done|].
  change (filter (changes base) (operations p))
    with (operations (mkPatch (filter (changes base) (operations p)))) at 1.
  rewrite patch_new_id by (by apply patch_wf_filter). done.
Qed.

(** Dropping no-ops does not change what a patch does. *)
Lemma apply_filter_changes base p : ascending base → patch_wf p →
  apply_patch base (mkPatch (filter (changes base) (operations p))) = apply_patch base p.
Proof.
  intros Hb Hp. pose proof (patch_wf_filter p base Hp) as Hf.
  apply ascending_ext; [by apply apply_patch_ascending..|]. intros q. unfold apply_patch.
  rewrite (elem_of_apply_ops _ base q Hb (patch_wf_free _ Hf)),
    (elem_of_apply_ops _ base q Hb (patch_wf_free _ Hp)).
  cbn [operations]. rewrite !list_elem_of_filter. unfold changes; cbn [op_kind op_quad].
  pose proof (patch_wf_free _ Hp q). destruct (decide (q ∈ base)); tauto.
Qed.

(** A patch all of whose operations change the state, and which has one, changes it. *)
Lemma apply_changes_ne base p : ascending base → patch_wf p → operations p ≠ [] →
  Forall (changes base) (operations p) → apply_patch base p ≠ base.
Proof.
  intros Hb Hp Hne Hch Heq. destruct (operations p) as [|[k q] ops] eqn:Hops; [done|].
  apply Forall_cons in Hch as [Hch _].
  pose proof (elem_of_apply_ops (operations p) base q Hb (patch_wf_free _ Hp)) as Hel.
  fold (apply_patch base p) in Hel. rewrite Heq, Hops in Hel.
  pose proof (patch_wf_free _ Hp q) as Hfree. rewrite Hops in Hfree.
  unfold changes in Hch; cbn [op_kind op_quad] in Hch.
  rewrite !elem_of_cons in Hel, Hfree. destruct k; tauto.
Qed.

Lemma apply_noop base p : ascending base → patch_wf p →
  filter (changes base) (operations p) = [] → apply_patch base p = base.
Proof. intros Hb Hp Hf. by rewrite <-apply_filter_changes, Hf. Qed.

(** The complete contract of [effective_delta] on a normalised request. *)
Definition effective_contract (base : state) (requested : Patch) (policy : DeltaPolicy)
    (r : result DeltaError Patch) : Prop :=
  match r with
  | Ok p =>
      patch_wf p ∧ operations p = filter (changes base) (operations requested) ∧
      apply_patch base p = apply_patch base requested ∧ apply_patch base p ≠ base ∧
      (policy = Strict → ∀ q, mkOp Delete q ∈ operations requested → q ∈ base)
  | Err (BaseMismatchQuad q) =>
      policy = Strict ∧ mkOp Delete q ∈ operations requested ∧ q ∉ base
  | Err NoEffectiveDelta =>
      apply_patch base requested = base ∧
      (policy = Strict → ∀ q, mkOp Delete q ∈ operations requested → q ∈ base)
  | Panic _ => False
  end.

Lemma effective_delta_contract base requested policy :
  ascending base → patch_wf requested →
  effective_contract base requested policy (effective_delta base requested policy).
Proof.
  intros Hb Hp. rewrite effective_delta_eq by done.
  pose proof (keep_effective_spec base policy (operations requested) Hb) as Hk.
  destruct (keep_effective base policy (operations requested)) as [kept|[q|]|m]; try done.
  destruct Hk as [-> Hstrict]. case_bool_decide as Hnil; cbn [effective_contract].
  - split; [by apply apply_noop|done].
  - pose proof (patch_wf_filter requested base Hp) as Hf.
    split_and!; [done|done|by apply apply_filter_changes| |done].
    apply apply_changes_ne; [done|done|done|]. apply Forall_forall.
    by intros o [? _]%list_elem_of_filter.
Qed.

Lemma effective_delta_fixed base p policy : ascending base → patch_wf p → operations p ≠ [] →
  Forall (changes base) (operations p) → effective_delta base p policy = Ok p.
Proof.
  intros Hb Hp Hne Hch. rewrite effective_delta_eq by done.
  pose proof (keep_effective_spec base policy (operations p) Hb) as Hk.
  assert (filter (changes base) (operations p) = operations p) as Hall.
  { clear -Hch. induction Hch as [|o ops Ho Hops IH]; [done|].
    rewrite filter_cons_True by done. by rewrite IH. }
  destruct (keep_effective base policy (operations p)) as [kept|[q|]|m]; try done.
  - destruct Hk as [-> _]. rewrite Hall, bool_decide_eq_false_2 by done. by destruct p.
  - destruct Hk as (_ & Hin & Hq). rewrite Forall_forall in Hch. by destruct Hq; apply (Hch _ Hin).
Qed.

(** C5. [effective_delta] computes exactly the operations of a request that change the base
    state. It never panics. When it returns a patch, that patch is normalised, holds precisely
    the adds of absent and the deletes of present quads, has the same effect on the base as the
    whole request, really changes the base, and is a fixed point of [effective_delta]. Under
    the strict policy it reports a base mismatch only for a requested delete of an absent quad
    and accepts no such request; it reports no effective change exactly when the request leaves
    the base as it is. *)
Theorem effective_delta_correct (base : state) (requested : Patch) (policy : DeltaPolicy) :
  ascending base → patch_wf requested →
  effective_contract base requested policy (effective_delta base requested policy) ∧
  (∀ p, effective_delta base requested policy = Ok p → effective_delta base p Strict = Ok p) ∧
  (∀ q, mkOp Delete q ∈ operations requested → q ∉ base →
     ∃ q', effective_delta base requested Strict = Err (BaseMismatchQuad q')).
Proof.
  intros Hb Hp. pose proof (effective_delta_contract base requested policy Hb Hp) as Hc.
  split_and!; [done| |].
  - intros p Hr. rewrite Hr in Hc. destruct Hc as (Hwf & Hops & _ & Hne & _).
    apply effective_delta_fixed; [done|done| |].
    + intros Hnil. apply Hne. unfold apply_patch. by rewrite Hnil.
    + rewrite Hops. apply Forall_forall. by intros o [? _]%list_elem_of_filter.
  - intros q Hin Hq. pose proof (effective_delta_contract base requested Strict Hb Hp) as Hs.
    destruct (effective_delta base requested Strict) as [p|[q'|]|m]; cbn in Hs; [|eauto| |done].
    + destruct Hs as (_ & _ & _ & _ & Hs). destruct Hq. by apply Hs.
    + destruct Hs as [_ Hs]. destruct Hq. by apply Hs.
Qed.

(** The patch of a diff: its operations, without the sorting. *)
Lemma diff_patch a b : ascending a → ascending b → Forall quad_wf a → Forall quad_wf b →
  ∃ p, to_patch (diff a b) = Ok p ∧ patch_wf p ∧
       (∀ q, mkOp Add q ∈ operations p ↔ q ∈ b ∧ q ∉ a) ∧
       (∀ q, mkOp Delete q ∈ operations p ↔ q ∈ a ∧ q ∉ b).
Proof.
  intros Ha Hb Hqa Hqb.
  set (ops := (mkOp Delete <$> bts_difference a b) ++ (mkOp Add <$> bts_difference b a)).
  assert (∀ q, mkOp Add q ∈ ops ↔ q ∈ b ∧ q ∉ a) as Hadd.
  { intros q. unfold ops. rewrite elem_of_app, !list_elem_of_fmap.
    setoid_rewrite elem_of_bts_difference; [|done|done].
    split; [|intros ?; right; by exists q]. by intros [(y & [=] & _)|(y & [= ->] & ?)]. }
  assert (∀ q, mkOp Delete q ∈ ops ↔ q ∈ a ∧ q ∉ b) as Hdel.
  { intros q. unfold ops. rewrite elem_of_app, !list_elem_of_fmap.
    setoid_rewrite elem_of_bts_difference; [|done|done].
    split; [|intros ?; left; by exists q]. by intros [(y & [= ->] & ?)|(y & [=] & _)]. }
  assert (conflict_free ops) as Hc by (intros q; rewrite Hadd, Hdel; tauto).
  assert (patch_new ops = Ok (mkPatch (bts_collect ops))) as Hnew by (by apply patch_new_Ok).
  exists (mkPatch (bts_collect ops)). unfold to_patch, diff; cbn [deletes adds]. fold ops.
  rewrite Hnew. split_and!; [done| | |].
  - eapply patch_new_wf; [|exact Hnew]. apply Forall_forall.
    pose proof (proj1 (Forall_forall _ _) Hqa). pose proof (proj1 (Forall_forall _ _) Hqb).
    intros [[] q] Hin; [apply Hadd in Hin|apply Hdel in Hin]; destruct Hin; cbn [op_quad];
      auto.
  - intros q. cbn [operations]. by rewrite elem_of_bts_collect.
  - intros q. cbn [operations]. by rewrite elem_of_bts_collect.
Qed.

(** C6. A diff is the exact patch between two states: [to_patch] never panics, its patch is
    normalised, applying it to the first state gives the second, every operation in it changes
    the first state (so a strict effective delta keeps it unchanged when the states differ),
    and the diff is empty exactly when the states are equal. *)
Theorem diff_patch_correct (a b : state) :
  ascending a → ascending b → Forall quad_wf a → Forall quad_wf b →
  ∃ p, to_patch (diff a b) = Ok p ∧ patch_wf p ∧ apply_patch a p = b ∧
       (a ≠ b → effective_delta a p Strict = Ok p) ∧
       (diff_is_empty (diff a b) = true ↔ a = b).
Proof.
  intros Ha Hb Hqa Hqb. destruct (diff_patch a b Ha Hb Hqa Hqb) as (p & Hp & Hwf & Hadd & Hdel).
  assert (apply_patch a p = b) as Happ.
  { apply ascending_ext; [by apply apply_patch_ascending|done|]. intros q.
    unfold apply_patch. rewrite elem_of_apply_ops by (done || apply Hwf). rewrite Hadd, Hdel.
    destruct (decide (q ∈ a)), (decide (q ∈ b)); tauto. }
  exists p. split_and!; [done|done|done| |].
  - intros Hne. apply effective_delta_fixed; [done|done| |].
    + intros Hnil. apply Hne. rewrite <-Happ. unfold apply_patch. by rewrite Hnil.
    + apply Forall_forall. intros [[] q] Hin; [apply Hadd in Hin|apply Hdel in Hin];
        unfold changes; simpl; tauto.
  - unfold diff_is_empty, diff; cbn [adds deletes]. rewrite andb_true_iff, !bool_decide_eq_true.
    split.
    + intros [H1 H2]. apply ascending_ext; [done|done|]. intros q.
      pose proof (elem_of_bts_difference q b a Ha) as Hx. pose proof (elem_of_bts_difference q a b Hb) as Hy.
      rewrite H1 in Hx. rewrite H2 in Hy. rewrite elem_of_nil in Hx, Hy.
      destruct (decide (q ∈ a)), (decide (q ∈ b)); tauto.
    + intros ->. assert (bts_difference b b = []) as ->; [|done].
      apply elem_of_nil_inv. intros q. rewrite elem_of_bts_difference by done. tauto.
Qed.
End delta_facts.
