(* ===== verification/Dag.v ===== *)
(** * The commit DAG: bounded, windowed traversals

    Source: [crates/ledger-dag/src/lib.rs]. [HashMap] and [HashSet] are [gmap] and [gset]; a
    [usize] that only bounds work is an [N]. The clock is an oracle: [now i] is what the [i]-th
    call of [Instant::now] returns, and the walk counts its calls. Loops whose length is not
    known in advance take fuel and return [None] when it runs out; the theorems show that
    enough fuel exists. *)

From Stdlib Require Import ZArith Lia String.
From stdpp Require Import base gmap countable list.
From S2P Require Import Prelude BTree Bytes Core.

Local Open Scope ledger_scope.

Inductive WindowKind := Ancestry | FirstParent.

(** ** The provider boundary *)
(** [trait ParentProvider]: single lookups and retrieval windows. *)
Class ParentProvider (E : Type) := {
  pp_parents : CommitId → result E (option (list CommitId));
  pp_window : CommitId → N → WindowKind → result E (list (CommitId * list CommitId))
}.

(** The default [ancestry_window]: a window of one. *)
Definition default_window {E} (parents : CommitId → result E (option (list CommitId)))
    (start : CommitId) (max : N) (kind : WindowKind) : result E (list (CommitId * list CommitId)) :=
  ps ← parents start;
  Ok (match ps with Some ps => [(start, ps)] | None => [] end).

(** What the trait documents of its two methods: single lookups do not panic, a window fails
    exactly when its anchor does, is empty for an unknown anchor, holds the anchor when it is
    known, and answers for every commit exactly as a single lookup would. *)
Class ParentProviderOk {E} (P : ParentProvider E) : Prop := {
  pp_no_panic c m : pp_parents c ≠ Panic m;
  pp_window_err c max kind e : pp_parents c = Err e → pp_window c max kind = Err e;
  pp_window_unknown c max kind : pp_parents c = Ok None → pp_window c max kind = Ok [];
  pp_window_known c max kind ps : pp_parents c = Ok (Some ps) →
    ∃ w, pp_window c max kind = Ok w ∧ (c, ps) ∈ w ∧
         ∀ d qs, (d, qs) ∈ w → pp_parents d = Ok (Some qs)
}.

(** ** Limits and errors *)
Definition WINDOW_RAMP : N := 4.
Definition usize_max : N := 18446744073709551615.
Definition saturating_mul (a b : N) : N := N.min (a * b) usize_max.

(** Addition of two [usize]. A sum that does not fit is the outcome [Panic], as where overflow
    is checked; without the checks the code would go on with the wrapped value. *)
Definition usize_add (a b : N) : result Empty_set N :=
  if (a + b <=? usize_max)%N then Ok (a + b)%N else Panic "attempt to add with overflow".

(** The loop of [window_calls]; at most [commits] iterations are needed, since each retrieves
    at least one commit. *)
Fixpoint window_calls_loop (fuel : nat) (commits window done ask calls : N) : result Empty_set N :=
  match fuel with
  | O => Ok calls
  | S fuel =>
      if (done <? commits)%N
      then
        done ← usize_add done (N.min ask window);
        calls ← usize_add calls 1;
        window_calls_loop fuel commits window done (saturating_mul ask WINDOW_RAMP) calls
      else Ok calls
  end.

(** [window_calls], of two [usize] *)
Definition window_calls (commits window : N) : result Empty_set N :=
  window_calls_loop (N.to_nat commits) commits (N.max window 1) 0 1 0.

(** [struct TraversalLimits]; [deadline] is an instant on the clock's scale. *)
Record TraversalLimits := mkLimits { max_visited : nat; deadline : option Z }.

Definition DEFAULT_LIMITS : TraversalLimits := mkLimits (Pos.to_nat 100000) None.

(** [enum DagError] *)
Inductive DagError (E : Type) :=
  | UnknownCommit (c : CommitId)
  | Cycle (c : CommitId)
  | VisitLimit (visited : nat)
  | Deadline
  | Provider (e : E).
Arguments UnknownCommit {E}.
Arguments Cycle {E}.
Arguments VisitLimit {E}.
Arguments Deadline {E}.
Arguments Provider {E}.

Inductive Colour := Grey | Black.
#[export] Instance Colour_eq_dec : EqDecision Colour.
Proof. solve_decision. Defined.

(** [struct Walk]: the mutable part; provider, limits and kind are arguments. *)
Record Walk := mkWalk {
  w_colour : gmap CommitId Colour;
  w_prefetched : gmap CommitId (list CommitId);
  w_ramp : N;
  w_record : option (gmap CommitId (list CommitId));
  w_ticks : nat
}.

(** [Walk::new] *)
Definition walk_new : Walk := mkWalk ∅ ∅ 1 None 0.

Inductive DfsOutcome := Hit | Complete.
#[export] Instance DfsOutcome_eq_dec : EqDecision DfsOutcome.
Proof. solve_decision. Defined.

(** [struct Frame] of the depth-first search *)
Record Frame := mkFrame { fr_id : CommitId; fr_parents : list CommitId; fr_next : nat }.

Definition set_colour (c : CommitId) (k : Colour) (w : Walk) : Walk :=
  mkWalk (<[c := k]> (w_colour w)) (w_prefetched w) (w_ramp w) (w_record w) (w_ticks w).

Definition set_record (c : CommitId) (ps : list CommitId) (w : Walk) : Walk :=
  mkWalk (w_colour w) (w_prefetched w) (w_ramp w) (<[c := ps]> <$> w_record w) (w_ticks w).

Section walk.
Context {E : Type} `{P : ParentProvider E} (now : nat → Z) (limits : TraversalLimits).

(** [Walk::check_deadline]: one reading of the clock when there is a deadline. *)
Definition check_deadline (w : Walk) : result (DagError E) Walk :=
  match deadline limits with
  | None => Ok w
  | Some d =>
      if (d <=? now (w_ticks w))%Z then Err Deadline
      else Ok (mkWalk (w_colour w) (w_prefetched w) (w_ramp w) (w_record w) (S (w_ticks w)))
  end.

(** The loop of [load] over a window: the anchor's answer, and the entries kept for later. *)
Fixpoint absorb_window (id : CommitId) (colour : gmap CommitId Colour)
    (window : list (CommitId * list CommitId)) (found : option (list CommitId))
    (prefetched : gmap CommitId (list CommitId))
    : option (list CommitId) * gmap CommitId (list CommitId) :=
  match window with
  | [] => (found, prefetched)
  | (commit, parents) :: window =>
      if bool_decide (commit = id) then
        absorb_window id colour window (match found with None => Some parents | _ => found end)
          prefetched
      else if negb (bool_decide (is_Some (colour !! commit)))
              && (size prefetched <? max_visited limits)
      then absorb_window id colour window found
             (match prefetched !! commit with
              | Some _ => prefetched
              | None => <[commit := parents]> prefetched
              end)
      else absorb_window id colour window found prefetched
  end.

(** [Walk::load] *)
Definition load (kind : WindowKind) (w : Walk) (id : CommitId) (wanted : N)
    : result (DagError E) (list CommitId * Walk) :=
  let visited := size (w_colour w) in
  if max_visited limits <=? visited then Err (VisitLimit visited)
  else
    w ← check_deadline w;
    '(parents, w) ←
      match w_prefetched w !! id with
      | Some parents =>
          Ok (parents, mkWalk (w_colour w) (delete id (w_prefetched w)) (w_ramp w) (w_record w)
                         (w_ticks w))
      | None =>
          let max := N.max 1 (N.min (N.min (N.of_nat (max_visited limits - visited)) wanted)
                                    (w_ramp w)) in
          let ramp := saturating_mul (w_ramp w) WINDOW_RAMP in
          window ← map_err Provider (pp_window id max kind);
          w ← check_deadline (mkWalk (w_colour w) (w_prefetched w) ramp (w_record w) (w_ticks w));
          let '(found, prefetched) :=
            absorb_window id (w_colour w) window None (w_prefetched w) in
          parents ← ok_or found (UnknownCommit id);
          Ok (parents, mkWalk (w_colour w) prefetched (w_ramp w) (w_record w) (w_ticks w))
      end;
    Ok (parents, set_record id parents w).

Context {S : Type} (on_enter : CommitId → S → S * bool).

(** The [while let Some(top) = stack.last_mut()] loop of [Walk::dfs]. The head of the list is
    the top of the stack. *)
Fixpoint dfs_loop (fuel : nat) (kind : WindowKind) (stack : list Frame) (w : Walk) (s : S)
    : option (result (DagError E) (DfsOutcome * Walk * S)) :=
  match stack with
  | [] => Some (Ok (Complete, w, s))
  | top :: rest =>
      match fuel with
      | O => None
      | Datatypes.S fuel =>
          match fr_parents top !! fr_next top with
          | Some parent =>
              let top := mkFrame (fr_id top) (fr_parents top) (fr_next top + 1) in
              match w_colour w !! parent with
              | Some Grey => Some (Err (Cycle parent))
              | Some Black => dfs_loop fuel kind (top :: rest) w s
              | None =>
                  match load kind w parent usize_max with
                  | Ok (parents, w) =>
                      let w := set_colour parent Grey w in
                      let '(s, hit) := on_enter parent s in
                      if hit : bool then Some (Ok (Hit, w, s))
                      else dfs_loop fuel kind (mkFrame parent parents 0 :: top :: rest) w s
                  | Err e => Some (Err e)
                  | Panic m => Some (Panic m)
                  end
              end
          | None => dfs_loop fuel kind rest (set_colour (fr_id top) Black w) s
          end
      end
  end.

(** [Walk::dfs] *)
Definition dfs (fuel : nat) (w : Walk) (start : CommitId) (s : S)
    : option (result (DagError E) (DfsOutcome * Walk * S)) :=
  match load Ancestry w start usize_max with
  | Ok (parents, w) =>
      let w := set_colour start Grey w in
      let '(s, hit) := on_enter start s in
      if hit : bool then Some (Ok (Hit, w, s))
      else dfs_loop fuel Ancestry [mkFrame start parents 0] w s
  | Err e => Some (Err e)
  | Panic m => Some (Panic m)
  end.
End walk.

(** Post-process the value of a fuelled, fallible run. *)
Definition map_run {E A B} (f : A → B) (r : option (result E A)) : option (result E B) :=
  match r with Some r => Some (f <$> r) | None => None end.

(** [struct Ancestry] *)
Record AncestryMap := mkAncestry { an_parents : gmap CommitId (list CommitId) }.

Section queries.
Context {E : Type} `{P : ParentProvider E} (now : nat → Z) (limits : TraversalLimits) (fuel : nat).

(** [is_ancestor] *)
Definition is_ancestor (ancestor descendant : CommitId) : option (result (DagError E) bool) :=
  map_run (λ '(outcome, _, _), bool_decide (outcome = Hit))
    (dfs now limits (λ id (_ : unit), (tt, bool_decide (id = ancestor))) fuel walk_new
       descendant tt).

(** [ancestors] *)
Definition ancestors (head : CommitId) : option (result (DagError E) (list CommitId)) :=
  map_run (λ '(_, _, order), order)
    (dfs now limits (λ id (order : list CommitId), (order ++ [id], false)) fuel walk_new head []).

(** [ancestry] *)
Definition ancestry (head : CommitId) : option (result (DagError E) AncestryMap) :=
  map_run (λ '(_, w, _), mkAncestry (default ∅ (w_record w)))
    (dfs now limits (λ _ (_ : unit), (tt, false)) fuel (mkWalk ∅ ∅ 1 (Some ∅) 0) head tt).

(** The loop of [first_parent_history]; [left] is [max - history.len()]. *)
Fixpoint first_parent_loop (left : nat) (w : Walk) (current : CommitId) (history : list CommitId)
    : result (DagError E) (list CommitId) :=
  match left with
  | O => Ok history
  | S left' =>
      '(parents, w) ← load now limits FirstParent w current (N.of_nat left);
      let w := set_colour current Grey w in
      let history := history ++ [current] in
      if left' =? 0 then Ok history
      else match parents with
           | [] => Ok history
           | first :: _ =>
               if bool_decide (is_Some (w_colour w !! first)) then Err (Cycle first)
               else first_parent_loop left' w first history
           end
  end.

(** [first_parent_history] *)
Definition first_parent_history (head : CommitId) (max : nat)
    : result (DagError E) (list CommitId) :=
  if max =? 0 then Ok [] else first_parent_loop max walk_new head [].
End queries.
