(* ===== verification/DagWalk.v ===== *)
(** * Correctness of the bounded depth-first walk

    The white/grey/black search of [Dag] against reachability in the graph the provider's
    single lookups describe: windows are a retrieval hint only, every answer and every error is
    justified by the graph, and enough fuel always exists. *)

From Stdlib Require Import ZArith Lia String.
From stdpp Require Import base gmap countable list relations.
From S2P Require Import Prelude BTree Bytes Core Dag.

Local Open Scope ledger_scope.

(** ** The graph behind a provider *)
Section graph.
Context {E : Type} (P : ParentProvider E).

Definition edge (c p : CommitId) : Prop := ∃ ps, pp_parents c = Ok (Some ps) ∧ p ∈ ps.
Definition reach : CommitId → CommitId → Prop := rtc edge.
Definition known (c : CommitId) : Prop := ∃ ps, pp_parents c = Ok (Some ps).
Definition parent_of (p c : CommitId) : Prop := edge c p.

Lemma reach_edge a b c : reach a b → edge b c → reach a c.
Proof. intros. by eapply rtc_r. Qed.

(** A commit whose whole history is well founded is on no cycle. *)
Lemma acc_no_cycle c : Acc parent_of c → ¬ tc edge c c.
Proof.
  induction 1 as [c _ IH]. intros Hc.
  assert (∃ d, edge c d ∧ tc edge d d) as (d & Hcd & Hdd).
  { inversion Hc as [? ? Hcc|? d ? Hcd Hdc]; subst.
    - by exists c.
    - exists d. split; [done|]. eapply tc_r; done. }
  by apply (IH d Hcd).
Qed.
End graph.

(** ** Loading parents *)
Section load_facts.
Context {E : Type} (P : ParentProvider E) `{!ParentProviderOk P}.
Context (now : nat → Z) (limits : TraversalLimits).

(** Prefetched entries are answers a single lookup would give. *)
Definition prefetch_sound (m : gmap CommitId (list CommitId)) : Prop :=
  ∀ d ps, m !! d = Some ps → pp_parents d = Ok (Some ps).

Lemma absorb_window_sound id colour window found pre :
  (∀ d qs, (d, qs) ∈ window → pp_parents d = Ok (Some qs)) → prefetch_sound pre →
  prefetch_sound (absorb_window limits id colour window found pre).2.
Proof.
  revert found pre. induction window as [|[d qs] window IH]; intros found pre Hw Hpre; [done|].
  cbn [absorb_window].
  assert (∀ d qs, (d, qs) ∈ window → pp_parents d = Ok (Some qs)) as Hw' by (intros; apply Hw; by right).
  case_bool_decide; [by apply IH|].
  destruct (_ && _); [|by apply IH]. apply IH; [done|].
  destruct (pre !! d) eqn:Hd; [done|]. intros d' ps'.
  rewrite lookup_insert_Some. intros [[<- <-]|[_ ?]]; [|by apply Hpre]. apply Hw. left.
Qed.

Lemma absorb_window_found id colour window found pre ps :
  (∀ qs, (id, qs) ∈ window → qs = ps) → (found = None ∨ found = Some ps) →
  (found = Some ps ∨ (id, ps) ∈ window) →
  (absorb_window limits id colour window found pre).1 = Some ps.
Proof.
  revert found pre. induction window as [|[d qs] window IH]; intros found pre Hw Hf Hex; cbn [absorb_window].
  { destruct Hex as [->|[]%not_elem_of_nil]; done. }
  assert (∀ qs, (id, qs) ∈ window → qs = ps) as Hw' by (intros; apply Hw; by right).
  case_bool_decide as Hd.
  - subst d. rewrite (Hw qs) by left. apply IH; [done| |]; destruct Hf as [->| ->]; auto.
  - assert (found = Some ps ∨ (id, ps) ∈ window) as Hex'.
    { destruct Hex as [|[[= -> ->]|]%elem_of_cons]; auto. done. }
    destruct (_ && _); by apply IH.
Qed.

(** What a load must answer: the visit limit first, then the single lookup. *)
Definition load_ref (visited : nat) (id : CommitId) : result (DagError E) (list CommitId) :=
  if max_visited limits <=? visited then Err (VisitLimit visited)
  else match pp_parents id with
       | Ok (Some ps) => Ok ps
       | Ok None => Err (UnknownCommit id)
       | Err e => Err (Provider e)
       | Panic m => Panic m
       end.

Lemma check_deadline_spec w :
  (deadline limits ≠ None ∧ check_deadline (E:=E) now limits w = Err Deadline) ∨
  ∃ t, check_deadline (E:=E) now limits w =
       Ok (mkWalk (w_colour w) (w_prefetched w) (w_ramp w) (w_record w) t).
Proof.
  unfold check_deadline. destruct (deadline limits) as [d|].
  - destruct (d <=? now (w_ticks w))%Z; [by left|right; by eexists].
  - right. exists (w_ticks w). by destruct w.
Qed.

(** [load] answers as a single lookup would, whatever the provider's windows and whatever was
    prefetched, except that it may report the deadline when there is one. *)
Lemma load_spec kind w id wanted : prefetch_sound (w_prefetched w) →
  (deadline limits ≠ None ∧ load now limits kind w id wanted = Err Deadline) ∨
  match load_ref (size (w_colour w)) id with
  | Ok ps => ∃ w', load now limits kind w id wanted = Ok (ps, w') ∧
      prefetch_sound (w_prefetched w') ∧ w_colour w' = w_colour w ∧
      w_record w' = (<[id := ps]> <$> w_record w)
  | Err e => load now limits kind w id wanted = Err e
  | Panic _ => False
  end.
Proof.
  intros Hs. unfold load, load_ref. destruct (max_visited limits <=? size (w_colour w)); [by right|].
  destruct (check_deadline_spec w) as [[Hd ->]|[t ->]]; [by left|]. run_res. cbn [w_prefetched w_colour w_ramp w_record].
  destruct (w_prefetched w !! id) as [ps|] eqn:Hpre.
  { right. rewrite (Hs id ps Hpre). run_res. eexists. split; [done|].
    split_and!; [|done|done]. cbn. intros d qs. rewrite lookup_delete_Some. intros [_ ?]. by apply Hs. }
  set (max := N.max _ _). clearbody max.
  destruct (pp_parents id) as [[ps|]|e|m] eqn:Hid.
  - destruct (pp_window_known id max kind ps Hid) as (win & -> & Hin & Hall). cbn [map_err].
    run_res. match goal with |- context [check_deadline now limits ?w0] =>
      destruct (check_deadline_spec w0) as [[Hd ->]|[t' ->]] end; [by left|]. right. run_res.
    cbn [w_prefetched w_colour w_ramp w_record].
    pose proof (absorb_window_sound id (w_colour w) win None (w_prefetched w) Hall Hs) as Hs'.
    pose proof (absorb_window_found id (w_colour w) win None (w_prefetched w) ps) as Hf.
    destruct (absorb_window limits id (w_colour w) win None (w_prefetched w)) as [found pre'].
    cbn [fst snd] in Hf, Hs'. rewrite Hf; [|intros qs Hqs; apply Hall in Hqs; congruence|by left|by right].
    run_res. eexists. split; [done|]. by split_and!.
  - rewrite (pp_window_unknown id max kind Hid). cbn [map_err]. run_res.
    match goal with |- context [check_deadline now limits ?w0] =>
      destruct (check_deadline_spec w0) as [[Hd ->]|[t' ->]] end; [by left|]. by right.
  - rewrite (pp_window_err id max kind e Hid). by right.
  - by destruct (pp_no_panic id m).
Qed.
End load_facts.

(** ** The search invariant *)
Section search.
Context {E : Type} (P : ParentProvider E) `{!ParentProviderOk P}.
Context (now : nat → Z) (limits : TraversalLimits).

(** The stack, top first. [above] is the commit of the frame just above, which is the last
    parent this frame followed; the parents followed before it are finished. *)
Fixpoint frames_ok (colour : gmap CommitId Colour) (above : option CommitId) (stack : list Frame) : Prop :=
  match stack with
  | [] => True
  | f :: rest =>
      pp_parents (fr_id f) = Ok (Some (fr_parents f)) ∧
      (∀ p, p ∈ take (fr_next f) (fr_parents f) → colour !! p = Some Black ∨ above = Some p) ∧
      (∀ a, above = Some a → a ∈ fr_parents f) ∧
      frames_ok colour (Some (fr_id f)) rest
  end.

Record dfs_inv (start : CommitId) (stack : list Frame) (w : Walk) : Prop := {
  inv_prefetch : prefetch_sound P (w_prefetched w);
  inv_start : is_Some (w_colour w !! start);
  inv_known c k : w_colour w !! c = Some k → reach P start c ∧ known P c;
  inv_black c p : w_colour w !! c = Some Black → edge P c p → w_colour w !! p = Some Black;
  inv_acc c : w_colour w !! c = Some Black → Acc (parent_of P) c;
  inv_grey c : w_colour w !! c = Some Grey ↔ c ∈ fr_id <$> stack;
  inv_nodup : NoDup (fr_id <$> stack);
  inv_frames : frames_ok (w_colour w) None stack;
  inv_size : size (w_colour w) ≤ max_visited limits;
  inv_record m c ps : w_record w = Some m →
    m !! c = Some ps ↔ is_Some (w_colour w !! c) ∧ pp_parents c = Ok (Some ps)
}.

(** Every commit on the stack reaches the top of the stack. *)
Lemma stack_reaches_top colour f rest g :
  frames_ok colour None (f :: rest) → g ∈ f :: rest → reach P (fr_id g) (fr_id f).
Proof.
  intros (_ & _ & _ & Hrest) [->|Hg]%elem_of_cons; [apply rtc_refl|].
  revert f Hrest. induction rest as [|h rest IH]; intros f Hrest; [by apply not_elem_of_nil in Hg|].
  destruct Hrest as (Hh & _ & Habove & Hrest).
  assert (edge P (fr_id h) (fr_id f)) as Hedge by (exists (fr_parents h); auto).
  apply elem_of_cons in Hg as [->|Hg].
  - by apply rtc_once.
  - eapply reach_edge; [|exact Hedge]. by apply (IH Hg h).
Qed.

(** Colouring a white commit, or blackening one, keeps the frames below valid. *)
Lemma frames_ok_mono colour colour' above stack :
  (∀ p, colour !! p = Some Black → colour' !! p = Some Black) →
  frames_ok colour above stack → frames_ok colour' above stack.
Proof.
  intros Hc. revert above. induction stack as [|f rest IH]; intros above; cbn [frames_ok]; [done|].
  intros (Hf & Ht & Ha & Hrest). split_and!; [done| |done|by apply IH].
  intros p Hp. destruct (Ht p Hp); auto.
Qed.

Lemma frames_ok_above colour a stack :
  colour !! a = Some Black → frames_ok colour (Some a) stack → frames_ok colour None stack.
Proof.
  intros Ha. destruct stack as [|f rest]; [done|]. cbn [frames_ok].
  intros (Hf & Ht & _ & Hrest). split_and!; [done| |done|done].
  intros p Hp. left. destruct (Ht p Hp) as [?|[= ->]]; done.
Qed.

(** Following a finished parent. *)
Lemma dfs_inv_skip start f rest w p :
  dfs_inv start (f :: rest) w → fr_parents f !! fr_next f = Some p →
  w_colour w !! p = Some Black →
  dfs_inv start (mkFrame (fr_id f) (fr_parents f) (fr_next f + 1) :: rest) w.
Proof.
  intros [] Hp Hb. split; try done. destruct inv_frames0 as (Hf & Ht & Ha & Hrest).
  cbn [frames_ok fr_id fr_parents fr_next]. split_and!; [done| |done|done].
  intros q. rewrite Nat.add_1_r, (take_S_r _ _ p) by done. rewrite elem_of_app, list_elem_of_singleton.
  intros [Hq| ->]; auto.
Qed.

(** Entering a white parent whose answer was loaded. *)
Lemma dfs_inv_enter start f rest w w' p ps :
  dfs_inv start (f :: rest) w → fr_parents f !! fr_next f = Some p →
  w_colour w !! p = None → pp_parents p = Ok (Some ps) → size (w_colour w) < max_visited limits →
  prefetch_sound P (w_prefetched w') → w_colour w' = w_colour w →
  w_record w' = (<[p := ps]> <$> w_record w) →
  dfs_inv start (mkFrame p ps 0 :: mkFrame (fr_id f) (fr_parents f) (fr_next f + 1) :: rest)
    (set_colour p Grey w').
Proof.
  intros [Hpre Hst Hkn Hbl Hac Hgr Hnd Hfr Hsz Hrec] Hp Hwhite Hps Hlt Hpre' Hcol Hr.
  destruct Hfr as (Hf & Ht & Ha & Hrest).
  assert (edge P (fr_id f) p) as Hedge.
  { exists (fr_parents f). split; [done|]. by eapply list_elem_of_lookup_2. }
  assert (∀ c, w_colour w !! c = Some Black → <[p:=Grey]> (w_colour w) !! c = Some Black) as Hmono.
  { intros c Hc. rewrite lookup_insert_ne; [done|]. intros ->. congruence. }
  assert (∀ c, <[p:=Grey]> (w_colour w) !! c = Some Black → w_colour w !! c = Some Black) as Hmono'.
  { intros c. rewrite lookup_insert_Some. intros [[_ [=]]|[_ ?]]. done. }
  split; cbn [set_colour w_colour w_prefetched w_record]; rewrite ?Hcol.
  - exact Hpre'.
  - destruct Hst as [k Hk]. rewrite lookup_insert_ne; [by exists k|]. intros ->. congruence.
  - intros c k. rewrite lookup_insert_Some. intros [[<- <-]|[_ Hc]]; [|by eapply Hkn].
    split; [|by exists ps]. eapply reach_edge; [|exact Hedge].
    destruct (w_colour w !! fr_id f) as [k|] eqn:Hk; [by apply (Hkn _ k)|].
    assert (w_colour w !! fr_id f = Some Grey) by (apply Hgr; left). congruence.
  - intros c q Hc%Hmono' He. apply Hmono. by eapply Hbl.
  - intros c Hc%Hmono'. by apply Hac.
  - intros c. rewrite lookup_insert_Some. rewrite !fmap_cons; cbn [fr_id].
    rewrite elem_of_cons, Hgr, fmap_cons. split.
    + intros [[-> _]|[_ ?]]; auto.
    + intros [->|Hin]; [by left|]. right. split; [|done]. intros <-.
      assert (w_colour w !! p = Some Grey) by (apply Hgr; by rewrite fmap_cons). congruence.
  - rewrite !fmap_cons; cbn [fr_id]. apply NoDup_cons. split; [|done].
    intros Hin. assert (w_colour w !! p = Some Grey) by (by apply Hgr). congruence.
  - cbn [frames_ok fr_id fr_parents fr_next]. split_and!; try done.
    + intros q []%not_elem_of_nil.
    + intros q. rewrite Nat.add_1_r, (take_S_r _ _ p) by done.
      rewrite elem_of_app, list_elem_of_singleton. intros [Hq| ->]; [|by right].
      destruct (Ht q Hq) as [?|[=]]. left. by apply Hmono.
    + intros a [= <-]. by eapply list_elem_of_lookup_2.
    + by eapply frames_ok_mono.
  - rewrite map_size_insert_None by done. lia.
  - intros m c qs. rewrite Hr. destruct (w_record w) as [m0|] eqn:Hm0; [|done]. cbn. intros [= <-].
    rewrite lookup_insert_Some. specialize (Hrec m0 c qs eq_refl). rewrite Hrec. split.
    + intros [[<- <-]|[Hne [Hc ?]]].
      * split; [|done]. rewrite lookup_insert_eq. by eexists.
      * by rewrite lookup_insert_ne by done.
    + destruct (decide (p = c)) as [->|Hne].
      * intros [_ Heq]. left. split; congruence.
      * rewrite lookup_insert_ne by done. by right.
Qed.

(** Finishing a frame all of whose parents are finished. *)
Lemma dfs_inv_finish start f rest w :
  dfs_inv start (f :: rest) w → fr_parents f !! fr_next f = None →
  dfs_inv start rest (set_colour (fr_id f) Black w).
Proof.
  intros [Hpre Hst Hkn Hbl Hac Hgr Hnd Hfr Hsz Hrec] Hend.
  destruct Hfr as (Hf & Ht & _ & Hrest). apply lookup_ge_None in Hend.
  rewrite take_ge in Ht by done.
  rewrite fmap_cons in Hnd. apply NoDup_cons in Hnd as [Hnot Hnd].
  assert (w_colour w !! fr_id f = Some Grey) as Hgrey by (apply Hgr; left).
  assert (∀ p, edge P (fr_id f) p → w_colour w !! p = Some Black) as Hpar.
  { intros p (ps & Hps & Hin). rewrite Hf in Hps. injection Hps as <-.
    by destruct (Ht p Hin) as [?|[=]]. }
  assert (∀ c, w_colour w !! c = Some Black → <[fr_id f:=Black]> (w_colour w) !! c = Some Black) as Hmono.
  { intros c Hc. rewrite lookup_insert_Some. destruct (decide (fr_id f = c)); auto. }
  split; cbn [set_colour w_colour w_prefetched w_record].
  - exact Hpre.
  - rewrite lookup_insert_is_Some. destruct (decide (fr_id f = start)); auto.
  - intros c k. rewrite lookup_insert_Some. intros [[<- <-]|[_ Hc]]; by eapply Hkn.
  - intros c p. rewrite lookup_insert_Some. intros [[<- _]|[_ Hc]] He; apply Hmono; [auto|].
    by eapply Hbl.
  - intros c. rewrite lookup_insert_Some. intros [[<- _]|[_ Hc]]; [|by apply Hac].
    constructor. intros p Hp. apply Hac. by apply Hpar.
  - intros c. rewrite lookup_insert_Some, Hgr, fmap_cons, elem_of_cons. split.
    + intros [[_ [=]]|[Hne [->|?]]]; done.
    + intros Hin. right. split; [|by right]. intros Heq. by rewrite Heq in Hnot.
  - exact Hnd.
  - apply (frames_ok_above _ (fr_id f)); [by rewrite lookup_insert_eq|]. by eapply frames_ok_mono.
  - by rewrite map_size_insert_Some by (by eexists).
  - intros m c ps Hm. rewrite (Hrec m c ps Hm), lookup_insert_is_Some. split.
    + intros [? ?]. destruct (decide (fr_id f = c)); auto.
    + intros [[<-|[_ ?]] ?]; [|done]. split; [|done]. by exists Grey.
Qed.
End search.

(** ** Outcomes of a search *)
Section outcome.
Context {E : Type} (P : ParentProvider E) `{!ParentProviderOk P}.
Context (now : nat → Z) (limits : TraversalLimits).

(** What each error says about the graph. *)
Definition err_justified (start : CommitId) (e : DagError E) : Prop :=
  match e with
  | UnknownCommit c => reach P start c ∧ pp_parents c = Ok None
  | Cycle c => reach P start c ∧ tc (edge P) c c
  | VisitLimit n => n = max_visited limits ∧
      ∃ l : list CommitId, NoDup l ∧ length l = S n ∧ Forall (reach P start) l
  | Deadline => deadline limits ≠ None
  | Provider e => ∃ c, reach P start c ∧ pp_parents c = Err e
  end.

(** A load of a new reachable commit fails only for a reason, and otherwise answers. *)
Lemma load_outcome kind start w id wanted :
  prefetch_sound P (w_prefetched w) →
  (∀ c k, w_colour w !! c = Some k → reach P start c) → size (w_colour w) ≤ max_visited limits →
  reach P start id → w_colour w !! id = None →
  match load now limits kind w id wanted with
  | Ok (ps, w') => pp_parents id = Ok (Some ps) ∧ size (w_colour w) < max_visited limits ∧
      prefetch_sound P (w_prefetched w') ∧ w_colour w' = w_colour w ∧
      w_record w' = (<[id := ps]> <$> w_record w)
  | Err e => err_justified start e
  | Panic _ => False
  end.
Proof.
  intros Hpre Hreach Hsize Hid Hnew.
  destruct (load_spec P now limits kind w id wanted Hpre) as [[Hd ->]|Hl]; [done|].
  unfold load_ref in Hl. destruct (Nat.leb_spec (max_visited limits) (size (w_colour w))) as [Hle|Hlt].
  - rewrite Hl. cbn. split; [lia|]. exists (id :: (map_to_list (w_colour w)).*1). split_and!.
    + apply NoDup_cons. split; [|apply NoDup_fst_map_to_list].
      intros ([? k] & -> & Hk%elem_of_map_to_list)%list_elem_of_fmap. cbn in *. congruence.
    + cbn. by rewrite length_fmap, length_map_to_list.
    + apply Forall_cons. split; [done|]. apply Forall_fmap, Forall_forall.
      intros [c k] Hk%elem_of_map_to_list. cbn. by eapply Hreach.
  - destruct (pp_parents id) as [[ps|]|e|m] eqn:Hps.
    + destruct Hl as (w' & -> & ? & ? & ?). by split_and!.
    + rewrite Hl. by split.
    + rewrite Hl. by exists id.
    + done.
Qed.

Context {S : Type} (on_enter : CommitId → S → S * bool).
(** What the visitor's state says about the commits entered so far. *)
Context (V : gset CommitId → S → Prop).
Hypothesis V_enter : ∀ X s c s', V X s → c ∉ X → on_enter c s = (s', false) → V ({[c]} ∪ X) s'.

Definition dfs_post (start : CommitId) (r : result (DagError E) (DfsOutcome * Walk * S)) : Prop :=
  match r with
  | Ok (Complete, w, s) => dfs_inv P limits start [] w ∧ V (dom (w_colour w)) s
  | Ok (Hit, _, s) => ∃ c s0, reach P start c ∧ known P c ∧ on_enter c s0 = (s, true)
  | Err e => err_justified start e
  | Panic _ => False
  end.

Lemma dfs_loop_sound kind fuel start stack w s r :
  dfs_inv P limits start stack w → V (dom (w_colour w)) s →
  dfs_loop now limits on_enter fuel kind stack w s = Some r → dfs_post start r.
Proof using All.
  revert stack w s. induction fuel as [|fuel IH]; intros [|f rest] w s Hinv HV Hr; cbn [dfs_loop] in Hr;
    [by simplify_eq|done|by simplify_eq|].
  destruct (fr_parents f !! fr_next f) as [p|] eqn:Hp.
  - assert (edge P (fr_id f) p) as Hedge.
    { exists (fr_parents f). destruct (inv_frames _ _ _ _ _ Hinv) as [Hfp _].
      split; [done|by eapply list_elem_of_lookup_2]. }
    assert (reach P start (fr_id f)) as Hf.
    { apply (inv_known _ _ _ _ _ Hinv _ Grey). apply (inv_grey _ _ _ _ _ Hinv). left. }
    assert (reach P start p) as Hreach by (by eapply reach_edge).
    destruct (w_colour w !! p) as [[]|] eqn:Hcol.
    + simplify_eq. split; [done|]. apply (inv_grey _ _ _ _ _ Hinv) in Hcol.
      apply list_elem_of_fmap in Hcol as (g & -> & Hg).
      pose proof (stack_reaches_top P _ _ _ _ (inv_frames _ _ _ _ _ Hinv) Hg) as Hgf.
      by eapply tc_rtc_l; [exact Hgf|apply tc_once].
    + eapply IH; [|exact HV|exact Hr]. by eapply dfs_inv_skip.
    + pose proof (load_outcome kind start w p usize_max (inv_prefetch _ _ _ _ _ Hinv)
        (λ c k Hc, proj1 (inv_known _ _ _ _ _ Hinv c k Hc)) (inv_size _ _ _ _ _ Hinv) Hreach Hcol) as Hl.
      destruct (load now limits kind w p usize_max) as [[ps w']|e|m]; [|by simplify_eq|done].
      destruct Hl as (Hps & Hlt & Hpre & Hcw & Hrw).
      destruct (on_enter p s) as [s' []] eqn:Hv.
      * simplify_eq. exists p, s. split_and!; [done|by exists ps|done].
      * eapply IH; [by eapply dfs_inv_enter| |exact Hr].
        cbn [set_colour w_colour]. rewrite dom_insert_L, Hcw. eapply V_enter; [exact HV| |exact Hv].
        by apply not_elem_of_dom.
  - eapply IH; [by eapply dfs_inv_finish| |exact Hr].
    cbn [set_colour w_colour]. rewrite dom_insert_lookup_L; [done|].
    exists Grey. apply (inv_grey _ _ _ _ _ Hinv). left.
Qed.

(** A walk that has not started. *)
Definition walk_fresh (w : Walk) : Prop :=
  w_colour w = ∅ ∧ w_prefetched w = ∅ ∧ (w_record w = None ∨ w_record w = Some ∅).

Lemma dfs_sound fuel start w s r :
  walk_fresh w → V ∅ s → dfs now limits on_enter fuel w start s = Some r → dfs_post start r.
Proof using All.
  intros (Hc & Hp & Hrec) HV Hr. unfold dfs in Hr.
  pose proof (load_outcome Ancestry start w start usize_max) as Hl. rewrite Hc, Hp in Hl.
  specialize (Hl ltac:(by intros ? ?) ltac:(by intros ? ?) ltac:(rewrite map_size_empty; lia)
                 ltac:(apply rtc_refl) ltac:(done)).
  destruct (load now limits Ancestry w start usize_max) as [[ps w']|e|m]; [|by simplify_eq|done].
  destruct Hl as (Hps & Hlt & Hpre & Hcw & Hrw).
  destruct (on_enter start s) as [s' []] eqn:Hv.
  { simplify_eq. exists start, s. split_and!; [apply rtc_refl|by exists ps|done]. }
  eapply dfs_loop_sound; [| |exact Hr].
  - split; cbn [set_colour w_colour w_prefetched w_record]; rewrite ?Hcw.
    + done.
    + rewrite lookup_insert_eq. by eexists.
    + intros c k. rewrite lookup_insert_Some, lookup_empty. intros [[<- _]|[_ [=]]].
      split; [apply rtc_refl|by exists ps].
    + intros c p. rewrite lookup_insert_Some, lookup_empty. intros [[_ [=]]|[_ [=]]].
    + intros c. rewrite lookup_insert_Some, lookup_empty. intros [[_ [=]]|[_ [=]]].
    + intros c. rewrite lookup_insert_Some, lookup_empty. cbn. rewrite list_elem_of_singleton. naive_solver.
    + cbn. apply NoDup_singleton.
    + cbn [frames_ok fr_id fr_parents fr_next]. split_and!; try done. intros q []%not_elem_of_nil.
    + rewrite map_size_insert_None, map_size_empty by apply lookup_empty. rewrite map_size_empty in Hlt. lia.
    + intros m c qs. rewrite Hrw. destruct Hrec as [->| ->]; [done|]. cbn. intros [= <-].
      rewrite lookup_insert_Some, lookup_empty. split.
      * intros [[<- <-]|[_ [=]]]. split; [|done]. rewrite lookup_insert_eq. by eexists.
      * intros [[k Hk] Hq]. rewrite lookup_insert_Some, lookup_empty in Hk.
        destruct Hk as [[<- _]|[_ [=]]]. left. split; congruence.
  - cbn [set_colour w_colour]. rewrite dom_insert_L, Hcw, dom_empty_L.
    eapply V_enter; [exact HV|set_solver|exact Hv].
Qed.
End outcome.

(** ** Termination *)
Section termination.
Context {E : Type} (P : ParentProvider E) (now : nat → Z) (limits : TraversalLimits).
Context {S : Type} (on_enter : CommitId → S → S * bool).

Lemma dfs_loop_mono kind fuel fuel' stack w s r :
  dfs_loop now limits on_enter fuel kind stack w s = Some r → fuel ≤ fuel' →
  dfs_loop now limits on_enter fuel' kind stack w s = Some r.
Proof.
  revert fuel' stack w s. induction fuel as [|fuel IH]; intros [|fuel'] [|f rest] w s Hr Hle;
    try done; try lia. cbn [dfs_loop] in *.
  assert (fuel ≤ fuel') as Hle' by lia.
  destruct (fr_parents f !! fr_next f) as [p|]; [|by apply IH].
  destruct (w_colour w !! p) as [[]|]; [done|by apply IH|].
  destruct (load now limits kind w p usize_max) as [[ps w']|e|m]; [|done|done].
  destruct (on_enter p s) as [s' []]; [done|by apply IH].
Qed.

Lemma check_deadline_colour w w' :
  check_deadline (E:=E) now limits w = Ok w' →
  w_colour w' = w_colour w ∧ w_record w' = w_record w.
Proof.
  unfold check_deadline. destruct (deadline limits); [|by intros [= <-]].
  destruct (_ <=? _)%Z; [done|]. by intros [= <-].
Qed.

Lemma load_charges kind w id wanted ps w' :
  load (E:=E) now limits kind w id wanted = Ok (ps, w') →
  size (w_colour w) < max_visited limits ∧ w_colour w' = w_colour w ∧
  w_record w' = (<[id := ps]> <$> w_record w).
Proof.
  unfold load. destruct (Nat.leb_spec (max_visited limits) (size (w_colour w))) as [|Hlt]; [done|].
  intros Hl. inv_res. destruct a0 as [parents w1]. inv_res.
  apply check_deadline_colour in E0 as [Hc Hr]. simplify_eq.
  split; [done|]. cbn [set_record w_colour w_record]. rewrite <-Hc, <-Hr.
  destruct (w_prefetched a !! id) as [qs|].
  - inv_res. by simplify_eq.
  - inv_res. apply check_deadline_colour in E2 as [Hc' Hr']. cbn in Hc', Hr'. rewrite <-Hc', <-Hr'.
    destruct (absorb_window _ _ _ _ _ _) as [found pre]. inv_res. by simplify_eq.
Qed.

(** A walk that records keeps recording. *)
Lemma dfs_loop_records kind fuel stack w s o w' s' :
  dfs_loop (E:=E) now limits on_enter fuel kind stack w s = Some (Ok (o, w', s')) →
  is_Some (w_record w) → is_Some (w_record w').
Proof.
  revert stack w s. induction fuel as [|fuel IH]; intros [|f rest] w s Hr Hrec; cbn [dfs_loop] in Hr;
    simplify_eq; try done.
  destruct (fr_parents f !! fr_next f) as [p|]; [|by eapply IH].
  destruct (w_colour w !! p) as [[]|]; [done|by eapply IH|].
  destruct (load now limits kind w p usize_max) as [[ps w1]|e|m] eqn:Hl; [|done|done].
  apply load_charges in Hl as (_ & _ & Hr1).
  assert (is_Some (w_record (set_colour p Grey w1))) as Hs1.
  { cbn [set_colour w_record]. rewrite Hr1. by apply fmap_is_Some. }
  destruct (on_enter p s) as [s1 []]; [by simplify_eq|by eapply IH].
Qed.

Lemma dfs_records fuel w start s o w' s' :
  dfs (E:=E) now limits on_enter fuel w start s = Some (Ok (o, w', s')) →
  is_Some (w_record w) → is_Some (w_record w').
Proof.
  unfold dfs. destruct (load now limits Ancestry w start usize_max) as [[ps w1]|e|m] eqn:Hl; [|done|done].
  apply load_charges in Hl as (_ & _ & Hr1). intros Hr Hrec.
  assert (is_Some (w_record (set_colour start Grey w1))) as Hs1.
  { cbn [set_colour w_record]. rewrite Hr1. by apply fmap_is_Some. }
  destruct (on_enter start s) as [s1 []]; [by simplify_eq|by eapply dfs_loop_records].
Qed.

Definition frame_work (f : Frame) : nat := Datatypes.S (length (fr_parents f) - fr_next f).
Definition stack_work (stack : list Frame) : nat := sum_list_with frame_work stack.

Lemma stack_work_cons f rest :
  stack_work (f :: rest) = Datatypes.S (length (fr_parents f) - fr_next f) + stack_work rest.
Proof. done. Qed.

(** Each iteration follows an edge, finishes a frame, or uses up one visit. *)
Lemma dfs_loop_total kind n m stack w s :
  max_visited limits - size (w_colour w) ≤ n → stack_work stack ≤ m →
  ∃ fuel r, dfs_loop now limits on_enter fuel kind stack w s = Some r.
Proof.
  revert m stack w s. induction n as [n IHn] using lt_wf_ind. intros m.
  induction m as [|m IHm]; intros [|f rest] w s Hn Hm;
    [by exists 0; eexists|rewrite stack_work_cons in Hm; lia
    |by exists 0; eexists|].
  destruct (fr_parents f !! fr_next f) as [p|] eqn:Hp.
  - pose proof (lookup_lt_Some _ _ _ Hp) as Hlt.
    assert (stack_work (mkFrame (fr_id f) (fr_parents f) (fr_next f + 1) :: rest) ≤ m) as Hwork.
    { rewrite stack_work_cons in *; cbn [fr_parents fr_next]. lia. }
    destruct (w_colour w !! p) as [[]|] eqn:Hc.
    + exists 1. eexists. cbn [dfs_loop]. by rewrite Hp, Hc.
    + destruct (IHm _ w s Hn Hwork) as (fuel & r & Hr). exists (Datatypes.S fuel), r.
      cbn [dfs_loop]. by rewrite Hp, Hc.
    + destruct (load now limits kind w p usize_max) as [[ps w']|e|msg] eqn:Hl;
        [|exists 1; eexists; cbn [dfs_loop]; by rewrite Hp, Hc, Hl..].
      destruct (load_charges _ _ _ _ _ _ Hl) as (Hsz & Hcw & _).
      destruct (on_enter p s) as [s' []] eqn:Hv.
      * exists 1. eexists. cbn [dfs_loop]. by rewrite Hp, Hc, Hl, Hv.
      * destruct (IHn (max_visited limits - size (w_colour (set_colour p Grey w')))) with
          (m := stack_work (mkFrame p ps 0 :: mkFrame (fr_id f) (fr_parents f) (fr_next f + 1) :: rest))
          (stack := mkFrame p ps 0 :: mkFrame (fr_id f) (fr_parents f) (fr_next f + 1) :: rest)
          (w := set_colour p Grey w') (s := s') as (fuel & r & Hr); [|lia|lia|].
        { cbn [set_colour w_colour]. rewrite Hcw, map_size_insert_None by done. lia. }
        exists (Datatypes.S fuel), r. cbn [dfs_loop]. by rewrite Hp, Hc, Hl, Hv.
  - destruct (IHm rest (set_colour (fr_id f) Black w) s) as (fuel & r & Hr).
    + cbn [set_colour w_colour]. rewrite map_size_insert. case_match; unfold id; lia.
    + rewrite stack_work_cons in Hm. lia.
    + exists (Datatypes.S fuel), r. cbn [dfs_loop]. by rewrite Hp.
Qed.

(** Enough fuel always exists, and more fuel does not change the answer. *)
Lemma dfs_total w start s :
  ∃ fuel0 r, ∀ fuel, fuel0 ≤ fuel → dfs now limits on_enter fuel w start s = Some r.
Proof.
  unfold dfs. destruct (load now limits Ancestry w start usize_max) as [[ps w']|e|m];
    [|by exists 0; eexists..].
  destruct (on_enter start s) as [s' []]; [by exists 0; eexists|].
  destruct (dfs_loop_total Ancestry _ _ [mkFrame start ps 0] (set_colour start Grey w') s'
    (le_n _) (le_n _)) as (fuel0 & r & Hr).
  exists fuel0, r. intros fuel Hle. by eapply dfs_loop_mono.
Qed.
End termination.

(** ** What the queries answer *)
Section queries_correct.
Context {E : Type} (P : ParentProvider E) `{!ParentProviderOk P}.
Context (now : nat → Z) (limits : TraversalLimits).

(** A finished search has entered exactly the reachable commits, and none is on a cycle. *)
Lemma dfs_complete start w : dfs_inv P limits start [] w →
  (∀ c, is_Some (w_colour w !! c) ↔ reach P start c) ∧
  (∀ c, reach P start c → known P c ∧ Acc (parent_of P) c).
Proof.
  intros Hinv.
  assert (∀ c k, w_colour w !! c = Some k → w_colour w !! c = Some Black) as Hblack.
  { intros c [] Hc; [|done]. apply (inv_grey _ _ _ _ _ Hinv) in Hc. by apply not_elem_of_nil in Hc. }
  assert (∀ c, reach P start c → w_colour w !! c = Some Black) as Hreach.
  { apply (rtc_ind_r (λ c, w_colour w !! c = Some Black) start).
    - destruct (inv_start _ _ _ _ _ Hinv) as [k Hk]. by eapply Hblack.
    - intros c d _ Hd Hc. by eapply (inv_black _ _ _ _ _ Hinv). }
  split.
  - intros c. split; [|intros Hc; rewrite (Hreach c Hc); by eexists].
    intros [k Hk]. by apply (inv_known _ _ _ _ _ Hinv c k).
  - intros c Hc. split; [by apply (inv_known _ _ _ _ _ Hinv c Black); auto|].
    apply (inv_acc _ _ _ _ _ Hinv). auto.
Qed.

(** A history a walk can finish: every reachable commit known, no cycle, within the limits. *)
Definition healthy (start : CommitId) : Prop :=
  (∀ c, reach P start c → known P c) ∧ Acc (parent_of P) start ∧
  (∀ l : list CommitId, NoDup l → Forall (reach P start) l → length l ≤ max_visited limits) ∧
  deadline limits = None.

Lemma acc_reach start c : Acc (parent_of P) start → reach P start c → Acc (parent_of P) c.
Proof.
  intros Ha Hc. induction Hc as [|a b c Hab _ IH]; [done|]. apply IH. destruct Ha as [Ha]. by apply Ha.
Qed.

Lemma healthy_no_error start e : healthy start → ¬ err_justified P limits start e.
Proof.
  intros (Hk & Hacc & Hmax & Hd). destruct e as [c|c|n| |e]; cbn.
  - intros [Hc Hn]. destruct (Hk c Hc) as [ps Hps]. congruence.
  - intros [Hc Ht]. by apply (acc_no_cycle P c); [eapply acc_reach|].
  - intros (-> & l & Hnd & Hl & Hr). specialize (Hmax l Hnd Hr). lia.
  - intros Hnd. by destruct (Hnd Hd).
  - intros (c & Hc & He). destruct (Hk c Hc) as [ps Hps]. congruence.
Qed.

(** The post-condition of [is_ancestor]. *)
Definition is_ancestor_post (anc desc : CommitId) (r : result (DagError E) bool) : Prop :=
  match r with
  | Ok true => reach P desc anc ∧ known P anc
  | Ok false => ¬ reach P desc anc ∧ ∀ c, reach P desc c → known P c ∧ ¬ tc (edge P) c c
  | Err e => err_justified P limits desc e
  | Panic _ => False
  end.

Lemma is_ancestor_total_sound anc desc :
  ∃ fuel0 r, (∀ fuel, fuel0 ≤ fuel → is_ancestor now limits fuel anc desc = Some r) ∧
             is_ancestor_post anc desc r.
Proof using All.
  set (on_enter := λ (id : CommitId) (_ : unit), (tt, bool_decide (id = anc))).
  destruct (dfs_total P now limits on_enter walk_new desc tt) as (fuel0 & r & Hr).
  exists fuel0. eexists. split.
  { intros fuel Hf. unfold is_ancestor. fold on_enter. by rewrite (Hr fuel Hf). }
  pose proof (dfs_sound P now limits on_enter (λ X _, anc ∉ X)) as Hs.
  specialize (Hs ltac:(intros X [] c [] HX Hc [= Hb]; bool_prop; set_solver)).
  specialize (Hs fuel0 desc walk_new tt r ltac:(split_and!; [done|done|by left]) ltac:(set_solver)
                 (Hr fuel0 (le_n _))).
  destruct r as [[[[] w] []]|e|m]; cbn in *.
  - destruct Hs as (c & [] & Hc & Hk & [= Hb]). bool_prop. by subst c.
  - destruct Hs as [Hinv HV]. destruct (dfs_complete desc w Hinv) as [Hdom Hacc].
    split.
    + intros Hc%Hdom. apply HV. by apply elem_of_dom.
    + intros c Hc. destruct (Hacc c Hc). split; [done|]. by apply acc_no_cycle.
  - done.
  - done.
Qed.

(** C7. [is_ancestor] is totally correct: for every provider that keeps the documented window
    contract, every limit and clock, the search terminates with a single answer; [true] means
    the ancestor is known and reachable through parent edges, [false] means it is not reachable
    and the whole reachable history is known and acyclic, and every error is justified by the
    graph (a reachable unknown commit, a real cycle, more reachable commits than the limit, a
    failing lookup, or an actual deadline). On a healthy history within the limits it always
    answers, and answers reachability. *)
Theorem is_ancestor_correct (anc desc : CommitId) :
  ∃ fuel0 r,
    (∀ fuel, fuel0 ≤ fuel → is_ancestor now limits fuel anc desc = Some r) ∧
    is_ancestor_post anc desc r ∧
    (healthy desc → ∃ b, r = Ok b ∧ (b = true ↔ reach P desc anc)).
Proof using All.
  destruct (is_ancestor_total_sound anc desc) as (fuel0 & r & Hr & Hpost).
  exists fuel0, r. split_and!; [done|done|]. intros Hh. destruct r as [[]|e|m]; cbn in Hpost.
  - exists true. naive_solver.
  - exists false. naive_solver.
  - by destruct (healthy_no_error desc e Hh).
  - done.
Qed.

(** The post-condition of [ancestors]. *)
Definition ancestors_post (head : CommitId) (r : result (DagError E) (list CommitId)) : Prop :=
  match r with
  | Ok order => NoDup order ∧ (∀ c, c ∈ order ↔ reach P head c) ∧
                ∀ c, reach P head c → known P c ∧ ¬ tc (edge P) c c
  | Err e => err_justified P limits head e
  | Panic _ => False
  end.

(** C8. [ancestors] terminates and lists every commit reachable from the head exactly once, or
    reports an error the graph justifies; on a healthy history it never fails. *)
Theorem ancestors_correct (head : CommitId) :
  ∃ fuel0 r, (∀ fuel, fuel0 ≤ fuel → ancestors now limits fuel head = Some r) ∧
             ancestors_post head r ∧ (healthy head → ∃ order, r = Ok order).
Proof using All.
  set (on_enter := λ (id : CommitId) (order : list CommitId), (order ++ [id], false)).
  destruct (dfs_total P now limits on_enter walk_new head []) as (fuel0 & r & Hr).
  exists fuel0. eexists. split.
  { intros fuel Hf. unfold ancestors. fold on_enter. by rewrite (Hr fuel Hf). }
  pose proof (dfs_sound P now limits on_enter (λ X order, NoDup order ∧ ∀ c, c ∈ order ↔ c ∈ X)) as Hs.
  assert (∀ (X : gset CommitId) s c s', (NoDup s ∧ ∀ c, c ∈ s ↔ c ∈ X) → c ∉ X → on_enter c s = (s', false) →
    NoDup s' ∧ ∀ c0, c0 ∈ s' ↔ c0 ∈ {[c]} ∪ X) as HV.
  { intros X s c s' [Hnd Hel] Hc [= <-]. split.
    - apply NoDup_app. split_and!; [done| |apply NoDup_singleton].
      intros d Hd ->%list_elem_of_singleton. by apply Hc, Hel.
    - intros d. rewrite elem_of_app, list_elem_of_singleton, elem_of_union, elem_of_singleton, Hel. tauto. }
  specialize (Hs HV fuel0 head walk_new [] r ltac:(split_and!; [done|done|by left])
                 ltac:(split; [apply NoDup_nil_2|intros c; by rewrite elem_of_nil, elem_of_empty]) (Hr fuel0 (le_n _))).
  destruct r as [[[[] w] order]|e|m]; cbn in *; [by destruct Hs as (? & ? & _ & _ & ?)| | |done].
  - destruct Hs as [Hinv [Hnd Hel]]. destruct (dfs_complete head w Hinv) as [Hdom Hacc].
    split; [|by eexists]. split_and!; [done| |].
    + intros c. by rewrite Hel, elem_of_dom, Hdom.
    + intros c Hc. destruct (Hacc c Hc). split; [done|]. by apply acc_no_cycle.
  - split; [done|]. intros Hh. by destruct (healthy_no_error head e Hh).
Qed.

(** What [ancestry] records. *)
Definition ancestry_of (head : CommitId) (a : AncestryMap) : Prop :=
  (∀ c ps, an_parents a !! c = Some ps ↔ reach P head c ∧ pp_parents c = Ok (Some ps)) ∧
  (∀ c, reach P head c → known P c ∧ Acc (parent_of P) c).

Lemma ancestry_total_sound head :
  ∃ fuel0 r, (∀ fuel, fuel0 ≤ fuel → ancestry now limits fuel head = Some r) ∧
             match r with
             | Ok a => ancestry_of head a
             | Err e => err_justified P limits head e
             | Panic _ => False
             end.
Proof using All.
  set (on_enter := λ (_ : CommitId) (_ : unit), (tt, false)).
  destruct (dfs_total P now limits on_enter (mkWalk ∅ ∅ 1 (Some ∅) 0) head tt) as (fuel0 & r & Hr).
  exists fuel0. eexists. split.
  { intros fuel Hf. unfold ancestry. fold on_enter. by rewrite (Hr fuel Hf). }
  pose proof (dfs_sound P now limits on_enter (λ _ _, True)) as Hs.
  specialize (Hs ltac:(done) fuel0 head (mkWalk ∅ ∅ 1 (Some ∅) 0) tt r
                 ltac:(split_and!; [done|done|by right]) I (Hr fuel0 (le_n _))).
  destruct r as [[[[] w] []]|e|m]; cbn in *; [by destruct Hs as (? & ? & _ & _ & ?)| |done|done].
  destruct Hs as [Hinv _]. destruct (dfs_complete head w Hinv) as [Hdom Hacc].
  destruct (dfs_records P now limits on_enter _ _ _ _ _ _ _ (Hr fuel0 (le_n _))) as [m Hm];
    [by eexists|].
  split; [|done]. intros c ps. cbn. rewrite <-Hdom, Hm. by apply (inv_record _ _ _ _ _ Hinv).
Qed.
End queries_correct.

(** ** Windows are a retrieval hint only *)
Section transparency.
Context {E : Type} (P Q : ParentProvider E) `{!ParentProviderOk P, !ParentProviderOk Q}.
Hypothesis same_answers : ∀ c, @pp_parents E P c = @pp_parents E Q c.
Context (now now' : nat → Z) (limits : TraversalLimits).

(** Walks that agree on everything but what was prefetched and how wide windows are. *)
Definition walk_sim (w1 w2 : Walk) : Prop :=
  w_colour w1 = w_colour w2 ∧ w_record w1 = w_record w2 ∧
  prefetch_sound P (w_prefetched w1) ∧ prefetch_sound Q (w_prefetched w2).

(** A call that reported its deadline, which takes a deadline to report. *)
Definition late {A} (r : result (DagError E) A) : Prop := deadline limits ≠ None ∧ r = Err Deadline.

Lemma load_sim kind w1 w2 id wanted wanted' : walk_sim w1 w2 →
  late (@load E P now limits kind w1 id wanted) ∨ late (@load E Q now' limits kind w2 id wanted') ∨
  match @load E P now limits kind w1 id wanted, @load E Q now' limits kind w2 id wanted' with
  | Ok (ps1, w1'), Ok (ps2, w2') => ps1 = ps2 ∧ walk_sim w1' w2'
  | Err e1, Err e2 => e1 = e2
  | _, _ => False
  end.
Proof using All.
  intros (Hc & Hr & H1 & H2).
  destruct (load_spec P now limits kind w1 id wanted H1) as [?|Hl1]; [by left|]. right.
  destruct (load_spec Q now' limits kind w2 id wanted' H2) as [?|Hl2]; [by left|]. right.
  unfold load_ref in *. rewrite Hc, same_answers in Hl1.
  destruct (max_visited limits <=? size (w_colour w2)); [by rewrite Hl1, Hl2|].
  destruct (@pp_parents E Q id) as [[ps|]|e|m]; [|by rewrite Hl1, Hl2..|done].
  destruct Hl1 as (w1' & -> & ? & Hc1 & Hr1), Hl2 as (w2' & -> & ? & Hc2 & Hr2).
  split; [done|]. split_and!; congruence || done.
Qed.

Context {S : Type} (on_enter : CommitId → S → S * bool).

(** Two runs go in lock step, until one of them reports its deadline. *)
Definition late_run {A} (r : option (result (DagError E) A)) : Prop :=
  deadline limits ≠ None ∧ r = Some (Err Deadline).
Definition run_sim (r1 r2 : option (result (DagError E) (DfsOutcome * Walk * S))) : Prop :=
  late_run r1 ∨ late_run r2 ∨
  match r1, r2 with
  | Some (Ok (o1, w1, s1)), Some (Ok (o2, w2, s2)) => o1 = o2 ∧ walk_sim w1 w2 ∧ s1 = s2
  | Some (Err e1), Some (Err e2) => e1 = e2
  | None, None => True
  | _, _ => False
  end.

Lemma set_colour_sim c k w1 w2 : walk_sim w1 w2 → walk_sim (set_colour c k w1) (set_colour c k w2).
Proof. intros (Hc & Hr & ? & ?). unfold walk_sim; cbn. rewrite Hc. done. Qed.

(** A load, and what follows when it succeeds. *)
Lemma after_load_sim kind w1 w2 id
    (k1 k2 : list CommitId * Walk → option (result (DagError E) (DfsOutcome * Walk * S))) :
  walk_sim w1 w2 → (∀ ps w1' w2', walk_sim w1' w2' → run_sim (k1 (ps, w1')) (k2 (ps, w2'))) →
  run_sim (match @load E P now limits kind w1 id usize_max with
           | Ok x => k1 x | Err e => Some (Err e) | Panic m => Some (Panic m) end)
          (match @load E Q now' limits kind w2 id usize_max with
           | Ok x => k2 x | Err e => Some (Err e) | Panic m => Some (Panic m) end).
Proof using All.
  intros Hw Hk. destruct (load_sim kind w1 w2 id usize_max usize_max Hw) as [[Hd ->]|[[Hd ->]|Hl]];
    [by left|by right; left|].
  destruct (load now limits kind w1 id usize_max) as [[ps1 w1']|e1|m1],
           (load now' limits kind w2 id usize_max) as [[ps2 w2']|e2|m2]; try done.
  - destruct Hl as [-> Hw']. by apply Hk.
  - subst. by right; right.
Qed.

Lemma dfs_loop_sim kind fuel stack w1 w2 s : walk_sim w1 w2 →
  run_sim (@dfs_loop E P now limits S on_enter fuel kind stack w1 s)
          (@dfs_loop E Q now' limits S on_enter fuel kind stack w2 s).
Proof using All.
  revert stack w1 w2 s. induction fuel as [|fuel IH]; intros [|f rest] w1 w2 s Hw; cbn [dfs_loop];
    try (by right; right).
  destruct (fr_parents f !! fr_next f) as [p|]; [|apply IH; by apply set_colour_sim].
  pose proof Hw as (Hc & _). rewrite Hc.
  destruct (w_colour w2 !! p) as [[]|]; [by right; right|by apply IH|].
  apply (after_load_sim kind w1 w2 p (λ '(_, _), _) (λ '(_, _), _)); [done|]. intros ps w1' w2' Hw'.
  destruct (on_enter p s) as [s' []].
  - right; right. split_and!; [done|by apply set_colour_sim|done].
  - apply IH. by apply set_colour_sim.
Qed.

Lemma dfs_sim fuel w1 w2 start s : walk_sim w1 w2 →
  run_sim (@dfs E P now limits S on_enter fuel w1 start s)
          (@dfs E Q now' limits S on_enter fuel w2 start s).
Proof using All.
  intros Hw. unfold dfs.
  apply (after_load_sim Ancestry w1 w2 start (λ '(_, _), _) (λ '(_, _), _)); [done|]. intros ps w1' w2' Hw'.
  destruct (on_enter start s) as [s' []].
  - right; right. split_and!; [done|by apply set_colour_sim|done].
  - apply dfs_loop_sim. by apply set_colour_sim.
Qed.
End transparency.

(** Two answers of one query: the same, unless a deadline was set and one of the two reported
    it. Without a deadline, [agree] is equality. *)
Definition agree {E A} (limits : TraversalLimits) (r1 r2 : option (result (DagError E) A)) : Prop :=
  late_run limits r1 ∨ late_run limits r2 ∨ r1 = r2.
Lemma agree_no_deadline {E A} limits (r1 r2 : option (result (DagError E) A)) :
  deadline limits = None → agree limits r1 r2 ↔ r1 = r2.
Proof. intros Hd. unfold agree, late_run. naive_solver. Qed.

Section transparency_queries.
Context {E : Type} (P Q : ParentProvider E) `{!ParentProviderOk P, !ParentProviderOk Q}.
Context (same_answers : ∀ c, @pp_parents E P c = @pp_parents E Q c).
Context (now now' : nat → Z) (limits : TraversalLimits).

Lemma fresh_sim r : walk_sim P Q (mkWalk ∅ ∅ 1 r 0) (mkWalk ∅ ∅ 1 r 0).
Proof. by split_and!. Qed.

(** Runs related by [run_sim] agree after any post-processing that ignores prefetching. *)
Lemma run_sim_map {S B} (f : DfsOutcome * Walk * S → B) r1 r2 :
  (∀ o w1 w2 s, walk_sim P Q w1 w2 → f (o, w1, s) = f (o, w2, s)) →
  run_sim P Q limits r1 r2 → agree limits (map_run f r1) (map_run f r2).
Proof.
  intros Hf [[Hd ->]|[[Hd ->]|Hs]]; [by left|by right; left|]. right; right.
  destruct r1 as [[[[o1 w1] s1]|e1|m1]|], r2 as [[[[o2 w2] s2]|e2|m2]|]; try done.
  - destruct Hs as (-> & Hw & ->). cbn. by rewrite (Hf o2 w1 w2 s2 Hw).
  - cbn. by subst.
Qed.

Lemma first_parent_loop_sim left w1 w2 current history : walk_sim P Q w1 w2 →
  agree limits (Some (@first_parent_loop E P now limits left w1 current history))
               (Some (@first_parent_loop E Q now' limits left w2 current history)).
Proof using All.
  revert w1 w2 current history. induction left as [|left IH]; intros w1 w2 current history Hw; [by right; right|].
  cbn [first_parent_loop].
  destruct (load_sim P Q same_answers now now' limits FirstParent w1 w2 current
    (N.of_nat (S left)) (N.of_nat (S left)) Hw) as [[Hd ->]|[[Hd ->]|Hl]]; [by left|by right; left|].
  destruct (load now limits FirstParent w1 current _) as [[ps1 w1']|e1|m1],
           (load now' limits FirstParent w2 current _) as [[ps2 w2']|e2|m2]; try done;
    [|right; right; cbn; congruence].
  destruct Hl as [-> Hw']. run_res. apply (set_colour_sim P Q current Grey) in Hw'.
  destruct (left =? 0); [by right; right|]. destruct ps2 as [|first ps2]; [by right; right|].
  pose proof Hw' as (Hc & _). rewrite Hc. case_bool_decide; [by right; right|]. by apply IH.
Qed.
End transparency_queries.

(** C9. Retrieval windows are only a hint. Two providers that keep the contract and answer
    single lookups alike give, for every query, every limits (a deadline included) and any two
    clocks, the same answer, error cases included, whatever windows they return (wide, narrow,
    one commit): the only difference there can be is that a deadline was set and one of the two
    runs reported it. Without a deadline the answers are equal. *)
Theorem windows_are_transparent {E : Type} (P Q : ParentProvider E) `{!ParentProviderOk P, !ParentProviderOk Q}
    (same_answers : ∀ c, @pp_parents E P c = @pp_parents E Q c) (now now' : nat → Z) (limits : TraversalLimits)
    (fuel : nat) (a b : CommitId) (max : nat) :
  agree limits (is_ancestor (P:=P) now limits fuel a b) (is_ancestor (P:=Q) now' limits fuel a b) ∧
  agree limits (ancestors (P:=P) now limits fuel a) (ancestors (P:=Q) now' limits fuel a) ∧
  agree limits (ancestry (P:=P) now limits fuel a) (ancestry (P:=Q) now' limits fuel a) ∧
  agree limits (Some (first_parent_history (P:=P) now limits a max))
               (Some (first_parent_history (P:=Q) now' limits a max)).
Proof.
  split_and!.
  - apply (run_sim_map P Q); [|by apply dfs_sim]. done.
  - apply (run_sim_map P Q); [|by apply dfs_sim]. done.
  - apply (run_sim_map P Q); [|by apply dfs_sim]. intros o w1 w2 s (_ & Hr & _). by rewrite Hr.
  - unfold first_parent_history. destruct (max =? 0); [by right; right|].
    apply (first_parent_loop_sim P Q); [done|]. by split_and!.
Qed.

(** ** First-parent history *)
Section first_parent.
Context {E : Type} (P : ParentProvider E) `{!ParentProviderOk P}.
Context (now : nat → Z) (limits : TraversalLimits) (head : CommitId) (max : nat).

(** [fp_path l c]: following first parents from [head] passes through [l], then reaches [c]. *)
Inductive fp_path : list CommitId → CommitId → Prop :=
  | fp_head : fp_path [] head
  | fp_step l c d ds : fp_path l c → pp_parents c = Ok (Some (d :: ds)) → fp_path (l ++ [c]) d.

Definition first_parent_post (r : result (DagError E) (list CommitId)) : Prop :=
  match r with
  | Ok h => NoDup h ∧ length h ≤ max ∧
      (h = [] ∧ max = 0 ∨
       ∃ l c, h = l ++ [c] ∧ fp_path l c ∧
              (length h = max ∧ known P c ∨ pp_parents c = Ok (Some [])))
  | Err (UnknownCommit c) => ∃ l, fp_path l c ∧ pp_parents c = Ok None
  | Err (Cycle c) => ∃ l, fp_path l c ∧ c ∈ l
  | Err (VisitLimit n) => n = max_visited limits ∧ ∃ l c, fp_path l c ∧ length l = n ∧ n < max
  | Err Deadline => deadline limits ≠ None
  | Err (Provider e) => ∃ l c, fp_path l c ∧ pp_parents c = Err e
  | Panic _ => False
  end.

Lemma first_parent_loop_sound left w current history :
  prefetch_sound P (w_prefetched w) → (∀ c, is_Some (w_colour w !! c) ↔ c ∈ history) →
  NoDup history → current ∉ history → fp_path history current →
  size (w_colour w) = length history → length history ≤ max_visited limits →
  0 < left → length history + left = max →
  first_parent_post (first_parent_loop now limits left w current history).
Proof using All.
  revert w current history. induction left as [|left IH]; intros w current history
    Hpre Hcol Hnd Hnew Hpath Hsize Hvis Hpos Hlen; [lia|].
  cbn [first_parent_loop]. set (wanted := N.of_nat (S left)). clearbody wanted.
  destruct (load_spec P now limits FirstParent w current wanted Hpre) as [[Hd ->]|Hl]; [done|].
  unfold load_ref in Hl. destruct (Nat.leb_spec (max_visited limits) (size (w_colour w))) as [Hge|Hlt].
  { rewrite Hl. cbn. split; [lia|]. exists history, current. split_and!; [done|lia|lia]. }
  destruct (pp_parents current) as [[ps|]|e|m] eqn:Hps; [|rewrite Hl; cbn; eauto..|done].
  destruct Hl as (w' & -> & Hpre' & Hcw & _). run_res. cbn [set_colour w_colour].
  assert (NoDup (history ++ [current])) as Hnd'.
  { apply NoDup_app. split_and!; [done| |apply NoDup_singleton].
    by intros c Hc ->%list_elem_of_singleton. }
  assert (length (history ++ [current]) = S (length history)) as Hlen' by (rewrite length_app; cbn; lia).
  destruct (Nat.eqb_spec left 0) as [->|Hleft].
  { cbn. split_and!; [done|lia|]. right. exists history, current. split_and!; [done|done|].
    left. split; [lia|by exists ps]. }
  destruct ps as [|first ps].
  { cbn. split_and!; [done|lia|]. right. exists history, current. split_and!; [done|done|by right]. }
  assert (fp_path (history ++ [current]) first) as Hpath' by (by eapply fp_step).
  assert (∀ c, is_Some (<[current:=Grey]> (w_colour w') !! c) ↔ c ∈ history ++ [current]) as Hcol'.
  { intros c. rewrite lookup_insert_is_Some, Hcw, Hcol, elem_of_app, list_elem_of_singleton.
    destruct (decide (current = c)); naive_solver. }
  case_bool_decide as Hf.
  { cbn. exists (history ++ [current]). split; [done|]. by apply Hcol'. }
  apply IH; cbn [set_colour w_prefetched w_colour]; try done; try lia.
  - intros Hin. apply Hf. by apply Hcol'.
  - rewrite Hcw, map_size_insert_None, Hsize, Hlen'; [done|]. apply eq_None_not_Some.
    by rewrite Hcol.
Qed.

(** C14. [first_parent_history] returns the first-parent chain from the head, without
    repetition, cut at [max] entries or ending at a root; every returned commit is known. Errors
    are justified: an unknown or failing commit, or a repeated commit, really lies on the chain,
    and the visit limit is reported only when the chain is longer than the limit. *)
Theorem first_parent_history_correct :
  first_parent_post (first_parent_history now limits head max).
Proof using All.
  unfold first_parent_history. destruct (Nat.eqb_spec max 0) as [Hz|Hnz].
  { cbn. split_and!; [apply NoDup_nil_2|lia|by left]. }
  apply first_parent_loop_sound; cbn [walk_new w_prefetched w_colour length]; try lia.
  - by intros ? ?.
  - intros c. rewrite lookup_empty, elem_of_nil. split; [intros []%is_Some_None|done].
  - apply NoDup_nil_2.
  - apply not_elem_of_nil.
  - constructor.
  - apply map_size_empty.
Qed.
End first_parent.
