(* ===== verification/MergeBase.v ===== *)
(** * Merge bases, ancestry relations and the in-memory provider

    Source: [crates/ledger-dag/src/lib.rs] (the second half): [best_common_ancestors],
    [merge_base], [ahead_behind], [analyze], [window_calls] and [MemoryDag]. *)

From Stdlib Require Import ZArith Lia String.
From stdpp Require Import base gmap countable list relations.
From S2P Require Import Prelude BTree Bytes Core Dag DagWalk.

Local Open Scope ledger_scope.

(** ** Definitions *)
(** [enum MergeBase] *)
Inductive MergeBase :=
  | Unique (c : CommitId)
  | Ambiguous (cs : list CommitId)
  | Unrelated.
#[export] Instance MergeBase_eq_dec : EqDecision MergeBase.
Proof. solve_decision. Defined.

(** [Ancestry::contains] and friends *)
Definition an_contains (a : AncestryMap) (c : CommitId) : bool :=
  bool_decide (is_Some (an_parents a !! c)).
Definition an_keys (a : AncestryMap) : list CommitId := (map_to_list (an_parents a)).*1.
Definition an_len (a : AncestryMap) : nat := size (an_parents a).

(** [Ancestry::difference] *)
Definition an_difference (a other : AncestryMap) : list CommitId :=
  bts_collect (List.filter (λ c, negb (an_contains other c)) (an_keys a)).

(** [a.parents.get(c).into_iter().flatten()] *)
Definition an_edges (a : AncestryMap) (c : CommitId) : list CommitId :=
  default [] (an_parents a !! c).

(** The marking loop of [best_common_ancestors]; the head of the list is the top of the stack. *)
Fixpoint mark_dominated (fuel : nat) (a : AncestryMap) (stack : list CommitId)
    (dominated : gset CommitId) : option (gset CommitId) :=
  match stack with
  | [] => Some dominated
  | c :: stack =>
      match fuel with
      | O => None
      | S fuel =>
          if bool_decide (c ∈ dominated) then mark_dominated fuel a stack dominated
          else mark_dominated fuel a (rev (an_edges a c) ++ stack) ({[c]} ∪ dominated)
      end
  end.

(** Every iteration pops one pushed edge target, and the edges of a commit are pushed at most
    twice: once initially, once when the commit is first marked. *)
Definition mark_fuel (a : AncestryMap) : nat :=
  2 * sum_list_with (λ c, length (an_edges a c)) (an_keys a).

(** [best_common_ancestors] *)
Definition best_common_ancestors (a b : AncestryMap) : option (list CommitId) :=
  let common := List.filter (an_contains b) (an_keys a) in
  match mark_dominated (mark_fuel a) a (rev (flat_map (an_edges a) common)) ∅ with
  | Some dominated => Some (bts_collect (List.filter (λ c, negb (bool_decide (c ∈ dominated))) common))
  | None => None
  end.

(** [classify_base] *)
Definition classify_base (best : list CommitId) : MergeBase :=
  match best with
  | [] => Unrelated
  | [c] => Unique c
  | _ => Ambiguous best
  end.

(** [counts] *)
Definition counts (t s : AncestryMap) : nat * nat :=
  (length (List.filter (λ c, negb (an_contains t c)) (an_keys s)),
   length (List.filter (λ c, negb (an_contains s c)) (an_keys t))).

(** [enum Relation], [struct Analysis] *)
Inductive Relation :=
  | Equal
  | SourceContained
  | FastForward
  | Divergent (base : MergeBase).

Record Analysis := mkAnalysis { relation : Relation; ahead : nat; behind : nat }.

(** Sequencing of fuelled, fallible runs. *)
Definition run_bind {E A B} (r : option (result E A)) (k : A → option (result E B))
    : option (result E B) :=
  match r with
  | Some (Ok a) => k a
  | Some (Err e) => Some (Err e)
  | Some (Panic m) => Some (Panic m)
  | None => None
  end.

Section merge_queries.
Context {E : Type} `{P : ParentProvider E} (now : nat → Z) (limits : TraversalLimits) (fuel : nat).

(** [merge_base] *)
Definition merge_base (a b : CommitId) : option (result (DagError E) MergeBase) :=
  run_bind (ancestry now limits fuel a) (λ left,
  run_bind (ancestry now limits fuel b) (λ right,
  match best_common_ancestors left right with
  | Some best => Some (Ok (classify_base best))
  | None => None
  end)).

(** [ahead_behind] *)
Definition ahead_behind (target source : CommitId) : option (result (DagError E) (nat * nat)) :=
  run_bind (ancestry now limits fuel target) (λ t,
  run_bind (ancestry now limits fuel source) (λ s, Some (Ok (counts t s)))).

(** [analyze_with_ancestries] *)
Definition analyze_with_ancestries (target source : CommitId)
    : option (result (DagError E) (Analysis * AncestryMap * AncestryMap)) :=
  run_bind (ancestry now limits fuel target) (λ t,
  if bool_decide (target = source) then Some (Ok (mkAnalysis Equal 0 0, t, t))
  else
    run_bind (ancestry now limits fuel source) (λ s,
    let '(ahead, behind) := counts t s in
    if an_contains t source then Some (Ok (mkAnalysis SourceContained ahead behind, t, s))
    else if an_contains s target then Some (Ok (mkAnalysis FastForward ahead behind, t, s))
    else match best_common_ancestors t s with
         | Some best => Some (Ok (mkAnalysis (Divergent (classify_base best)) ahead behind, t, s))
         | None => None
         end)).

(** [analyze] *)
Definition analyze (target source : CommitId) : option (result (DagError E) Analysis) :=
  map_run (λ '(analysis, _, _), analysis) (analyze_with_ancestries target source).
End merge_queries.

(** ** [MemoryDag] *)
Record MemoryDag := mkMemoryDag { md_parents : gmap CommitId (list CommitId); md_window : N }.

(** [MemoryDag::new], [with_window], [insert] *)
Definition memory_dag_new : MemoryDag := mkMemoryDag ∅ 1.
Definition with_window (d : MemoryDag) (window : N) : MemoryDag :=
  mkMemoryDag (md_parents d) (N.max window 1).
Definition md_insert (d : MemoryDag) (id : CommitId) (parents : list CommitId) : MemoryDag :=
  mkMemoryDag (<[id := parents]> (md_parents d)) (md_window d).

(** [for parent in follow { if known && queued.insert(..) { queue.push_back(..) } }] *)
Definition enqueue (d : MemoryDag) (follow : list CommitId)
    (st : gset CommitId * list CommitId) : gset CommitId * list CommitId :=
  fold_left (λ '(queued, queue) parent,
    if bool_decide (is_Some (md_parents d !! parent)) && negb (bool_decide (parent ∈ queued))
    then ({[parent]} ∪ queued, queue ++ [parent]) else (queued, queue)) follow st.

(** The breadth-first loop of [MemoryDag::ancestry_window]. Each iteration either stops or
    returns one more commit, and it stops at [max], so [max + 1] iterations are enough. *)
Fixpoint window_loop (fuel : nat) (d : MemoryDag) (max : nat) (kind : WindowKind)
    (queued : gset CommitId) (queue : list CommitId) (out : list (CommitId * list CommitId))
    : result unit (list (CommitId * list CommitId)) :=
  match queue with
  | [] => Ok out
  | id :: queue =>
      match fuel with
      | O => Panic "fuel"
      | S fuel =>
          if max <=? length out then Ok out
          else
            match md_parents d !! id with
            | None => Panic "missing key"
            | Some parents =>
                let follow := match kind with Ancestry => parents | FirstParent => take 1 parents end in
                let '(queued, queue) := enqueue d follow (queued, queue) in
                window_loop fuel d max kind queued queue (out ++ [(id, parents)])
            end
      end
  end.

Definition md_ancestry_window (d : MemoryDag) (start : CommitId) (max : N) (kind : WindowKind)
    : result unit (list (CommitId * list CommitId)) :=
  let max := N.to_nat (N.max (N.min (md_window d) max) 1) in
  let '(queued, queue) :=
    if bool_decide (is_Some (md_parents d !! start)) then ({[start]}, [start]) else (∅, []) in
  window_loop (S max) d max kind queued queue [].

(** [impl ParentProvider for MemoryDag] *)
Definition memory_provider (d : MemoryDag) : ParentProvider unit := {|
  pp_parents c := Ok (md_parents d !! c);
  pp_window := md_ancestry_window d
|}.

(** ** Marking dominated commits *)
Section marking.
Context (a : AncestryMap).

Definition an_edge (x y : CommitId) : Prop := y ∈ an_edges a x.

(** The edges still to be pushed. *)
Definition pending_work (dominated : gset CommitId) : nat :=
  sum_list_with (λ c, if bool_decide (c ∈ dominated) then 0 else length (an_edges a c)) (an_keys a).

Lemma an_keys_NoDup : NoDup (an_keys a).
Proof. apply NoDup_fst_map_to_list. Qed.

Lemma elem_of_an_keys c : c ∈ an_keys a ↔ is_Some (an_parents a !! c).
Proof.
  unfold an_keys. rewrite list_elem_of_fmap. split.
  - intros ([? ps] & -> & Hin%elem_of_map_to_list). by eexists.
  - intros [ps Hps]. exists (c, ps). split; [done|]. by apply elem_of_map_to_list.
Qed.

Lemma pending_work_mark c D : c ∉ D →
  length (an_edges a c) + pending_work ({[c]} ∪ D) ≤ pending_work D.
Proof.
  intros Hc. unfold pending_work.
  assert (∀ l, NoDup l →
    (if bool_decide (c ∈ l) then length (an_edges a c) else 0) +
    sum_list_with (λ d, if bool_decide (d ∈ {[c]} ∪ D) then 0 else length (an_edges a d)) l ≤
    sum_list_with (λ d, if bool_decide (d ∈ D) then 0 else length (an_edges a d)) l) as Hl.
  { induction 1 as [|d l Hd Hl IH]; [done|]. cbn.
    destruct (decide (d = c)) as [->|Hne].
    - rewrite (bool_decide_eq_true_2 (c ∈ c :: l)) by left.
      rewrite (bool_decide_eq_true_2 (c ∈ {[c]} ∪ D)) by (apply elem_of_union; left; by apply elem_of_singleton).
      rewrite (bool_decide_eq_false_2 (c ∈ D)) by done.
      rewrite (bool_decide_eq_false_2 (c ∈ l)) in IH by done. lia.
    - assert (bool_decide (c ∈ d :: l) = bool_decide (c ∈ l)) as ->.
      { apply bool_decide_ext. rewrite elem_of_cons. naive_solver. }
      assert (bool_decide (d ∈ {[c]} ∪ D) = bool_decide (d ∈ D)) as ->.
      { apply bool_decide_ext. rewrite elem_of_union, elem_of_singleton. naive_solver. }
      lia. }
  specialize (Hl (an_keys a) an_keys_NoDup).
  destruct (decide (c ∈ an_keys a)) as [Hin|Hin].
  - rewrite bool_decide_eq_true_2 in Hl by done. lia.
  - rewrite bool_decide_eq_false_2 in Hl by done.
    assert (an_edges a c = []) as ->; [|cbn; lia].
    unfold an_edges. destruct (an_parents a !! c) eqn:Hp; [|done].
    destruct Hin. apply elem_of_an_keys. by eexists.
Qed.

(** The loop ends within the fuel and computes reachability from the stack. *)
Lemma mark_dominated_spec fuel stack D :
  length stack + pending_work D ≤ fuel →
  (∀ c d, c ∈ D → an_edge c d → d ∈ D ∨ d ∈ stack) →
  ∃ D', mark_dominated fuel a stack D = Some D' ∧ D ⊆ D' ∧ (∀ c, c ∈ stack → c ∈ D') ∧
    (∀ c d, c ∈ D' → an_edge c d → d ∈ D') ∧
    (∀ c, c ∈ D' → c ∈ D ∨ ∃ x, x ∈ stack ∧ rtc an_edge x c).
Proof.
  revert stack D. induction fuel as [|fuel IH]; intros [|c stack] D Hfuel Hclosed; cbn [length] in Hfuel;
    [exists D|lia|exists D|cbn [mark_dominated]].
  1,2: split_and!; [done|done|intros ? []%not_elem_of_nil| |by left];
    intros x y Hx Hy; by destruct (Hclosed x y Hx Hy) as [|[]%not_elem_of_nil].
  case_bool_decide as Hc.
  - destruct (IH stack D) as (D' & -> & Hsub & Hst & Hcl & Hre); [lia| |].
    { intros x y Hx Hy. destruct (Hclosed x y Hx Hy) as [|[->|]%elem_of_cons]; auto. }
    exists D'. split_and!; [done|done| |done|].
    + intros x [->|Hx]%elem_of_cons; auto.
    + intros x Hx. destruct (Hre x Hx) as [|(y & Hy & Hyx)]; [by left|right].
      exists y. split; [by right|done].
  - pose proof (pending_work_mark c D Hc) as Hw.
    destruct (IH (rev (an_edges a c) ++ stack) ({[c]} ∪ D)) as (D' & -> & Hsub & Hst & Hcl & Hre).
    { rewrite length_app, length_rev. lia. }
    { intros x y [->%elem_of_singleton|Hx]%elem_of_union Hy.
      - right. apply elem_of_app. left. by rewrite elem_of_rev.
      - destruct (Hclosed x y Hx Hy) as [|[->|]%elem_of_cons].
        + left. apply elem_of_union. by right.
        + left. apply elem_of_union. left. by apply elem_of_singleton.
        + right. apply elem_of_app. by right. }
    assert (c ∈ D') as HcD' by (apply Hsub, elem_of_union; left; by apply elem_of_singleton).
    exists D'. split_and!; [done| | |done|].
    + intros x Hx. apply Hsub, elem_of_union. by right.
    + intros x [->|Hx]%elem_of_cons; [done|]. apply Hst, elem_of_app. by right.
    + intros x Hx. destruct (Hre x Hx) as [[->%elem_of_singleton|]%elem_of_union|(y & Hy & Hyx)].
      * right. exists c. split; [left|apply rtc_refl].
      * by left.
      * right. apply elem_of_app in Hy as [Hy|Hy].
        -- exists c. split; [left|]. eapply rtc_l; [|exact Hyx]. unfold an_edge. by rewrite <-elem_of_rev.
        -- exists y. split; [by right|done].
Qed.
End marking.

(** ** Best common ancestors *)
Section best.
Context {E : Type} (P : ParentProvider E) (ha hb : CommitId) (a b : AncestryMap).
Hypothesis Ha : ancestry_of P ha a.
Hypothesis Hb : ancestry_of P hb b.

Definition common (c : CommitId) : Prop := reach P ha c ∧ reach P hb c.

(** A common ancestor that no other common ancestor descends from. *)
Definition best_common (c : CommitId) : Prop :=
  common c ∧ ∀ d, common d → ¬ tc (edge P) d c.

Lemma an_contains_reach h m c : ancestry_of P h m → an_contains m c = true ↔ reach P h c.
Proof.
  intros [Hm Hk]. unfold an_contains. rewrite bool_decide_eq_true. split.
  - intros [ps Hps]. by apply Hm in Hps as [? _].
  - intros Hc. destruct (Hk c Hc) as [[ps Hps] _]. exists ps. by apply Hm.
Qed.

Lemma an_keys_reach h m c : ancestry_of P h m → c ∈ an_keys m ↔ reach P h c.
Proof.
  intros Hm. rewrite elem_of_an_keys, <-(an_contains_reach h m c Hm). unfold an_contains.
  by rewrite bool_decide_eq_true.
Qed.

Lemma an_edge_edge x y : reach P ha x → an_edge a x y ↔ edge P x y.
Proof using Ha.
  intros Hx. destruct Ha as [Hm Hk]. destruct (Hk x Hx) as [[ps Hps] _].
  unfold an_edge, an_edges. rewrite (proj2 (Hm x ps)) by done. cbn. split.
  - intros Hy. by exists ps.
  - intros (qs & Hqs & Hy). congruence.
Qed.

Lemma an_rtc_reach x y : reach P ha x → rtc (an_edge a) x y → reach P x y.
Proof using Ha.
  intros Hx Hxy. induction Hxy as [x|x y z Hxy _ IH]; [apply rtc_refl|].
  apply an_edge_edge in Hxy; [|done]. eapply rtc_l; [exact Hxy|]. apply IH. by eapply reach_edge.
Qed.

(** The answer, as a strictly ascending list of exactly the best common ancestors, together
    with the fact that every common ancestor is best or dominated by a common one. *)
Lemma best_common_ancestors_spec :
  ∃ best, best_common_ancestors a b = Some best ∧ ascending best ∧
    (∀ c, c ∈ best ↔ best_common c) ∧
    (∀ c, common c → best_common c ∨ ∃ d, common d ∧ tc (edge P) d c).
Proof using All.
  unfold best_common_ancestors. set (coms := List.filter (an_contains b) (an_keys a)).
  assert (∀ c, c ∈ coms ↔ common c) as Hcoms.
  { intros c. unfold coms, common. rewrite elem_of_List_filter.
    by rewrite (an_contains_reach hb b c Hb), (an_keys_reach ha a c Ha), (comm (∧)). }
  destruct (mark_dominated_spec a (mark_fuel a) (rev (flat_map (an_edges a) coms)) ∅)
    as (D & -> & _ & Hst & Hcl & Hre).
  { unfold mark_fuel. rewrite length_rev.
    assert (length (flat_map (an_edges a) coms) ≤ sum_list_with (λ c, length (an_edges a c)) (an_keys a)) as Hlen.
    { unfold coms. clear. induction (an_keys a) as [|k ks IH]; [done|]. cbn.
      destruct (an_contains b k); cbn; rewrite ?length_app; lia. }
    assert (pending_work a ∅ ≤ sum_list_with (λ c, length (an_edges a c)) (an_keys a)) as Hle.
    { unfold pending_work. clear. induction (an_keys a) as [|k ks IH]; [done|]. cbn [sum_list_with]. case_bool_decide; lia. }
    lia. }
  { intros c d []%elem_of_empty. }
  assert (∀ c, c ∈ D ↔ ∃ d, common d ∧ tc (edge P) d c) as HD.
  { intros c. split.
    - intros Hc. destruct (Hre c Hc) as [[]%elem_of_empty|(x & Hx & Hxc)].
      rewrite elem_of_rev, list_elem_of_In, in_flat_map in Hx.
      destruct Hx as (d & Hd%list_elem_of_In & Hdx%list_elem_of_In). apply Hcoms in Hd.
      assert (edge P d x) as Hdx' by (apply an_edge_edge; [apply Hd|done]).
      exists d. split; [done|]. eapply tc_rtc_r; [by apply tc_once|].
      apply an_rtc_reach; [|done]. eapply reach_edge; [apply Hd|done].
    - intros (d & Hd & Hdc). apply tc_rtc in Hdc as Hdc'.
      assert (∀ x y, x ∈ D → reach P ha x → reach P x y → y ∈ D) as Hclosed.
      { intros x y Hx Hax Hxy. induction Hxy as [|x z y Hxz _ IH]; [done|].
        apply IH; [|by eapply reach_edge]. eapply Hcl; [exact Hx|]. by apply an_edge_edge. }
      assert (∃ x, edge P d x ∧ reach P x c) as (x & Hdx & Hxc).
      { inversion Hdc as [? ? Hx|? x ? Hx Hxc]; subst; eexists; (split; [exact Hx|]);
          [apply rtc_refl|by apply tc_rtc]. }
      apply (Hclosed x c); [|eapply reach_edge; [apply Hd|done]|done].
      apply Hst. rewrite elem_of_rev, list_elem_of_In, in_flat_map. exists d.
      rewrite <-!list_elem_of_In. split; [by apply Hcoms|]. apply an_edge_edge; [apply Hd|done]. }
  eexists. split_and!; [reflexivity|apply bts_collect_ascending| |].
  - intros c. rewrite elem_of_bts_collect, elem_of_List_filter, negb_true_iff, bool_decide_eq_false.
    rewrite Hcoms, HD. unfold best_common. split.
    + intros [Hn Hc]. split; [done|]. intros d Hd Hdc. apply Hn. eauto.
    + intros [Hc Hn]. split; [|done]. intros (d & Hd & Hdc). by apply (Hn d).
  - intros c Hc. destruct (decide (c ∈ D)) as [Hin|Hn]; [right; by apply HD|left].
    split; [done|]. intros d Hd Hdc. apply Hn, HD. eauto.
Qed.

(** Every common ancestor descends from... that is, is reachable from a best one. *)
Lemma best_common_above c : common c → ∃ d, best_common d ∧ reach P d c.
Proof using All.
  destruct best_common_ancestors_spec as (_ & _ & _ & _ & Hstep).
  assert (∀ l, NoDup l → Forall (reach P ha) l → length l ≤ an_len a) as Hbound.
  { intros l Hnd Hl. unfold an_len. rewrite <-(length_map_to_list (an_parents a)), <-(length_fmap fst).
    apply submseteq_length, NoDup_submseteq; [done|]. rewrite Forall_forall in Hl.
    intros x Hx. apply (an_keys_reach ha a x Ha). auto. }
  assert (∀ k c l, common c → NoDup l → Forall (reach P c) l → an_len a < length l + k →
    ∃ d, best_common d ∧ reach P d c) as Hk.
  { induction k as [|k IH]; intros x l Hx Hnd Hl Hlen.
    { specialize (Hbound l Hnd). rewrite Nat.add_0_r in Hlen.
      assert (Forall (reach P ha) l); [|specialize (Hbound H); lia].
      eapply Forall_weaken; [exact Hl|]. intros y Hy. destruct Hx as [Hx _]. by etrans. }
    destruct (Hstep x Hx) as [Hbest|(d & Hd & Hdx)].
    { exists x. split; [done|apply rtc_refl]. }
    destruct (IH d (d :: l)) as (e & He & Hed); [done| | |cbn; lia|].
    - apply NoDup_cons. split; [|done]. intros Hin. rewrite Forall_forall in Hl.
      destruct Ha as [_ Hacc]. destruct (Hacc d) as [_ Hd']; [apply Hd|].
      apply (acc_no_cycle P d Hd'). eapply tc_rtc_r; [exact Hdx|]. by apply Hl.
    - apply Forall_cons. split; [apply rtc_refl|]. eapply Forall_weaken; [exact Hl|].
      intros y Hy. etrans; [by apply tc_rtc|done].
    - exists e. split; [done|]. etrans; [exact Hed|]. by apply tc_rtc. }
  intros Hc. apply (Hk (S (an_len a)) c []); [done|apply NoDup_nil_2|by apply Forall_nil|cbn; lia].
Qed.

(** What a classified base says about the two histories. *)
Definition merge_base_of (mb : MergeBase) : Prop :=
  match mb with
  | Unique c => common c ∧ ∀ d, common d → reach P c d
  | Ambiguous cs => ascending cs ∧ 2 ≤ length cs ∧ ∀ c, c ∈ cs ↔ best_common c
  | Unrelated => ∀ c, ¬ common c
  end.

Lemma classify_base_spec best : ascending best → (∀ c, c ∈ best ↔ best_common c) →
  merge_base_of (classify_base best).
Proof using All.
  intros Hasc Hbest. destruct best as [|c [|c' best]]; cbn.
  - intros c Hc. destruct (best_common_above c Hc) as (d & Hd%Hbest & _). by apply not_elem_of_nil in Hd.
  - split; [apply Hbest; left|]. intros d Hd. destruct (best_common_above d Hd) as (e & He%Hbest & Hed).
    by apply list_elem_of_singleton in He as ->.
  - split_and!; [done|lia|done].
Qed.
End best.

(** ** The merge queries *)
Section merge_correct.
Context {E : Type} (P : ParentProvider E) `{!ParentProviderOk P}.
Context (now : nat → Z) (limits : TraversalLimits).

(** An error of one of the two traversals. *)
Definition pair_error (a b : CommitId) (e : DagError E) : Prop :=
  err_justified P limits a e ∨ err_justified P limits b e.

(** C10. [merge_base] is totally correct: it terminates with one answer. [Unique c] means [c] is
    a common ancestor and every common ancestor is [c] or an ancestor of [c]; [Ambiguous] lists,
    in ascending order, at least two commits and exactly the maximal common ancestors;
    [Unrelated] means the two histories share no commit; an error is justified by one of the
    two histories, and there is none when both are healthy. *)
Theorem merge_base_correct (a b : CommitId) :
  ∃ fuel0 r, (∀ fuel, fuel0 ≤ fuel → merge_base now limits fuel a b = Some r) ∧
    match r with
    | Ok mb => merge_base_of P a b mb
    | Err e => pair_error a b e
    | Panic _ => False
    end ∧
    (healthy P limits a → healthy P limits b → ∃ mb, r = Ok mb).
Proof using All.
  destruct (ancestry_total_sound P now limits a) as (fa & ra & Hra & Hpa).
  destruct (ancestry_total_sound P now limits b) as (fb & rb & Hrb & Hpb).
  unfold merge_base. destruct ra as [la|e|m]; [|exists fa, (Err e)|done].
  2: { split_and!; [intros fuel Hf; by rewrite Hra by lia|by left|].
       intros Hh _. by destruct (healthy_no_error P limits a e Hh). }
  destruct rb as [lb|e|m]; [|exists (max fa fb), (Err e)|done].
  2: { split_and!; [intros fuel Hf; rewrite Hra by lia; cbn; by rewrite Hrb by lia|by right|].
       intros _ Hh. by destruct (healthy_no_error P limits b e Hh). }
  destruct (best_common_ancestors_spec P a b la lb Hpa Hpb) as (best & Hbest & Hasc & Hspec & _).
  exists (max fa fb), (Ok (classify_base best)). split_and!; [|by eapply classify_base_spec|by eexists].
  intros fuel Hf. rewrite Hra by lia. cbn. rewrite Hrb by lia. cbn. by rewrite Hbest.
Qed.

(** [n] commits are reachable from [x] and not from [y]. *)
Definition only_on (x y : CommitId) (n : nat) : Prop :=
  ∃ l, NoDup l ∧ length l = n ∧ ∀ c, c ∈ l ↔ reach P x c ∧ ¬ reach P y c.

Lemma only_on_filter x y ax ay : ancestry_of P x ax → ancestry_of P y ay →
  only_on x y (length (List.filter (λ c, negb (an_contains ay c)) (an_keys ax))).
Proof.
  intros Hx Hy. eexists. split_and!; [|reflexivity|].
  - apply NoDup_List_filter, an_keys_NoDup.
  - intros c. rewrite elem_of_List_filter, negb_true_iff, (an_keys_reach P x ax c Hx).
    rewrite <-(an_contains_reach P y ay c Hy). destruct (an_contains ay c); naive_solver.
Qed.

(** What a relation says about the target and the source. *)
Definition relation_of (target source : CommitId) (r : Relation) : Prop :=
  match r with
  | Equal => target = source
  | SourceContained => target ≠ source ∧ reach P target source
  | FastForward => target ≠ source ∧ ¬ reach P target source ∧ reach P source target
  | Divergent mb => ¬ reach P target source ∧ ¬ reach P source target ∧ merge_base_of P target source mb
  end.

(** C11. [analyze] classifies a merge correctly: it terminates, the relation (equal, source
    contained, fast-forward, divergent with its merge base) is the one the graph has, [ahead] and
    [behind] count exactly the commits only one side has, and errors are justified by the
    histories. *)
Theorem analyze_correct (target source : CommitId) :
  ∃ fuel0 r, (∀ fuel, fuel0 ≤ fuel → analyze now limits fuel target source = Some r) ∧
    match r with
    | Ok an => relation_of target source (relation an) ∧
        only_on source target (ahead an) ∧ only_on target source (behind an)
    | Err e => pair_error target source e
    | Panic _ => False
    end.
Proof using All.
  destruct (ancestry_total_sound P now limits target) as (ft & rt & Hrt & Hpt).
  destruct (ancestry_total_sound P now limits source) as (fs & rs & Hrs & Hps).
  unfold analyze, analyze_with_ancestries. destruct rt as [t|e|m]; [|exists ft, (Err e)|done].
  2: { split; [intros fuel Hf; by rewrite Hrt by lia|by left]. }
  destruct (decide (target = source)) as [->|Hne].
  { exists ft, (Ok (mkAnalysis Equal 0 0)). split.
    - intros fuel Hf. rewrite Hrt by lia. cbn. by rewrite bool_decide_eq_true_2.
    - split_and!; [done| |]; exists []; (split_and!; [apply NoDup_nil_2|done|]);
        intros c; rewrite elem_of_nil; tauto. }
  destruct rs as [s|e|m]; [|exists (max ft fs), (Err e)|done].
  2: { split; [|by right]. intros fuel Hf. rewrite Hrt by lia. cbn.
       rewrite bool_decide_eq_false_2 by done. by rewrite Hrs by lia. }
  assert (∀ (X : option (result (DagError E) Analysis)) rel,
    relation_of target source rel →
    relation_of target source rel ∧
    only_on source target (length (List.filter (λ c, negb (an_contains t c)) (an_keys s))) ∧
    only_on target source (length (List.filter (λ c, negb (an_contains s c)) (an_keys t)))) as Hcount.
  { intros _ rel Hrel. split_and!; [done|by apply only_on_filter..]. }
  exists (max ft fs).
  destruct (an_contains t source) eqn:Hts; [|destruct (an_contains s target) eqn:Hst].
  - eexists. split.
    { intros fuel Hf. rewrite Hrt by lia. cbn. rewrite bool_decide_eq_false_2 by done.
      rewrite Hrs by lia. cbn. by rewrite Hts. }
    apply (Hcount None SourceContained). split; [done|]. by apply (an_contains_reach P target t).
  - eexists. split.
    { intros fuel Hf. rewrite Hrt by lia. cbn. rewrite bool_decide_eq_false_2 by done.
      rewrite Hrs by lia. cbn. by rewrite Hts, Hst. }
    apply (Hcount None FastForward). split_and!; [done| |by apply (an_contains_reach P source s)].
    rewrite <-(an_contains_reach P target t source Hpt). congruence.
  - destruct (best_common_ancestors_spec P target source t s Hpt Hps) as (best & Hbest & Hasc & Hspec & _).
    eexists. split.
    { intros fuel Hf. rewrite Hrt by lia. cbn. rewrite bool_decide_eq_false_2 by done.
      rewrite Hrs by lia. cbn. by rewrite Hts, Hst, Hbest. }
    apply (Hcount None (Divergent (classify_base best))). split_and!.
    + rewrite <-(an_contains_reach P target t source Hpt). congruence.
    + rewrite <-(an_contains_reach P source s target Hps). congruence.
    + by eapply classify_base_spec.
Qed.
End merge_correct.

(** ** The number of provider calls *)
Section calls.
Local Open Scope N_scope.

(** Rounded-up division. *)
Definition ceil_div (n d : N) : N := (n + d - 1) / d.

Lemma ceil_div_step n d : 0 < n → 0 < d → ceil_div n d = 1 + ceil_div (n - d) d.
Proof.
  intros Hn Hd. unfold ceil_div. destruct (N.le_gt_cases d n) as [Hle|Hlt].
  - replace (n + d - 1) with ((n - d + d - 1) + 1 * d) by lia. rewrite N.div_add by lia. lia.
  - replace (n - d) with 0 by lia. rewrite (N.div_small (0 + d - 1)) by lia.
    replace (n + d - 1) with ((n - 1) + 1 * d) by lia. rewrite N.div_add, N.div_small by lia. lia.
Qed.

(** What the loop counts from [done] on with full windows: it overflows exactly when the end of
    the last window does not fit a [usize]. *)
Definition full_windows (commits window done calls : N) : result Empty_set N :=
  let k := ceil_div (commits - done) window in
  if done + window * k <=? usize_max then Ok (calls + k) else Panic "attempt to add with overflow".

Lemma full_windows_end commits window done calls :
  0 < window → commits ≤ done → done ≤ usize_max → full_windows commits window done calls = Ok calls.
Proof.
  intros Hw Hc Hd. unfold full_windows. replace (commits - done) with 0 by lia.
  assert (ceil_div 0 window = 0) as -> by (unfold ceil_div; rewrite N.div_small; lia).
  rewrite N.mul_0_r, !N.add_0_r. by rewrite (proj2 (N.leb_le _ _)).
Qed.

(** Once the ramp has reached the window, every call retrieves a full window. *)
Lemma window_calls_full fuel commits window done ask calls :
  0 < window → window ≤ usize_max → window ≤ ask → calls ≤ done → done ≤ usize_max →
  (N.to_nat (commits - done) ≤ fuel)%nat →
  window_calls_loop fuel commits window done ask calls = full_windows commits window done calls.
Proof.
  intros Hw Hmax. revert done ask calls. induction fuel as [|fuel IH]; intros done ask calls Hask Hcalls Hdone Hfuel.
  { cbn [window_calls_loop]. symmetry. apply full_windows_end; lia. }
  cbn [window_calls_loop]. destruct (N.ltb_spec done commits) as [Hlt|Hge]; [|symmetry; by apply full_windows_end].
  rewrite N.min_r by done. unfold full_windows, usize_add.
  rewrite (ceil_div_step (commits - done) window) by lia.
  rewrite N.mul_add_distr_l, N.mul_1_r.
  destruct (N.leb_spec (done + window) usize_max) as [Hle|Hgt]; cbn [rbind].
  - rewrite (proj2 (N.leb_le (calls + 1) usize_max)) by lia. cbn [rbind].
    rewrite IH; [|unfold saturating_mul, WINDOW_RAMP; lia|lia|done|lia]. unfold full_windows.
    replace (commits - (done + window)) with (commits - done - window) by lia.
    rewrite N.add_assoc. by rewrite <-N.add_assoc with (n := calls).
  - by rewrite (proj2 (N.leb_gt _ _)) by lia.
Qed.

(** The ramp to the production window. *)
Definition ramp_calls (n : N) : N :=
  if n =? 0 then 0 else if n <=? 1 then 1 else if n <=? 5 then 2 else if n <=? 21 then 3 else 4.
Lemma window_calls_ramp n : n ≤ 85 → window_calls n 256 = Ok (ramp_calls n).
Proof.
  intros Hn. assert (Forall (λ k, window_calls (N.of_nat k) 256 = Ok (ramp_calls (N.of_nat k))) (seq 0 86)) as Hall.
  { cbn [seq]. repeat (apply Forall_cons; split; [vm_compute; reflexivity|]). by apply Forall_nil. }
  rewrite <-(N2Nat.id n). apply (proj1 (Forall_forall _ _) Hall), elem_of_seq. lia.
Qed.
Lemma window_calls_after_ramp n : 85 < n → n ≤ usize_max → window_calls n 256 = full_windows n 256 85 4.
Proof.
  intros Hn Hm. unfold window_calls.
  replace (N.to_nat n) with (4 + (N.to_nat n - 4))%nat by lia. change (N.max 256 1) with 256.
  cbn [window_calls_loop Nat.add]. rewrite (proj2 (N.ltb_lt 0 n)) by lia.
  change (usize_add 0 (N.min 1 256)) with (Ok (E:=Empty_set) 1).
  change (usize_add 0 1) with (Ok (E:=Empty_set) 1). cbn [rbind].
  change (saturating_mul 1 WINDOW_RAMP) with 4. rewrite (proj2 (N.ltb_lt 1 n)) by lia.
  change (usize_add 1 (N.min 4 256)) with (Ok (E:=Empty_set) 5).
  change (usize_add 1 1) with (Ok (E:=Empty_set) 2). cbn [rbind].
  change (saturating_mul 4 WINDOW_RAMP) with 16. rewrite (proj2 (N.ltb_lt 5 n)) by lia.
  change (usize_add 5 (N.min 16 256)) with (Ok (E:=Empty_set) 21).
  change (usize_add 2 1) with (Ok (E:=Empty_set) 3). cbn [rbind].
  change (saturating_mul 16 WINDOW_RAMP) with 64. rewrite (proj2 (N.ltb_lt 21 n)) by lia.
  change (usize_add 21 (N.min 64 256)) with (Ok (E:=Empty_set) 85).
  change (usize_add 3 1) with (Ok (E:=Empty_set) 4). cbn [rbind].
  change (saturating_mul 64 WINDOW_RAMP) with 256. unfold usize_max in Hm.
  apply window_calls_full; unfold usize_max; lia.
Qed.
(** The end of the last window fits for all but the last 170 values. *)
Lemma last_window_fits n : 85 < n →
  (85 + 256 * ceil_div (n - 85) 256 <=? usize_max) = (n <=? usize_max - 170).
Proof.
  intros Hn. unfold ceil_div, usize_max.
  apply eq_true_iff_eq. rewrite !N.leb_le. zify. Z.to_euclidean_division_equations. lia.
Qed.

(** C12. With the production window of 256 commits a linear walk of [n] commits costs the calls
    the documentation promises. Up to 85 commits it is the ramp: no call for no commit, then
    windows of 1, 4, 16 and 64; after them [ceil((n - 85) / 256)] full windows. The result fits
    and the loop does not overflow for every [n] up to [usize::MAX - 170], and it does for the
    last 170 values, where the end of the last window is beyond [usize::MAX]. *)
Theorem window_calls_production (n : N) : n ≤ usize_max →
  window_calls n 256 =
    if n <=? 85 then Ok (ramp_calls n)
    else if n <=? usize_max - 170 then Ok (4 + ceil_div (n - 85) 256)
    else Panic "attempt to add with overflow".
Proof.
  intros Hn. destruct (N.leb_spec n 85) as [Hle|Hgt]; [by apply window_calls_ramp|].
  rewrite window_calls_after_ramp, <-last_window_fits by done. reflexivity.
Qed.
End calls.

(** ** The in-memory provider keeps the contract *)
Section memory.
Context (d : MemoryDag).

Definition queue_known (queue : list CommitId) : Prop :=
  Forall (λ c, is_Some (md_parents d !! c)) queue.

Lemma enqueue_known follow queued queue :
  queue_known queue → queue_known (enqueue d follow (queued, queue)).2.
Proof.
  unfold enqueue. revert queued queue. induction follow as [|p follow IH]; intros queued queue Hq; [done|].
  cbn [fold_left]. case_bool_decide as Hp; [|by apply IH].
  destruct (negb _); cbn [andb]; apply IH; [|done]. apply Forall_app. split; [done|by repeat constructor].
Qed.

Definition window_sound (out : list (CommitId * list CommitId)) : Prop :=
  ∀ c ps, (c, ps) ∈ out → md_parents d !! c = Some ps.

(** The loop never runs out of fuel, keeps what it has, and only adds correct answers. *)
Lemma window_loop_spec fuel max kind queued queue out :
  queue_known queue → window_sound out → length out ≤ max → max < fuel + length out →
  ∃ more, window_loop fuel d max kind queued queue out = Ok (out ++ more) ∧
    window_sound (out ++ more) ∧
    (length out < max → ∀ c, head queue = Some c → ∃ ps, (c, ps) ∈ more).
Proof.
  revert queued queue out. induction fuel as [|fuel IH]; intros queued queue out Hq Ho Hle Hf; [lia|].
  destruct queue as [|c queue]; cbn [window_loop].
  { exists []. rewrite app_nil_r. by split_and!. }
  destruct (Nat.leb_spec max (length out)) as [Hmax|Hmax].
  { exists []. rewrite app_nil_r. split_and!; [done|done|lia]. }
  apply Forall_cons in Hq as [[ps Hps] Hq]. rewrite Hps.
  set (follow := match kind with Ancestry => ps | FirstParent => take 1 ps end).
  pose proof (enqueue_known follow queued queue Hq) as Hq'.
  destruct (enqueue d follow (queued, queue)) as [queued' queue'].
  destruct (IH queued' queue' (out ++ [(c, ps)])) as (more & -> & Hs & _); [done| |rewrite length_app; cbn; lia..|].
  { intros x qs [Hx|[= -> ->]%list_elem_of_singleton]%elem_of_app; [by apply Ho|done]. }
  exists ((c, ps) :: more). rewrite <-app_assoc in Hs |- *. split_and!; [done|done|].
  intros _ x [= <-]. exists ps. left.
Qed.

#[export] Instance memory_provider_ok : ParentProviderOk (memory_provider d).
Proof.
  assert (∀ c max kind ps, md_parents d !! c = Some ps →
    ∃ w, md_ancestry_window d c max kind = Ok w ∧ (c, ps) ∈ w ∧
         ∀ x qs, (x, qs) ∈ w → md_parents d !! x = Some qs) as Hknown.
  { intros c max kind ps Hps. unfold md_ancestry_window.
    rewrite bool_decide_eq_true_2 by (by eexists). set (n := N.to_nat _).
    assert (0 < n) as Hn by lia.
    destruct (window_loop_spec (S n) n kind {[c]} [c] []) as (w & -> & Hs & Hin).
    - apply Forall_cons. split; [by eexists|by apply Forall_nil].
    - intros ? ? []%not_elem_of_nil.
    - cbn; lia.
    - cbn; lia.
    - exists w. split_and!; [done| |done]. destruct (Hin Hn c eq_refl) as [qs Hqs].
      specialize (Hs c qs Hqs). by simplify_eq. }
  constructor; cbn [pp_parents pp_window memory_provider].
  - done.
  - done.
  - intros c max kind [= Hc]. unfold md_ancestry_window. rewrite bool_decide_eq_false_2; [done|].
    rewrite Hc. by apply is_Some_None.
  - intros c max kind ps [= Hc]. destruct (Hknown c max kind ps Hc) as (w & ? & ? & Hall).
    exists w. split_and!; [done|done|]. intros x qs Hx. by rewrite (Hall x qs Hx).
Qed.
End memory.

(** The provider every implementation gets for free: the default window of one. *)
Definition default_provider {E} (parents : CommitId → result E (option (list CommitId)))
    : ParentProvider E := {| pp_parents := parents; pp_window := default_window parents |}.

#[export] Instance default_provider_ok {E} (parents : CommitId → result E (option (list CommitId))) :
  (∀ c m, parents c ≠ Panic m) → ParentProviderOk (default_provider parents).
Proof.
  intros Hp. constructor; cbn [pp_parents pp_window default_provider]; unfold default_window.
  - done.
  - intros c max kind e ->. done.
  - intros c max kind ->. done.
  - intros c max kind ps Hc. exists [(c, ps)]. rewrite Hc. split_and!; [done|left|].
    intros x qs [= -> ->]%list_elem_of_singleton. done.
Qed.

(** C13. Both provider implementations keep the documented contract: the default window of one
    over any panic-free lookup, and [MemoryDag] at every window setting, whose breadth-first
    window never panics or loops, is empty for an unknown anchor, holds the anchor when it is
    known, and answers for each returned commit exactly as a single lookup does. *)
Theorem providers_keep_contract :
  (∀ d, ParentProviderOk (memory_provider d)) ∧
  (∀ E (parents : CommitId → result E (option (list CommitId))),
     (∀ c m, parents c ≠ Panic m) → ParentProviderOk (default_provider parents)).
Proof. split; [apply memory_provider_ok|intros E parents; apply default_provider_ok]. Qed.
