(* ===== verification/Merge.v ===== *)
(** * Three-way structural merge and the preview token

    Source: [crates/ledger-merge/src/lib.rs]. *)

From Stdlib Require Import ZArith Lia String Strings.Byte.
From stdpp Require Import base gmap countable list.
From S2P Require Import Prelude BTree Bytes Text Core Identity Rdf.

Local Open Scope ledger_scope.

Definition MERGE_ALGORITHM_V1 : bytes := B "structural-slot/v1".
Definition MAX_REPORTED_CONFLICTS : nat := Pos.to_nat 1000.
Definition MAX_REPORTED_QUADS_PER_SIDE : nat := 64.
Definition DEFAULT_CONFLICT_REPORT_BYTES : nat := Pos.to_nat (2 * 1024 * 1024).
Definition MIN_CONFLICT_REPORT_BYTES : nat := Pos.to_nat 1024.
Definition MAX_CONFLICT_REPORT_BYTES : nat := Pos.to_nat (64 * 1024 * 1024).
Definition CONFLICT_ENTRY_FRAMING_BYTES : nat := 160.

(** [enum Strategy] *)
Inductive Strategy := Abort_ | TakeTarget | TakeSource | Union.
#[export] Instance Strategy_eq_dec : EqDecision Strategy.
Proof. solve_decision. Defined.

Definition strategy_code (s : Strategy) : byte :=
  match s with Abort_ => x00 | TakeTarget => x01 | TakeSource => x02 | Union => x03 end.

Definition strategy_str (s : Strategy) : bytes :=
  match s with
  | Abort_ => B "abort"
  | TakeTarget => B "take-target"
  | TakeSource => B "take-source"
  | Union => B "union"
  end.

Definition strategy_parse (s : bytes) : option Strategy :=
  if bool_decide (s = B "abort") then Some Abort_
  else if bool_decide (s = B "take-target") then Some TakeTarget
  else if bool_decide (s = B "take-source") then Some TakeSource
  else if bool_decide (s = B "union") then Some Union
  else None.

(** [struct Side], [struct Conflict], [struct ThreeWay] *)
Record Side := mkSide { side_quads : list Quad; side_truncated : bool }.

Record Conflict := mkConflict {
  cf_key : StructuralKey; cf_base : Side; cf_target : Side; cf_source : Side
}.

Record ThreeWay := mkThreeWay {
  merged : option state;
  conflicts : list Conflict;
  conflict_count : nat;
  conflicts_truncated : bool
}.

(** [struct ReportLimits] *)
Record ReportLimits := mkReportLimits {
  max_conflicts : nat; max_quads_per_side : nat; max_bytes : nat
}.

Definition REPORT_DEFAULT : ReportLimits :=
  mkReportLimits MAX_REPORTED_CONFLICTS MAX_REPORTED_QUADS_PER_SIDE DEFAULT_CONFLICT_REPORT_BYTES.
Definition REPORT_SMALLEST : ReportLimits :=
  mkReportLimits MAX_REPORTED_CONFLICTS MAX_REPORTED_QUADS_PER_SIDE MIN_CONFLICT_REPORT_BYTES.

(** [ReportLimits::with_max_bytes]; the error carries the refused budget. *)
Definition with_max_bytes (n : nat) : result nat ReportLimits :=
  if negb ((MIN_CONFLICT_REPORT_BYTES <=? n) && (n <=? MAX_CONFLICT_REPORT_BYTES)) then Err n
  else Ok (mkReportLimits MAX_REPORTED_CONFLICTS MAX_REPORTED_QUADS_PER_SIDE n).

(** [json_string_len] *)
Definition json_byte_len (b : byte) : nat :=
  let z := Z_of_byte b in
  if bool_decide (z ∈ [34; 92; 8; 12; 10; 13; 9]%Z) then 2
  else if (z <=? 31)%Z then 6
  else 1.

Definition json_string_len (s : bytes) : nat := 2 + sum_list_with json_byte_len s.

(** [struct Reporter] *)
Record Reporter := mkReporter {
  rp_limits : ReportLimits;
  rp_remaining : nat;
  rp_conflicts : list Conflict;
  rp_exhausted : bool;
  rp_incomplete : bool
}.

Definition reporter_new (limits : ReportLimits) : Reporter :=
  mkReporter limits (max_bytes limits) [] false false.

(** [Reporter::charge] *)
Definition charge (r : Reporter) (cost : nat) : bool * Reporter :=
  if rp_remaining r <? cost then
    (false, mkReporter (rp_limits r) (rp_remaining r) (rp_conflicts r) true (rp_incomplete r))
  else
    (true, mkReporter (rp_limits r) (rp_remaining r - cost) (rp_conflicts r) (rp_exhausted r)
             (rp_incomplete r)).

(** The loop of [Reporter::side]: the quads listed, stopping at the first that does not fit. *)
Fixpoint side_loop (r : Reporter) (qs : list Quad) : list Quad * Reporter :=
  match qs with
  | [] => ([], r)
  | q :: qs =>
      let '(ok, r) := charge r (json_string_len (quad_str q) + 1) in
      if ok : bool then let '(listed, r) := side_loop r qs in (q :: listed, r) else ([], r)
  end.

(** [Reporter::side] *)
Definition reporter_side (r : Reporter) (set : state) : Side * Reporter :=
  let '(quads, r) :=
    if rp_exhausted r then ([], r)
    else side_loop r (take (max_quads_per_side (rp_limits r)) set) in
  let truncated := length quads <? length set in
  (mkSide quads truncated,
   mkReporter (rp_limits r) (rp_remaining r) (rp_conflicts r) (rp_exhausted r)
     (rp_incomplete r || truncated)).

(** [struct Slot] *)
Record Slot := mkSlot { sl_base : state; sl_target : state; sl_source : state }.
Definition empty_slot : Slot := mkSlot [] [] [].

(** What a listed conflict's key is charged. *)
Definition key_cost (key : StructuralKey) : nat :=
  CONFLICT_ENTRY_FRAMING_BYTES
  + match key_graph key with Some g => json_string_len g | None => 0 end
  + json_string_len (key_subject key) + json_string_len (key_predicate key).

(** [Reporter::offer] *)
Definition offer (r : Reporter) (key : StructuralKey) (slot : Slot) : Reporter :=
  if rp_exhausted r then r
  else if length (rp_conflicts r) =? max_conflicts (rp_limits r) then
    mkReporter (rp_limits r) (rp_remaining r) (rp_conflicts r) true (rp_incomplete r)
  else
    let '(ok, r) := charge r (key_cost key) in
    if negb ok then r
    else
      let '(base, r) := reporter_side r (sl_base slot) in
      let '(target, r) := reporter_side r (sl_target slot) in
      let '(source, r) := reporter_side r (sl_source slot) in
      mkReporter (rp_limits r) (rp_remaining r) (rp_conflicts r ++ [mkConflict key base target source])
        (rp_exhausted r) (rp_incomplete r).

(** The three partition loops of [three_way_reported], one per state. *)
Inductive side_name := InBase | InTarget | InSource.

Definition slot_insert (side : side_name) (q : Quad) (s : Slot) : Slot :=
  match side with
  | InBase => mkSlot (bts_insert q (sl_base s)) (sl_target s) (sl_source s)
  | InTarget => mkSlot (sl_base s) (bts_insert q (sl_target s)) (sl_source s)
  | InSource => mkSlot (sl_base s) (sl_target s) (bts_insert q (sl_source s))
  end.

Fixpoint partition_into `{OxRdf} (side : side_name) (slots : list (StructuralKey * Slot))
    (qs : state) : result RdfError (list (StructuralKey * Slot)) :=
  match qs with
  | [] => Ok slots
  | q :: qs =>
      key ← structural_key q;
      partition_into side (btm_upsert (λ o, slot_insert side q (default empty_slot o)) key slots) qs
  end.

(** Whether both sides changed a slot, differently. *)
Definition slot_conflicts (s : Slot) : bool :=
  negb (bool_decide (sl_target s = sl_base s) || bool_decide (sl_target s = sl_source s))
  && negb (bool_decide (sl_source s = sl_base s)).

(** The merged quads of one slot. *)
Definition slot_result (strategy : Strategy) (s : Slot) : state :=
  if bool_decide (sl_target s = sl_base s) || bool_decide (sl_target s = sl_source s) then sl_source s
  else if bool_decide (sl_source s = sl_base s) then sl_target s
  else match strategy with
       | Abort_ => []
       | TakeTarget => sl_target s
       | TakeSource => sl_source s
       | Union => bts_union (sl_target s) (sl_source s)
       end.

(** The loop over the slots, in ascending key order. *)
Fixpoint merge_loop (strategy : Strategy) (slots : list (StructuralKey * Slot))
    (acc : state) (r : Reporter) (count : nat) : state * Reporter * nat :=
  match slots with
  | [] => (acc, r, count)
  | (key, slot) :: slots =>
      let '(r, count) := if slot_conflicts slot then (offer r key slot, count + 1) else (r, count) in
      merge_loop strategy slots (bts_extend acc (slot_result strategy slot)) r count
  end.

(** [three_way_reported] *)
Definition three_way_reported `{OxRdf} (base target source : state) (strategy : Strategy)
    (report : ReportLimits) : result RdfError ThreeWay :=
  slots ← partition_into InBase [] base;
  slots ← partition_into InTarget slots target;
  slots ← partition_into InSource slots source;
  let '(m, r, count) := merge_loop strategy slots [] (reporter_new report) 0 in
  Ok (mkThreeWay
        (if negb (bool_decide (strategy = Abort_)) || (count =? 0) then Some m else None)
        (rp_conflicts r) count (rp_exhausted r || rp_incomplete r)).

(** [three_way] *)
Definition three_way `{OxRdf} (base target source : state) (strategy : Strategy)
    : result RdfError ThreeWay :=
  three_way_reported base target source strategy REPORT_DEFAULT.

(** ** The preview token *)
Inductive Classification := CFastForward | CDivergent.
#[export] Instance Classification_eq_dec : EqDecision Classification.
Proof. solve_decision. Defined.

Definition classification_code (c : Classification) : byte :=
  match c with CFastForward => x01 | CDivergent => x02 end.
Definition classification_str (c : Classification) : bytes :=
  match c with CFastForward => B "fast_forward" | CDivergent => B "divergent" end.

(** [struct PreviewIdentity] *)
Record PreviewIdentity := mkPreview {
  pv_graph : GraphId;
  pv_source_branch : bytes;
  pv_source_head : CommitId;
  pv_target_branch : bytes;
  pv_target_head : CommitId;
  pv_merge_base : CommitId;
  pv_classification : Classification;
  pv_strategy : Strategy;
  pv_merged_state_digest : ContentId
}.

Definition PREVIEW_TOKEN_V1_HEADER : bytes := B "sculpin-ledger-merge-preview/v1" ++ [x00].

(** [field]: a length that does not fit in [u32] panics. *)
Definition preview_field (out value : bytes) : lresult bytes :=
  if (Z.of_nat (length value) <=? u32_max)%Z
  then Ok (out ++ u32_to_be_bytes (Z.of_nat (length value)) ++ value)
  else Panic "bounded identifiers".

(** [PreviewIdentity::canonical_bytes] *)
Definition preview_canonical_bytes (p : PreviewIdentity) : lresult bytes :=
  out ← preview_field PREVIEW_TOKEN_V1_HEADER (graph_str (pv_graph p));
  out ← preview_field out (pv_source_branch p);
  out ← preview_field out (commit_id_str (pv_source_head p));
  out ← preview_field out (pv_target_branch p);
  out ← preview_field out (commit_id_str (pv_target_head p));
  out ← preview_field out (commit_id_str (pv_merge_base p));
  let out := out ++ [classification_code (pv_classification p)] in
  let strategy := match pv_classification p with
                  | CFastForward => Abort_
                  | CDivergent => pv_strategy p
                  end in
  let out := out ++ [strategy_code strategy] in
  out ← preview_field out MERGE_ALGORITHM_V1;
  preview_field out (cid_str (pv_merged_state_digest p)).

(** [PreviewIdentity::token] *)
Definition preview_token `{Sha256} (p : PreviewIdentity) : lresult bytes :=
  bs ← preview_canonical_bytes p; Ok (cid_str (for_bytes bs)).

(** [merged_state_digest] *)
Definition merged_state_digest `{Sha256} (m : state) : ContentId := state_digest m.

(** [is_no_change], [creates_nothing] *)
Definition is_no_change (target m : state) : bool := diff_is_empty (diff target m).
Definition creates_nothing (base target source m : state) : bool :=
  is_no_change target m && diff_is_empty (diff base source).

(** ** The merge, key by key *)
Section merge_facts.
Context `{OxRdfOk}.

(** The key of a well-formed quad ([structural_key] never panics on one). *)
Definition skey (q : Quad) : StructuralKey :=
  match structural_key q with Ok k => k | _ => mkKey None [] [] end.

Lemma structural_key_skey q : quad_wf q → structural_key q = Ok (skey q).
Proof. intros [k Hk]%structural_key_total. unfold skey. by rewrite Hk. Qed.

(** The quads of a state in one slot. *)
Definition at_key (k : StructuralKey) (s : state) : state := filter (λ q, skey q = k) s.

Definition slot_side (side : side_name) (s : Slot) : state :=
  match side with InBase => sl_base s | InTarget => sl_target s | InSource => sl_source s end.

Definition slot_of (slots : list (StructuralKey * Slot)) (k : StructuralKey) : Slot :=
  default empty_slot (btm_get k slots).

#[local] Instance side_name_eq_dec : EqDecision side_name.
Proof. solve_decision. Defined.

Lemma slot_side_insert side side' q s :
  slot_side side' (slot_insert side q s) =
    if decide (side = side') then bts_insert q (slot_side side' s) else slot_side side' s.
Proof. by destruct side, side'. Qed.

Lemma partition_into_spec side slots qs : Forall quad_wf qs → btm_ascending slots →
  ∃ slots', partition_into side slots qs = Ok slots' ∧ btm_ascending slots' ∧
    ∀ k side', slot_side side' (slot_of slots' k) =
      if decide (side = side') then bts_extend (slot_side side' (slot_of slots k)) (at_key k qs)
      else slot_side side' (slot_of slots k).
Proof.
  revert slots. induction qs as [|q qs IH]; intros slots Hqs Hs; cbn [partition_into].
  { exists slots. split_and!; [done|done|]. intros k side'. by case_decide. }
  apply Forall_cons in Hqs as [Hq Hqs]. rewrite structural_key_skey by done. run_res.
  destruct (IH _ Hqs (btm_upsert_ascending (λ o, slot_insert side q (default empty_slot o)) (skey q) slots Hs))
    as (slots' & -> & Hs' & Hspec).
  exists slots'. split_and!; [done|done|]. intros k side'. rewrite Hspec.
  assert (slot_of (btm_upsert (λ o, slot_insert side q (default empty_slot o)) (skey q) slots) k =
    if decide (skey q = k) then slot_insert side q (slot_of slots k) else slot_of slots k) as ->.
  { unfold slot_of. rewrite btm_get_upsert by done.
    destruct (cmp_cases k (skey q)) as [[-> ->]|[[Hlt ->]|[Hlt ->]]].
    - by rewrite decide_True.
    - apply lt_of_ne in Hlt. by rewrite decide_False.
    - apply lt_of_ne in Hlt. by rewrite decide_False. }
  unfold at_key. rewrite filter_cons. destruct (decide (skey q = k)) as [Hk|Hk]; [|done].
  rewrite slot_side_insert. destruct (decide (side = side')); done.
Qed.

(** The slots of three states: each side of slot [k] is the part of the state at [k]. *)
Lemma partition_spec base target source :
  ascending base → ascending target → ascending source →
  Forall quad_wf base → Forall quad_wf target → Forall quad_wf source →
  ∃ slots,
    (s ← partition_into InBase [] base; s ← partition_into InTarget s target;
     partition_into InSource s source) = Ok slots ∧ btm_ascending slots ∧
    ∀ k, slot_of slots k = mkSlot (at_key k base) (at_key k target) (at_key k source).
Proof.
  intros Ab At As Hb Ht Hs.
  destruct (partition_into_spec InBase [] base Hb ascending_nil) as (s1 & -> & A1 & E1). run_res.
  destruct (partition_into_spec InTarget s1 target Ht A1) as (s2 & -> & A2 & E2). run_res.
  destruct (partition_into_spec InSource s2 source Hs A2) as (s3 & -> & A3 & E3).
  exists s3. split_and!; [done|done|]. intros k.
  assert (∀ s, ascending s → bts_extend [] (at_key k s) = at_key k s) as Hid.
  { intros s Has. apply bts_collect_id. by apply ascending_filter. }
  pose proof (E3 k InBase) as B3. pose proof (E3 k InTarget) as T3. pose proof (E3 k InSource) as S3.
  pose proof (E2 k InBase) as B2. pose proof (E2 k InTarget) as T2. pose proof (E2 k InSource) as S2.
  pose proof (E1 k InBase) as B1. pose proof (E1 k InTarget) as T1. pose proof (E1 k InSource) as S1.
  cbn in B3, T3, S3, B2, T2, S2, B1, T1, S1.
  destruct (slot_of s3 k) as [b t s]; cbn in *. subst b t s.
  rewrite B2, B1, T2, T1, S2, S1. f_equal; by apply Hid.
Qed.

Definition conflict_keys (slots : list (StructuralKey * Slot)) : list StructuralKey :=
  (filter (λ ks, slot_conflicts ks.2 = true) slots).*1.

Lemma merge_loop_merged strategy slots acc r count :
  let '(m, _, n) := merge_loop strategy slots acc r count in
  (ascending acc → ascending m) ∧
  (∀ q, q ∈ m ↔ q ∈ acc ∨ ∃ k s, (k, s) ∈ slots ∧ q ∈ slot_result strategy s) ∧
  n = count + length (conflict_keys slots).
Proof.
  revert acc r count. induction slots as [|[k s] slots IH]; intros acc r count; cbn [merge_loop].
  { split_and!; [done| |cbn; lia]. intros q. split; [by left|]. intros [?|(? & ? & []%not_elem_of_nil & _)]; done. }
  set (rc := if slot_conflicts s then (offer r k s, count + 1) else (r, count)).
  destruct rc as [r' count'] eqn:Hrc.
  specialize (IH (bts_extend acc (slot_result strategy s)) r' count').
  destruct (merge_loop strategy slots _ r' count') as [[m r''] n]. destruct IH as (Ha & Hq & Hn).
  split_and!.
  - intros Hacc. apply Ha. by apply bts_extend_ascending.
  - intros q. rewrite Hq, elem_of_bts_extend. setoid_rewrite elem_of_cons. split.
    + intros [[?|?]|(k' & s' & Hin & ?)]; [by left|right; exists k, s; auto|right; exists k', s'; auto].
    + intros [?|(k' & s' & [[= -> ->]|Hin] & ?)]; [by left; left|by left; right|right; eauto].
  - rewrite Hn. unfold conflict_keys. rewrite filter_cons. unfold rc in Hrc.
    case_decide as Hc; cbn [snd] in Hc.
    + rewrite Hc in Hrc. injection Hrc as _ <-. cbn. lia.
    + apply not_true_is_false in Hc. rewrite Hc in Hrc. by injection Hrc as _ <-.
Qed.

(** *** The specification *)
Section spec.
Context (base target source : state) (strategy : Strategy).

Definition slot_at (k : StructuralKey) : Slot :=
  mkSlot (at_key k base) (at_key k target) (at_key k source).

(** Both sides changed the slot, differently. *)
Definition conflicting (k : StructuralKey) : Prop :=
  at_key k target ≠ at_key k base ∧ at_key k source ≠ at_key k base ∧
  at_key k target ≠ at_key k source.

(** What the merge keeps at a key. *)
Definition merge_at (k : StructuralKey) (q : Quad) : Prop :=
  (at_key k target = at_key k base → q ∈ at_key k source) ∧
  (at_key k source = at_key k base → q ∈ at_key k target) ∧
  (at_key k target = at_key k source → q ∈ at_key k target) ∧
  (conflicting k → match strategy with
                   | Abort_ => False
                   | TakeTarget => q ∈ at_key k target
                   | TakeSource => q ∈ at_key k source
                   | Union => q ∈ at_key k target ∨ q ∈ at_key k source
                   end).

Lemma slot_conflicts_spec k : slot_conflicts (slot_at k) = true ↔ conflicting k.
Proof.
  unfold slot_conflicts, conflicting, slot_at; cbn.
  rewrite andb_true_iff, !negb_true_iff, orb_false_iff, !bool_decide_eq_false. tauto.
Qed.

Lemma slot_result_spec k q : q ∈ slot_result strategy (slot_at k) ↔ merge_at k q.
Proof.
  unfold slot_result, merge_at, conflicting, slot_at; cbn [sl_base sl_target sl_source].
  destruct (decide (at_key k target = at_key k base)) as [Htb|Htb];
    [rewrite (bool_decide_eq_true_2 _ Htb)|rewrite (bool_decide_eq_false_2 _ Htb)]; cbn [orb].
  { split; [|tauto]. intros Hq. split_and!; [done| |congruence|tauto]. congruence. }
  destruct (decide (at_key k target = at_key k source)) as [Hts|Hts];
    [rewrite (bool_decide_eq_true_2 _ Hts)|rewrite (bool_decide_eq_false_2 _ Hts)].
  { rewrite Hts. split; [tauto|]. intros (_ & _ & Hq & _). by apply Hq. }
  case_bool_decide as Hsb; [tauto|].
  destruct strategy; rewrite ?elem_of_bts_union, ?elem_of_nil; tauto.
Qed.
End spec.

Lemma at_key_elem k q s : q ∈ at_key k s ↔ skey q = k ∧ q ∈ s.
Proof. unfold at_key. by rewrite list_elem_of_filter. Qed.

Lemma merge_at_key base target source strategy k q :
  merge_at base target source strategy k q → skey q = k.
Proof.
  rewrite <-slot_result_spec. unfold slot_result, slot_at; cbn [sl_base sl_target sl_source].
  destruct (_ || _); [by intros [? _]%at_key_elem|].
  destruct (bool_decide _); [by intros [? _]%at_key_elem|].
  destruct strategy; rewrite ?elem_of_bts_union, ?elem_of_nil, ?at_key_elem; tauto.
Qed.

(** [three_way_reported] after a successful partition. *)
Lemma three_way_eq base target source strategy report slots :
  (s ← partition_into InBase [] base; s ← partition_into InTarget s target;
   partition_into InSource s source) = Ok slots →
  three_way_reported base target source strategy report =
    let '(m, r, count) := merge_loop strategy slots [] (reporter_new report) 0 in
    Ok (mkThreeWay
          (if negb (bool_decide (strategy = Abort_)) || (count =? 0) then Some m else None)
          (rp_conflicts r) count (rp_exhausted r || rp_incomplete r)).
Proof.
  unfold three_way_reported. destruct (partition_into InBase [] base) as [s1|e|m1]; [|done..].
  cbn [rbind]. destruct (partition_into InTarget s1 target) as [s2|e|m2]; [|done..].
  cbn [rbind]. by intros ->.
Qed.

(** The conflicting keys of the slots of three states. *)
Lemma conflict_keys_spec base target source slots : btm_ascending slots →
  (∀ k, slot_of slots k = slot_at base target source k) →
  ascending (conflict_keys slots) ∧ ∀ k, k ∈ conflict_keys slots ↔ conflicting base target source k.
Proof.
  intros Hasc Hslot. split.
  - unfold conflict_keys. clear -Hasc. induction slots as [|[k s] slots IH]; [apply ascending_nil|].
    unfold btm_ascending in Hasc. rewrite fmap_cons in Hasc. apply ascending_inv in Hasc as [Hasc Hlt].
    rewrite filter_cons. case_decide; [|by apply IH]. rewrite fmap_cons. constructor; [by apply IH|].
    rewrite Forall_forall in Hlt |- *. intros x (ks & -> & [_ Hks]%list_elem_of_filter)%list_elem_of_fmap.
    apply Hlt. apply list_elem_of_fmap. by exists ks.
  - intros k. unfold conflict_keys. rewrite list_elem_of_fmap, <-slot_conflicts_spec, <-Hslot.
    unfold slot_of. split.
    + intros ([k' s] & -> & [Hc Hks]%list_elem_of_filter). cbn in *.
      by rewrite (proj2 (btm_get_Some k' s slots Hasc) Hks).
    + intros Hc. destruct (btm_get k slots) as [s|] eqn:Hget; [|done].
      exists (k, s). split; [done|]. apply list_elem_of_filter. split; [done|]. by apply btm_get_Some.
Qed.

(** What [three_way_reported] computes, for every limit. *)
Lemma three_way_spec base target source strategy report :
  ascending base → ascending target → ascending source →
  Forall quad_wf base → Forall quad_wf target → Forall quad_wf source →
  ∃ w m, three_way_reported base target source strategy report = Ok w ∧
    merged w = (if negb (bool_decide (strategy = Abort_)) || (conflict_count w =? 0) then Some m else None) ∧
    ascending m ∧ (∀ q, q ∈ m ↔ merge_at base target source strategy (skey q) q) ∧
    ∃ ks, ascending ks ∧ length ks = conflict_count w ∧
          ∀ k, k ∈ ks ↔ conflicting base target source k.
Proof.
  intros Ab At As Hb Ht Hs.
  destruct (partition_spec base target source Ab At As Hb Ht Hs) as (slots & Hpart & Hasc & Hslot).
  rewrite (three_way_eq _ _ _ _ _ _ Hpart).
  pose proof (merge_loop_merged strategy slots [] (reporter_new report) 0) as Hloop.
  destruct (merge_loop strategy slots [] (reporter_new report) 0) as [[m r] n].
  destruct Hloop as (Hm & Hq & Hn). cbn in Hn.
  assert (∀ k s, (k, s) ∈ slots → s = slot_at base target source k) as Hin.
  { intros k s Hks. apply (btm_get_Some k s slots Hasc) in Hks. pose proof (Hslot k) as Hk.
    unfold slot_of in Hk. by rewrite Hks in Hk. }
  assert (∀ k, btm_get k slots = None → slot_at base target source k = empty_slot) as Hout.
  { intros k Hk. pose proof (Hslot k) as Hk'. unfold slot_of in Hk'. by rewrite Hk in Hk'. }
  eexists _, m. split; [done|]. cbn [merged conflict_count]. split_and!; [done|by apply Hm, ascending_nil| |].
  - intros q. rewrite Hq, elem_of_nil. split.
    + intros [[]|(k & s & Hks & Hqs)]. rewrite (Hin k s Hks), slot_result_spec in Hqs.
      by rewrite (merge_at_key _ _ _ _ _ _ Hqs).
    + intros Hqm. right. destruct (btm_get (skey q) slots) as [s|] eqn:Hget.
      * exists (skey q), s. apply btm_get_Some in Hget as Hks; [|done]. split; [done|].
        rewrite (Hin _ _ Hks). by apply slot_result_spec.
      * exfalso. apply slot_result_spec in Hqm. rewrite (Hout _ Hget) in Hqm.
        unfold slot_result in Hqm; cbn in Hqm. by apply not_elem_of_nil in Hqm.
  - exists (conflict_keys slots). destruct (conflict_keys_spec base target source slots Hasc Hslot).
    by split_and!.
Qed.
End merge_facts.

(** ** The conflict report *)
Section report.

Definition side_cost (s : Side) : nat :=
  sum_list_with (λ q, json_string_len (quad_str q) + 1) (side_quads s).
Definition conflict_cost (c : Conflict) : nat :=
  key_cost (cf_key c) + side_cost (cf_base c) + side_cost (cf_target c) + side_cost (cf_source c).
Definition report_cost (cs : list Conflict) : nat := sum_list_with conflict_cost cs.

(** A listed side: whole quads, a prefix of the side in canonical order, flagged when cut. *)
Definition side_of (limits : ReportLimits) (s : Side) (set : state) : Prop :=
  side_quads s `prefix_of` set ∧ length (side_quads s) ≤ max_quads_per_side limits ∧
  side_truncated s = negb (bool_decide (side_quads s = set)).

Definition entry_of (limits : ReportLimits) (c : Conflict) (ks : StructuralKey * Slot) : Prop :=
  cf_key c = ks.1 ∧ side_of limits (cf_base c) (sl_base ks.2) ∧
  side_of limits (cf_target c) (sl_target ks.2) ∧ side_of limits (cf_source c) (sl_source ks.2).

Definition cut (c : Conflict) : bool :=
  side_truncated (cf_base c) || side_truncated (cf_target c) || side_truncated (cf_source c).

Lemma side_loop_spec r qs :
  let '(listed, r') := side_loop r qs in
  listed `prefix_of` qs ∧ rp_limits r' = rp_limits r ∧ rp_conflicts r' = rp_conflicts r ∧
  rp_incomplete r' = rp_incomplete r ∧
  rp_remaining r' + side_cost (mkSide listed false) = rp_remaining r ∧
  (rp_exhausted r = true → rp_exhausted r' = true) ∧
  (rp_exhausted r' = true → rp_exhausted r = true ∨ listed ≠ qs).
Proof.
  revert r. induction qs as [|q qs IH]; intros r; cbn [side_loop].
  { split_and!; try done; try (unfold side_cost; cbn; lia). by left. }
  unfold charge. destruct (Nat.ltb_spec (rp_remaining r) (json_string_len (quad_str q) + 1)) as [Hlt|Hge].
  { cbn. split_and!; try done; try (unfold side_cost; cbn; lia); first [apply prefix_nil|by right|by left]. }
  set (r1 := mkReporter _ _ _ _ _). specialize (IH r1). destruct (side_loop r1 qs) as [listed r'].
  destruct IH as (Hp & Hl & Hc & Hi & Hrem & He1 & He2). cbn [rp_limits rp_conflicts rp_incomplete rp_remaining rp_exhausted r1] in *.
  split_and!; try done.
  - by apply prefix_cons.
  - unfold side_cost in *. cbn [side_quads sum_list_with] in *. lia.
  - intros He. destruct (He2 He) as [?|Hne]; [by left|right]. congruence.
Qed.

Lemma prefix_length_eq {A} (l k : list A) : l `prefix_of` k → length l = length k → l = k.
Proof. intros [m ->]. rewrite length_app. intros Hl. destruct m; [by rewrite app_nil_r|cbn in Hl; lia]. Qed.

Lemma reporter_side_spec r set :
  let '(sd, r') := reporter_side r set in
  side_of (rp_limits r) sd set ∧ rp_limits r' = rp_limits r ∧ rp_conflicts r' = rp_conflicts r ∧
  rp_incomplete r' = rp_incomplete r || side_truncated sd ∧
  rp_remaining r' + side_cost sd = rp_remaining r ∧
  (rp_exhausted r = true → rp_exhausted r' = true) ∧
  (rp_exhausted r' = true → rp_exhausted r = true ∨ side_truncated sd = true).
Proof.
  unfold reporter_side.
  assert (∀ listed, listed `prefix_of` set →
    (length listed <? length set) = negb (bool_decide (listed = set))) as Htr.
  { intros listed Hp. destruct (decide (listed = set)) as [->|Hne].
    - rewrite Nat.ltb_irrefl, bool_decide_eq_true_2 by done. done.
    - rewrite bool_decide_eq_false_2 by done. apply Nat.ltb_lt. pose proof (prefix_length _ _ Hp).
      destruct (decide (length listed = length set)) as [Heq|]; [|lia].
      by destruct Hne; apply prefix_length_eq. }
  destruct (rp_exhausted r) eqn:Hex.
  { cbn -[length]. split_and!; try done.
    - split_and!; [apply prefix_nil|cbn; lia|]. apply Htr, prefix_nil.
    - unfold side_cost; cbn; lia. }
  pose proof (side_loop_spec r (take (max_quads_per_side (rp_limits r)) set)) as Hs.
  destruct (side_loop r _) as [listed r']. destruct Hs as (Hp & Hl & Hc & Hi & Hrem & He1 & He2).
  assert (listed `prefix_of` set) as Hp' by (etrans; [exact Hp|apply prefix_take]).
  cbn [rp_limits rp_conflicts rp_incomplete rp_remaining rp_exhausted side_truncated].
  split_and!; try done; try congruence.
  - split_and!; [done| |by apply Htr]. apply prefix_length in Hp. rewrite length_take in Hp. cbn. lia.
  - intros He. right. rewrite (Htr listed Hp'). destruct (He2 He) as [?|Hne]; [congruence|].
    apply negb_true_iff, bool_decide_eq_false. intros ->. apply Hne.
    destruct Hp as [k Hk]. pose proof (take_drop (max_quads_per_side (rp_limits r)) set) as Htd.
    rewrite Hk, <-app_assoc in Htd. apply (f_equal length) in Htd. rewrite !length_app in Htd.
    destruct k; [|cbn in Htd; lia]. by rewrite app_nil_r in Hk.
Qed.

(** The report after offering a list of conflicting slots. *)
Record report_inv (limits : ReportLimits) (r : Reporter) (offered : list (StructuralKey * Slot)) : Prop := {
  ri_limits : rp_limits r = limits;
  ri_cost : rp_remaining r + report_cost (rp_conflicts r) ≤ max_bytes limits;
  ri_count : length (rp_conflicts r) ≤ max_conflicts limits;
  ri_entries : Forall2 (entry_of limits) (rp_conflicts r) (take (length (rp_conflicts r)) offered);
  ri_incomplete : rp_incomplete r = existsb cut (rp_conflicts r);
  ri_open : rp_exhausted r = false → length (rp_conflicts r) = length offered;
  ri_exhausted : rp_exhausted r = true →
    length (rp_conflicts r) < length offered ∨ rp_incomplete r = true
}.

Lemma Forall2_take_more {A B} (R : A → B → Prop) l k x :
  Forall2 R l (take (length l) k) → Forall2 R l (take (length l) (k ++ [x])).
Proof.
  intros Hf. pose proof (Forall2_length _ _ _ Hf) as Hl. rewrite length_take in Hl.
  rewrite take_app_le by lia. done.
Qed.

Lemma offer_inv limits r offered key slot :
  report_inv limits r offered → report_inv limits (offer r key slot) (offered ++ [(key, slot)]).
Proof.
  intros [Hl Hcost Hcount Hent Hinc Hopen Hexh]. unfold offer.
  destruct (rp_exhausted r) eqn:Hex.
  { split; try done; [by apply Forall2_take_more|congruence|].
    intros _. rewrite length_app. destruct (Hexh eq_refl); [left; cbn; lia|by right]. }
  specialize (Hopen eq_refl).
  assert (∀ rem, report_inv limits (mkReporter (rp_limits r) rem (rp_conflicts r) true (rp_incomplete r))
    (offered ++ [(key, slot)]) ↔ rem + report_cost (rp_conflicts r) ≤ max_bytes limits) as Hstop.
  { intros rem. split; [by intros []|]. intros Hrem. split; try done; [by apply Forall2_take_more|].
    intros _. left. cbn. rewrite length_app. cbn. lia. }
  destruct (Nat.eqb_spec (length (rp_conflicts r)) (max_conflicts (rp_limits r))) as [Hmax|Hmax].
  { by apply Hstop. }
  unfold charge. destruct (Nat.ltb_spec (rp_remaining r) (key_cost key)) as [Hlt|Hge]; cbn [negb].
  { by apply Hstop. }
  set (r1 := mkReporter (rp_limits r) (rp_remaining r - key_cost key) (rp_conflicts r) (rp_exhausted r) (rp_incomplete r)).
  pose proof (reporter_side_spec r1 (sl_base slot)) as H1. destruct (reporter_side r1 (sl_base slot)) as [sb r2].
  destruct H1 as (Hb & L1 & C1 & I1 & R1 & Ea1 & Eb1).
  pose proof (reporter_side_spec r2 (sl_target slot)) as H2. destruct (reporter_side r2 (sl_target slot)) as [st r3].
  destruct H2 as (Ht & L2 & C2 & I2 & R2 & Ea2 & Eb2).
  pose proof (reporter_side_spec r3 (sl_source slot)) as H3. destruct (reporter_side r3 (sl_source slot)) as [ss r4].
  destruct H3 as (Hs & L3 & C3 & I3 & R3 & Ea3 & Eb3).
  cbn [rp_limits rp_conflicts rp_incomplete rp_remaining rp_exhausted r1] in *.
  assert (rp_conflicts r4 = rp_conflicts r) as C4 by congruence.
  assert (rp_incomplete r4 = rp_incomplete r || cut (mkConflict key sb st ss)) as I4.
  { rewrite I3, I2, I1. unfold cut; cbn. by rewrite !orb_assoc. }
  split; cbn [rp_limits rp_conflicts rp_incomplete rp_remaining rp_exhausted]; rewrite ?C4.
  - congruence.
  - unfold report_cost in *. rewrite sum_list_with_app. cbn [sum_list_with]. unfold conflict_cost at 2; cbn [cf_key cf_base cf_target cf_source]. lia.
  - rewrite length_app; cbn. rewrite Hl in Hmax. lia.
  - rewrite length_app, take_ge by (rewrite length_app; cbn; lia).
    rewrite take_ge in Hent by lia. apply Forall2_app; [done|]. repeat constructor; cbn; try congruence.
    all: destruct Hb as (?&?&?), Ht as (?&?&?), Hs as (?&?&?); congruence || lia || done.
  - rewrite I4, Hinc, existsb_app. cbn. by rewrite orb_false_r.
  - intros _. rewrite !length_app. cbn. lia.
  - intros He. right. rewrite I4. unfold cut; cbn.
    destruct (Eb3 He) as [He3| ->]; [|by rewrite !orb_true_r].
    destruct (Eb2 He3) as [He2| ->]; [|by rewrite orb_true_r, orb_true_l, orb_true_r].
    destruct (Eb1 He2) as [?| ->]; [congruence|by rewrite !orb_true_l, orb_true_r].
Qed.

Lemma offers_inv limits todo r offered : report_inv limits r offered →
  report_inv limits (fold_left (λ r ks, offer r ks.1 ks.2) todo r) (offered ++ todo).
Proof.
  revert r offered. induction todo as [|[k s] todo IH]; intros r offered Hr; [by rewrite app_nil_r|].
  cbn [fold_left fst snd]. replace (offered ++ (k, s) :: todo) with ((offered ++ [(k, s)]) ++ todo)
    by (by rewrite <-app_assoc). apply IH. by apply offer_inv.
Qed.

Lemma merge_loop_reporter strategy slots acc r count :
  (merge_loop strategy slots acc r count).1.2 =
    fold_left (λ r ks, offer r ks.1 ks.2) (filter (λ ks, slot_conflicts ks.2 = true) slots) r.
Proof.
  revert acc r count. induction slots as [|[k s] slots IH]; intros acc r count; [done|].
  cbn [merge_loop]. rewrite filter_cons; cbn [snd].
  destruct (slot_conflicts s); rewrite IH; [by rewrite decide_True|by rewrite decide_False].
Qed.
End report.

(** ** The theorems *)
Section merge_theorems.
Context `{OxRdfOk}.

(** A reconstructed state: a [BTreeSet] of canonical quads. *)
Definition state_wf (s : state) : Prop := ascending s ∧ Forall quad_wf s.

(** C15. The three-way merge is correct key by key. For all reconstructed states it returns (no
    panic): a quad is in the merged state exactly when its slot's rule keeps it (the source's
    slot when only the source changed it, the target's when only the target did, the common
    value when both agree, and the strategy's choice on a conflict); [conflict_count] is the
    number of keys both sides changed differently; there is no merged state exactly for
    [abort] with at least one conflict; and neither the merged state nor the count depends on
    the limits of the report. *)
Theorem three_way_correct (base target source : state) (strategy : Strategy) (report : ReportLimits) :
  state_wf base → state_wf target → state_wf source →
  ∃ w, three_way_reported base target source strategy report = Ok w ∧
    (∃ ks, ascending ks ∧ length ks = conflict_count w ∧
           ∀ k, k ∈ ks ↔ conflicting base target source k) ∧
    (merged w = None ↔ strategy = Abort_ ∧ conflict_count w ≠ 0) ∧
    (∀ m, merged w = Some m →
       ascending m ∧ ∀ q, q ∈ m ↔ merge_at base target source strategy (skey q) q) ∧
    (∀ report', ∃ w', three_way_reported base target source strategy report' = Ok w' ∧
       merged w' = merged w ∧ conflict_count w' = conflict_count w).
Proof.
  intros [Ab Hb] [At Ht] [As Hs].
  destruct (three_way_spec base target source strategy report Ab At As Hb Ht Hs)
    as (w & m & Hw & Hm & Ham & Hq & ks & Hks & Hlen & Hck).
  exists w. split_and!; [done|by exists ks| | |].
  - rewrite Hm. destruct (decide (strategy = Abort_)) as [->|Hne].
    + rewrite bool_decide_eq_true_2 by done. cbn. destruct (Nat.eqb_spec (conflict_count w) 0); naive_solver.
    + rewrite bool_decide_eq_false_2 by done. cbn. naive_solver.
  - intros m' Hm'. rewrite Hm in Hm'. destruct (_ || _); [|done]. by simplify_eq.
  - intros report'.
    destruct (three_way_spec base target source strategy report' Ab At As Hb Ht Hs)
      as (w' & m' & Hw' & Hm' & Ham' & Hq' & ks' & Hks' & Hlen' & Hck').
    exists w'. assert (m' = m) as ->.
    { apply ascending_ext; [done|done|]. intros q. by rewrite Hq, Hq'. }
    assert (conflict_count w' = conflict_count w) as Hcc.
    { rewrite <-Hlen, <-Hlen'. f_equal. apply ascending_ext; [done|done|]. intros k. by rewrite Hck, Hck'. }
    split_and!; [done|by rewrite Hm, Hm', Hcc|done].
Qed.

Lemma merged_unique base target source strategy report w m :
  state_wf base → state_wf target → state_wf source →
  three_way_reported base target source strategy report = Ok w →
  ascending m → (∀ q, q ∈ m ↔ merge_at base target source strategy (skey q) q) →
  (∀ k, ¬ conflicting base target source k) → merged w = Some m ∧ conflict_count w = 0.
Proof.
  intros [Ab Hb] [At Ht] [As Hs] Hw Ham Hq Hn.
  destruct (three_way_spec base target source strategy report Ab At As Hb Ht Hs)
    as (w' & m' & Hw' & Hm' & Ham' & Hq' & ks' & Hks' & Hlen' & Hck').
  rewrite Hw in Hw'. simplify_eq.
  assert (conflict_count w' = 0) as Hz.
  { destruct ks' as [|k ks']; [done|]. destruct (Hn k). apply Hck'. left. }
  rewrite Hm', Hz. cbn. rewrite orb_true_r. split; [|done]. f_equal.
  apply ascending_ext; [done|done|]. intros q. by rewrite Hq, Hq'.
Qed.

(** The strategy a merge with swapped sides needs. *)
Definition dual (s : Strategy) : Strategy :=
  match s with TakeTarget => TakeSource | TakeSource => TakeTarget | s => s end.

(** C16. The algebra of the merge: a source that did not change yields the target, a target
    that did not change yields the source (the fast-forward state), equal sides yield that
    state, each without conflicts and under every strategy; and swapping target and source
    while swapping the two one-sided strategies gives the same merged state and count. *)
Theorem three_way_laws (base target source : state) (strategy : Strategy) (report : ReportLimits) :
  state_wf base → state_wf target → state_wf source →
  (∃ w, three_way_reported base target base strategy report = Ok w ∧
        merged w = Some target ∧ conflict_count w = 0) ∧
  (∃ w, three_way_reported base base source strategy report = Ok w ∧
        merged w = Some source ∧ conflict_count w = 0) ∧
  (∃ w, three_way_reported base target target strategy report = Ok w ∧
        merged w = Some target ∧ conflict_count w = 0) ∧
  (∃ w w', three_way_reported base target source strategy report = Ok w ∧
        three_way_reported base source target (dual strategy) report = Ok w' ∧
        merged w = merged w' ∧ conflict_count w = conflict_count w').
Proof.
  intros Hb Ht Hs.
  assert (∀ t s x, state_wf t → state_wf s → ascending x →
    (∀ q, q ∈ x ↔ merge_at base t s strategy (skey q) q) → (∀ k, ¬ conflicting base t s k) →
    ∃ w, three_way_reported base t s strategy report = Ok w ∧ merged w = Some x ∧ conflict_count w = 0) as Hone.
  { intros t s x Hwt Hws Hax Hq Hn. pose proof Hb as [Ab Hqb]. pose proof Hwt as [At Hqt]. pose proof Hws as [As Hqs].
    destruct (three_way_spec base t s strategy report Ab At As Hqb Hqt Hqs) as (w & m & Hw & _).
    exists w. split; [done|]. by eapply (merged_unique base t s). }
  split_and!.
  - apply Hone; [done|done|apply Ht| |unfold conflicting; tauto]. intros q.
    assert (q ∈ target ↔ q ∈ at_key (skey q) target) as -> by (rewrite at_key_elem; tauto).
    unfold merge_at, conflicting. split; [|intros (_ & Hq & _); by apply Hq].
    intros Hq. split_and!; [by intros <-|done|done|tauto].
  - apply Hone; [done|done|apply Hs| |unfold conflicting; tauto]. intros q.
    assert (q ∈ source ↔ q ∈ at_key (skey q) source) as -> by (rewrite at_key_elem; tauto).
    unfold merge_at, conflicting. split; [|intros (Hq & _); by apply Hq].
    intros Hq. split_and!; [done|by intros <-|by intros ->|tauto].
  - apply Hone; [done|done|apply Ht| |unfold conflicting; tauto]. intros q.
    assert (q ∈ target ↔ q ∈ at_key (skey q) target) as -> by (rewrite at_key_elem; tauto).
    unfold merge_at, conflicting. split; [|intros (_ & _ & Hq & _); by apply Hq].
    intros Hq. split_and!; [done|done|done|tauto].
  - pose proof Hb as [Ab Hqb]. pose proof Ht as [At Hqt]. pose proof Hs as [As Hqs].
    destruct (three_way_spec base target source strategy report Ab At As Hqb Hqt Hqs)
      as (w & m & Hw & Hm & Ham & Hq & ks & Hks & Hlen & Hck).
    destruct (three_way_spec base source target (dual strategy) report Ab As At Hqb Hqs Hqt)
      as (w' & m' & Hw' & Hm' & Ham' & Hq' & ks' & Hks' & Hlen' & Hck').
    assert (conflict_count w = conflict_count w') as Hcc.
    { rewrite <-Hlen, <-Hlen'. f_equal. apply ascending_ext; [done|done|]. intros k.
      rewrite Hck, Hck'. unfold conflicting. naive_solver. }
    assert (m = m') as ->.
    { apply ascending_ext; [done|done|]. intros q. rewrite Hq, Hq'. unfold merge_at.
      assert (conflicting base target source (skey q) ↔ conflicting base source target (skey q)) as ->
        by (unfold conflicting; naive_solver).
      assert ((at_key (skey q) target = at_key (skey q) source → q ∈ at_key (skey q) target) ↔
              (at_key (skey q) source = at_key (skey q) target → q ∈ at_key (skey q) source)) as ->.
      { split; intros Hx Heq; [rewrite Heq|rewrite Heq]; apply Hx; done. }
      destruct strategy; cbn [dual]; tauto. }
    exists w, w'. split_and!; [done|done| |done]. rewrite Hm, Hm', Hcc. by destruct strategy.
Qed.

(** C17. The conflict report stays within its limits and is honest about what it leaves out. It
    lists at most [max_conflicts] conflicts whose total charge is at most [max_bytes]; the
    listed keys are a prefix, in ascending key order, of all conflicting keys; each listed side
    is a prefix of that side's quads, at most [max_quads_per_side] long and flagged when cut;
    and [conflicts_truncated] is false exactly when every conflicting key is listed in full. *)
Theorem conflict_report_bounded (base target source : state) (strategy : Strategy) (report : ReportLimits) :
  state_wf base → state_wf target → state_wf source →
  ∃ w ks, three_way_reported base target source strategy report = Ok w ∧
    ascending ks ∧ (∀ k, k ∈ ks ↔ conflicting base target source k) ∧ length ks = conflict_count w ∧
    report_cost (conflicts w) ≤ max_bytes report ∧ length (conflicts w) ≤ max_conflicts report ∧
    Forall2 (λ c k, entry_of report c (k, slot_at base target source k))
      (conflicts w) (take (length (conflicts w)) ks) ∧
    (conflicts_truncated w = false ↔
       length (conflicts w) = conflict_count w ∧ Forall (λ c, cut c = false) (conflicts w)).
Proof.
  intros [Ab Hb] [At Ht] [As Hs].
  destruct (partition_spec base target source Ab At As Hb Ht Hs) as (slots & Hpart & Hasc & Hslot).
  destruct (three_way_spec base target source strategy report Ab At As Hb Ht Hs)
    as (w & m & Hw & _ & _ & _ & ks & Hks & Hlen & Hck).
  exists w, ks. rewrite (three_way_eq _ _ _ _ _ _ Hpart) in Hw |- *.
  pose proof (merge_loop_reporter strategy slots [] (reporter_new report) 0) as Hrep.
  pose proof (merge_loop_merged strategy slots [] (reporter_new report) 0) as Hloop.
  destruct (merge_loop strategy slots [] (reporter_new report) 0) as [[m' r] n]. cbn [fst snd] in Hrep.
  destruct Hloop as (_ & _ & Hn). inv_res. cbn [conflicts conflict_count conflicts_truncated] in *.
  set (cs := filter (λ ks, slot_conflicts ks.2 = true) slots) in *.
  assert (report_inv report (fold_left (λ r ks, offer r ks.1 ks.2) cs (reporter_new report)) cs) as Hinv.
  { apply (offers_inv report cs (reporter_new report) []).
    split; cbn; try done; try lia. }
  set (r := fold_left _ cs _) in *. destruct Hinv as [_ Hcost Hcount Hent Hinc Hopen Hexh].
  destruct (conflict_keys_spec base target source slots Hasc Hslot) as [Hcka Hckk].
  assert (ks = cs.*1) as ->.
  { apply ascending_ext; [done|done|]. intros k. rewrite Hck. symmetry. apply Hckk. }
  split_and!; try done.
  - lia.
  - rewrite <-fmap_take. apply Forall2_fmap_r. apply (Forall2_strengthen (entry_of report) _
      (λ ks, ks.2 = slot_at base target source ks.1) _ _ Hent).
    + apply Forall_take, Forall_forall. intros [k s] [_ Hin]%list_elem_of_filter.
      apply (btm_get_Some k s slots Hasc) in Hin. specialize (Hslot k). unfold slot_of in Hslot.
      rewrite Hin in Hslot. exact Hslot.
    + cbn. intros x [k s] Hx Hin. cbn in *. by subst s.
  - assert (length (conflict_keys slots) = length cs) as -> by (unfold conflict_keys; apply length_fmap).
    cbn [plus]. rewrite orb_false_iff, Hinc, existsb_false. split.
    + intros [He Hc]. by rewrite (Hopen He).
    + intros [Hl Hc]. split; [|done]. destruct (rp_exhausted r); [|done].
      destruct (Hexh eq_refl) as [?|Hi]; [lia|]. rewrite Hinc in Hi.
      apply existsb_false in Hc. congruence.
Qed.
End merge_theorems.

(** ** The preview token binds what was previewed *)
Section preview.

Definition preview_wf (p : PreviewIdentity) : Prop :=
  graph_id_wf (pv_graph p) ∧ fits_u32 (pv_source_branch p) ∧ fits_u32 (pv_target_branch p) ∧
  cid_wf (commit_cid (pv_source_head p)) ∧ cid_wf (commit_cid (pv_target_head p)) ∧
  cid_wf (commit_cid (pv_merge_base p)) ∧ cid_wf (pv_merged_state_digest p).

(** The strategy that is bound: a fast-forward has none. *)
Definition bound_strategy (p : PreviewIdentity) : Strategy :=
  match pv_classification p with CFastForward => Abort_ | CDivergent => pv_strategy p end.

Definition preview_body (p : PreviewIdentity) : bytes :=
  wire_field (graph_str (pv_graph p)) ++ wire_field (pv_source_branch p) ++
  wire_field (commit_id_str (pv_source_head p)) ++ wire_field (pv_target_branch p) ++
  wire_field (commit_id_str (pv_target_head p)) ++ wire_field (commit_id_str (pv_merge_base p)) ++
  [classification_code (pv_classification p)] ++ [strategy_code (bound_strategy p)] ++
  wire_field MERGE_ALGORITHM_V1 ++ wire_field (cid_str (pv_merged_state_digest p)).

Lemma preview_field_fits out v : fits_u32 v → preview_field out v = Ok (out ++ wire_field v).
Proof. unfold fits_u32, preview_field. intros Hv. by rewrite (proj2 (Z.leb_le _ _)). Qed.

Lemma cid_wf_fits id : cid_wf id → fits_u32 (cid_str id).
Proof. intros Hid. by apply cid_wf_wire_ok. Qed.

Lemma preview_canonical_bytes_eq p : preview_wf p →
  preview_canonical_bytes p = Ok (PREVIEW_TOKEN_V1_HEADER ++ preview_body p).
Proof.
  intros (Hg & Hs & Ht & H1 & H2 & H3 & H4). unfold preview_canonical_bytes, commit_id_str.
  apply cid_wf_fits in H1, H2, H3, H4. destruct Hg as [Hg _].
  rewrite preview_field_fits by (by eapply token_ok_fits). run_res.
  do 5 (rewrite preview_field_fits by done; run_res).
  rewrite preview_field_fits by done. run_res. rewrite preview_field_fits by done.
  unfold preview_body, bound_strategy. by rewrite <-!app_assoc.
Qed.

Lemma classification_code_inj c d : classification_code c = classification_code d → c = d.
Proof. by destruct c, d. Qed.
Lemma strategy_code_inj s t : strategy_code s = strategy_code t → s = t.
Proof. by destruct s, t. Qed.

(** C18. The preview token binds everything it names: on well-formed identities the canonical
    bytes never panic, and two previews with the same canonical bytes agree on the graph, both
    branches and heads, the merge base, the classification, the merged state digest, and on the
    strategy whenever the merge is divergent (a fast-forward binds none). *)
Theorem preview_bytes_binding (p q : PreviewIdentity) :
  preview_wf p → preview_wf q →
  is_ok (preview_canonical_bytes p) = true ∧
  (preview_canonical_bytes p = preview_canonical_bytes q ↔
     pv_graph p = pv_graph q ∧ pv_source_branch p = pv_source_branch q ∧
     pv_source_head p = pv_source_head q ∧ pv_target_branch p = pv_target_branch q ∧
     pv_target_head p = pv_target_head q ∧ pv_merge_base p = pv_merge_base q ∧
     pv_classification p = pv_classification q ∧ bound_strategy p = bound_strategy q ∧
     pv_merged_state_digest p = pv_merged_state_digest q).
Proof.
  intros Hp Hq. rewrite !preview_canonical_bytes_eq by done. split; [done|].
  destruct Hp as (Gp & Sp & Tp & P1 & P2 & P3 & P4), Hq as (Gq & Sq & Tq & Q1 & Q2 & Q3 & Q4).
  split.
  - intros Hok. assert (preview_body p = preview_body q) as Heq
      by (apply (app_inv_head PREVIEW_TOKEN_V1_HEADER); congruence).
    clear Hok. unfold preview_body, commit_id_str in Heq.
    apply cid_wf_fits in P1, P2, P3, P4, Q1, Q2, Q3, Q4.
    apply wire_field_inj in Heq as [Hg Heq]; [|eapply token_ok_fits; [apply Gp|done]
                                              |eapply token_ok_fits; [apply Gq|done]].
    apply wire_field_inj in Heq as [Hsb Heq]; [|done|done].
    apply wire_field_inj in Heq as [Hsh Heq]; [|done|done].
    apply wire_field_inj in Heq as [Htb Heq]; [|done|done].
    apply wire_field_inj in Heq as [Hth Heq]; [|done|done].
    apply wire_field_inj in Heq as [Hmb Heq]; [|done|done].
    apply app_eq_length in Heq as [[= Hc] Heq]; [|done].
    apply app_eq_length in Heq as [[= Hst] Heq]; [|done].
    apply app_inv_head in Heq. rewrite <-(app_nil_r (wire_field (cid_str (pv_merged_state_digest p)))),
      <-(app_nil_r (wire_field (cid_str (pv_merged_state_digest q)))) in Heq.
    apply wire_field_inj in Heq as [Hd _]; [|done|done].
    apply classification_code_inj in Hc. apply strategy_code_inj in Hst.
    destruct p as [[gp] sbp [[shp]] tbp [[thp]] [[mbp]] cp stp [dp]],
             q as [[gq] sbq [[shq]] tbq [[thq]] [[mbq]] cq stq [dq]]; cbn in *.
    repeat split; congruence.
  - intros (Hg & Hsb & Hsh & Htb & Hth & Hmb & Hc & Hst & Hd). unfold preview_body.
    by rewrite Hg, Hsb, Hsh, Htb, Hth, Hmb, Hc, Hst, Hd.
Qed.
End preview.
