(* ===== verification/Encoding.v ===== *)
(** * The binary layout of the validation protocol and the invocation identity

    Source: [crates/ledger-validation-protocol/src/encoding.rs], [invocation.rs] and the error
    type of [lib.rs]. The encoders append to a byte vector; the decoder side is a strict
    cursor. [writes] and [reads] state what an encoder or a cursor reader does exactly, and
    their composition lemmas carry the codec proofs of the files that follow. *)

From Stdlib Require Import ZArith Lia String Strings.Byte.
From stdpp Require Import base gmap countable list strings pretty.
From S2P Require Import Prelude BTree Bytes Text Core Identity Temporal CommitV2.

Local Open Scope ledger_scope.

(** ** Errors

    [ProtocolError::Invalid(String)]. The text is a literal of this crate ([Prose]), a literal
    with values in it ([Composed]), or the rendering of a ledger error ([Rendered],
    [impl From<LedgerError>]). *)
Inductive Reason :=
  | Prose (text : string)
  | Composed (text : bytes)
  | Rendered (error : LedgerError).

Inductive ProtocolError := Invalid (reason : Reason).

#[export] Instance Reason_eq_dec : EqDecision Reason.
Proof. solve_decision. Defined.
#[export] Instance ProtocolError_eq_dec : EqDecision ProtocolError.
Proof. solve_decision. Defined.

Abbreviation presult := (result ProtocolError).

Definition protocol_error_from (error : LedgerError) : ProtocolError := Invalid (Rendered error).

(** [e?] where [e] fails with a [LedgerError]. *)
Definition lift {A} (r : lresult A) : presult A := map_err protocol_error_from r.

(** ** Encoders *)
Definition field (out value : bytes) : presult bytes :=
  if (Z.of_nat (length value) <=? u32_max)%Z
  then Ok (out ++ u32_to_be_bytes (Z.of_nat (length value)) ++ value)
  else Err (Invalid (Prose "field exceeds u32")).

Definition opt (out : bytes) (value : option bytes) : presult bytes :=
  match value with
  | None => Ok (out ++ [TAG_ABSENT])
  | Some [] =>
      Err (Invalid (Prose "optional fields are absent or non-empty, never empty"))
  | Some present => field (out ++ [TAG_PRESENT]) present
  end.

Definition u32be (out : bytes) (value : nat) : presult bytes :=
  if (Z.of_nat value <=? u32_max)%Z then Ok (out ++ u32_to_be_bytes (Z.of_nat value))
  else Err (Invalid (Prose "count exceeds u32")).

(** [for x in chunks { out.extend_from_slice(x) }] *)
Definition extend_all (out : bytes) (chunks : list bytes) : bytes :=
  fold_left (λ out x, out ++ x) chunks out.

Definition canonical_set (elements : list bytes) : list bytes := dedup (sort_unstable elements).

(** ** The cursor *)
Record Cursor := mkCursor { cur_rest : bytes; cur_what : string }.

Definition cursor_new (bs header : bytes) (what : string) : presult Cursor :=
  rest ← ok_or (strip_prefix header bs) (Invalid (Prose (what +:+ ": unknown header")));
  Ok (mkCursor rest what).

Definition cursor_invalid (c : Cursor) (reason : string) : ProtocolError :=
  Invalid (Prose (cur_what c +:+ ": " +:+ reason)).

Definition cursor_u8 (c : Cursor) (name : string) : presult (byte * Cursor) :=
  match cur_rest c with
  | [] => Err (cursor_invalid c ("truncated " +:+ name))
  | first :: tail => Ok (first, mkCursor tail (cur_what c))
  end.

Definition cursor_u32 (c : Cursor) (name : string) : presult (Z * Cursor) :=
  if length (cur_rest c) <? 4 then Err (cursor_invalid c ("truncated " +:+ name))
  else Ok (u32_from_be_bytes (take 4 (cur_rest c)), mkCursor (drop 4 (cur_rest c)) (cur_what c)).

Definition cursor_field (c : Cursor) (name : string) : presult (bytes * Cursor) :=
  '(len, c) ← cursor_u32 c ("length of " +:+ name);
  let len := Z.to_nat len in
  if length (cur_rest c) <? len then Err (cursor_invalid c ("truncated " +:+ name))
  else
    let value := take len (cur_rest c) in
    if utf8_valid value then Ok (value, mkCursor (drop len (cur_rest c)) (cur_what c))
    else Err (cursor_invalid c (name +:+ " is not UTF-8")).

Definition cursor_opt (c : Cursor) (name : string) : presult (option bytes * Cursor) :=
  '(tag, c) ← cursor_u8 c (name +:+ " tag");
  if bool_decide (tag = TAG_ABSENT) then Ok (None, c)
  else if bool_decide (tag = TAG_PRESENT) then
    '(value, c) ← cursor_field c name;
    if bool_decide (value = []) then
      Err (cursor_invalid c (name +:+ ": present-but-empty is not a valid encoding"))
    else Ok (Some value, c)
  else Err (cursor_invalid c (name +:+ ": unknown optional tag " +:+ pretty (Byte.to_N tag))).

(** The loop of [Cursor::set]: [previous] is the encoding of the element read last. *)
Fixpoint set_loop {T} (name : string) (element : Cursor → presult (T * Cursor))
    (encode : T → presult bytes) (count : nat) (previous : option bytes) (c : Cursor)
    : presult (list T * Cursor) :=
  match count with
  | O => Ok ([], c)
  | S count =>
      '(value, c) ← element c;
      encoded ← encode value;
      if match previous with
         | Some prev => match cmp prev encoded with Lt => false | _ => true end
         | None => false
         end
      then Err (cursor_invalid c (name +:+ " must be strictly ascending (sorted, unique)"))
      else
        '(out, c) ← set_loop name element encode count (Some encoded) c;
        Ok (value :: out, c)
  end.

Definition cursor_set {T} (c : Cursor) (name : string) (max : nat)
    (element : Cursor → presult (T * Cursor)) (encode : T → presult bytes)
    : presult (list T * Cursor) :=
  '(count, c) ← cursor_u32 c (name +:+ " count");
  let count := Z.to_nat count in
  if max <? count then
    Err (cursor_invalid c ("more than " +:+ pretty (N.of_nat max) +:+ " " +:+ name))
  else set_loop name element encode count None c.

Definition cursor_finish (c : Cursor) : presult unit :=
  if bool_decide (cur_rest c = []) then Ok tt else Err (cursor_invalid c "trailing bytes").

#[global] Arguments field : simpl never.
#[global] Arguments opt : simpl never.
#[global] Arguments u32be : simpl never.
#[global] Arguments canonical_set : simpl never.
#[global] Arguments extend_all : simpl never.
#[global] Arguments cursor_u8 : simpl never.
#[global] Arguments cursor_u32 : simpl never.
#[global] Arguments cursor_field : simpl never.
#[global] Arguments cursor_opt : simpl never.
#[global] Arguments cursor_set : simpl never.
#[global] Arguments cursor_finish : simpl never.

(** ** What an encoder does

    [writes w b P]: [w] succeeds exactly when [P] holds, and then appends [b]. *)
Definition writes (w : bytes → presult bytes) (b : bytes) (P : Prop) : Prop :=
  ∀ out out', w out = Ok out' ↔ P ∧ out' = out ++ b.

Section writes_lemmas.
Implicit Types (w : bytes → presult bytes) (b v : bytes) (P Q : Prop).

Lemma writes_bind w1 w2 b1 b2 P Q :
  writes w1 b1 P → writes w2 b2 Q →
  writes (λ out, out ← w1 out; w2 out) (b1 ++ b2) (P ∧ Q).
Proof.
  intros H1 H2 out out'. rewrite bind_Ok. split.
  - intros (o & [? ->]%H1 & [? ->]%H2). by rewrite app_assoc.
  - intros [[? ?] ->]. exists (out ++ b1). split; [by apply H1|].
    apply H2. by rewrite app_assoc.
Qed.

Lemma writes_push w b b' P : writes w b P → writes (λ out, w (out ++ b')) (b' ++ b) P.
Proof. intros Hw out out'. rewrite (Hw (out ++ b')). by rewrite app_assoc. Qed.

Lemma writes_ret : writes Ok [] True.
Proof. intros out out'. rewrite app_nil_r. split; [by intros [= <-]|by intros [_ ->]]. Qed.

Lemma writes_field v : writes (λ out, field out v) (wire_field v) (fits_u32 v).
Proof.
  intros out out'. unfold field, fits_u32, wire_field.
  destruct (Z.leb_spec (Z.of_nat (length v)) u32_max); naive_solver lia.
Qed.

Lemma writes_opt o :
  writes (λ out, opt out o) (wire_opt o) (opt_all (λ v, fits_u32 v ∧ v ≠ []) o).
Proof.
  intros out out'. unfold opt, wire_opt. destruct o as [[|x v]|]; cbn [opt_all].
  - split; [done|naive_solver].
  - rewrite (writes_field (x :: v) (out ++ [TAG_PRESENT])), <-app_assoc. naive_solver.
  - split; [by intros [= <-]|by intros [_ ->]].
Qed.

Lemma writes_u32be n :
  writes (λ out, u32be out n) (u32_to_be_bytes (Z.of_nat n)) (Z.of_nat n ≤ u32_max)%Z.
Proof.
  intros out out'. unfold u32be.
  destruct (Z.leb_spec (Z.of_nat n) u32_max); naive_solver lia.
Qed.

Lemma writes_push_field v b :
  writes (λ out, field (out ++ b) v) (b ++ wire_field v) (fits_u32 v).
Proof. apply (writes_push (λ out, field out v)), writes_field. Qed.

Lemma writes_push_u32be n b :
  writes (λ out, u32be (out ++ b) n) (b ++ u32_to_be_bytes (Z.of_nat n)) (Z.of_nat n ≤ u32_max)%Z.
Proof. apply (writes_push (λ out, u32be out n)), writes_u32be. Qed.

Lemma writes_push2_u32be n b b' :
  writes (λ out, u32be ((out ++ b) ++ b') n) (b ++ b' ++ u32_to_be_bytes (Z.of_nat n))
    (Z.of_nat n ≤ u32_max)%Z.
Proof. apply (writes_push (λ out, u32be (out ++ b') n)), writes_push_u32be. Qed.

(** [for x in chunks { out.extend_from_slice(x) }], then a field. *)
Lemma extend_all_app out chunks : extend_all out chunks = out ++ concat chunks.
Proof.
  revert out. induction chunks as [|x l IH]; intros out; unfold extend_all in *; cbn; [by rewrite app_nil_r|].
  by rewrite IH, <-app_assoc.
Qed.

Lemma writes_extend_field chunks v :
  writes (λ out, field (extend_all out chunks) v) (concat chunks ++ wire_field v) (fits_u32 v).
Proof. intros out out'. rewrite extend_all_app. apply (writes_push_field v _ out). Qed.

Lemma writes_ext w b b' P P' : writes w b P → (P ↔ P') → b = b' → writes w b' P'.
Proof. intros Hw HP <- out out'. rewrite (Hw out). by rewrite HP. Qed.
End writes_lemmas.

(** [solve_writes] follows an encoder's binds; [by_writes header] turns the success of an
    encoder that starts from [header] into its [writes] contract. *)
Create HintDb writes discriminated.
#[export] Hint Resolve writes_ret writes_field writes_opt writes_u32be
  writes_push_field writes_push_u32be writes_push2_u32be writes_extend_field : writes.
Ltac solve_writes :=
  cbv zeta; repeat (eapply writes_bind; [solve [eauto with writes]|]); eauto with writes.
Ltac by_writes header :=
  match goal with
  | |- context [rbind ?e ?k = Ok ?bs] =>
      match eval pattern header in (rbind e k) with
      | ?f header =>
          let Hw := fresh "Hw" in
          eassert (writes f _ _) as Hw by solve_writes;
          rewrite (Hw header bs); clear Hw
      end
  end.

(** ** What a cursor reader does

    [reads p enc P]: [p] returns [a] exactly when [P a] holds and the cursor stands at the
    encoding of [a], which it consumes. *)
Definition reads {A} (p : Cursor → presult (A * Cursor)) (enc : A → bytes) (P : A → Prop) : Prop :=
  ∀ c a c', p c = Ok (a, c') ↔
    P a ∧ cur_what c' = cur_what c ∧ cur_rest c = enc a ++ cur_rest c'.

Lemma cursor_eq c c' : cur_rest c = cur_rest c' → cur_what c = cur_what c' → c = c'.
Proof. destruct c, c'; simpl; congruence. Qed.

Section reads_lemmas.
Lemma reads_u8 name : reads (λ c, cursor_u8 c name) (λ b, [b]) (λ _, True).
Proof.
  intros [rest what] b [rest' what']. unfold cursor_u8; cbn. destruct rest as [|x rest].
  - naive_solver.
  - naive_solver.
Qed.

Lemma reads_u32 name :
  reads (λ c, cursor_u32 c name) u32_to_be_bytes (λ n, (0 ≤ n ≤ u32_max)%Z).
Proof.
  intros [inp what] n [rest what']. unfold cursor_u32; cbn [cur_rest cur_what]. split.
  - destruct (Nat.ltb_spec (length inp) 4) as [|Hl]; [done|]. intros [= <- <- <-].
    assert (length (take 4 inp) = 4) as H4 by (rewrite length_take; lia).
    split; [by apply u32_from_be_range|]. by rewrite u32_to_from_be, take_drop.
  - intros (Hn & -> & ->). rewrite length_app, length_u32_to_be_bytes.
    rewrite (proj2 (Nat.ltb_ge (4 + _) 4)) by lia.
    rewrite take_app_length', drop_app_length' by done. by rewrite u32_be_roundtrip.
Qed.

Lemma reads_field name : reads (λ c, cursor_field c name) wire_field wire_ok.
Proof.
  intros c v c'. unfold cursor_field. split.
  - intros Hr. inv_res. destruct a as [n c1]. apply reads_u32 in E as (Hn & Hw & Hc).
    destruct (Nat.ltb_spec (length (cur_rest c1)) (Z.to_nat n)) as [|Hl]; [done|].
    destruct (utf8_valid _) eqn:Hu; [|done]. injection Hr as <- <-. cbn.
    assert (length (take (Z.to_nat n) (cur_rest c1)) = Z.to_nat n) as Hv
      by (rewrite length_take; lia).
    split; [split; [unfold fits_u32; rewrite Hv; lia|done]|split; [done|]].
    unfold wire_field. rewrite Hv, Z2Nat.id by lia. by rewrite Hc, <-app_assoc, take_drop.
  - intros ([Hf Hu] & Hw & Hc). unfold fits_u32 in Hf.
    rewrite (proj2 (reads_u32 _ c (Z.of_nat (length v)) (mkCursor (v ++ cur_rest c') (cur_what c)))).
    2: { split; [lia|split; [done|]]. cbn. rewrite Hc. unfold wire_field. by rewrite <-app_assoc. }
    run_res. cbn [cur_rest cur_what]. rewrite Nat2Z.id, length_app.
    rewrite (proj2 (Nat.ltb_ge (length v + _) _)) by lia.
    rewrite take_app_length, drop_app_length, Hu, <-Hw. by destruct c'.
Qed.

Lemma reads_opt name : reads (λ c, cursor_opt c name) wire_opt (opt_all opt_field_ok).
Proof.
  intros c o c'. unfold cursor_opt, wire_opt, opt_field_ok. split.
  - intros Hr. inv_res. destruct a as [tag c1]. apply reads_u8 in E as (_ & Hw & Hc).
    case_bool_decide; [subst; by inv_res|]. case_bool_decide; [|done]. subst. inv_res.
    destruct a as [v c2]. apply reads_field in E as (Hv & Hw2 & Hc2).
    case_bool_decide; [done|]. inv_res. split_and!; [done|congruence|]. by rewrite Hc, Hc2.
  - destruct o as [v|]; cbn [opt_all].
    + intros ([Hv Hne] & Hw & Hc).
      rewrite (proj2 (reads_u8 _ c TAG_PRESENT (mkCursor (wire_field v ++ cur_rest c') (cur_what c)))) by done.
      run_res. rewrite bool_decide_eq_false_2, bool_decide_eq_true_2 by done.
      rewrite (proj2 (reads_field _ _ v c')) by done. run_res. by rewrite bool_decide_eq_false_2.
    + intros (_ & Hw & Hc). by rewrite (proj2 (reads_u8 _ c TAG_ABSENT c')).
Qed.

(** Sequencing. [proj] recovers what [p] read from the final value; [R] accumulates those
    equations until [reads_ret] closes them. *)
Lemma reads_bind {A B} (p : Cursor → presult (A * Cursor)) e P (proj : B → A)
    (k : A → Cursor → presult (B * Cursor)) ek Q (R : B → Prop) :
  reads p e P → (∀ a, reads (k a) ek (λ b, Q b ∧ R b ∧ proj b = a)) →
  reads (λ c, '(a, c) ← p c; k a c) (λ b, e (proj b) ++ ek b) (λ b, (P (proj b) ∧ Q b) ∧ R b).
Proof.
  intros Hp Hk c b c'. rewrite bind_Ok. split.
  - intros ([a c1] & (Ha & Hw & Hc)%Hp & ((Hq & Hr & <-) & Hw1 & Hc1)%Hk).
    rewrite Hc, Hc1, <-app_assoc. split_and!; [done..|congruence|done].
  - intros (((Hpb & Hq) & Hr) & Hw & Hc).
    exists (proj b, mkCursor (ek b ++ cur_rest c') (cur_what c)). split.
    + apply Hp. cbn. by rewrite Hc, <-app_assoc.
    + by apply Hk.
Qed.

(** A value read and then converted by an exact fallible function. *)
Lemma reads_try {A B V} (p : Cursor → presult (V * Cursor)) e P0 (parse : V → presult A)
    (show : A → V) P (proj : B → A) (k : A → Cursor → presult (B * Cursor)) ek Q (R : B → Prop) :
  reads p e P0 → (∀ v a, parse v = Ok a ↔ v = show a ∧ P a) →
  (∀ a, reads (k a) ek (λ b, Q b ∧ R b ∧ proj b = a)) →
  reads (λ c, '(v, c) ← p c; a ← parse v; k a c) (λ b, e (show (proj b)) ++ ek b)
    (λ b, ((P0 (show (proj b)) ∧ P (proj b)) ∧ Q b) ∧ R b).
Proof.
  intros Hp Hparse Hk c b c'. rewrite bind_Ok. split.
  - intros ([v c1] & (Hv & Hw & Hc)%Hp & Hr). inv_res.
    apply Hparse in E as [-> Ha]. apply Hk in Hr as ((Hq & Hr & <-) & Hw1 & Hc1).
    rewrite Hc, Hc1, <-app_assoc. split_and!; [done..|congruence|done].
  - intros ((((Hv & Hpb) & Hq) & Hr) & Hw & Hc).
    exists (show (proj b), mkCursor (ek b ++ cur_rest c') (cur_what c)). split.
    + apply Hp. cbn. by rewrite Hc, <-app_assoc.
    + rewrite (proj2 (Hparse _ (proj b))) by done. by apply Hk.
Qed.

(** A field read and then parsed by an exact constructor of the core. *)
Lemma reads_parse {A B V} (p : Cursor → presult (V * Cursor)) e P0 (parse : V → lresult A)
    (show : A → V) P (proj : B → A) (k : A → Cursor → presult (B * Cursor)) ek Q (R : B → Prop) :
  reads p e P0 → (∀ v a, parse v = Ok a ↔ v = show a ∧ P a) →
  (∀ a, reads (k a) ek (λ b, Q b ∧ R b ∧ proj b = a)) →
  reads (λ c, '(v, c) ← p c; a ← lift (parse v); k a c) (λ b, e (show (proj b)) ++ ek b)
    (λ b, ((P0 (show (proj b)) ∧ P (proj b)) ∧ Q b) ∧ R b).
Proof.
  intros Hp Hparse. apply (reads_try p e P0 (λ v, lift (parse v))); [done|].
  intros v a. unfold lift. rewrite map_err_Ok. apply Hparse.
Qed.

Lemma reads_ret {B} (v : B) (R : B → Prop) :
  (∀ b, R b ↔ b = v) → reads (λ c, Ok (v, c)) (λ _, []) (λ b, True ∧ R b).
Proof.
  intros HR c b c'. split.
  - intros [= <- <-]. split_and!; [done|by apply HR|done|done].
  - intros ((_ & ->%HR) & Hw & Hc). by rewrite (cursor_eq c' c).
Qed.

Lemma reads_ext {A} (p : Cursor → presult (A * Cursor)) e e' P P' :
  reads p e P → (∀ a, P a ↔ P' a) → (∀ a, P' a → e a = e' a) → reads p e' P'.
Proof.
  intros Hp HP He c a c'. rewrite (Hp c), HP. split; intros [HPa Hc]; specialize (He a HPa).
  - by rewrite <-He.
  - by rewrite He.
Qed.

(** A reader followed by a check of what it read. *)
Lemma reads_check {A} (p : Cursor → presult (A * Cursor)) e P (check : A → presult unit) V :
  reads p e P → (∀ a u, check a = Ok u ↔ V a) →
  reads (λ c, '(a, c) ← p c; check a ;; Ok (a, c)) e (λ a, P a ∧ V a).
Proof.
  intros Hp HV c a c'. rewrite bind_Ok. split.
  - intros ([a1 c1] & Hr & Hc). inv_res. apply HV in E. apply Hp in Hr as (?&?&?). done.
  - intros ((HPa & HVa) & Hw & Hc). exists (a, c'). split; [by apply Hp|].
    by rewrite (proj2 (HV a tt)).
Qed.

(** A whole decoder: header, body, end of input, validation. *)
Lemma reads_decoder {A} (p : Cursor → presult (A * Cursor)) e P (check : A → presult unit) V
    header what bs a :
  reads p e P → (∀ a u, P a → check a = Ok u ↔ V a) →
  (c ← cursor_new bs header what; '(a, c) ← p c; cursor_finish c ;; check a ;; Ok a) = Ok a ↔
    P a ∧ V a ∧ bs = header ++ e a.
Proof.
  intros Hp HV. unfold cursor_new, cursor_finish. split.
  - intros Hr. inv_res. apply strip_prefix_Some in E1 as ->. destruct a1 as [x c].
    apply Hp in E0 as (HP & Hw & Hc). cbn in *. inv_res. case_bool_decide as Hend; [|done].
    apply HV in E0; [|done]. rewrite Hend, app_nil_r. done.
  - intros (HP & HVa & ->). rewrite strip_prefix_app. run_res.
    rewrite (proj2 (Hp _ a (mkCursor [] what))) by (cbn; by rewrite app_nil_r).
    run_res. cbn [cur_rest]. rewrite bool_decide_eq_true_2 by done. run_res.
    by rewrite (proj2 (HV a tt HP)).
Qed.

(** [Cursor::set] over an exact element reader: a count, then the elements in strictly
    ascending order of their encodings. *)
Definition set_bytes {T} (enc : T → bytes) (l : list T) : bytes :=
  u32_to_be_bytes (Z.of_nat (length l)) ++ concat (enc <$> l).

Lemma reads_set_loop {T} name (element : Cursor → presult (T * Cursor)) (encode : T → presult bytes)
    enc P n prev :
  reads element enc P → (∀ a, P a → encode a = Ok (enc a)) →
  reads (set_loop name element encode n prev) (λ l, concat (enc <$> l))
    (λ l, length l = n ∧ Forall P l ∧ ascending (enc <$> l) ∧
          opt_all (λ p, Forall (lt_of p) (enc <$> l)) prev).
Proof.
  intros Hel Hen. revert prev. induction n as [|n IH]; intros prev c l c'; cbn [set_loop].
  { split.
    - intros [= <- <-]. split_and!; try done; [apply ascending_nil|]. by destruct prev; [apply Forall_nil|].
    - intros ((Hl & _) & Hw & Hc). destruct l; [|done]. by rewrite (cursor_eq c' c). }
  split.
  - intros Hr. inv_res. destruct a as [v c1]. inv_res. apply Hel in E as (HP & Hw & Hc).
    rewrite Hen in E0 by done. injection E0 as <-.
    destruct (match prev with Some p => _ | None => _ end) eqn:Hp; [done|]. inv_res.
    destruct a as [l' c2]. apply IH in E as ((Hl & HF & Ha & Hlt) & Hw2 & Hc2). inv_res.
    cbn [opt_all] in Hlt. rewrite fmap_cons. cbn [concat]. rewrite Hc, Hc2, <-app_assoc.
    split; [|split; [congruence|done]].
    split_and!; [simpl; lia|by constructor|by constructor|].
    destruct prev as [p|]; [|done]. cbn [opt_all].
    destruct (cmp p (enc v)) eqn:Hcmp; [done| |done].
    constructor; [done|]. eapply Forall_weaken; [exact Hlt|].
    intros x Hx. by apply (lt_of_trans p (enc v) x).
  - intros ((Hl & HF & Ha & Hp) & Hw & Hc). destruct l as [|v l]; [done|].
    apply Forall_cons in HF as [HPv HF]. rewrite fmap_cons in Ha, Hp, Hc.
    apply ascending_inv in Ha as [Ha Hlt]. cbn [concat] in Hc. rewrite <-app_assoc in Hc.
    rewrite (proj2 (Hel c v (mkCursor (concat (enc <$> l) ++ cur_rest c') (cur_what c)))) by done.
    run_res. rewrite Hen by done. run_res.
    replace (match prev with Some p => _ | None => _ end) with false.
    + rewrite (proj2 (IH (Some (enc v)) _ l c')); [done|]. simpl in Hl. split_and!; [lia|done..].
    + destruct prev as [p|]; [|done]. cbn [opt_all] in Hp. apply Forall_cons in Hp as [Hp _].
      unfold lt_of in Hp. by rewrite Hp.
Qed.

Lemma reads_set {T} name max (element : Cursor → presult (T * Cursor)) (encode : T → presult bytes)
    enc P :
  reads element enc P → (∀ a, P a → encode a = Ok (enc a)) → (Z.of_nat max ≤ u32_max)%Z →
  reads (λ c, cursor_set c name max element encode) (set_bytes enc)
    (λ l, length l ≤ max ∧ Forall P l ∧ ascending (enc <$> l)).
Proof.
  intros Hel Hen Hmax c l c'. unfold cursor_set, set_bytes. split.
  - intros Hr. inv_res. destruct a as [n c1]. apply reads_u32 in E as (Hn & Hw & Hc).
    destruct (Nat.ltb_spec max (Z.to_nat n)); [done|].
    apply (reads_set_loop name element encode enc P) in Hr as ((Hl & HF & Ha & _) & Hw2 & Hc2); [|done..].
    split; [split; [lia|done]|]. split; [congruence|].
    rewrite Hc, Hc2, Hl, Z2Nat.id by lia. by rewrite <-app_assoc.
  - intros ((Hl & HF & Ha) & Hw & Hc). rewrite <-app_assoc in Hc.
    rewrite (proj2 (reads_u32 _ c (Z.of_nat (length l))
      (mkCursor (concat (enc <$> l) ++ cur_rest c') (cur_what c)))).
    2: { split; [lia|done]. }
    run_res. rewrite Nat2Z.id, (proj2 (Nat.ltb_ge max _)) by done.
    by apply (reads_set_loop name element encode enc P).
Qed.
End reads_lemmas.

(** [canonical_set] is the ascending list of the distinct elements. *)
Lemma canonical_set_collect l : canonical_set l = bts_collect l.
Proof. apply sort_dedup_collect. Qed.

(** ** The invocation identity ([invocation.rs]) *)
Definition VALIDATION_INVOCATION_V1_HEADER : bytes := B "sculpin-validation-invocation-v1" ++ [x00].
Definition VALIDATION_INVOCATION_OPERATION : bytes := B "validate".
Definition MAX_INVOCATION_KEY_BYTES : nat := 256.

(** [typed_id!(ValidationInvocationId)] *)
Record ValidationInvocationId := mkInvocationId { invocation_cid : ContentId }.

Record ValidationInvocation := mkInvocation {
  vi_tenant_id : TenantId;
  vi_principal_type : PrincipalType;
  vi_principal_id : PrincipalId;
  vi_on_behalf_of : option PrincipalId;
  vi_graph_id : GraphId;
  vi_idempotency_key : bytes;
  vi_request_digest : ContentId
}.

#[export] Instance ValidationInvocationId_eq_dec : EqDecision ValidationInvocationId.
Proof. solve_decision. Defined.
#[export] Instance ValidationInvocation_eq_dec : EqDecision ValidationInvocation.
Proof. solve_decision. Defined.

(** [ValidationInvocation::for_request] *)
Definition for_request (principal : AuthenticatedPrincipal) (graph : GraphId)
    (idempotency_key : bytes) (request_digest : ContentId) : ValidationInvocation :=
  mkInvocation (ap_tenant_id principal) (ap_principal_type principal)
    (ap_principal_id principal) (ap_on_behalf_of principal) graph idempotency_key request_digest.

(** [ValidationInvocation::validate] *)
Definition invocation_validate (v : ValidationInvocation) : presult unit :=
  let key := vi_idempotency_key v in
  if bool_decide (key = []) || (MAX_INVOCATION_KEY_BYTES <? length key) || has_control key
  then Err (Invalid (Prose ("validation invocation: idempotency key must be 1..=256 " +:+
                            "bytes without control characters")))
  else Ok tt.

(** [ValidationInvocation::canonical_bytes] *)
Definition invocation_canonical_bytes (v : ValidationInvocation) : presult bytes :=
  invocation_validate v ;;
  out ← field VALIDATION_INVOCATION_V1_HEADER (tenant_str (vi_tenant_id v));
  let out := out ++ [wire_byte (vi_principal_type v)] in
  out ← field out (principal_str (vi_principal_id v));
  out ← opt out (principal_str <$> vi_on_behalf_of v);
  out ← field out (graph_str (vi_graph_id v));
  out ← field out VALIDATION_INVOCATION_OPERATION;
  out ← field out (vi_idempotency_key v);
  out ← field out (cid_str (vi_request_digest v));
  Ok out.

(** [ValidationInvocation::id] *)
Definition invocation_id `{Sha256} (v : ValidationInvocation) : presult ValidationInvocationId :=
  bs ← invocation_canonical_bytes v; Ok (mkInvocationId (for_bytes bs)).

#[global] Arguments VALIDATION_INVOCATION_V1_HEADER : simpl never.
#[global] Arguments VALIDATION_INVOCATION_OPERATION : simpl never.

Section invocation.
Implicit Types v w : ValidationInvocation.

(** The invariants the field types carry. *)
Record invocation_wf v : Prop := {
  vi_wf_tenant : tenant_id_wf (vi_tenant_id v);
  vi_wf_principal : principal_id_wf (vi_principal_id v);
  vi_wf_behalf : opt_all principal_id_wf (vi_on_behalf_of v);
  vi_wf_graph : graph_id_wf (vi_graph_id v);
  vi_wf_digest : cid_wf (vi_request_digest v)
}.

(** What [validate] accepts is a token of at most 256 bytes. *)
Lemma invocation_validate_Ok v u :
  invocation_validate v = Ok u ↔ token_ok MAX_INVOCATION_KEY_BYTES (vi_idempotency_key v).
Proof.
  unfold invocation_validate, token_ok. destruct u. case_bool_decide; [naive_solver|].
  destruct (Nat.ltb_spec MAX_INVOCATION_KEY_BYTES (length (vi_idempotency_key v))); [naive_solver lia|].
  destruct (has_control (vi_idempotency_key v)); naive_solver.
Qed.

Definition invocation_body v : bytes :=
  wire_field (tenant_str (vi_tenant_id v)) ++
  [wire_byte (vi_principal_type v)] ++
  wire_field (principal_str (vi_principal_id v)) ++
  wire_opt (principal_str <$> vi_on_behalf_of v) ++
  wire_field (graph_str (vi_graph_id v)) ++
  wire_field VALIDATION_INVOCATION_OPERATION ++
  wire_field (vi_idempotency_key v) ++
  wire_field (cid_str (vi_request_digest v)) ++ [].

Lemma wire_opt_inj o o' r1 r2 :
  opt_all fits_u32 o → opt_all fits_u32 o' →
  wire_opt o ++ r1 = wire_opt o' ++ r2 → o = o' ∧ r1 = r2.
Proof.
  destruct o as [v|], o' as [w|]; cbn [opt_all]; unfold wire_opt; intros Hv Hw Heq.
  - cbn [app] in Heq. assert (wire_field v ++ r1 = wire_field w ++ r2) as Hf by congruence.
    apply wire_field_inj in Hf as [-> ->]; done.
  - done.
  - done.
  - split; [done|]. cbn [app] in Heq. congruence.
Qed.

Lemma opt_token_fits max o :
  opt_all (token_ok max) o → (Z.of_nat max ≤ u32_max)%Z →
  opt_all (λ s, fits_u32 s ∧ s ≠ []) o.
Proof.
  intros Ho Hm. eapply opt_all_weaken; [|exact Ho].
  intros v Hv. split; [by eapply token_ok_fits|apply Hv].
Qed.

(** On well-formed fields, the key check is the only way encoding can fail. *)
Lemma invocation_canonical_bytes_Ok v bs : invocation_wf v →
  invocation_canonical_bytes v = Ok bs ↔
    token_ok MAX_INVOCATION_KEY_BYTES (vi_idempotency_key v) ∧
    bs = VALIDATION_INVOCATION_V1_HEADER ++ invocation_body v.
Proof.
  intros [Ht Hp Hb Hg Hd]. unfold invocation_canonical_bytes.
  rewrite (check_bind_Ok _ _ _ _ (invocation_validate_Ok v)).
  by_writes VALIDATION_INVOCATION_V1_HEADER. unfold invocation_body. rewrite <-!app_assoc.
  split; [tauto|]. intros [Hk ->]. split; [done|]. split; [|done].
  split_and!; try done; try (by eapply token_ok_fits).
  - apply (opt_token_fits MAX_IDENTIFIER_BYTES); [by apply opt_all_fmap|done].
  - by eapply token_ok_fits; [apply Hg|].
  - by apply cid_wf_wire_ok.
Qed.

Lemma wire_byte_inj t t' : wire_byte t = wire_byte t' → t = t'.
Proof. by destruct t, t'. Qed.

Lemma principal_fmap_inj (o o' : option PrincipalId) :
  principal_str <$> o = principal_str <$> o' → o = o'.
Proof. destruct o as [[]|], o' as [[]|]; cbn; congruence. Qed.

Lemma invocation_body_inj v w :
  invocation_wf v → invocation_wf w →
  fits_u32 (vi_idempotency_key v) → fits_u32 (vi_idempotency_key w) →
  invocation_body v = invocation_body w → v = w.
Proof.
  intros [Ht Hp Hb Hg Hd] [Ht' Hp' Hb' Hg' Hd'] Hk Hk' Heq. unfold invocation_body in Heq.
  apply wire_field_inj in Heq as [Et Heq]; [|by eapply token_ok_fits..].
  apply app_eq_length in Heq as [Ey Heq]; [|done].
  assert (vi_principal_type v = vi_principal_type w) as Ety by (apply wire_byte_inj; congruence).
  apply wire_field_inj in Heq as [Ep Heq]; [|by eapply token_ok_fits..].
  apply wire_opt_inj in Heq as [Eb Heq].
  2,3: apply opt_all_fmap; eapply opt_all_weaken; [|done]; intros ? Hx; by eapply token_ok_fits.
  apply principal_fmap_inj in Eb.
  apply wire_field_inj in Heq as [Eg Heq]; [|by apply graph_wire_ok..].
  apply wire_field_inj in Heq as [_ Heq]; [|done..].
  apply wire_field_inj in Heq as [Ek Heq]; [|done..].
  apply wire_field_inj in Heq as [Ed _]; [|by apply cid_wf_wire_ok..].
  destruct v as [[] ? [] ? [] ? []], w as [[] ? [] ? [] ? []]; cbn in *. congruence.
Qed.

(** C19. The invocation identity binds exactly the authenticated scope, the key and the
    request: a [validate] request has invocation bytes if and only if its idempotency key has
    1 to 256 bytes and no control character, and two requests with the same invocation bytes
    come from the same tenant, principal type, principal and delegator, name the same graph,
    and carry the same key and the same request digest. *)
Theorem invocation_bytes_binding (p q : AuthenticatedPrincipal) (g g' : GraphId)
    (key key' : bytes) (digest digest' : ContentId) :
  invocation_wf (for_request p g key digest) →
  invocation_wf (for_request q g' key' digest') →
  ((∃ bs, invocation_canonical_bytes (for_request p g key digest) = Ok bs) ↔
     key ≠ [] ∧ length key ≤ 256 ∧ has_control key = false) ∧
  (∀ bs, invocation_canonical_bytes (for_request p g key digest) = Ok bs →
         invocation_canonical_bytes (for_request q g' key' digest') = Ok bs →
         p = q ∧ g = g' ∧ key = key' ∧ digest = digest').
Proof.
  intros Hp Hq. setoid_rewrite invocation_canonical_bytes_Ok; [|done..]. split.
  - cbn [for_request vi_idempotency_key]. split; [by intros (bs & ? & _)|].
    intros Hk. by eexists.
  - intros bs [Hk ->] [Hk' Heq%app_inv_head].
    apply invocation_body_inj in Heq; [|done..|by eapply token_ok_fits|by eapply token_ok_fits].
    destruct p, q. unfold for_request in Heq. cbn in Heq. by injection Heq as -> -> -> -> -> -> ->.
Qed.
End invocation.
