(* ===== verification/SemanticContext.v ===== *)
(** * Semantic environments and execution contexts

    Source: [crates/ledger-validation-protocol/src/context.rs]: the candidate-independent
    environment, the virtual-context references and the reproducibility record of one
    validation run, with their validation, canonical bytes and strict decoders. *)

From Stdlib Require Import ZArith Lia String Strings.Byte.
From stdpp Require Import base gmap countable list strings pretty.
From S2P Require Import Prelude BTree Bytes Text Core Identity Temporal CommitV2 Encoding.

Local Open Scope ledger_scope.

Definition SEMANTIC_CONTEXT_V1_HEADER : bytes := B "sculpin-semantic-context-v1" ++ [x00].
Definition SEMANTIC_ENVIRONMENT_V1_HEADER : bytes := B "sculpin-semantic-environment-v1" ++ [x00].
Definition MAX_VIRTUAL_CONTEXTS : nat := 64.
Definition MAX_OBJECT_REFS : nat := 64.

(** [typed_id!(SemanticContextId)], [typed_id!(SemanticEnvironmentId)] *)
Record SemanticContextId := mkSemanticContextId { sctx_cid : ContentId }.
Record SemanticEnvironmentId := mkSemanticEnvironmentId { senv_cid : ContentId }.

Definition token (field_name : string) (value : bytes) : presult unit :=
  lift (validate_token field_name value MAX_IDENTIFIER_BYTES).

Definition encoded_field (value : bytes) : presult bytes := field [] value.

(** ** Data *)
Record BaseKb := mkBaseKb { kb_id : bytes; kb_revision : bytes }.
Record Ontology := mkOntology { ontology_id : bytes; ontology_version : bytes }.
Record ShapeSet := mkShapeSet { shapes_id : bytes; shapes_version : bytes }.
Record Reasoning := mkReasoning {
  profile : bytes; implementation : bytes; reasoning_version : bytes
}.
Record ValidatorIdentity := mkValidatorIdentity {
  service_id : bytes; service_version : bytes; configuration_version : bytes
}.
Record VirtualContextRef := mkVirtualContextRef {
  dataset_id : bytes;
  source_version : bytes;
  object_refs : list bytes;
  query_spec_digest : ContentId;
  hydration_plan_digest : ContentId
}.
Record SemanticEnvironment := mkSemanticEnvironment {
  se_base_kb : BaseKb;
  se_ontology : option Ontology;
  se_shapes : ShapeSet;
  se_reasoning : option Reasoning;
  se_sources_revision : option bytes;
  validator_service_version : bytes;
  validator_configuration_version : bytes
}.
Record SemanticExecutionContext := mkSemanticExecutionContext {
  sc_graph_id : GraphId;
  sc_candidate_commit : CommitId;
  sc_candidate_state_digest : ContentId;
  sc_base_kb : BaseKb;
  sc_ontology : option Ontology;
  sc_shapes : ShapeSet;
  sc_reasoning : option Reasoning;
  sc_sources_revision : option bytes;
  sc_virtual_contexts : list VirtualContextRef;
  sc_validator : ValidatorIdentity
}.

#[export] Instance SemanticContextId_eq_dec : EqDecision SemanticContextId.
Proof. solve_decision. Defined.
#[export] Instance BaseKb_eq_dec : EqDecision BaseKb.
Proof. solve_decision. Defined.
#[export] Instance Ontology_eq_dec : EqDecision Ontology.
Proof. solve_decision. Defined.
#[export] Instance ShapeSet_eq_dec : EqDecision ShapeSet.
Proof. solve_decision. Defined.
#[export] Instance Reasoning_eq_dec : EqDecision Reasoning.
Proof. solve_decision. Defined.
#[export] Instance ValidatorIdentity_eq_dec : EqDecision ValidatorIdentity.
Proof. solve_decision. Defined.
#[export] Instance VirtualContextRef_eq_dec : EqDecision VirtualContextRef.
Proof. solve_decision. Defined.
#[export] Instance SemanticEnvironment_eq_dec : EqDecision SemanticEnvironment.
Proof. solve_decision. Defined.
#[export] Instance SemanticExecutionContext_eq_dec : EqDecision SemanticExecutionContext.
Proof. solve_decision. Defined.

(** [ValidatorIdentity::validate] *)
Definition validator_validate (v : ValidatorIdentity) : presult unit :=
  token "validator.service_id" (service_id v) ;;
  token "validator.service_version" (service_version v) ;;
  token "validator.configuration_version" (configuration_version v).

(** ** Virtual-context references *)
(** [VirtualContextRef::encoded_object_refs] *)
Definition encoded_object_refs (v : VirtualContextRef) : presult (list bytes) :=
  encoded ← collect encoded_field (object_refs v);
  Ok (canonical_set encoded).

(** [VirtualContextRef::validate] *)
Definition vc_validate (v : VirtualContextRef) : presult unit :=
  token "virtual_context.dataset_id" (dataset_id v) ;;
  token "virtual_context.source_version" (source_version v) ;;
  try_each (token "virtual_context.object_ref") (object_refs v) ;;
  refs ← encoded_object_refs v;
  if MAX_OBJECT_REFS <? length refs then
    Err (Invalid (Prose "more than 64 distinct object references in a virtual context"))
  else Ok tt.

(** The comparison of [canonical_object_refs]: shorter first, then bytewise. *)
Definition ref_ord : Ord bytes.
Proof. apply (ord_via (λ r : bytes, (Z.of_nat (length r), r))). congruence. Defined.

(** [VirtualContextRef::canonical_object_refs] *)
Definition canonical_object_refs (v : VirtualContextRef) : list bytes :=
  @dedup bytes ref_ord (@sort_unstable bytes ref_ord (object_refs v)).

(** [VirtualContextRef::canonical_bytes] *)
Definition vc_canonical_bytes (v : VirtualContextRef) : presult bytes :=
  vc_validate v ;;
  out ← field [] (dataset_id v);
  out ← field out (source_version v);
  refs ← encoded_object_refs v;
  out ← u32be out (length refs);
  let out := extend_all out refs in
  out ← field out (cid_str (query_spec_digest v));
  out ← field out (cid_str (hydration_plan_digest v));
  Ok out.

(** The reads of [VirtualContextRef::decode], in order. *)
Definition vc_fields (c : Cursor) : presult (VirtualContextRef * Cursor) :=
  '(dataset, c) ← cursor_field c "dataset_id";
  '(source, c) ← cursor_field c "source_version";
  '(refs, c) ← cursor_set c "object references" MAX_OBJECT_REFS
                 (λ c, cursor_field c "object_ref") encoded_field;
  '(v, c) ← cursor_field c "query_spec_digest";
  query ← lift (content_id_from_str v);
  '(v, c) ← cursor_field c "hydration_plan_digest";
  plan ← lift (content_id_from_str v);
  Ok (mkVirtualContextRef dataset source refs query plan, c).

(** [VirtualContextRef::decode] *)
Definition vc_decode (c : Cursor) : presult (VirtualContextRef * Cursor) :=
  '(value, c) ← vc_fields c;
  vc_validate value ;;
  Ok (value, c).

(** ** Ontology and reasoning *)
Definition encode_ontology (out : bytes) (ontology : option Ontology) : presult bytes :=
  match ontology with
  | None => Ok (out ++ [TAG_ABSENT])
  | Some o =>
      out ← field (out ++ [TAG_PRESENT]) (ontology_id o);
      field out (ontology_version o)
  end.

Definition encode_reasoning (out : bytes) (reasoning : option Reasoning) : presult bytes :=
  match reasoning with
  | None => Ok (out ++ [TAG_ABSENT])
  | Some r =>
      out ← field (out ++ [TAG_PRESENT]) (profile r);
      out ← field out (implementation r);
      field out (reasoning_version r)
  end.

Definition decode_ontology (c : Cursor) : presult (option Ontology * Cursor) :=
  '(tag, c) ← cursor_u8 c "ontology tag";
  if bool_decide (tag = TAG_ABSENT) then Ok (None, c)
  else if bool_decide (tag = TAG_PRESENT) then
    '(id, c) ← cursor_field c "ontology.id";
    '(version, c) ← cursor_field c "ontology.version";
    Ok (Some (mkOntology id version), c)
  else Err (Invalid (Prose ("unknown ontology tag " +:+ pretty (Byte.to_N tag)))).

Definition decode_reasoning (c : Cursor) : presult (option Reasoning * Cursor) :=
  '(tag, c) ← cursor_u8 c "reasoning tag";
  if bool_decide (tag = TAG_ABSENT) then Ok (None, c)
  else if bool_decide (tag = TAG_PRESENT) then
    '(p, c) ← cursor_field c "reasoning.profile";
    '(i, c) ← cursor_field c "reasoning.implementation";
    '(v, c) ← cursor_field c "reasoning.version";
    Ok (Some (mkReasoning p i v), c)
  else Err (Invalid (Prose ("unknown reasoning tag " +:+ pretty (Byte.to_N tag)))).

(** [if let Some(x) = o { f(x)? }] *)
Definition if_some {A} (o : option A) (f : A → presult unit) : presult unit :=
  match o with Some a => f a | None => Ok tt end.

Definition validate_semantics (base : BaseKb) (ontology : option Ontology) (shapes : ShapeSet)
    (reasoning : option Reasoning) (sources_revision : option bytes) : presult unit :=
  if_some sources_revision (token "sources_revision") ;;
  token "base_kb.kb_id" (kb_id base) ;;
  token "base_kb.revision" (kb_revision base) ;;
  if_some ontology (λ o,
    token "ontology.id" (ontology_id o) ;;
    token "ontology.version" (ontology_version o)) ;;
  token "shapes.id" (shapes_id shapes) ;;
  token "shapes.version" (shapes_version shapes) ;;
  if_some reasoning (λ r,
    token "reasoning.profile" (profile r) ;;
    token "reasoning.implementation" (implementation r) ;;
    token "reasoning.version" (reasoning_version r)).

(** ** The environment *)
(** [SemanticEnvironment::validate] *)
Definition env_validate (e : SemanticEnvironment) : presult unit :=
  validate_semantics (se_base_kb e) (se_ontology e) (se_shapes e) (se_reasoning e)
    (se_sources_revision e) ;;
  token "validator.service_version" (validator_service_version e) ;;
  token "validator.configuration_version" (validator_configuration_version e).

(** [SemanticEnvironment::canonical_bytes] *)
Definition env_canonical_bytes (e : SemanticEnvironment) : presult bytes :=
  env_validate e ;;
  out ← field SEMANTIC_ENVIRONMENT_V1_HEADER (kb_id (se_base_kb e));
  out ← field out (kb_revision (se_base_kb e));
  out ← encode_ontology out (se_ontology e);
  out ← field out (shapes_id (se_shapes e));
  out ← field out (shapes_version (se_shapes e));
  out ← encode_reasoning out (se_reasoning e);
  out ← opt out (se_sources_revision e);
  out ← field out (validator_service_version e);
  out ← field out (validator_configuration_version e);
  Ok out.

(** [SemanticEnvironment::id] *)
Definition env_id `{Sha256} (e : SemanticEnvironment) : presult SemanticEnvironmentId :=
  bs ← env_canonical_bytes e; Ok (mkSemanticEnvironmentId (for_bytes bs)).

(** The reads of [SemanticEnvironment::from_canonical_bytes], in order. *)
Definition env_fields (c : Cursor) : presult (SemanticEnvironment * Cursor) :=
  '(id, c) ← cursor_field c "base_kb.kb_id";
  '(revision, c) ← cursor_field c "base_kb.revision";
  '(ontology, c) ← decode_ontology c;
  '(sid, c) ← cursor_field c "shapes.id";
  '(sversion, c) ← cursor_field c "shapes.version";
  '(reasoning, c) ← decode_reasoning c;
  '(sources, c) ← cursor_opt c "sources_revision";
  '(service, c) ← cursor_field c "validator.service_version";
  '(config, c) ← cursor_field c "validator.configuration_version";
  Ok (mkSemanticEnvironment (mkBaseKb id revision) ontology (mkShapeSet sid sversion)
        reasoning sources service config, c).

(** [SemanticEnvironment::from_canonical_bytes] *)
Definition env_from_canonical_bytes (bs : bytes) : presult SemanticEnvironment :=
  c ← cursor_new bs SEMANTIC_ENVIRONMENT_V1_HEADER "semantic environment";
  '(environment, c) ← env_fields c;
  cursor_finish c ;;
  env_validate environment ;;
  Ok environment.

(** [impl Deserialize for SemanticEnvironment]: the assembled value is validated. *)
Definition env_from_wire (w : SemanticEnvironment) : presult SemanticEnvironment :=
  env_validate w ;; Ok w.

(** ** The execution context *)
(** [SemanticExecutionContext::canonical_virtual_contexts] *)
Definition canonical_virtual_contexts (x : SemanticExecutionContext) : presult (list bytes) :=
  encoded ← collect vc_canonical_bytes (sc_virtual_contexts x);
  Ok (canonical_set encoded).

(** [SemanticExecutionContext::validate] *)
Definition ctx_validate (x : SemanticExecutionContext) : presult unit :=
  validate_semantics (sc_base_kb x) (sc_ontology x) (sc_shapes x) (sc_reasoning x)
    (sc_sources_revision x) ;;
  try_each vc_validate (sc_virtual_contexts x) ;;
  if negb (bool_decide (sc_virtual_contexts x = [])) &&
     bool_decide (sc_sources_revision x = None)
  then Err (Invalid (Prose "a context with virtual contexts requires sources_revision"))
  else
    contexts ← canonical_virtual_contexts x;
    if MAX_VIRTUAL_CONTEXTS <? length contexts then
      Err (Invalid (Prose "more than 64 distinct virtual contexts"))
    else validator_validate (sc_validator x).

(** [SemanticExecutionContext::environment], [environment_id] *)
Definition environment (x : SemanticExecutionContext) : SemanticEnvironment :=
  mkSemanticEnvironment (sc_base_kb x) (sc_ontology x) (sc_shapes x) (sc_reasoning x)
    (sc_sources_revision x) (service_version (sc_validator x))
    (configuration_version (sc_validator x)).

Definition environment_id `{Sha256} (x : SemanticExecutionContext) :
    presult SemanticEnvironmentId := env_id (environment x).

(** [SemanticExecutionContext::canonical_bytes] *)
Definition ctx_canonical_bytes (x : SemanticExecutionContext) : presult bytes :=
  ctx_validate x ;;
  out ← field SEMANTIC_CONTEXT_V1_HEADER (graph_str (sc_graph_id x));
  out ← field out (commit_id_str (sc_candidate_commit x));
  out ← field out (cid_str (sc_candidate_state_digest x));
  out ← field out (kb_id (sc_base_kb x));
  out ← field out (kb_revision (sc_base_kb x));
  out ← encode_ontology out (sc_ontology x);
  out ← field out (shapes_id (sc_shapes x));
  out ← field out (shapes_version (sc_shapes x));
  out ← encode_reasoning out (sc_reasoning x);
  out ← opt out (sc_sources_revision x);
  contexts ← canonical_virtual_contexts x;
  out ← u32be out (length contexts);
  let out := extend_all out contexts in
  out ← field out (service_id (sc_validator x));
  out ← field out (service_version (sc_validator x));
  out ← field out (configuration_version (sc_validator x));
  Ok out.

(** [SemanticExecutionContext::id] *)
Definition ctx_id `{Sha256} (x : SemanticExecutionContext) : presult SemanticContextId :=
  bs ← ctx_canonical_bytes x; Ok (mkSemanticContextId (for_bytes bs)).

(** The reads of [SemanticExecutionContext::from_canonical_bytes], in order. *)
Definition ctx_fields (c : Cursor) : presult (SemanticExecutionContext * Cursor) :=
  '(v, c) ← cursor_field c "graph_id";
  graph ← lift (graph_id_new v);
  '(v, c) ← cursor_field c "candidate_commit";
  commit ← lift (commit_id_from_str v);
  '(v, c) ← cursor_field c "candidate_state_digest";
  digest ← lift (content_id_from_str v);
  '(id, c) ← cursor_field c "base_kb.kb_id";
  '(revision, c) ← cursor_field c "base_kb.revision";
  '(ontology, c) ← decode_ontology c;
  '(sid, c) ← cursor_field c "shapes.id";
  '(sversion, c) ← cursor_field c "shapes.version";
  '(reasoning, c) ← decode_reasoning c;
  '(sources, c) ← cursor_opt c "sources_revision";
  '(contexts, c) ← cursor_set c "virtual contexts" MAX_VIRTUAL_CONTEXTS vc_decode
                     vc_canonical_bytes;
  '(vid, c) ← cursor_field c "validator.service_id";
  '(vservice, c) ← cursor_field c "validator.service_version";
  '(vconfig, c) ← cursor_field c "validator.configuration_version";
  Ok (mkSemanticExecutionContext graph commit digest (mkBaseKb id revision) ontology
        (mkShapeSet sid sversion) reasoning sources contexts
        (mkValidatorIdentity vid vservice vconfig), c).

(** [SemanticExecutionContext::from_canonical_bytes] *)
Definition ctx_from_canonical_bytes (bs : bytes) : presult SemanticExecutionContext :=
  c ← cursor_new bs SEMANTIC_CONTEXT_V1_HEADER "semantic context";
  '(context, c) ← ctx_fields c;
  cursor_finish c ;;
  ctx_validate context ;;
  Ok context.

(** [impl Deserialize for SemanticExecutionContext]: the assembled value is validated. *)
Definition ctx_from_wire (w : SemanticExecutionContext) : presult SemanticExecutionContext :=
  ctx_validate w ;; Ok w.

#[global] Arguments token : simpl never.
#[global] Arguments encode_ontology : simpl never.
#[global] Arguments encode_reasoning : simpl never.
#[global] Arguments encoded_object_refs : simpl never.
#[global] Arguments canonical_virtual_contexts : simpl never.
#[global] Arguments vc_validate : simpl never.
#[global] Arguments validate_semantics : simpl never.
#[global] Arguments vc_canonical_bytes : simpl never.
#[global] Arguments SEMANTIC_CONTEXT_V1_HEADER : simpl never.
#[global] Arguments SEMANTIC_ENVIRONMENT_V1_HEADER : simpl never.

(** ** Tokens and optional groups *)
Abbreviation tok := (token_ok MAX_IDENTIFIER_BYTES).

Lemma token_Ok name v u : token name v = Ok u ↔ tok v.
Proof. unfold token, lift. rewrite map_err_Ok. apply validate_token_Ok. Qed.

Lemma tok_fits v : tok v → fits_u32 v.
Proof. intros. by eapply token_ok_fits. Qed.

Lemma if_some_Ok {A} (o : option A) f (V : A → Prop) u :
  (∀ a u, f a = Ok u ↔ V a) → if_some o f = Ok u ↔ opt_all V o.
Proof. intros HV. destruct o; cbn; [apply HV|]. destruct u. naive_solver. Qed.

(** The [bool_prop] of checks: a chain of exact checks is the conjunction of what they check. *)
Lemma checks_Ok (r k : presult unit) (V W : Prop) u :
  (∀ u, r = Ok u ↔ V) → (∀ u, k = Ok u ↔ W) → rbind r (λ _, k) = Ok u ↔ V ∧ W.
Proof. intros HV HW. rewrite (check_bind_Ok _ _ V) by done. by rewrite HW. Qed.

Definition ontology_ok (o : Ontology) : Prop := tok (ontology_id o) ∧ tok (ontology_version o).
Definition reasoning_ok (r : Reasoning) : Prop :=
  tok (profile r) ∧ tok (implementation r) ∧ tok (reasoning_version r).
Definition ontology_utf8 (o : Ontology) : Prop := utf8 (ontology_id o) ∧ utf8 (ontology_version o).
Definition reasoning_utf8 (r : Reasoning) : Prop :=
  utf8 (profile r) ∧ utf8 (implementation r) ∧ utf8 (reasoning_version r).

Record semantics_ok (b : BaseKb) (o : option Ontology) (s : ShapeSet) (r : option Reasoning)
    (rev : option bytes) : Prop := {
  ok_sources : opt_all tok rev;
  ok_kb : tok (kb_id b) ∧ tok (kb_revision b);
  ok_ontology : opt_all ontology_ok o;
  ok_shapes : tok (shapes_id s) ∧ tok (shapes_version s);
  ok_reasoning : opt_all reasoning_ok r
}.

Record semantics_utf8 (b : BaseKb) (o : option Ontology) (s : ShapeSet) (r : option Reasoning)
    (rev : option bytes) : Prop := {
  utf8_sources : opt_all utf8 rev;
  utf8_kb : utf8 (kb_id b) ∧ utf8 (kb_revision b);
  utf8_ontology : opt_all ontology_utf8 o;
  utf8_shapes : utf8 (shapes_id s) ∧ utf8 (shapes_version s);
  utf8_reasoning : opt_all reasoning_utf8 r
}.

Ltac checks :=
  repeat (first [ apply token_Ok
                | apply if_some_Ok; intros ? ?
                | apply checks_Ok; intros ? ]).

Lemma validate_semantics_Ok b o s r rev u :
  validate_semantics b o s r rev = Ok u ↔ semantics_ok b o s r rev.
Proof.
  unfold validate_semantics. etrans; [checks|]. cbn. split.
  - intros (?&?&?&?&?&?&?). by split.
  - intros []. naive_solver.
Qed.

Definition validator_ok (v : ValidatorIdentity) : Prop :=
  tok (service_id v) ∧ tok (service_version v) ∧ tok (configuration_version v).
Definition validator_utf8 (v : ValidatorIdentity) : Prop :=
  utf8 (service_id v) ∧ utf8 (service_version v) ∧ utf8 (configuration_version v).

Lemma validator_validate_Ok v u : validator_validate v = Ok u ↔ validator_ok v.
Proof. unfold validator_validate. checks. Qed.

(** The wire form of the two tagged groups. *)
Definition wire_ontology (o : option Ontology) : bytes :=
  match o with
  | None => [TAG_ABSENT]
  | Some o => TAG_PRESENT :: wire_field (ontology_id o) ++ wire_field (ontology_version o)
  end.
Definition wire_reasoning (r : option Reasoning) : bytes :=
  match r with
  | None => [TAG_ABSENT]
  | Some r => TAG_PRESENT :: wire_field (profile r) ++ wire_field (implementation r) ++
                wire_field (reasoning_version r)
  end.
#[global] Arguments wire_ontology : simpl never.
#[global] Arguments wire_reasoning : simpl never.

Lemma writes_ontology o :
  writes (λ out, encode_ontology out o) (wire_ontology o)
    (opt_all (λ o, fits_u32 (ontology_id o) ∧ fits_u32 (ontology_version o)) o).
Proof.
  unfold encode_ontology, wire_ontology. destruct o as [o|]; cbn [opt_all].
  - eapply writes_ext; [solve_writes|done|]. by cbn [app].
  - intros out out'. split; [by intros [= <-]|by intros [_ ->]].
Qed.

Lemma writes_reasoning r :
  writes (λ out, encode_reasoning out r) (wire_reasoning r)
    (opt_all (λ r, fits_u32 (profile r) ∧ fits_u32 (implementation r) ∧
                   fits_u32 (reasoning_version r)) r).
Proof.
  unfold encode_reasoning, wire_reasoning. destruct r as [r|]; cbn [opt_all].
  - eapply writes_ext; [solve_writes|done|]. by cbn [app].
  - intros out out'. split; [by intros [= <-]|by intros [_ ->]].
Qed.
#[export] Hint Resolve writes_ontology writes_reasoning : writes.

(** A one-byte tag that selects between an absent and a present group. *)
Lemma reads_tagged {A} (p : Cursor → presult (A * Cursor)) e P name (err : byte → ProtocolError) :
  reads p e P →
  reads (λ c, '(tag, c) ← cursor_u8 c name;
              if bool_decide (tag = TAG_ABSENT) then Ok (None, c)
              else if bool_decide (tag = TAG_PRESENT) then '(a, c) ← p c; Ok (Some a, c)
              else Err (err tag))
    (λ o, match o with None => [TAG_ABSENT] | Some a => TAG_PRESENT :: e a end) (opt_all P).
Proof.
  intros Hp c o c'. split.
  - intros Hr. inv_res. destruct a as [tag c1]. apply reads_u8 in E as (_ & Hw & Hc).
    case_bool_decide; [subst; by inv_res|]. case_bool_decide; [|done]. subst. inv_res.
    destruct a as [v c2]. apply Hp in E as (Hv & Hw2 & Hc2). inv_res.
    split_and!; [done|congruence|]. by rewrite Hc, Hc2.
  - destruct o as [v|]; cbn [opt_all].
    + intros (Hv & Hw & Hc).
      rewrite (proj2 (reads_u8 _ c TAG_PRESENT (mkCursor (e v ++ cur_rest c') (cur_what c)))) by done.
      run_res. rewrite bool_decide_eq_false_2, bool_decide_eq_true_2 by done.
      by rewrite (proj2 (Hp _ v c')).
    + intros (_ & Hw & Hc). by rewrite (proj2 (reads_u8 _ c TAG_ABSENT c')).
Qed.

Lemma reads_eq {A} (p p' : Cursor → presult (A * Cursor)) e P :
  reads p' e P → (∀ c, p c = p' c) → reads p e P.
Proof. intros Hp Heq c a c'. rewrite Heq. apply Hp. Qed.

(** [then_field f]: the next step of a reader is a plain field, [f] of the final value;
    [end_fields] identifies the assembled value with the fields read. *)
Ltac end_fields :=
  cbn; split;
  [ intros; repeat match goal with H : _ ∧ _ |- _ => destruct H end; subst; reflexivity
  | let H := fresh in intros H; injection H; intros; subst; repeat split ].
Ltac then_field f := refine (reads_bind _ _ _ f _ _ _ _ (reads_field _) _); intros ?.

Lemma reads_ontology_fields :
  reads (λ c, '(id, c) ← cursor_field c "ontology.id";
              '(version, c) ← cursor_field c "ontology.version";
              Ok (mkOntology id version, c))
    (λ o, wire_field (ontology_id o) ++ wire_field (ontology_version o) ++ [])
    (λ o, (wire_ok (ontology_id o) ∧ wire_ok (ontology_version o) ∧ True) ∧ True).
Proof.
  then_field ontology_id. then_field ontology_version. apply reads_ret. intros []; end_fields.
Qed.

Lemma reads_ontology :
  reads decode_ontology wire_ontology
    (opt_all (λ o, wire_ok (ontology_id o) ∧ wire_ok (ontology_version o))).
Proof.
  eapply reads_eq; [eapply reads_ext; [apply (reads_tagged _ _ _ "ontology tag"
    (λ tag, Invalid (Prose ("unknown ontology tag " +:+ pretty (Byte.to_N tag))))
    reads_ontology_fields)|..]|].
  - intros [o|]; cbn [opt_all]; naive_solver.
  - intros [o|] _; unfold wire_ontology; [by rewrite app_nil_r|done].
  - intros c. unfold decode_ontology. destruct (cursor_u8 c _) as [[t c1]|?|?]; [|done..].
    run_res. do 2 (case_bool_decide; [try done|]); try done.
    destruct (cursor_field c1 _) as [[? c2]|?|?]; [|done..]. run_res.
    by destruct (cursor_field c2 _) as [[? ?]|?|?].
Qed.

Lemma reads_reasoning_fields :
  reads (λ c, '(p, c) ← cursor_field c "reasoning.profile";
              '(i, c) ← cursor_field c "reasoning.implementation";
              '(v, c) ← cursor_field c "reasoning.version";
              Ok (mkReasoning p i v, c))
    (λ r, wire_field (profile r) ++ wire_field (implementation r) ++
          wire_field (reasoning_version r) ++ [])
    (λ r, (wire_ok (profile r) ∧ wire_ok (implementation r) ∧
           wire_ok (reasoning_version r) ∧ True) ∧ True).
Proof.
  then_field profile. then_field implementation. then_field reasoning_version.
  apply reads_ret. intros []; end_fields.
Qed.

Lemma reads_reasoning :
  reads decode_reasoning wire_reasoning
    (opt_all (λ r, wire_ok (profile r) ∧ wire_ok (implementation r) ∧
                   wire_ok (reasoning_version r))).
Proof.
  eapply reads_eq; [eapply reads_ext; [apply (reads_tagged _ _ _ "reasoning tag"
    (λ tag, Invalid (Prose ("unknown reasoning tag " +:+ pretty (Byte.to_N tag))))
    reads_reasoning_fields)|..]|].
  - intros [r|]; cbn [opt_all]; naive_solver.
  - intros [r|] _; unfold wire_reasoning; [by rewrite app_nil_r|done].
  - intros c. unfold decode_reasoning. destruct (cursor_u8 c _) as [[t c1]|?|?]; [|done..].
    run_res. do 2 (case_bool_decide; [try done|]); try done.
    destruct (cursor_field c1 _) as [[? c2]|?|?]; [|done..]. run_res.
    destruct (cursor_field c2 _) as [[? c3]|?|?]; [|done..]. run_res.
    by destruct (cursor_field c3 _) as [[? ?]|?|?].
Qed.

(** ** The environment codec *)
Section environment_codec.
Implicit Types e : SemanticEnvironment.

Definition env_valid e : Prop :=
  semantics_ok (se_base_kb e) (se_ontology e) (se_shapes e) (se_reasoning e)
    (se_sources_revision e) ∧
  tok (validator_service_version e) ∧ tok (validator_configuration_version e).
(** The invariant of [String]: every text field is UTF-8. *)
Definition env_wf e : Prop :=
  semantics_utf8 (se_base_kb e) (se_ontology e) (se_shapes e) (se_reasoning e)
    (se_sources_revision e) ∧
  utf8 (validator_service_version e) ∧ utf8 (validator_configuration_version e).

Lemma env_validate_Ok e u : env_validate e = Ok u ↔ env_valid e.
Proof.
  unfold env_validate. repeat (apply checks_Ok; intros ?); [apply validate_semantics_Ok|apply token_Ok..].
Qed.

Definition semantics_body (b : BaseKb) (o : option Ontology) (s : ShapeSet)
    (r : option Reasoning) (rev : option bytes) (tail : bytes) : bytes :=
  wire_field (kb_id b) ++ wire_field (kb_revision b) ++ wire_ontology o ++
  wire_field (shapes_id s) ++ wire_field (shapes_version s) ++ wire_reasoning r ++
  wire_opt rev ++ tail.

Definition env_body e : bytes :=
  semantics_body (se_base_kb e) (se_ontology e) (se_shapes e) (se_reasoning e)
    (se_sources_revision e)
    (wire_field (validator_service_version e) ++
     wire_field (validator_configuration_version e) ++ []).

(** Valid semantics fit their length prefixes. *)
Lemma semantics_fit b o s r rev : semantics_ok b o s r rev →
  fits_u32 (kb_id b) ∧ fits_u32 (kb_revision b) ∧
  opt_all (λ o, fits_u32 (ontology_id o) ∧ fits_u32 (ontology_version o)) o ∧
  fits_u32 (shapes_id s) ∧ fits_u32 (shapes_version s) ∧
  opt_all (λ r, fits_u32 (profile r) ∧ fits_u32 (implementation r) ∧
                fits_u32 (reasoning_version r)) r ∧
  opt_all (λ v, fits_u32 v ∧ v ≠ []) rev.
Proof.
  intros [Hrev [? ?] Ho [? ?] Hr]. split_and!; try (by apply tok_fits).
  - eapply opt_all_weaken; [|exact Ho]. intros x [? ?]. split; by apply tok_fits.
  - eapply opt_all_weaken; [|exact Hr]. intros x (? & ? & ?). split_and!; by apply tok_fits.
  - by apply (opt_token_fits MAX_IDENTIFIER_BYTES).
Qed.

(** What the decoder reads of the shared fields is what [validate] and UTF-8 leave open. *)
Definition semantics_read (b : BaseKb) (o : option Ontology) (s : ShapeSet)
    (r : option Reasoning) (rev : option bytes) (Q : Prop) : Prop :=
  wire_ok (kb_id b) ∧ wire_ok (kb_revision b) ∧
  opt_all (λ o, wire_ok (ontology_id o) ∧ wire_ok (ontology_version o)) o ∧
  wire_ok (shapes_id s) ∧ wire_ok (shapes_version s) ∧
  opt_all (λ r, wire_ok (profile r) ∧ wire_ok (implementation r) ∧
                wire_ok (reasoning_version r)) r ∧
  opt_all opt_field_ok rev ∧ Q.

Lemma semantics_read_iff b o s r rev Q : semantics_ok b o s r rev →
  semantics_read b o s r rev Q ↔ semantics_utf8 b o s r rev ∧ Q.
Proof.
  intros Hok. destruct (semantics_fit b o s r rev Hok) as (F1 & F2 & F3 & F4 & F5 & F6 & F7).
  unfold semantics_read, opt_field_ok, wire_ok. split.
  - intros ([_ ?] & [_ ?] & H3 & [_ ?] & [_ ?] & H6 & H7 & ?). split; [|done].
    split; [|done| |done|]; destruct o, r, rev; cbn in *; unfold ontology_utf8, reasoning_utf8; naive_solver.
  - intros [[U7 [U1 U2] U3 [U4 U5] U6] ?]. split_and!; try done;
      destruct o, r, rev; cbn in *; unfold ontology_utf8, reasoning_utf8 in *; naive_solver.
Qed.

Lemma env_canonical_bytes_Ok e bs :
  env_canonical_bytes e = Ok bs ↔
    env_valid e ∧ bs = SEMANTIC_ENVIRONMENT_V1_HEADER ++ env_body e.
Proof.
  unfold env_canonical_bytes. apply check_then_Ok; [apply env_validate_Ok|].
  intros [Hs [Hsv%tok_fits Hcv%tok_fits]]. by_writes SEMANTIC_ENVIRONMENT_V1_HEADER.
  unfold env_body, semantics_body. rewrite <-?app_assoc.
  pose proof (semantics_fit _ _ _ _ _ Hs). tauto.
Qed.

Lemma reads_env :
  reads env_fields env_body (λ e,
    semantics_read (se_base_kb e) (se_ontology e) (se_shapes e) (se_reasoning e)
      (se_sources_revision e)
      (wire_ok (validator_service_version e) ∧
       wire_ok (validator_configuration_version e) ∧ True) ∧ True).
Proof.
  unfold env_fields, env_body, semantics_body, semantics_read.
  then_field (λ e, kb_id (se_base_kb e)). then_field (λ e, kb_revision (se_base_kb e)).
  refine (reads_bind _ _ _ se_ontology _ _ _ _ reads_ontology _); intros ?.
  then_field (λ e, shapes_id (se_shapes e)). then_field (λ e, shapes_version (se_shapes e)).
  refine (reads_bind _ _ _ se_reasoning _ _ _ _ reads_reasoning _); intros ?.
  refine (reads_bind _ _ _ se_sources_revision _ _ _ _ (reads_opt _) _); intros ?.
  then_field validator_service_version. then_field validator_configuration_version.
  apply reads_ret. intros [[] ? [] ? ? ? ?]; end_fields.
Qed.

Lemma env_exact bs e :
  env_from_canonical_bytes bs = Ok e ↔ env_wf e ∧ env_canonical_bytes e = Ok bs.
Proof.
  unfold env_from_canonical_bytes.
  rewrite (reads_decoder _ _ _ _ _ _ _ bs e reads_env (λ e u _, env_validate_Ok e u)), env_canonical_bytes_Ok.
  unfold env_wf, wire_ok, env_valid. split.
  - intros ([Hr _] & [Hs Ht] & ->). rewrite semantics_read_iff in Hr by done.
    unfold utf8. tauto.
  - intros (Hu & [Hs [Hsv Hcv]] & ->). rewrite semantics_read_iff by done.
    pose proof (tok_fits _ Hsv). pose proof (tok_fits _ Hcv). unfold utf8 in *. tauto.
Qed.
End environment_codec.

(** ** The virtual-context codec *)
Section virtual_context_codec.
Implicit Types v : VirtualContextRef.

Record vc_wf v : Prop := {
  vc_wf_dataset : utf8 (dataset_id v);
  vc_wf_source : utf8 (source_version v);
  vc_wf_refs : Forall utf8 (object_refs v);
  vc_wf_query : cid_wf (query_spec_digest v);
  vc_wf_plan : cid_wf (hydration_plan_digest v)
}.

(** The object references as a canonical set of encodings. *)
Definition ref_set v : list bytes := canonical_set (wire_field <$> object_refs v).

Record vc_valid v : Prop := {
  vc_ok_dataset : tok (dataset_id v);
  vc_ok_source : tok (source_version v);
  vc_ok_refs : Forall tok (object_refs v);
  vc_ok_count : length (ref_set v) ≤ MAX_OBJECT_REFS
}.

(** The form the decoder returns: references sorted by their encoding, unique. *)
Definition vc_canonical v : Prop := ascending (wire_field <$> object_refs v).

Lemma encoded_field_fits s : fits_u32 s → encoded_field s = Ok (wire_field s).
Proof. intros. unfold encoded_field. by apply (writes_field s []). Qed.

Lemma encoded_object_refs_fits v :
  Forall fits_u32 (object_refs v) → encoded_object_refs v = Ok (ref_set v).
Proof.
  intros Hf. unfold encoded_object_refs.
  rewrite (proj2 (collect_Ok encoded_field (object_refs v) (wire_field <$> object_refs v))); [done|].
  apply Forall2_fmap_r, Forall_Forall2_diag.
  eapply Forall_weaken; [exact Hf|]. apply encoded_field_fits.
Qed.

Lemma vc_validate_Ok v u : vc_validate v = Ok u ↔ vc_valid v.
Proof.
  unfold vc_validate. destruct u. split.
  - intros Hv. inv_res. apply token_Ok in E, E0. apply try_each_Ok in E1.
    assert (Forall tok (object_refs v)) as Ht.
    { eapply Forall_weaken; [exact E1|]. by intros x ?%token_Ok. }
    rewrite encoded_object_refs_fits in E2 by (eapply Forall_weaken; [exact Ht|apply tok_fits]).
    injection E2 as <-. destruct (Nat.ltb_spec MAX_OBJECT_REFS (length (ref_set v))); [done|].
    by split.
  - intros [Hd Hs Hr Hc]. rewrite (proj2 (token_Ok _ _ tt)) by done. run_res.
    rewrite (proj2 (token_Ok _ _ tt)) by done. run_res.
    rewrite (proj2 (try_each_Ok _ _ tt)).
    2: { eapply Forall_weaken; [exact Hr|]. intros x ?. by apply token_Ok. }
    run_res. rewrite encoded_object_refs_fits by (eapply Forall_weaken; [exact Hr|apply tok_fits]).
    run_res. by rewrite (proj2 (Nat.ltb_ge _ _)).
Qed.

(** The canonical element encoding. *)
Definition vc_body v : bytes :=
  wire_field (dataset_id v) ++ wire_field (source_version v) ++
  u32_to_be_bytes (Z.of_nat (length (ref_set v))) ++ concat (ref_set v) ++
  wire_field (cid_str (query_spec_digest v)) ++
  wire_field (cid_str (hydration_plan_digest v)) ++ [].

Lemma count_fits n max : n ≤ max → (Z.of_nat max ≤ u32_max)%Z → (Z.of_nat n ≤ u32_max)%Z.
Proof. lia. Qed.

Lemma vc_canonical_bytes_Ok v bs : vc_wf v →
  vc_canonical_bytes v = Ok bs ↔ vc_valid v ∧ bs = vc_body v.
Proof.
  intros [_ _ _ [Hq _]%cid_wf_wire_ok [Hp _]%cid_wf_wire_ok]. unfold vc_canonical_bytes.
  apply check_then_Ok; [apply vc_validate_Ok|]. intros [Hd%tok_fits Hs%tok_fits Hr Hc].
  rewrite encoded_object_refs_fits by (eapply Forall_weaken; [exact Hr|apply tok_fits]).
  run_res. by_writes (@nil byte). cbn [app]. unfold vc_body. rewrite <-?app_assoc.
  pose proof (count_fits _ _ Hc). assert (Z.of_nat MAX_OBJECT_REFS ≤ u32_max)%Z by done. tauto.
Qed.

(** A canonical reference is encoded as it stands. *)
Lemma ref_set_canonical v : vc_canonical v → ref_set v = wire_field <$> object_refs v.
Proof. intros Hc. unfold ref_set. by rewrite canonical_set_collect, bts_collect_id. Qed.

Lemma reads_vc_fields :
  reads vc_fields
    (λ v, wire_field (dataset_id v) ++ wire_field (source_version v) ++
          set_bytes wire_field (object_refs v) ++ wire_field (cid_str (query_spec_digest v)) ++
          wire_field (cid_str (hydration_plan_digest v)) ++ [])
    (λ v, (wire_ok (dataset_id v) ∧ wire_ok (source_version v) ∧
           (length (object_refs v) ≤ MAX_OBJECT_REFS ∧ Forall wire_ok (object_refs v) ∧
            ascending (wire_field <$> object_refs v)) ∧
           (wire_ok (cid_str (query_spec_digest v)) ∧ cid_wf (query_spec_digest v)) ∧
           (wire_ok (cid_str (hydration_plan_digest v)) ∧ cid_wf (hydration_plan_digest v)) ∧
           True) ∧ True).
Proof.
  unfold vc_fields. then_field dataset_id. then_field source_version.
  refine (reads_bind _ _ _ object_refs _ _ _ _ (reads_set _ _ _ _ _ _ (reads_field _) _ _) _);
    [intros x [Hx _]; by apply encoded_field_fits|done|intros ?].
  refine (reads_parse _ _ _ _ _ _ query_spec_digest _ _ _ _ (reads_field _) content_id_exact _); intros ?.
  refine (reads_parse _ _ _ _ _ _ hydration_plan_digest _ _ _ _ (reads_field _) content_id_exact _); intros ?.
  apply reads_ret. intros []; end_fields.
Qed.

(** [VirtualContextRef::decode] reads exactly the canonical encodings of valid references. *)
Lemma reads_vc :
  reads vc_decode vc_body (λ v, vc_wf v ∧ vc_canonical v ∧ vc_valid v).
Proof.
  eapply reads_ext; [apply (reads_check _ _ _ _ _ reads_vc_fields vc_validate_Ok)|..].
  - intros v. unfold wire_ok. split.
    + intros [[([_ ?] & [_ ?] & (_ & Hr & ?) & [_ ?] & [_ ?] & _) _] Hv].
      split; [|done]. split; try done. eapply Forall_weaken; [exact Hr|]. by intros x [_ ?].
    + intros ([Hd Hs Hr Hq Hp] & Hc & Hv). split; [|done]. pose proof Hv as [Vd Vs Vr Vc].
      apply tok_fits in Vd, Vs. rewrite ref_set_canonical in Vc by done.
      rewrite length_fmap in Vc. apply cid_wf_wire_ok in Hq as Wq, Hp as Wp.
      assert (Forall (λ s, fits_u32 s ∧ utf8_valid s = true) (object_refs v)).
      { rewrite Forall_forall in Vr, Hr |- *. intros x Hx. split; [by apply tok_fits, Vr|by apply Hr]. }
      unfold utf8, wire_ok in *. tauto.
  - intros v (_ & Hc & _). unfold vc_body, set_bytes. rewrite ref_set_canonical by done.
    by rewrite length_fmap, <-!app_assoc.
Qed.
End virtual_context_codec.

(** ** The context codec *)
Section context_codec.
Implicit Types x : SemanticExecutionContext.

Record ctx_wf x : Prop := {
  sc_wf_graph : graph_id_wf (sc_graph_id x);
  sc_wf_commit : commit_id_wf (sc_candidate_commit x);
  sc_wf_digest : cid_wf (sc_candidate_state_digest x);
  sc_wf_semantics : semantics_utf8 (sc_base_kb x) (sc_ontology x) (sc_shapes x)
                      (sc_reasoning x) (sc_sources_revision x);
  sc_wf_contexts : Forall vc_wf (sc_virtual_contexts x);
  sc_wf_validator : validator_utf8 (sc_validator x)
}.

(** The virtual contexts as a canonical set of element encodings. *)
Definition context_set x : list bytes := canonical_set (vc_body <$> sc_virtual_contexts x).

Record ctx_valid x : Prop := {
  sc_ok_semantics : semantics_ok (sc_base_kb x) (sc_ontology x) (sc_shapes x)
                      (sc_reasoning x) (sc_sources_revision x);
  sc_ok_contexts : Forall vc_valid (sc_virtual_contexts x);
  sc_ok_sources : sc_virtual_contexts x = [] ∨ is_Some (sc_sources_revision x);
  sc_ok_count : length (context_set x) ≤ MAX_VIRTUAL_CONTEXTS;
  sc_ok_validator : validator_ok (sc_validator x)
}.

(** The form the decoder returns: every set sorted by its encodings, unique. *)
Definition ctx_canonical x : Prop :=
  Forall vc_canonical (sc_virtual_contexts x) ∧ ascending (vc_body <$> sc_virtual_contexts x).

Lemma canonical_virtual_contexts_ok x :
  Forall vc_wf (sc_virtual_contexts x) → Forall vc_valid (sc_virtual_contexts x) →
  canonical_virtual_contexts x = Ok (context_set x).
Proof.
  intros Hwf Hv. unfold canonical_virtual_contexts.
  rewrite (proj2 (collect_Ok vc_canonical_bytes (sc_virtual_contexts x)
                    (vc_body <$> sc_virtual_contexts x))); [done|].
  apply Forall2_fmap_r, Forall_Forall2_diag. rewrite Forall_forall in Hwf, Hv |- *.
  intros v Hin. apply vc_canonical_bytes_Ok; auto.
Qed.

Lemma ctx_validate_Ok x u :
  Forall vc_wf (sc_virtual_contexts x) → ctx_validate x = Ok u ↔ ctx_valid x.
Proof.
  intros Hwf. unfold ctx_validate. destruct u. split.
  - intros Hv. inv_res. apply validate_semantics_Ok in E. apply try_each_Ok in E0.
    assert (Forall vc_valid (sc_virtual_contexts x)) as Hvc.
    { eapply Forall_weaken; [exact E0|]. by intros v ?%vc_validate_Ok. }
    destruct (negb _ && _) eqn:Hs; [done|]. rewrite canonical_virtual_contexts_ok in Hv by done.
    cbn [rbind] in Hv. destruct (Nat.ltb_spec MAX_VIRTUAL_CONTEXTS (length (context_set x))); [done|].
    apply validator_validate_Ok in Hv. split; try done.
    destruct (sc_sources_revision x); [right; by eexists|left].
    apply andb_false_iff in Hs as [Hs|Hs]; bool_prop; done.
  - intros [Hs Hvc Hsrc Hc Hval]. rewrite (proj2 (validate_semantics_Ok _ _ _ _ _ tt)) by done.
    run_res. rewrite (proj2 (try_each_Ok _ _ tt)).
    2: { eapply Forall_weaken; [exact Hvc|]. intros v ?. by apply vc_validate_Ok. }
    run_res. replace (negb _ && _) with false.
    2: { symmetry. apply andb_false_iff. destruct Hsrc as [->|[r ->]]; [by left|by right]. }
    rewrite canonical_virtual_contexts_ok by done. run_res.
    rewrite (proj2 (Nat.ltb_ge _ _)) by done. by apply validator_validate_Ok.
Qed.

Definition ctx_body x : bytes :=
  wire_field (graph_str (sc_graph_id x)) ++
  wire_field (commit_id_str (sc_candidate_commit x)) ++
  wire_field (cid_str (sc_candidate_state_digest x)) ++
  semantics_body (sc_base_kb x) (sc_ontology x) (sc_shapes x) (sc_reasoning x)
    (sc_sources_revision x)
    (u32_to_be_bytes (Z.of_nat (length (context_set x))) ++ concat (context_set x) ++
     wire_field (service_id (sc_validator x)) ++
     wire_field (service_version (sc_validator x)) ++
     wire_field (configuration_version (sc_validator x)) ++ []).

Lemma ctx_canonical_bytes_Ok x bs : ctx_wf x →
  ctx_canonical_bytes x = Ok bs ↔ ctx_valid x ∧ bs = SEMANTIC_CONTEXT_V1_HEADER ++ ctx_body x.
Proof.
  intros [[Wg _]%graph_wire_ok [Wc _]%cid_wf_wire_ok [Wd _]%cid_wf_wire_ok _ Wv _].
  unfold ctx_canonical_bytes. apply check_then_Ok; [intros u; by apply ctx_validate_Ok|].
  intros [Hs Hvc Hsrc Hc (V1%tok_fits & V2%tok_fits & V3%tok_fits)].
  rewrite canonical_virtual_contexts_ok by done. run_res.
  by_writes SEMANTIC_CONTEXT_V1_HEADER. unfold ctx_body, semantics_body. rewrite <-?app_assoc.
  pose proof (semantics_fit _ _ _ _ _ Hs).
  assert (Z.of_nat (length (context_set x)) ≤ u32_max)%Z by (by eapply count_fits).
  unfold commit_id_str. tauto.
Qed.

(** Each element the decoder reads is encoded again to the bytes it was read from. *)
Lemma reads_contexts :
  reads (λ c, cursor_set c "virtual contexts" MAX_VIRTUAL_CONTEXTS vc_decode vc_canonical_bytes)
    (set_bytes vc_body)
    (λ l, length l ≤ MAX_VIRTUAL_CONTEXTS ∧
          Forall (λ v, vc_wf v ∧ vc_canonical v ∧ vc_valid v) l ∧ ascending (vc_body <$> l)).
Proof.
  apply reads_set; [apply reads_vc| |done].
  intros v (Hwf & _ & Hv). by apply vc_canonical_bytes_Ok.
Qed.

Lemma reads_ctx_fields :
  reads ctx_fields
    (λ x, wire_field (graph_str (sc_graph_id x)) ++
          wire_field (commit_id_str (sc_candidate_commit x)) ++
          wire_field (cid_str (sc_candidate_state_digest x)) ++
          semantics_body (sc_base_kb x) (sc_ontology x) (sc_shapes x) (sc_reasoning x)
            (sc_sources_revision x)
            (set_bytes vc_body (sc_virtual_contexts x) ++
             wire_field (service_id (sc_validator x)) ++
             wire_field (service_version (sc_validator x)) ++
             wire_field (configuration_version (sc_validator x)) ++ []))
    (λ x, ((wire_ok (graph_str (sc_graph_id x)) ∧ graph_id_wf (sc_graph_id x)) ∧
           (wire_ok (commit_id_str (sc_candidate_commit x)) ∧
            commit_id_wf (sc_candidate_commit x)) ∧
           (wire_ok (cid_str (sc_candidate_state_digest x)) ∧
            cid_wf (sc_candidate_state_digest x)) ∧
           semantics_read (sc_base_kb x) (sc_ontology x) (sc_shapes x) (sc_reasoning x)
             (sc_sources_revision x)
             ((length (sc_virtual_contexts x) ≤ MAX_VIRTUAL_CONTEXTS ∧
               Forall (λ v, vc_wf v ∧ vc_canonical v ∧ vc_valid v) (sc_virtual_contexts x) ∧
               ascending (vc_body <$> sc_virtual_contexts x)) ∧
              wire_ok (service_id (sc_validator x)) ∧
              wire_ok (service_version (sc_validator x)) ∧
              wire_ok (configuration_version (sc_validator x)) ∧ True)) ∧ True).
Proof.
  unfold ctx_fields, semantics_body, semantics_read.
  refine (reads_parse _ _ _ _ _ _ sc_graph_id _ _ _ _ (reads_field _) graph_id_new_Ok _); intros ?.
  refine (reads_parse _ _ _ _ _ _ sc_candidate_commit _ _ _ _ (reads_field _) commit_id_from_str_Ok _); intros ?.
  refine (reads_parse _ _ _ _ _ _ sc_candidate_state_digest _ _ _ _ (reads_field _) content_id_exact _); intros ?.
  then_field (λ x, kb_id (sc_base_kb x)). then_field (λ x, kb_revision (sc_base_kb x)).
  refine (reads_bind _ _ _ sc_ontology _ _ _ _ reads_ontology _); intros ?.
  then_field (λ x, shapes_id (sc_shapes x)). then_field (λ x, shapes_version (sc_shapes x)).
  refine (reads_bind _ _ _ sc_reasoning _ _ _ _ reads_reasoning _); intros ?.
  refine (reads_bind _ _ _ sc_sources_revision _ _ _ _ (reads_opt _) _); intros ?.
  refine (reads_bind _ _ _ sc_virtual_contexts _ _ _ _ reads_contexts _); intros ?.
  then_field (λ x, service_id (sc_validator x)). then_field (λ x, service_version (sc_validator x)).
  then_field (λ x, configuration_version (sc_validator x)).
  apply reads_ret. intros [? ? ? [] ? [] ? ? ? []]; end_fields.
Qed.

Lemma context_set_canonical x :
  ascending (vc_body <$> sc_virtual_contexts x) →
  context_set x = vc_body <$> sc_virtual_contexts x.
Proof. intros. unfold context_set. by rewrite canonical_set_collect, bts_collect_id. Qed.

Lemma ctx_exact bs x :
  ctx_from_canonical_bytes bs = Ok x ↔
    ctx_wf x ∧ ctx_canonical x ∧ ctx_canonical_bytes x = Ok bs.
Proof.
  unfold ctx_from_canonical_bytes.
  rewrite (reads_decoder _ _ _ _ ctx_valid _ _ bs x reads_ctx_fields).
  2: { intros y u [(_ & _ & _ & (_&_&_&_&_&_&_& (_ & Hf & _) & _)) _]. apply ctx_validate_Ok.
       eapply Forall_weaken; [exact Hf|]. by intros v (? & _). }
  split.
  - intros ([((_ & ?) & (_ & ?) & (_ & ?) & Hr) _] & Hv & ->).
    rewrite semantics_read_iff in Hr by apply Hv.
    destruct Hr as (Hu & (_ & Hf & Ha) & [_ U1] & [_ U2] & [_ U3] & _).
    assert (ctx_wf x) as Hwf.
    { split; try done. eapply Forall_weaken; [exact Hf|]. by intros v (? & _). }
    split; [done|]. split.
    { split; [|done]. eapply Forall_weaken; [exact Hf|]. by intros v (_ & ? & _). }
    apply ctx_canonical_bytes_Ok; [done|]. split; [done|]. unfold ctx_body.
    rewrite context_set_canonical by done. unfold set_bytes. by rewrite length_fmap, <-!app_assoc.
  - intros (Hwf & [Hc Ha] & Hb). rewrite ctx_canonical_bytes_Ok in Hb by done.
    destruct Hb as [Hv ->]. pose proof Hwf as [Wg Wc Wd Wu Wv (U1 & U2 & U3)].
    pose proof Hv as [Vs Vc _ Vn (T1%tok_fits & T2%tok_fits & T3%tok_fits)].
    split; [split; [|done]|split; [done|]].
    + split_and!; [by apply graph_wire_ok|done|by apply cid_wf_wire_ok|done|by apply cid_wf_wire_ok|done|].
      apply semantics_read_iff; [done|]. split; [done|].
      rewrite context_set_canonical, length_fmap in Vn by done.
      split; [split_and!; [done| |done]|by split_and!].
      rewrite Forall_forall in Wv, Vc, Hc |- *. auto.
    + unfold ctx_body. rewrite context_set_canonical by done. unfold set_bytes.
      by rewrite length_fmap, <-!app_assoc.
Qed.
End context_codec.

(** ** Sets never reach an identity *)
Section sets.
Implicit Types (v w : VirtualContextRef) (x y : SemanticExecutionContext).

(** Field encodings compare like [canonical_object_refs] does: by length, then bytewise. *)
Lemma cmp_wire_field (a b : bytes) : fits_u32 a → fits_u32 b →
  cmp (wire_field a) (wire_field b) = @cmp bytes ref_ord a b.
Proof.
  intros Ha Hb. unfold fits_u32 in *. unfold wire_field.
  rewrite cmp_app_length, cmp_u32_be by (done || lia). done.
Qed.

Lemma canonical_object_refs_set v : Forall fits_u32 (object_refs v) →
  wire_field <$> canonical_object_refs v = ref_set v.
Proof.
  intros Hf. unfold canonical_object_refs, ref_set.
  rewrite (@sort_dedup_collect bytes ref_ord), canonical_set_collect.
  apply (@fmap_bts_collect bytes bytes ref_ord list_ord). rewrite Forall_forall in Hf.
  intros a b Ha Hb. apply cmp_wire_field; auto.
Qed.

Lemma elem_of_canonical_object_refs v r : r ∈ canonical_object_refs v ↔ r ∈ object_refs v.
Proof.
  unfold canonical_object_refs. rewrite (@sort_dedup_collect bytes ref_ord).
  apply (@elem_of_bts_collect bytes ref_ord).
Qed.

(** Equal up to the order and multiplicity of the object references. *)
Definition vc_equiv v w : Prop :=
  dataset_id v = dataset_id w ∧ source_version v = source_version w ∧
  query_spec_digest v = query_spec_digest w ∧
  hydration_plan_digest v = hydration_plan_digest w ∧
  ∀ r, r ∈ object_refs v ↔ r ∈ object_refs w.

#[export] Instance vc_equiv_equivalence : Equivalence vc_equiv.
Proof.
  split.
  - intros v. by split_and!.
  - intros v w (?&?&?&?&Hr). split_and!; [done..|]. intros r. by rewrite Hr.
  - intros v w u (?&?&?&?&Hr) (?&?&?&?&Hr'). split_and!; [congruence..|].
    intros r. by rewrite Hr.
Qed.

Lemma vc_equiv_body v w : vc_equiv v w → ref_set v = ref_set w ∧ vc_body v = vc_body w.
Proof.
  intros (Hd & Hs & Hq & Hp & Hr).
  assert (ref_set v = ref_set w) as Heq.
  { unfold ref_set. rewrite !canonical_set_collect. apply bts_collect_ext.
    intros s. rewrite !list_elem_of_fmap. by setoid_rewrite Hr. }
  split; [done|]. unfold vc_body. by rewrite Hd, Hs, Hq, Hp, Heq.
Qed.

Lemma vc_equiv_valid v w : vc_equiv v w → vc_wf v → vc_valid v → vc_wf w ∧ vc_valid w.
Proof.
  intros Heq [U1 U2 U3 U4 U5] [V1 V2 V3 V4]. pose proof (vc_equiv_body _ _ Heq) as [Hset _].
  destruct Heq as (Hd & Hs & Hq & Hp & Hr). rewrite Forall_forall in U3, V3. split.
  - split; try congruence. apply Forall_forall. intros r. rewrite <-Hr. apply U3.
  - split; try congruence. apply Forall_forall. intros r. rewrite <-Hr. apply V3.
Qed.

(** The representative the decoder returns. *)
Definition vc_rep v : VirtualContextRef :=
  mkVirtualContextRef (dataset_id v) (source_version v) (canonical_object_refs v)
    (query_spec_digest v) (hydration_plan_digest v).

Lemma vc_rep_equiv v : vc_equiv v (vc_rep v).
Proof. split_and!; try done. intros r. symmetry. apply elem_of_canonical_object_refs. Qed.

Lemma vc_rep_canonical v : vc_valid v → vc_canonical (vc_rep v).
Proof.
  intros Hv. unfold vc_canonical. cbn [vc_rep object_refs].
  rewrite canonical_object_refs_set.
  - unfold ref_set. rewrite canonical_set_collect. apply bts_collect_ascending.
  - eapply Forall_weaken; [apply Hv|apply tok_fits].
Qed.

Lemma vc_rep_ok v : vc_wf v → vc_valid v →
  vc_wf (vc_rep v) ∧ vc_canonical (vc_rep v) ∧ vc_valid (vc_rep v) ∧ vc_body (vc_rep v) = vc_body v.
Proof.
  intros Hwf Hv. destruct (vc_equiv_valid _ _ (vc_rep_equiv v) Hwf Hv).
  destruct (vc_equiv_body _ _ (vc_rep_equiv v)). split_and!; try done. by apply vc_rep_canonical.
Qed.

(** Valid references with the same element encoding are the same up to set order. *)
Lemma vc_body_equiv v w :
  vc_wf v → vc_valid v → vc_wf w → vc_valid w → vc_body v = vc_body w → vc_equiv v w.
Proof.
  intros Hwf Hv Hwf' Hv' Hbody.
  destruct (vc_rep_ok v Hwf Hv) as (A1 & A2 & A3 & A4).
  destruct (vc_rep_ok w Hwf' Hv') as (B1 & B2 & B3 & B4).
  assert (vc_decode (mkCursor (vc_body v ++ []) EmptyString) = Ok (vc_rep v, mkCursor [] EmptyString)) as D1.
  { apply reads_vc. by rewrite A4. }
  assert (vc_decode (mkCursor (vc_body v ++ []) EmptyString) = Ok (vc_rep w, mkCursor [] EmptyString)) as D2.
  { apply reads_vc. by rewrite B4, Hbody. }
  rewrite D1 in D2. assert (vc_rep v = vc_rep w) as Hrep by congruence.
  etrans; [apply vc_rep_equiv|]. rewrite Hrep. symmetry. apply vc_rep_equiv.
Qed.
End sets.

(** Contexts that differ only in how their sets are written down. *)
Section context_sets.
Implicit Types (v w : VirtualContextRef) (l k : list VirtualContextRef)
  (x y : SemanticExecutionContext).

Definition vcs_equiv l k : Prop :=
  (∀ v, v ∈ l → ∃ w, w ∈ k ∧ vc_equiv v w) ∧ (∀ w, w ∈ k → ∃ v, v ∈ l ∧ vc_equiv v w).

Definition with_contexts x l : SemanticExecutionContext :=
  mkSemanticExecutionContext (sc_graph_id x) (sc_candidate_commit x)
    (sc_candidate_state_digest x) (sc_base_kb x) (sc_ontology x) (sc_shapes x)
    (sc_reasoning x) (sc_sources_revision x) l (sc_validator x).

Definition ctx_equiv x y : Prop :=
  y = with_contexts x (sc_virtual_contexts y) ∧
  vcs_equiv (sc_virtual_contexts x) (sc_virtual_contexts y).

#[export] Instance vcs_equiv_equivalence : Equivalence vcs_equiv.
Proof.
  split.
  - intros l. split; intros v Hv; by exists v.
  - intros l k [H1 H2]. split.
    + intros v (w & ? & ?)%H2. by exists w.
    + intros w (v & ? & ?)%H1. by exists v.
  - intros l k j [H1 H2] [H3 H4]. split.
    + intros v (w & (u & ? & ?)%H3 & ?)%H1. exists u. split; [done|]. by etrans.
    + intros u (w & (v & ? & ?)%H2 & ?)%H4. exists v. split; [done|]. by etrans.
Qed.

#[export] Instance ctx_equiv_equivalence : Equivalence ctx_equiv.
Proof.
  split.
  - intros []. by split; [|reflexivity].
  - intros x y [-> Hv]. cbn in *. split; [by destruct x|]. by symmetry.
  - intros x y z [-> Hv] [-> Hv']. cbn in *. split; [done|]. by etrans.
Qed.

Lemma vcs_equiv_set l k : vcs_equiv l k →
  canonical_set (vc_body <$> l) = canonical_set (vc_body <$> k).
Proof.
  intros [H1 H2]. rewrite !canonical_set_collect. apply bts_collect_ext. intros s.
  rewrite !list_elem_of_fmap. split.
  - intros (v & -> & (w & Hw & [_ Hb]%vc_equiv_body)%H1). by exists w.
  - intros (w & -> & (v & Hv & [_ Hb]%vc_equiv_body)%H2). by exists v.
Qed.

Lemma ctx_equiv_same x y : ctx_equiv x y → ctx_wf x → ctx_valid x →
  ctx_wf y ∧ ctx_valid y ∧ ctx_body y = ctx_body x.
Proof.
  intros [-> Hv] [U1 U2 U3 U4 U5 U6] [V1 V2 V3 V4 V5].
  set (k := sc_virtual_contexts y) in *. cbn [sc_virtual_contexts with_contexts] in Hv.
  pose proof (vcs_equiv_set _ _ Hv) as Hset.
  assert (Forall (λ w, vc_wf w ∧ vc_valid w) k) as Hk.
  { apply Forall_forall. intros w Hw. destruct Hv as [_ H2]. destruct (H2 w Hw) as (v & Hin & Heq).
    rewrite Forall_forall in U5, V2. by apply (vc_equiv_valid v w); auto. }
  split; [|split].
  - split; try done. eapply Forall_weaken; [exact Hk|]. by intros w [? _].
  - split; try done.
    + eapply Forall_weaken; [exact Hk|]. by intros w [_ ?].
    + destruct V3 as [Hnil|?]; [left|by right]. destruct Hv as [_ H2]. rewrite Hnil in H2.
      cbn [sc_virtual_contexts with_contexts]. destruct k as [|w k]; [done|].
      destruct (H2 w ltac:(left)) as (v & []%elem_of_nil & _).
    + unfold context_set in V4 |- *. cbn [sc_virtual_contexts with_contexts]. by rewrite <-Hset.
  - unfold ctx_body, context_set. cbn. by rewrite Hset.
Qed.

(** Every valid context has a canonical form with the same bytes. *)
Lemma ctx_rep x : ctx_wf x → ctx_valid x → ∃ y, ctx_equiv x y ∧ ctx_canonical y.
Proof.
  intros Hwf Hv. pose proof (sc_wf_contexts x Hwf) as Wv. pose proof (sc_ok_contexts x Hv) as Vv.
  destruct (bts_collect_preimage vc_body (vc_rep <$> sc_virtual_contexts x)) as (l & Hl & Hsub).
  assert (∀ w, w ∈ l → ∃ v, v ∈ sc_virtual_contexts x ∧ w = vc_rep v) as Hfrom.
  { intros w Hw%Hsub. apply list_elem_of_fmap in Hw as (v & -> & ?). by exists v. }
  rewrite Forall_forall in Wv, Vv.
  exists (with_contexts x l). split; [split; [done|]|split]; cbn [sc_virtual_contexts with_contexts].
  - split.
    + intros v Hin. assert (vc_body (vc_rep v) ∈ vc_body <$> l) as Hb.
      { rewrite Hl, elem_of_bts_collect. by do 2 apply list_elem_of_fmap_2. }
      apply list_elem_of_fmap in Hb as (w & Hb & Hw). exists w. split; [done|].
      destruct (Hfrom w Hw) as (v' & Hin' & ->).
      destruct (vc_rep_ok v) as (_ & _ & _ & E1); [by auto..|].
      destruct (vc_rep_ok v') as (? & _ & ? & E2); [by auto..|].
      apply vc_body_equiv; auto. congruence.
    + intros w (v & Hin & ->)%Hfrom. exists v. split; [done|]. apply vc_rep_equiv.
  - apply Forall_forall. intros w (v & Hin & ->)%Hfrom. apply vc_rep_canonical; auto.
  - rewrite Hl. apply bts_collect_ascending.
Qed.

Lemma ctx_decode_equiv x bs : ctx_wf x → ctx_canonical_bytes x = Ok bs →
  ∃ y, ctx_from_canonical_bytes bs = Ok y ∧ ctx_canonical y ∧ ctx_equiv x y.
Proof.
  intros Hwf [Hv ->]%ctx_canonical_bytes_Ok; [|done].
  destruct (ctx_rep x Hwf Hv) as (y & Heq & Hc). exists y. split_and!; try done.
  destruct (ctx_equiv_same x y Heq Hwf Hv) as (Hwf' & Hv' & Hbody).
  apply ctx_exact. split_and!; try done. apply ctx_canonical_bytes_Ok; [done|]. by rewrite Hbody.
Qed.
End context_sets.

(** ** Claims *)

(** C20. The environment and context codecs are exact: a decoder accepts a byte string if
    and only if it is the canonical encoding of a valid, well-formed value (for a context,
    one whose virtual contexts and object references are sorted and unique), and returns
    that value; no byte string is both an environment and a context. *)
Theorem semantic_codecs_exact (bs : bytes) :
  (∀ e, env_from_canonical_bytes bs = Ok e ↔ env_wf e ∧ env_canonical_bytes e = Ok bs) ∧
  (∀ x, ctx_from_canonical_bytes bs = Ok x ↔
        ctx_wf x ∧ ctx_canonical x ∧ ctx_canonical_bytes x = Ok bs) ∧
  (∀ e x, ¬ (env_from_canonical_bytes bs = Ok e ∧ ctx_from_canonical_bytes bs = Ok x)).
Proof.
  split_and!.
  - intros e. apply env_exact.
  - intros x. apply ctx_exact.
  - intros e x [He Hx]. apply env_exact in He as [_ He]. apply ctx_exact in Hx as (Hwf & _ & Hx).
    apply env_canonical_bytes_Ok in He as [_ ->].
    apply ctx_canonical_bytes_Ok in Hx as [_ Hx]; [|done].
    apply (f_equal (take 20)) in Hx. rewrite !take_app_le in Hx by (vm_compute; lia).
    vm_compute in Hx. discriminate Hx.
Qed.

(** C21. The identity of a context is exactly its content read as sets: two valid contexts
    have the same canonical bytes, hence the same [SemanticContextId], if and only if they
    agree on every field up to the order and multiplicity of their virtual contexts and of
    each one's object references; and decoding the bytes yields the canonical representative
    of the context that was encoded. *)
Theorem context_identity_is_set_based `{Sha256} (x : SemanticExecutionContext) (bs : bytes) :
  ctx_wf x → ctx_canonical_bytes x = Ok bs →
  (∀ y, ctx_wf y → ctx_canonical_bytes y = Ok bs ↔ ctx_equiv x y) ∧
  (∀ y, ctx_equiv x y → ctx_id y = ctx_id x) ∧
  (∃ y, ctx_from_canonical_bytes bs = Ok y ∧ ctx_canonical y ∧ ctx_equiv x y).
Proof.
  intros Hwf Hx. pose proof Hx as [Hv Hbs]%ctx_canonical_bytes_Ok; [|done].
  assert (∀ y, ctx_equiv x y → ctx_canonical_bytes y = Ok bs) as Hsame.
  { intros y Heq. destruct (ctx_equiv_same x y Heq Hwf Hv) as (Hwf' & Hv' & Hbody).
    apply ctx_canonical_bytes_Ok; [done|]. by rewrite Hbody. }
  split_and!.
  - intros y Hwf'. split; [|apply Hsame]. intros Hy.
    destruct (ctx_decode_equiv x bs Hwf Hx) as (x' & Dx & _ & Ex).
    destruct (ctx_decode_equiv y bs Hwf' Hy) as (y' & Dy & _ & Ey).
    rewrite Dx in Dy. injection Dy as ->. etrans; [exact Ex|]. by symmetry.
  - intros y Heq. unfold ctx_id. by rewrite Hx, (Hsame y Heq).
  - by apply ctx_decode_equiv.
Qed.

(** C22. The object references in the order [canonical_object_refs] gives (shorter first,
    then bytewise) are the elements of [encoded_object_refs] in the order they enter the
    canonical bytes, so the two independent spellings of the canonical order agree. *)
Theorem canonical_object_refs_agree (v : VirtualContextRef) :
  vc_valid v →
  encoded_object_refs v = Ok (wire_field <$> canonical_object_refs v) ∧
  vc_canonical (vc_rep v) ∧ (∀ r, r ∈ canonical_object_refs v ↔ r ∈ object_refs v).
Proof.
  intros Hv. assert (Forall fits_u32 (object_refs v)) as Hf
    by (eapply Forall_weaken; [apply Hv|apply tok_fits]).
  rewrite canonical_object_refs_set, encoded_object_refs_fits by done.
  split_and!; [done|by apply vc_rep_canonical|apply elem_of_canonical_object_refs].
Qed.

(** C23. A context that has an identity has an environment identity, and the environment
    identity is blind to the candidate: contexts encode the same environment bytes exactly
    when they agree on base KB, ontology, shapes, reasoning, sources revision and validator
    versions, whatever their graph, candidate, state digest, hydrated sources or validator
    service id. *)
Theorem environment_is_candidate_independent (x y : SemanticExecutionContext) (bs bs' : bytes) :
  ctx_wf x → ctx_wf y → ctx_canonical_bytes x = Ok bs → ctx_canonical_bytes y = Ok bs' →
  (∃ ebs, env_canonical_bytes (environment x) = Ok ebs ∧
          env_from_canonical_bytes ebs = Ok (environment x)) ∧
  (env_canonical_bytes (environment x) = env_canonical_bytes (environment y) ↔
   sc_base_kb x = sc_base_kb y ∧ sc_ontology x = sc_ontology y ∧ sc_shapes x = sc_shapes y ∧
   sc_reasoning x = sc_reasoning y ∧ sc_sources_revision x = sc_sources_revision y ∧
   service_version (sc_validator x) = service_version (sc_validator y) ∧
   configuration_version (sc_validator x) = configuration_version (sc_validator y)).
Proof.
  intros Wx Wy Hx Hy.
  assert (∀ z zs, ctx_wf z → ctx_canonical_bytes z = Ok zs →
    ∃ ebs, env_canonical_bytes (environment z) = Ok ebs ∧
           env_from_canonical_bytes ebs = Ok (environment z)) as Henv.
  { intros z zs Wz [Vz _]%ctx_canonical_bytes_Ok; [|done].
    assert (env_valid (environment z)) as He by (split; [apply Vz|by apply Vz]).
    eexists. split; [by apply env_canonical_bytes_Ok|]. apply env_exact. split.
    - split; [apply Wz|apply Wz].
    - by apply env_canonical_bytes_Ok. }
  split; [by eapply Henv|]. destruct (Henv x bs Wx Hx) as (ex & Ex & Dx).
  destruct (Henv y bs' Wy Hy) as (ey & Ey & Dy). split.
  - intros Heq. rewrite Ex, Ey in Heq. injection Heq as ->.
    rewrite Dx in Dy. unfold environment in Dy. by injection Dy as -> -> -> -> -> -> ->.
  - intros (E1 & E2 & E3 & E4 & E5 & E6 & E7). unfold environment. by rewrite E1, E2, E3, E4, E5, E6, E7.
Qed.
