(* ===== verification/ValidationRecord.v ===== *)
(** * Validation records

    Source: [crates/ledger-validation-protocol/src/record.rs]: the immutable outcome of one
    validation, its bounds, canonical bytes and strict decoder. *)

From Stdlib Require Import ZArith Lia String Strings.Byte.
From stdpp Require Import base gmap countable list strings pretty.
From S2P Require Import Prelude BTree Bytes Text Core Identity Temporal CommitV2 Encoding.
From S2P Require Import SemanticContext.

Local Open Scope ledger_scope.

Definition VALIDATION_RECORD_V1_HEADER : bytes := B "sculpin-validation-record-v1" ++ [x00].
Definition MAX_VIOLATION_SUMMARY : nat := 64.
Definition MAX_SEVERITY_BYTES : nat := 64.
Definition MAX_VIOLATION_MESSAGE_BYTES : nat := 1024.
Definition MAX_REPORT_REFERENCE_BYTES : nat := 2048.

(** [typed_id!(ValidationId)] *)
Record ValidationId := mkValidationId { validation_cid : ContentId }.

(** ** Data *)
Inductive OutcomeKind := Conforms | Violations.

Record ViolationSummary := mkViolationSummary {
  severity : bytes; code : bytes; vmessage : bytes
}.

(** [violation_count] is a [u32]. *)
Record ValidationOutcome := mkValidationOutcome {
  kind : OutcomeKind; violation_count : Z; violations : list ViolationSummary
}.

Record ValidationRecord `{TimeCrate} := mkValidationRecord {
  vr_graph_id : GraphId;
  vr_candidate_commit : CommitId;
  vr_candidate_state_digest : ContentId;
  vr_semantic_execution_context_id : SemanticContextId;
  vr_validator : ValidatorIdentity;
  vr_outcome : ValidationOutcome;
  vr_recorded_at : LedgerTimestamp;
  vr_report_digest : ContentId;
  vr_report_reference : option bytes
}.
Arguments mkValidationRecord {_}.

#[export] Instance OutcomeKind_eq_dec : EqDecision OutcomeKind.
Proof. solve_decision. Defined.
#[export] Instance ViolationSummary_eq_dec : EqDecision ViolationSummary.
Proof. solve_decision. Defined.
#[export] Instance ValidationOutcome_eq_dec : EqDecision ValidationOutcome.
Proof. solve_decision. Defined.
#[export] Instance ValidationRecord_eq_dec `{TimeCrate} : EqDecision ValidationRecord.
Proof. solve_decision. Defined.

(** [OutcomeKind::wire_byte], [from_wire_byte], [as_str] *)
Definition outcome_wire_byte (k : OutcomeKind) : byte :=
  match k with Conforms => x00 | Violations => x01 end.

Definition outcome_from_wire_byte (b : byte) : presult OutcomeKind :=
  match b with
  | x00 => Ok Conforms
  | x01 => Ok Violations
  | other => Err (Invalid (Prose ("validation record: unknown outcome byte " +:+
                                  pretty (Byte.to_N other))))
  end.

Definition outcome_str (k : OutcomeKind) : bytes :=
  match k with Conforms => B "conforms" | Violations => B "violations" end.

(** ** Violation summaries *)
(** [ViolationSummary::validate] *)
Definition vs_validate (v : ViolationSummary) : presult unit :=
  lift (validate_token "violation.severity" (severity v) MAX_SEVERITY_BYTES) ;;
  lift (validate_token "violation.code" (code v) MAX_IDENTIFIER_BYTES) ;;
  if MAX_VIOLATION_MESSAGE_BYTES <? length (vmessage v) then
    Err (Invalid (Prose "violation.message exceeds 1024 bytes"))
  else if has_control (vmessage v) then
    Err (Invalid (Prose "violation.message must not contain control characters"))
  else Ok tt.

(** [ViolationSummary::canonical_bytes] *)
Definition vs_canonical_bytes (v : ViolationSummary) : presult bytes :=
  vs_validate v ;;
  out ← field [] (severity v);
  out ← field out (code v);
  out ← field out (vmessage v);
  Ok out.

(** The reads of [ViolationSummary::decode], in order, and the validation after them. *)
Definition vs_fields (c : Cursor) : presult (ViolationSummary * Cursor) :=
  '(s, c) ← cursor_field c "violation.severity";
  '(k, c) ← cursor_field c "violation.code";
  '(m, c) ← cursor_field c "violation.message";
  Ok (mkViolationSummary s k m, c).

Definition vs_decode (c : Cursor) : presult (ViolationSummary * Cursor) :=
  '(value, c) ← vs_fields c;
  vs_validate value ;;
  Ok (value, c).

(** ** Outcomes *)
(** [ValidationOutcome::conforms], [is_conforming] *)
Definition outcome_conforms : ValidationOutcome := mkValidationOutcome Conforms 0 [].
Definition is_conforming (o : ValidationOutcome) : bool := bool_decide (kind o = Conforms).

(** [ValidationOutcome::canonical_violations] *)
Definition canonical_violations (o : ValidationOutcome) : presult (list bytes) :=
  encoded ← collect vs_canonical_bytes (violations o);
  Ok (canonical_set encoded).

(** [ValidationOutcome::validate] *)
Definition outcome_validate (o : ValidationOutcome) : presult unit :=
  try_each vs_validate (violations o) ;;
  summary ← canonical_violations o;
  if bool_decide (kind o = Violations) && (violation_count o =? 0)%Z then
    Err (Invalid (Prose "a violations outcome needs violation_count >= 1"))
  else if MAX_VIOLATION_SUMMARY <? length summary then
    Err (Invalid (Prose "more than 64 distinct summarized results"))
  else if (violation_count o <? Z.of_nat (length summary))%Z then
    Err (Invalid (Prose "summarized results exceed violation_count"))
  else Ok tt.

(** ** Records *)
Section record.
Context `{TimeCrate}.

(** [ValidationRecord::validate] *)
Definition record_validate (r : ValidationRecord) : presult unit :=
  validator_validate (vr_validator r) ;;
  outcome_validate (vr_outcome r) ;;
  if_some (vr_report_reference r) (λ reference,
    lift (validate_token "report_reference" reference MAX_REPORT_REFERENCE_BYTES)).

(** [ValidationRecord::canonical_bytes] *)
Definition record_canonical_bytes (r : ValidationRecord) : presult bytes :=
  record_validate r ;;
  out ← field VALIDATION_RECORD_V1_HEADER (graph_str (vr_graph_id r));
  out ← field out (commit_id_str (vr_candidate_commit r));
  out ← field out (cid_str (vr_candidate_state_digest r));
  out ← field out (cid_str (sctx_cid (vr_semantic_execution_context_id r)));
  out ← field out (service_id (vr_validator r));
  out ← field out (service_version (vr_validator r));
  out ← field out (configuration_version (vr_validator r));
  let out := out ++ [outcome_wire_byte (kind (vr_outcome r))] in
  let out := out ++ u32_to_be_bytes (violation_count (vr_outcome r)) in
  summary ← canonical_violations (vr_outcome r);
  out ← u32be out (length summary);
  let out := extend_all out summary in
  out ← field out (ts_canonical (vr_recorded_at r));
  out ← field out (cid_str (vr_report_digest r));
  out ← opt out (vr_report_reference r);
  Ok out.

(** [ValidationRecord::id] *)
Definition record_id `{Sha256} (r : ValidationRecord) : presult ValidationId :=
  bs ← record_canonical_bytes r; Ok (mkValidationId (for_bytes bs)).

(** [<SemanticContextId as FromStr>::from_str] *)
Definition semantic_context_id_from_str (v : bytes) : lresult SemanticContextId :=
  id ← content_id_from_str v; Ok (mkSemanticContextId id).

(** The reads of [ValidationRecord::from_canonical_bytes], in order. *)
Definition record_fields (c : Cursor) : presult (ValidationRecord * Cursor) :=
  '(v, c) ← cursor_field c "graph_id";
  graph ← lift (graph_id_new v);
  '(v, c) ← cursor_field c "candidate_commit";
  commit ← lift (commit_id_from_str v);
  '(v, c) ← cursor_field c "candidate_state_digest";
  digest ← lift (content_id_from_str v);
  '(v, c) ← cursor_field c "semantic_execution_context_id";
  context ← lift (semantic_context_id_from_str v);
  '(vid, c) ← cursor_field c "validator.service_id";
  '(vservice, c) ← cursor_field c "validator.service_version";
  '(vconfig, c) ← cursor_field c "validator.configuration_version";
  '(b, c) ← cursor_u8 c "outcome";
  k ← outcome_from_wire_byte b;
  '(count, c) ← cursor_u32 c "violation_count";
  '(summary, c) ← cursor_set c "summarized violations" MAX_VIOLATION_SUMMARY vs_decode
                    vs_canonical_bytes;
  '(v, c) ← cursor_field c "recorded_at";
  recorded ← lift (parse_canonical v);
  '(v, c) ← cursor_field c "report_digest";
  report ← lift (content_id_from_str v);
  '(reference, c) ← cursor_opt c "report_reference";
  Ok (mkValidationRecord graph commit digest context (mkValidatorIdentity vid vservice vconfig)
        (mkValidationOutcome k count summary) recorded report reference, c).

(** [ValidationRecord::from_canonical_bytes] *)
Definition record_from_canonical_bytes (bs : bytes) : presult ValidationRecord :=
  c ← cursor_new bs VALIDATION_RECORD_V1_HEADER "validation record";
  '(record, c) ← record_fields c;
  cursor_finish c ;;
  record_validate record ;;
  Ok record.

(** [impl Deserialize for ValidationRecord]: the assembled value is validated. *)
Definition record_from_wire (w : ValidationRecord) : presult ValidationRecord :=
  record_validate w ;; Ok w.
End record.

#[global] Arguments vs_canonical_bytes : simpl never.
#[global] Arguments vs_validate : simpl never.
#[global] Arguments canonical_violations : simpl never.
#[global] Arguments outcome_validate : simpl never.
#[global] Arguments outcome_from_wire_byte : simpl never.
#[global] Arguments outcome_wire_byte : simpl never.
#[global] Arguments VALIDATION_RECORD_V1_HEADER : simpl never.

(** ** Summaries and outcomes *)
Section outcomes.
Implicit Types (v : ViolationSummary) (o : ValidationOutcome).

Definition vs_wf v : Prop := utf8 (severity v) ∧ utf8 (code v) ∧ utf8 (vmessage v).

Record vs_valid v : Prop := {
  vs_ok_severity : token_ok MAX_SEVERITY_BYTES (severity v);
  vs_ok_code : tok (code v);
  vs_ok_message : length (vmessage v) ≤ MAX_VIOLATION_MESSAGE_BYTES;
  vs_ok_control : has_control (vmessage v) = false
}.

Lemma vs_validate_Ok v u : vs_validate v = Ok u ↔ vs_valid v.
Proof.
  unfold vs_validate, lift. destruct u. split.
  - intros Hv. inv_res. apply validate_token_Ok in E, E0.
    destruct (Nat.ltb_spec MAX_VIOLATION_MESSAGE_BYTES (length (vmessage v))); [done|].
    destruct (has_control (vmessage v)) eqn:?; [done|]. by split.
  - intros [Hs Hc Hm Hk]. rewrite (proj2 (validate_token_Ok _ _ _ tt) Hs). run_res.
    rewrite (proj2 (validate_token_Ok _ _ _ tt) Hc). run_res.
    rewrite (proj2 (Nat.ltb_ge _ _)) by done. by rewrite Hk.
Qed.

Definition vs_body v : bytes :=
  wire_field (severity v) ++ wire_field (code v) ++ wire_field (vmessage v) ++ [].

Lemma vs_valid_fits v : vs_valid v →
  fits_u32 (severity v) ∧ fits_u32 (code v) ∧ fits_u32 (vmessage v).
Proof.
  intros [Hs Hc Hm _]. split_and!; [by eapply token_ok_fits|by apply tok_fits|].
  unfold fits_u32. by eapply count_fits; [exact Hm|].
Qed.

Lemma vs_canonical_bytes_Ok v bs : vs_canonical_bytes v = Ok bs ↔ vs_valid v ∧ bs = vs_body v.
Proof.
  unfold vs_canonical_bytes. apply check_then_Ok; [apply vs_validate_Ok|]. intros Hv.
  by_writes (@nil byte). cbn [app]. unfold vs_body. pose proof (vs_valid_fits v Hv). tauto.
Qed.

Lemma vs_body_inj v w : vs_valid v → vs_valid w → vs_body v = vs_body w → v = w.
Proof.
  intros (?&?&?)%vs_valid_fits (?&?&?)%vs_valid_fits Heq. unfold vs_body in Heq.
  apply wire_field_inj in Heq as [Es Heq]; [|done..].
  apply wire_field_inj in Heq as [Ec Heq]; [|done..].
  apply wire_field_inj in Heq as [Em _]; [|done..]. destruct v, w; cbn in *. congruence.
Qed.

(** The summary as a canonical set of entry encodings. *)
Definition summary_set o : list bytes := canonical_set (vs_body <$> violations o).

Record outcome_valid o : Prop := {
  oc_ok_entries : Forall vs_valid (violations o);
  oc_ok_kind : kind o = Violations → violation_count o ≠ 0%Z;
  oc_ok_bound : length (summary_set o) ≤ MAX_VIOLATION_SUMMARY;
  oc_ok_count : (Z.of_nat (length (summary_set o)) ≤ violation_count o)%Z
}.

Lemma canonical_violations_ok o :
  Forall vs_valid (violations o) → canonical_violations o = Ok (summary_set o).
Proof.
  intros Hv. unfold canonical_violations.
  rewrite (proj2 (collect_Ok vs_canonical_bytes (violations o) (vs_body <$> violations o))); [done|].
  apply Forall2_fmap_r, Forall_Forall2_diag. eapply Forall_weaken; [exact Hv|].
  intros v ?. by apply vs_canonical_bytes_Ok.
Qed.

Lemma outcome_validate_Ok o u : outcome_validate o = Ok u ↔ outcome_valid o.
Proof.
  unfold outcome_validate. destruct u. split.
  - intros Hv. inv_res. apply try_each_Ok in E.
    assert (Forall vs_valid (violations o)) as Hvs.
    { eapply Forall_weaken; [exact E|]. by intros v ?%vs_validate_Ok. }
    rewrite canonical_violations_ok in E0 by done. injection E0 as <-.
    destruct (_ && _) eqn:Hk; [done|].
    destruct (Nat.ltb_spec MAX_VIOLATION_SUMMARY (length (summary_set o))); [done|].
    destruct (Z.ltb_spec (violation_count o) (Z.of_nat (length (summary_set o)))); [done|].
    split; try done. intros Hkind Hz. rewrite Hz, Hkind in Hk. done.
  - intros [Hvs Hk Hb Hc]. rewrite (proj2 (try_each_Ok _ _ tt)).
    2: { eapply Forall_weaken; [exact Hvs|]. intros v ?. by apply vs_validate_Ok. }
    run_res. rewrite canonical_violations_ok by done. run_res.
    replace (_ && _) with false.
    2: { symmetry. apply andb_false_iff. destruct (kind o) eqn:Hkind; [left; by apply bool_decide_eq_false_2|right].
         apply Z.eqb_neq. by apply Hk. }
    rewrite (proj2 (Nat.ltb_ge _ _)) by done. by rewrite (proj2 (Z.ltb_ge _ _)).
Qed.

Lemma reads_vs_fields :
  reads vs_fields vs_body (λ v, (wire_ok (severity v) ∧ wire_ok (code v) ∧
                                 wire_ok (vmessage v) ∧ True) ∧ True).
Proof.
  unfold vs_fields, vs_body. then_field severity. then_field code. then_field vmessage.
  apply reads_ret. intros []; end_fields.
Qed.

Lemma reads_vs : reads vs_decode vs_body (λ v, vs_wf v ∧ vs_valid v).
Proof.
  eapply reads_ext; [apply (reads_check _ _ _ _ _ reads_vs_fields vs_validate_Ok)| |done].
  intros v. unfold wire_ok, vs_wf, utf8. split; [tauto|]. intros [? Hv].
  pose proof (vs_valid_fits v Hv). tauto.
Qed.

Lemma outcome_from_wire_byte_Ok b k : outcome_from_wire_byte b = Ok k ↔ b = outcome_wire_byte k.
Proof.
  split; [|intros ->; by destruct k]. unfold outcome_from_wire_byte, outcome_wire_byte.
  destruct b; intros [= <-]; done.
Qed.
End outcomes.

(** ** The record codec *)
Section record_codec.
Context `{TimeCrate}.
Implicit Types r : ValidationRecord.

Record record_wf r : Prop := {
  vr_wf_graph : graph_id_wf (vr_graph_id r);
  vr_wf_commit : commit_id_wf (vr_candidate_commit r);
  vr_wf_digest : cid_wf (vr_candidate_state_digest r);
  vr_wf_context : cid_wf (sctx_cid (vr_semantic_execution_context_id r));
  vr_wf_validator : validator_utf8 (vr_validator r);
  vr_wf_count : (0 ≤ violation_count (vr_outcome r) ≤ u32_max)%Z;
  vr_wf_violations : Forall vs_wf (violations (vr_outcome r));
  vr_wf_recorded : ts_wf (vr_recorded_at r);
  vr_wf_report : cid_wf (vr_report_digest r);
  vr_wf_reference : opt_all utf8 (vr_report_reference r)
}.

Definition record_valid r : Prop :=
  validator_ok (vr_validator r) ∧ outcome_valid (vr_outcome r) ∧
  opt_all (token_ok MAX_REPORT_REFERENCE_BYTES) (vr_report_reference r).

(** The form the decoder returns: the summary sorted by its encodings, unique. *)
Definition record_canonical r : Prop := ascending (vs_body <$> violations (vr_outcome r)).

Lemma record_validate_Ok r u : record_validate r = Ok u ↔ record_valid r.
Proof.
  unfold record_validate. apply checks_Ok; intros ?; [apply validator_validate_Ok|].
  apply checks_Ok; intros ?; [apply outcome_validate_Ok|]. apply if_some_Ok. intros a ?.
  unfold lift. rewrite map_err_Ok. apply validate_token_Ok.
Qed.

Definition record_body r : bytes :=
  wire_field (graph_str (vr_graph_id r)) ++
  wire_field (commit_id_str (vr_candidate_commit r)) ++
  wire_field (cid_str (vr_candidate_state_digest r)) ++
  wire_field (cid_str (sctx_cid (vr_semantic_execution_context_id r))) ++
  wire_field (service_id (vr_validator r)) ++
  wire_field (service_version (vr_validator r)) ++
  wire_field (configuration_version (vr_validator r)) ++
  [outcome_wire_byte (kind (vr_outcome r))] ++
  u32_to_be_bytes (violation_count (vr_outcome r)) ++
  u32_to_be_bytes (Z.of_nat (length (summary_set (vr_outcome r)))) ++
  concat (summary_set (vr_outcome r)) ++
  wire_field (ts_canonical (vr_recorded_at r)) ++
  wire_field (cid_str (vr_report_digest r)) ++
  wire_opt (vr_report_reference r) ++ [].

Lemma record_canonical_bytes_Ok `{!TimeCrateOk} r bs : record_wf r →
  record_canonical_bytes r = Ok bs ↔
    record_valid r ∧ bs = VALIDATION_RECORD_V1_HEADER ++ record_body r.
Proof.
  intros [[Wg _]%graph_wire_ok [Wc _]%cid_wf_wire_ok [Wd _]%cid_wf_wire_ok [Wx _]%cid_wf_wire_ok
          _ _ _ [[Wt _] _]%ts_wire_ok [Wr _]%cid_wf_wire_ok _].
  unfold record_canonical_bytes. apply check_then_Ok; [apply record_validate_Ok|].
  intros ((V1%tok_fits & V2%tok_fits & V3%tok_fits) & [Hvs _ Hn _] & Href).
  rewrite canonical_violations_ok by done. run_res.
  by_writes VALIDATION_RECORD_V1_HEADER. unfold record_body. rewrite <-?app_assoc.
  assert (Z.of_nat (length (summary_set (vr_outcome r))) ≤ u32_max)%Z by (by eapply count_fits).
  pose proof (opt_token_fits _ _ Href). assert (Z.of_nat MAX_REPORT_REFERENCE_BYTES ≤ u32_max)%Z by done.
  unfold commit_id_str. tauto.
Qed.

Lemma summary_set_canonical o :
  ascending (vs_body <$> violations o) → summary_set o = vs_body <$> violations o.
Proof. intros. unfold summary_set. by rewrite canonical_set_collect, bts_collect_id. Qed.

Lemma semantic_context_id_exact v id :
  semantic_context_id_from_str v = Ok id ↔ v = cid_str (sctx_cid id) ∧ cid_wf (sctx_cid id).
Proof.
  unfold semantic_context_id_from_str. rewrite bind_Ok. setoid_rewrite content_id_exact. split.
  - by intros (i & [-> ?] & [= <-]).
  - intros [-> ?]. exists (sctx_cid id). by destruct id.
Qed.

Lemma outcome_byte_exact b k : outcome_from_wire_byte b = Ok k ↔ b = outcome_wire_byte k ∧ True.
Proof. rewrite outcome_from_wire_byte_Ok. tauto. Qed.

Lemma reads_record_fields `{!TimeCrateOk} :
  reads record_fields
    (λ r, wire_field (graph_str (vr_graph_id r)) ++
      wire_field (commit_id_str (vr_candidate_commit r)) ++
      wire_field (cid_str (vr_candidate_state_digest r)) ++
      wire_field (cid_str (sctx_cid (vr_semantic_execution_context_id r))) ++
      wire_field (service_id (vr_validator r)) ++
      wire_field (service_version (vr_validator r)) ++
      wire_field (configuration_version (vr_validator r)) ++
      [outcome_wire_byte (kind (vr_outcome r))] ++
      u32_to_be_bytes (violation_count (vr_outcome r)) ++
      set_bytes vs_body (violations (vr_outcome r)) ++
      wire_field (ts_canonical (vr_recorded_at r)) ++
      wire_field (cid_str (vr_report_digest r)) ++
      wire_opt (vr_report_reference r) ++ [])
    (λ r, ((wire_ok (graph_str (vr_graph_id r)) ∧ graph_id_wf (vr_graph_id r)) ∧
      (wire_ok (commit_id_str (vr_candidate_commit r)) ∧ commit_id_wf (vr_candidate_commit r)) ∧
      (wire_ok (cid_str (vr_candidate_state_digest r)) ∧ cid_wf (vr_candidate_state_digest r)) ∧
      (wire_ok (cid_str (sctx_cid (vr_semantic_execution_context_id r))) ∧
       cid_wf (sctx_cid (vr_semantic_execution_context_id r))) ∧
      wire_ok (service_id (vr_validator r)) ∧ wire_ok (service_version (vr_validator r)) ∧
      wire_ok (configuration_version (vr_validator r)) ∧
      (True ∧ True) ∧
      (0 ≤ violation_count (vr_outcome r) ≤ u32_max)%Z ∧
      (length (violations (vr_outcome r)) ≤ MAX_VIOLATION_SUMMARY ∧
       Forall (λ v, vs_wf v ∧ vs_valid v) (violations (vr_outcome r)) ∧
       ascending (vs_body <$> violations (vr_outcome r))) ∧
      (wire_ok (ts_canonical (vr_recorded_at r)) ∧ ts_wf (vr_recorded_at r)) ∧
      (wire_ok (cid_str (vr_report_digest r)) ∧ cid_wf (vr_report_digest r)) ∧
      opt_all opt_field_ok (vr_report_reference r) ∧ True) ∧ True).
Proof.
  unfold record_fields.
  refine (reads_parse _ _ _ _ _ _ vr_graph_id _ _ _ _ (reads_field _) graph_id_new_Ok _); intros ?.
  refine (reads_parse _ _ _ _ _ _ vr_candidate_commit _ _ _ _ (reads_field _) commit_id_from_str_Ok _); intros ?.
  refine (reads_parse _ _ _ _ _ _ vr_candidate_state_digest _ _ _ _ (reads_field _) content_id_exact _); intros ?.
  refine (reads_parse _ _ _ _ _ _ vr_semantic_execution_context_id _ _ _ _ (reads_field _)
    semantic_context_id_exact _); intros ?.
  then_field (λ r, service_id (vr_validator r)). then_field (λ r, service_version (vr_validator r)).
  then_field (λ r, configuration_version (vr_validator r)).
  refine (reads_try _ _ _ _ _ _ (λ r, kind (vr_outcome r)) _ _ _ _ (reads_u8 _) outcome_byte_exact _); intros ?.
  refine (reads_bind _ _ _ (λ r, violation_count (vr_outcome r)) _ _ _ _ (reads_u32 _) _); intros ?.
  refine (reads_bind _ _ _ (λ r, violations (vr_outcome r)) _ _ _ _
    (reads_set _ _ _ _ _ _ reads_vs _ _) _);
    [intros v [_ Hv]; by apply vs_canonical_bytes_Ok|done|intros ?].
  refine (reads_parse _ _ _ _ _ _ vr_recorded_at _ _ _ _ (reads_field _) parse_canonical_Ok _); intros ?.
  refine (reads_parse _ _ _ _ _ _ vr_report_digest _ _ _ _ (reads_field _) content_id_exact _); intros ?.
  refine (reads_bind _ _ _ vr_report_reference _ _ _ _ (reads_opt _) _); intros ?.
  apply reads_ret. intros [? ? ? ? [] [] ? ? ?]; end_fields.
Qed.

Lemma record_exact `{!TimeCrateOk} bs r :
  record_from_canonical_bytes bs = Ok r ↔
    record_wf r ∧ record_canonical r ∧ record_canonical_bytes r = Ok bs.
Proof.
  unfold record_from_canonical_bytes.
  rewrite (reads_decoder _ _ _ _ _ _ _ bs r reads_record_fields (λ r u _, record_validate_Ok r u)).
  split.
  - intros ([((_&?) & (_&?) & (_&?) & (_&?) & [_ ?] & [_ ?] & [_ ?] & _ & ? & (_ & Hf & Ha) &
              (_&?) & (_&?) & Href & _) _] & Hv & ->).
    assert (record_wf r) as Hwf.
    { split; try done; [eapply Forall_weaken; [exact Hf|]; by intros v [? _]|].
      eapply opt_all_weaken; [|exact Href]. by intros v [[_ ?] _]. }
    split; [done|]. split; [done|]. apply record_canonical_bytes_Ok; [done|]. split; [done|].
    unfold record_body. rewrite summary_set_canonical by done. unfold set_bytes.
    by rewrite length_fmap, <-!app_assoc.
  - intros (Hwf & Ha & Hb). rewrite record_canonical_bytes_Ok in Hb by done.
    destruct Hb as [Hv ->]. pose proof Hwf as [Wg Wc Wd Wx (U1&U2&U3) Wn Wv Wt Wr Wref].
    pose proof Hv as ((T1%tok_fits & T2%tok_fits & T3%tok_fits) & [Vs _ Vn _] & Vr).
    split; [split; [|done]|split; [done|]].
    + rewrite summary_set_canonical, length_fmap in Vn by done.
      assert (Forall (λ v, vs_wf v ∧ vs_valid v) (violations (vr_outcome r))).
      { rewrite Forall_forall in Wv, Vs |- *. auto. }
      assert (opt_all opt_field_ok (vr_report_reference r)).
      { destruct (vr_report_reference r); [|done]. by eapply token_wire_ok. }
      pose proof (graph_wire_ok _ Wg). pose proof (ts_wire_ok _ Wt) as [? _].
      pose proof (cid_wf_wire_ok _ Wc). pose proof (cid_wf_wire_ok _ Wd).
      pose proof (cid_wf_wire_ok _ Wx). pose proof (cid_wf_wire_ok _ Wr).
      unfold record_canonical, utf8, commit_id_str in *. unfold wire_ok in *. tauto.
    + unfold record_body. rewrite summary_set_canonical by done. unfold set_bytes.
      by rewrite length_fmap, <-!app_assoc.
Qed.

(** Records that differ only in the order and multiplicity of their summary. *)
Definition with_violations r (l : list ViolationSummary) : ValidationRecord :=
  mkValidationRecord (vr_graph_id r) (vr_candidate_commit r) (vr_candidate_state_digest r)
    (vr_semantic_execution_context_id r) (vr_validator r)
    (mkValidationOutcome (kind (vr_outcome r)) (violation_count (vr_outcome r)) l)
    (vr_recorded_at r) (vr_report_digest r) (vr_report_reference r).

Definition record_equiv r s : Prop :=
  s = with_violations r (violations (vr_outcome s)) ∧
  ∀ v, v ∈ violations (vr_outcome r) ↔ v ∈ violations (vr_outcome s).

#[export] Instance record_equiv_equivalence : Equivalence record_equiv.
Proof.
  split.
  - intros [?????[]]. by split.
  - intros [?????[]] s [-> Hv]. cbn in *. split; [done|]. intros v. by rewrite Hv.
  - intros r s t [-> Hv] [-> Hv']. cbn in *. split; [done|]. intros v. by rewrite Hv.
Qed.

Lemma record_equiv_same r s : record_equiv r s → record_wf r → record_valid r →
  record_wf s ∧ record_valid s ∧ record_body s = record_body r.
Proof.
  intros [-> Hv] [U1 U2 U3 U4 U5 U6 U7 U8 U9 U10] (V1 & [V2 V3 V4 V5] & V6).
  cbn [vr_outcome with_violations violations] in *.
  set (l := violations (vr_outcome s)) in *.
  assert (canonical_set (vs_body <$> l) = canonical_set (vs_body <$> violations (vr_outcome r))) as Hset.
  { rewrite !canonical_set_collect. apply bts_collect_ext. intros x.
    rewrite !list_elem_of_fmap. by setoid_rewrite Hv. }
  unfold summary_set in V4, V5. rewrite <-Hset in V4, V5. rewrite Forall_forall in U7, V2.
  split_and!.
  - split; try done. apply Forall_forall. intros v. cbn. rewrite <-Hv. apply U7.
  - split; [done|]. split; [|done]. split; try done. apply Forall_forall. intros v. cbn.
    rewrite <-Hv. apply V2.
  - unfold record_body, summary_set. cbn. by rewrite Hset.
Qed.

Lemma record_rep r : record_valid r → ∃ s, record_equiv r s ∧ record_canonical s.
Proof.
  intros (_ & [Hvs _ _ _] & _). rewrite Forall_forall in Hvs.
  destruct (bts_collect_preimage vs_body (violations (vr_outcome r))) as (l & Hl & Hsub).
  exists (with_violations r l). split; [split; [done|]|]; cbn [vr_outcome with_violations violations].
  - intros v. split; [|apply Hsub]. intros Hin.
    assert (vs_body v ∈ vs_body <$> l) as Hb.
    { rewrite Hl, elem_of_bts_collect. by apply list_elem_of_fmap_2. }
    apply list_elem_of_fmap in Hb as (w & Hb & Hw). apply vs_body_inj in Hb as ->; auto.
  - unfold record_canonical. cbn. rewrite Hl. apply bts_collect_ascending.
Qed.

Lemma record_decode_equiv `{!TimeCrateOk} r bs :
  record_wf r → record_canonical_bytes r = Ok bs →
  ∃ s, record_from_canonical_bytes bs = Ok s ∧ record_canonical s ∧ record_equiv r s.
Proof.
  intros Hwf [Hv ->]%record_canonical_bytes_Ok; [|done].
  destruct (record_rep r Hv) as (s & Heq & Hc). exists s. split_and!; try done.
  destruct (record_equiv_same r s Heq Hwf Hv) as (Hwf' & Hv' & Hbody).
  apply record_exact. split_and!; try done. apply record_canonical_bytes_Ok; [done|]. by rewrite Hbody.
Qed.

(** C24. The record codec is exact, and a record's identity is its content read with the
    summary as a set. The decoder accepts exactly the canonical encodings of valid records
    with a sorted, duplicate-free summary; two well-formed records have the same canonical
    bytes, hence the same [ValidationId], if and only if they agree up to the order and
    multiplicity of their summarized violations. *)
Theorem record_codec_exact `{!TimeCrateOk, Sha256} (bs : bytes) :
  (∀ r, record_from_canonical_bytes bs = Ok r ↔
        record_wf r ∧ record_canonical r ∧ record_canonical_bytes r = Ok bs) ∧
  (∀ r, record_wf r → record_canonical_bytes r = Ok bs →
        (∀ s, record_wf s → record_canonical_bytes s = Ok bs ↔ record_equiv r s) ∧
        (∀ s, record_equiv r s → record_id s = record_id r) ∧
        (∃ s, record_from_canonical_bytes bs = Ok s ∧ record_equiv r s)).
Proof.
  split; [intros r; apply record_exact|]. intros r Hwf Hr.
  pose proof Hr as [Hv Hbs]%record_canonical_bytes_Ok; [|done].
  assert (∀ s, record_equiv r s → record_canonical_bytes s = Ok bs) as Hsame.
  { intros s Heq. destruct (record_equiv_same r s Heq Hwf Hv) as (Hwf' & Hv' & Hbody).
    apply record_canonical_bytes_Ok; [done|]. by rewrite Hbody. }
  split_and!.
  - intros s Hwf'. split; [|apply Hsame]. intros Hs.
    destruct (record_decode_equiv r bs Hwf Hr) as (r' & Dr & _ & Er).
    destruct (record_decode_equiv s bs Hwf' Hs) as (s' & Ds & _ & Es).
    rewrite Dr in Ds. injection Ds as ->. etrans; [exact Er|]. by symmetry.
  - intros s Heq. unfold record_id. by rewrite Hr, (Hsame s Heq).
  - destruct (record_decode_equiv r bs Hwf Hr) as (s & ? & _ & ?). by exists s.
Qed.
End record_codec.
