(* ===== verification/ValidationClient.v ===== *)
(** * The validator boundary

    Source: [crates/ledger-validation-protocol/src/client.rs]: the hints a requester may pin,
    the request and response types, and the two functions through which a validator's answer
    becomes ledger data ([with_bounded_summary], [into_context]). The call itself is a trait
    implemented elsewhere. *)

From Stdlib Require Import ZArith Lia String Strings.Byte Sorted.
From stdpp Require Import base gmap countable list strings pretty.
From S2P Require Import Prelude BTree Bytes Text Core Identity Temporal CommitV2 Encoding.
From S2P Require Import SemanticContext ValidationRecord.

Local Open Scope ledger_scope.

Definition VALIDATION_REQUEST_PROTOCOL : bytes := B "sculpin-validation-request/v1".
Definition VALIDATION_RESPONSE_PROTOCOL : bytes := B "sculpin-validation-response/v1".

(** ** Hints *)
Record RequestedContext := mkRequestedContext {
  rq_base_kb : option BaseKb;
  rq_ontology : option Ontology;
  rq_shapes : option ShapeSet;
  rq_reasoning_profile : option bytes;
  rq_sources_revision : option bytes
}.

(** ** Requests and responses *)
Record CandidateDescriptor := mkCandidateDescriptor {
  cd_graph_id : GraphId;
  cd_knowledge_base_id : option bytes;
  cd_commit : CommitId;
  cd_state_digest : ContentId;
  cd_state_href : option bytes;
  cd_quads : list bytes
}.

Record ValidationRequest := mkValidationRequest {
  rq_protocol : bytes;
  rq_invocation_id : ValidationInvocationId;
  rq_candidate : CandidateDescriptor;
  rq_requested : RequestedContext;
  rq_correlation_id : option bytes
}.

(** [ValidationRequest::new] *)
Definition validation_request_new (invocation : ValidationInvocationId)
    (candidate : CandidateDescriptor) (requested : RequestedContext) : ValidationRequest :=
  mkValidationRequest VALIDATION_REQUEST_PROTOCOL invocation candidate requested None.

Record ValidatorVersions := mkValidatorVersions {
  vv_service_version : bytes; vv_configuration_version : bytes
}.

Record EffectiveContext := mkEffectiveContext {
  ec_base_kb : BaseKb;
  ec_ontology : option Ontology;
  ec_shapes : ShapeSet;
  ec_reasoning : option Reasoning;
  ec_sources_revision : option bytes;
  ec_virtual_contexts : list VirtualContextRef;
  ec_validator : ValidatorVersions
}.

Record ReportReference := mkReportReference {
  report_digest : ContentId; report_reference : option bytes
}.

Record ValidatorResponse := mkValidatorResponse {
  rs_protocol : bytes;
  rs_candidate_commit : CommitId;
  rs_candidate_state_digest : ContentId;
  rs_context : EffectiveContext;
  rs_outcome : ValidationOutcome;
  rs_report : ReportReference
}.

#[export] Instance RequestedContext_eq_dec : EqDecision RequestedContext.
Proof. solve_decision. Defined.
#[export] Instance ValidatorVersions_eq_dec : EqDecision ValidatorVersions.
Proof. solve_decision. Defined.
#[export] Instance EffectiveContext_eq_dec : EqDecision EffectiveContext.
Proof. solve_decision. Defined.
#[export] Instance ReportReference_eq_dec : EqDecision ReportReference.
Proof. solve_decision. Defined.
#[export] Instance ValidatorResponse_eq_dec : EqDecision ValidatorResponse.
Proof. solve_decision. Defined.

(** [RequestedContext::validate] *)
Definition requested_validate (r : RequestedContext) : presult unit :=
  if_some (rq_base_kb r) (λ kb,
    token "base_kb.kb_id" (kb_id kb) ;; token "base_kb.revision" (kb_revision kb)) ;;
  if_some (rq_ontology r) (λ o,
    token "ontology.id" (ontology_id o) ;; token "ontology.version" (ontology_version o)) ;;
  if_some (rq_shapes r) (λ s,
    token "shapes.id" (shapes_id s) ;; token "shapes.version" (shapes_version s)) ;;
  if_some (rq_reasoning_profile r) (token "reasoning_profile") ;;
  if_some (rq_sources_revision r) (token "sources_revision").

(** [Option::is_some_and(|h| h != v)] *)
Definition differs {A} `{EqDecision A} (hint : option A) (v : A) : bool :=
  match hint with Some h => negb (bool_decide (h = v)) | None => false end.

(** [RequestedContext::unmet_by] *)
Definition unmet_by (r : RequestedContext) (effective : EffectiveContext) : option string :=
  if differs (rq_base_kb r) (ec_base_kb effective) then Some "base_kb"%string
  else if bool_decide (rq_ontology r ≠ None) &&
          bool_decide (rq_ontology r ≠ ec_ontology effective) then Some "ontology"%string
  else if differs (rq_shapes r) (ec_shapes effective) then Some "shapes"%string
  else if match rq_reasoning_profile r with
          | Some p => bool_decide (profile <$> ec_reasoning effective ≠ Some p)
          | None => false
          end then Some "reasoning_profile"%string
  else if bool_decide (rq_sources_revision r ≠ None) &&
          bool_decide (rq_sources_revision r ≠ ec_sources_revision effective)
  then Some "sources_revision"%string
  else None.

(** The closure [pair] of [encode_into]. *)
Definition hint_pair (a : option (bytes * bytes)) (out : bytes) : presult bytes :=
  match a with
  | None => Ok (out ++ [TAG_ABSENT])
  | Some (x, y) =>
      out ← field (out ++ [TAG_PRESENT]) x;
      field out y
  end.

Definition kb_pair (kb : BaseKb) : bytes * bytes := (kb_id kb, kb_revision kb).
Definition ontology_pair (o : Ontology) : bytes * bytes := (ontology_id o, ontology_version o).
Definition shapes_pair (s : ShapeSet) : bytes * bytes := (shapes_id s, shapes_version s).

(** [RequestedContext::encode_into] *)
Definition encode_into (r : RequestedContext) (out : bytes) : presult bytes :=
  requested_validate r ;;
  out ← hint_pair (kb_pair <$> rq_base_kb r) out;
  out ← hint_pair (ontology_pair <$> rq_ontology r) out;
  out ← hint_pair (shapes_pair <$> rq_shapes r) out;
  out ← opt out (rq_reasoning_profile r);
  out ← opt out (rq_sources_revision r);
  Ok out.

(** ** Bounding the summary *)
(** [chars().map(|c| if c.is_control() { ' ' } else { c })] *)
Definition clean_char (cp : Z * bytes) : Z * bytes :=
  if is_control cp.1 then (32%Z, B " ") else cp.

Definition clean_message (m : bytes) : bytes :=
  match char_slices m with Some ps => concat (clean_char <$> ps).*2 | None => m end.

(** [while !cleaned.is_char_boundary(cut) { cut -= 1 }]: 0 is always a boundary. *)
Fixpoint cut_back (s : bytes) (cut : nat) : nat :=
  match cut with
  | O => O
  | S c => if is_char_boundary s cut then cut else cut_back s c
  end.

Definition bound_message (m : bytes) : bytes :=
  let cleaned := clean_message m in
  take (cut_back cleaned (Nat.min (length cleaned) MAX_VIOLATION_MESSAGE_BYTES)) cleaned.

Definition bound_violation (v : ViolationSummary) : ViolationSummary :=
  mkViolationSummary (severity v) (code v) (bound_message (vmessage v)).

(** [v.canonical_bytes().unwrap_or_default()] beside [v] *)
Definition keyed (v : ViolationSummary) : bytes * ViolationSummary :=
  (match vs_canonical_bytes v with Ok bs => bs | _ => [] end, v).

(** [encoded.sort_by(|a, b| a.0.cmp(&b.0))]: a stable sort by key. *)
Fixpoint key_insert {A} (x : bytes * A) (l : list (bytes * A)) : list (bytes * A) :=
  match l with
  | [] => [x]
  | y :: l' => match cmp x.1 y.1 with Gt => y :: key_insert x l' | _ => x :: l end
  end.
Definition sort_by_key {A} (l : list (bytes * A)) : list (bytes * A) := foldr key_insert [] l.

(** [encoded.dedup_by(|a, b| a.0 == b.0)]: keep the first of each run of equal keys. *)
Fixpoint dedup_by_key {A} (kept : option bytes) (l : list (bytes * A)) : list (bytes * A) :=
  match l with
  | [] => []
  | x :: l' => if bool_decide (kept = Some x.1) then dedup_by_key kept l'
               else x :: dedup_by_key (Some x.1) l'
  end.

(** [ValidatorResponse::with_bounded_summary] *)
Definition with_bounded_summary (r : ValidatorResponse) : ValidatorResponse :=
  let violations := bound_violation <$> violations (rs_outcome r) in
  let encoded := dedup_by_key None (sort_by_key (keyed <$> violations)) in
  mkValidatorResponse (rs_protocol r) (rs_candidate_commit r) (rs_candidate_state_digest r)
    (rs_context r)
    (mkValidationOutcome (kind (rs_outcome r)) (violation_count (rs_outcome r))
       (take MAX_VIOLATION_SUMMARY encoded).*2)
    (rs_report r).

(** ** From response to context *)
(** [ValidatorResponse::into_context] *)
Definition into_context (r : ValidatorResponse) (graph : GraphId) (candidate : CommitId)
    (state_digest : ContentId) (service : bytes) (requested : RequestedContext)
    : presult SemanticExecutionContext :=
  if negb (bool_decide (rs_protocol r = VALIDATION_RESPONSE_PROTOCOL)) then
    Err (Invalid (Prose "validator response protocol is not sculpin-validation-response/v1"))
  else if negb (bool_decide (rs_candidate_commit r = candidate)) then
    Err (Invalid (Prose "validator response names another candidate commit"))
  else if negb (bool_decide (rs_candidate_state_digest r = state_digest)) then
    Err (Invalid (Prose "validator response names another candidate state digest"))
  else match unmet_by requested (rs_context r) with
  | Some hint =>
      Err (Invalid (Prose ("validator response did not honour the requested " +:+ hint)))
  | None =>
      let e := rs_context r in
      let context := mkSemanticExecutionContext graph candidate state_digest (ec_base_kb e)
        (ec_ontology e) (ec_shapes e) (ec_reasoning e) (ec_sources_revision e)
        (ec_virtual_contexts e)
        (mkValidatorIdentity service (vv_service_version (ec_validator e))
           (vv_configuration_version (ec_validator e))) in
      ctx_validate context ;;
      outcome_validate (rs_outcome r) ;;
      if_some (report_reference (rs_report r)) (λ reference,
        lift (validate_token "report_reference" reference MAX_REPORT_REFERENCE_BYTES)) ;;
      Ok context
  end.

(** [enum ValidationClientError] and its conversion *)
Inductive ValidationClientError :=
  | Unavailable (reason : string)
  | Rejected (reason : string).

Definition client_error_from (e : ValidationClientError) : LedgerError :=
  match e with
  | Unavailable reason => ValidatorUnavailable reason
  | Rejected reason => ValidatorError reason
  end.

#[global] Arguments cut_back : simpl never.

(** ** Messages *)
Section messages.
Implicit Types (m : bytes) (v : ViolationSummary).

Lemma clean_char_piece cp : char_piece cp → char_piece (clean_char cp).
Proof.
  unfold clean_char. destruct (is_control cp.1); [|done]. intros _.
  split; [done|]. by exists x20, [].
Qed.

Lemma clean_char_control cp : is_control (clean_char cp).1 = false.
Proof. unfold clean_char. by destruct (is_control cp.1) eqn:E. Qed.

Lemma cut_back_spec s n : is_char_boundary s (cut_back s n) = true ∧ cut_back s n ≤ n.
Proof.
  induction n as [|n IH]; unfold cut_back; fold cut_back; [done|].
  destruct (is_char_boundary s (S n)) eqn:E; [by split; [|lia]|]. split; [apply IH|]. lia.
Qed.

Lemma cut_back_boundary s n : is_char_boundary s n = true → cut_back s n = n.
Proof. destruct n; unfold cut_back; fold cut_back; [done|]. by intros ->. Qed.

(** A bounded message is a UTF-8 string within the protocol cap, without control characters. *)
Definition message_ok m : Prop :=
  utf8 m ∧ length m ≤ MAX_VIOLATION_MESSAGE_BYTES ∧ has_control m = false.

Lemma clean_pieces_control ps : existsb is_control (clean_char <$> ps).*1 = false.
Proof.
  induction ps as [|cp ps IH]; [done|]. rewrite !fmap_cons. cbn [existsb].
  by rewrite clean_char_control.
Qed.

Lemma bound_message_ok m : utf8 m → message_ok (bound_message m).
Proof.
  intros (ps & Hps & Hm & Hp)%char_slices_valid. unfold bound_message, clean_message. rewrite Hps.
  set (qs := clean_char <$> ps). set (n := Nat.min (length (concat qs.*2)) MAX_VIOLATION_MESSAGE_BYTES).
  assert (Forall char_piece qs) as Hq.
  { apply Forall_fmap. eapply Forall_weaken; [exact Hp|]. apply clean_char_piece. }
  destruct (cut_back_spec (concat qs.*2) n) as [Hb Hle].
  destruct (boundary_split qs (cut_back (concat qs.*2) n)) as (k & Hk); [done|lia|done|].
  rewrite Hk. assert (Forall char_piece (take k qs)) as Hqk by (by apply Forall_take).
  split; [by apply pieces_valid|]. split.
  - rewrite <-Hk, length_take. lia.
  - rewrite pieces_control by done. apply existsb_false.
    rewrite fmap_take. apply Forall_take. apply existsb_false, clean_pieces_control.
Qed.

Lemma clean_pieces_id ps : existsb is_control ps.*1 = false → clean_char <$> ps = ps.
Proof.
  induction ps as [|cp ps IH]; [done|]. rewrite !fmap_cons. cbn [existsb].
  intros [Hc Hr]%orb_false_iff. rewrite IH by done. unfold clean_char. by rewrite Hc.
Qed.

Lemma bound_message_id m : message_ok m → bound_message m = m.
Proof.
  intros (Hu & Hl & Hc). apply char_slices_valid in Hu as (ps & Hps & Hm & Hp).
  rewrite Hm, pieces_control in Hc by done.
  assert (clean_message m = m) as Hid.
  { unfold clean_message. by rewrite Hps, clean_pieces_id, <-Hm. }
  unfold bound_message. rewrite Hid, Nat.min_l by done.
  rewrite cut_back_boundary by apply boundary_full. by apply take_ge.
Qed.

Lemma bound_violation_wf v : vs_wf v → vs_wf (bound_violation v) ∧ message_ok (vmessage (bound_violation v)).
Proof.
  intros (Hs & Hc & Hm). pose proof (bound_message_ok _ Hm) as Hok.
  split; [|done]. by split_and!; [..|apply Hok].
Qed.

Lemma bound_violation_id v : message_ok (vmessage v) → bound_violation v = v.
Proof. intros Hm. unfold bound_violation. rewrite bound_message_id by done. by destruct v. Qed.
End messages.

(** ** Sorting and de-duplicating by key *)
Section by_key.
Context {A : Type}.
Implicit Types (x : bytes * A) (l : list (bytes * A)).

Lemma elem_of_key_insert x y l : x ∈ key_insert y l ↔ x = y ∨ x ∈ l.
Proof.
  induction l as [|z l IH]; cbn [key_insert]; [by rewrite list_elem_of_singleton, elem_of_nil; tauto|].
  destruct (cmp y.1 z.1); rewrite ?elem_of_cons, ?IH; tauto.
Qed.

Lemma elem_of_sort_by_key x l : x ∈ sort_by_key l ↔ x ∈ l.
Proof.
  induction l as [|y l IH]; [done|]. unfold sort_by_key in *. cbn [foldr].
  rewrite elem_of_key_insert, elem_of_cons, IH. tauto.
Qed.

Abbreviation key_sorted := (StronglySorted (λ a b : bytes * A, le_of a.1 b.1)).

Lemma key_insert_sorted x l : key_sorted l → key_sorted (key_insert x l).
Proof.
  induction 1 as [|y l Hl IH Hy]; cbn [key_insert]; [by repeat constructor|].
  destruct (cmp_cases x.1 y.1) as [[Heq ->]|[[Hlt ->]|[Hgt ->]]].
  - constructor; [by constructor|]. constructor; [apply le_of_lt_eq; by left|].
    by rewrite Heq.
  - constructor; [by constructor|].
    assert (le_of x.1 y.1) as Hle by (apply le_of_lt_eq; by right).
    constructor; [done|]. eapply Forall_weaken; [exact Hy|]. intros z Hz. by apply (le_of_trans _ y.1).
  - constructor; [done|]. rewrite Forall_forall in Hy |- *.
    intros z [->|Hz]%elem_of_key_insert; [apply le_of_lt_eq; by right|by apply Hy].
Qed.

Lemma sort_by_key_sorted l : key_sorted (sort_by_key l).
Proof. induction l as [|x l IH]; [constructor|]. by apply key_insert_sorted. Qed.

(** What is kept: only input entries, strictly ascending keys, every key present once. *)
Lemma dedup_by_key_spec kept l : key_sorted l →
  opt_all (λ k, Forall (λ x, le_of k x.1) l) kept →
  ascending (dedup_by_key kept l).*1 ∧
  opt_all (λ k, Forall (lt_of k) (dedup_by_key kept l).*1) kept ∧
  (∀ x, x ∈ dedup_by_key kept l → x ∈ l) ∧
  (∀ x, x ∈ l → kept = Some x.1 ∨ x.1 ∈ (dedup_by_key kept l).*1).
Proof.
  revert kept. induction l as [|x l IH]; intros kept Hs Hk; cbn [dedup_by_key].
  { split_and!; [apply ascending_nil|by destruct kept; [apply Forall_nil|]|done|].
    by intros x ?%elem_of_nil. }
  apply StronglySorted_inv in Hs as [Hs Hx].
  case_bool_decide as Hkx.
  - subst kept. destruct (IH (Some x.1) Hs) as (A1 & A2 & A3 & A4); [done|].
    split_and!; [done|done|intros y Hy; right; by apply A3|].
    intros y [->|Hy]%elem_of_cons; [by left|by apply A4].
  - destruct (IH (Some x.1) Hs) as (A1 & A2 & A3 & A4); [done|]. cbn [opt_all] in A2.
    rewrite fmap_cons. split_and!.
    + by constructor.
    + destruct kept as [k|]; [|done]. cbn [opt_all] in *. apply Forall_cons in Hk as [Hk _].
      apply le_of_lt_eq in Hk as [->|Hlt]; [done|]. constructor; [done|].
      eapply Forall_weaken; [exact A2|]. intros z Hz. by apply (lt_of_trans _ x.1).
    + intros y [->|Hy]%elem_of_cons; [by left|right; by apply A3].
    + intros y [->|Hy]%elem_of_cons; right; [by left|].
      destruct (A4 y Hy) as [Heq|?]; [|by right]. injection Heq as ->. by left.
Qed.

Definition bucket (l : list (bytes * A)) : list (bytes * A) := dedup_by_key None (sort_by_key l).

Lemma bucket_spec l :
  (bucket l).*1 = bts_collect l.*1 ∧ (∀ x, x ∈ bucket l → x ∈ l).
Proof.
  destruct (dedup_by_key_spec None (sort_by_key l)) as (A1 & _ & A3 & A4);
    [apply sort_by_key_sorted|done|]. split.
  - apply ascending_ext; [done|apply bts_collect_ascending|]. intros k.
    rewrite elem_of_bts_collect. rewrite !list_elem_of_fmap. split.
    + intros (x & -> & Hx%A3). exists x. by rewrite <-elem_of_sort_by_key.
    + intros (x & -> & Hx). rewrite <-elem_of_sort_by_key in Hx. apply A4 in Hx as [?|Hx]; [done|].
      by apply list_elem_of_fmap in Hx as (y & ? & ?); exists y.
  - intros x Hx%A3. by rewrite elem_of_sort_by_key in Hx.
Qed.

(** An ascending list is its own bucket. *)
Lemma bucket_id l : ascending l.*1 → bucket l = l.
Proof.
  intros Ha. unfold bucket. replace (sort_by_key l) with l.
  - assert (∀ kept, opt_all (λ k, Forall (lt_of k) l.*1) kept → dedup_by_key kept l = l) as Hd;
      [|by apply Hd]. revert Ha. induction l as [|x l IH]; intros Ha kept Hk; [done|].
    rewrite fmap_cons in *. apply ascending_inv in Ha as [Ha Hx]. cbn [dedup_by_key].
    rewrite bool_decide_eq_false_2.
    + f_equal. by apply IH.
    + intros ->. cbn [opt_all] in Hk. apply Forall_cons in Hk as [Hk _]. by apply lt_of_irrefl in Hk.
  - induction l as [|x l IH]; [done|]. rewrite fmap_cons in Ha.
    apply ascending_inv in Ha as [Ha Hx]. unfold sort_by_key in *. cbn [foldr].
    rewrite <-IH by done. destruct l as [|y l]; [done|]. cbn [key_insert].
    rewrite fmap_cons in Hx. apply Forall_cons in Hx as [Hx _]. unfold lt_of in Hx. by rewrite Hx.
Qed.
End by_key.

(** ** The bounded summary *)
Section bounded_summary.
Implicit Types (v w : ViolationSummary) (l : list ViolationSummary) (r : ValidatorResponse).

(** Severity and code are what bounding leaves alone and validation still checks. *)
Definition labels_ok v : Prop := token_ok MAX_SEVERITY_BYTES (severity v) ∧ tok (code v).

(** The entries kept, in order. *)
Definition kept_summary l : list ViolationSummary :=
  (take MAX_VIOLATION_SUMMARY (bucket (keyed <$> l))).*2.

Lemma keyed_valid v : vs_valid v → keyed v = (vs_body v, v).
Proof. intros Hv. unfold keyed. by rewrite (proj2 (vs_canonical_bytes_Ok v (vs_body v))). Qed.

Lemma keyed_empty v : (keyed v).1 = [] → ¬ vs_valid v.
Proof. intros Hk Hv. rewrite keyed_valid in Hk by done. done. Qed.

Lemma keyed_invalid v : ¬ vs_valid v → (keyed v).1 = [].
Proof.
  intros Hv. unfold keyed. destruct (vs_canonical_bytes v) as [bs|e|m] eqn:E; [|done..].
  by apply vs_canonical_bytes_Ok in E as [? _].
Qed.

Lemma elem_of_bucket_keyed x l : x ∈ bucket (keyed <$> l) → x = keyed x.2 ∧ x.2 ∈ l.
Proof.
  intros Hx. apply bucket_spec in Hx. by apply list_elem_of_fmap in Hx as (v & -> & Hv).
Qed.

Lemma kept_sub v l : v ∈ kept_summary l → v ∈ l.
Proof.
  unfold kept_summary. rewrite list_elem_of_fmap. intros (x & -> & Hx).
  apply elem_of_take in Hx as (i & Hx & _). apply list_elem_of_lookup_2 in Hx.
  by apply elem_of_bucket_keyed in Hx as [_ ?].
Qed.

Lemma kept_length l : length (kept_summary l) ≤ MAX_VIOLATION_SUMMARY.
Proof. unfold kept_summary. rewrite length_fmap, length_take. lia. Qed.

Lemma keyed_kept l : keyed <$> kept_summary l = take MAX_VIOLATION_SUMMARY (bucket (keyed <$> l)).
Proof.
  unfold kept_summary. rewrite <-list_fmap_compose.
  assert (Forall (λ x, x = keyed x.2) (take MAX_VIOLATION_SUMMARY (bucket (keyed <$> l)))) as Hf.
  { apply Forall_take, Forall_forall. intros x Hx. by apply elem_of_bucket_keyed in Hx as [? _]. }
  induction Hf as [|x k Hx Hk IH]; [done|]. rewrite fmap_cons, IH. unfold compose. by rewrite <-Hx.
Qed.

Lemma ascending_take (k : list bytes) n : ascending k → ascending (take n k).
Proof.
  intros Ha. rewrite <-(take_drop n k) in Ha. by apply ascending_app_inv in Ha as [? _].
Qed.

Lemma kept_keys l :
  (keyed <$> kept_summary l).*1 = take MAX_VIOLATION_SUMMARY (bts_collect (keyed <$> l).*1).
Proof. rewrite keyed_kept, fmap_take. by rewrite (proj1 (bucket_spec _)). Qed.

Lemma kept_idempotent l : kept_summary (kept_summary l) = kept_summary l.
Proof.
  assert (bucket (keyed <$> kept_summary l) = keyed <$> kept_summary l) as Hb.
  { apply bucket_id. rewrite kept_keys. apply ascending_take, bts_collect_ascending. }
  unfold kept_summary at 1. rewrite Hb, take_ge by (rewrite length_fmap; apply kept_length).
  rewrite <-list_fmap_compose. apply list_fmap_id.
Qed.

Lemma keyed_valid_keys l : Forall vs_valid l → (keyed <$> l).*1 = vs_body <$> l.
Proof.
  induction 1 as [|v l Hv Hl IH]; [done|]. rewrite !fmap_cons, IH. by rewrite keyed_valid.
Qed.

Lemma kept_valid l : Forall vs_valid l → Forall vs_valid (kept_summary l).
Proof. rewrite !Forall_forall. intros Hv v Hin%kept_sub. auto. Qed.

(** With valid entries, the first entries of the canonical set are kept. *)
Lemma kept_canonical l : Forall vs_valid l →
  vs_body <$> kept_summary l = take MAX_VIOLATION_SUMMARY (canonical_set (vs_body <$> l)).
Proof.
  intros Hv. rewrite <-(keyed_valid_keys (kept_summary l)) by (by apply kept_valid).
  rewrite kept_keys, keyed_valid_keys by done. by rewrite canonical_set_collect.
Qed.

(** An entry with bad labels is never dropped silently: one stays, and validation refuses. *)
Lemma kept_invalid l : Forall vs_valid (kept_summary l) → Forall vs_valid l.
Proof.
  intros Hk. apply Forall_forall. intros v Hin. destruct (decide ((keyed v).1 = [])) as [He|He].
  2: { unfold keyed in He. destruct (vs_canonical_bytes v) as [bs|e|m] eqn:E; [|done..].
       by apply vs_canonical_bytes_Ok in E as [? _]. }
  exfalso. assert ([] ∈ (bucket (keyed <$> l)).*1) as Hb.
  { rewrite (proj1 (bucket_spec _)), elem_of_bts_collect, <-He. by do 2 apply list_elem_of_fmap_2. }
  pose proof (bts_collect_ascending (keyed <$> l).*1) as Ha.
  rewrite <-(proj1 (bucket_spec _)) in Ha.
  destruct (bucket (keyed <$> l)) as [|x k] eqn:Hbk; [by apply elem_of_nil in Hb|].
  assert (x.1 = []) as Hx.
  { rewrite fmap_cons in Ha, Hb. apply (ascending_head_least _ []) in Ha as [->|Hlt]; [done| |done].
    by destruct x.1. }
  assert (x.2 ∈ kept_summary l) as Hx2.
  { unfold kept_summary. rewrite Hbk. by left. }
  rewrite Forall_forall in Hk. apply (keyed_empty x.2); [|by apply Hk].
  assert (x ∈ bucket (keyed <$> l)) as Hin' by (rewrite Hbk; by left).
  apply elem_of_bucket_keyed in Hin' as [<- _]. done.
Qed.

Lemma with_bounded_violations r :
  violations (rs_outcome (with_bounded_summary r)) =
  kept_summary (bound_violation <$> violations (rs_outcome r)).
Proof. done. Qed.

Lemma bounded_valid v : vs_wf v → vs_valid (bound_violation v) ↔ labels_ok v.
Proof.
  intros (_ & Hm)%bound_violation_wf. destruct Hm as (_ & Hl & Hc). split.
  - intros [Hs Hk _ _]. done.
  - intros [Hs Hk]. by split.
Qed.

Lemma bounded_valid_all l : Forall vs_wf l →
  Forall vs_valid (bound_violation <$> l) ↔ Forall labels_ok l.
Proof.
  rewrite Forall_fmap, !Forall_forall. intros Hwf. unfold compose. split; intros H v Hin.
  - apply bounded_valid; auto.
  - apply bounded_valid; auto.
Qed.

(** The bounded outcome validates exactly when the labels and the count are right. *)
Lemma bounded_outcome_valid r : Forall vs_wf (violations (rs_outcome r)) →
  let kept := kept_summary (bound_violation <$> violations (rs_outcome r)) in
  outcome_validate (rs_outcome (with_bounded_summary r)) = Ok tt ↔
    Forall labels_ok (violations (rs_outcome r)) ∧
    (kind (rs_outcome r) = Violations → violation_count (rs_outcome r) ≠ 0%Z) ∧
    (Z.of_nat (length kept) ≤ violation_count (rs_outcome r))%Z.
Proof.
  intros Hwf kept. rewrite outcome_validate_Ok.
  assert (Forall vs_valid kept →
          length (summary_set (rs_outcome (with_bounded_summary r))) = length kept) as Hlen.
  { intros Hv. rewrite summary_set_canonical; [by rewrite length_fmap|].
    rewrite with_bounded_violations, kept_canonical by (by apply kept_invalid).
    rewrite canonical_set_collect. apply ascending_take, bts_collect_ascending. }
  split.
  - intros [Hv Hk Hb Hc]. change (Forall vs_valid kept) in Hv.
    rewrite Hlen in Hc by done. split_and!; [|done|done].
    by apply bounded_valid_all, kept_invalid.
  - intros (Hl & Hk & Hc). apply bounded_valid_all in Hl; [|done]. apply kept_valid in Hl.
    split; [done|done|rewrite Hlen by done; apply kept_length|by rewrite Hlen].
Qed.

(** C25. Bounding a validator's summary is deterministic formatting. Whatever the validator
    reports: at most 64 entries remain, every message is UTF-8 of at most 1024 bytes without
    control characters; verdict, count and the rest of the response are untouched; bounding
    twice is bounding once; the result validates exactly when every reported severity and
    code is a valid token, a violations verdict has a count, and the kept entries do not
    exceed it, so an invalid entry is never bounded away; and for valid labels the kept
    entries are the first 64 of the canonical set, whatever order they were reported in. *)
Theorem bounded_summary_correct r :
  Forall vs_wf (violations (rs_outcome r)) →
  let r' := with_bounded_summary r in
  let kept := violations (rs_outcome r') in
  (length kept ≤ 64 ∧ Forall (λ v, message_ok (vmessage v)) kept) ∧
  (rs_protocol r' = rs_protocol r ∧ rs_candidate_commit r' = rs_candidate_commit r ∧
   rs_candidate_state_digest r' = rs_candidate_state_digest r ∧ rs_context r' = rs_context r ∧
   rs_report r' = rs_report r ∧ kind (rs_outcome r') = kind (rs_outcome r) ∧
   violation_count (rs_outcome r') = violation_count (rs_outcome r)) ∧
  with_bounded_summary r' = r' ∧
  (outcome_validate (rs_outcome r') = Ok tt ↔
     Forall labels_ok (violations (rs_outcome r)) ∧
     (kind (rs_outcome r) = Violations → violation_count (rs_outcome r) ≠ 0%Z) ∧
     (Z.of_nat (length kept) ≤ violation_count (rs_outcome r))%Z) ∧
  (Forall labels_ok (violations (rs_outcome r)) →
     vs_body <$> kept =
     take 64 (canonical_set (vs_body <$> (bound_violation <$> violations (rs_outcome r))))).
Proof.
  intros Hwf. cbv zeta. rewrite with_bounded_violations.
  set (l := violations (rs_outcome r)) in *. set (bl := bound_violation <$> l).
  assert (Forall (λ v, message_ok (vmessage v)) (kept_summary bl)) as Hmsg.
  { apply Forall_forall. intros v Hin%kept_sub. subst bl. apply list_elem_of_fmap in Hin as (w & -> & Hw).
    rewrite Forall_forall in Hwf. by apply bound_violation_wf, Hwf. }
  split_and!; try done.
  - apply kept_length.
  - unfold with_bounded_summary. cbn [rs_protocol rs_candidate_commit rs_candidate_state_digest
      rs_context rs_outcome rs_report kind violation_count violations]. fold l bl. f_equal. f_equal.
    change (kept_summary (bound_violation <$> kept_summary bl) = kept_summary bl).
    replace (bound_violation <$> kept_summary bl) with (kept_summary bl); [apply kept_idempotent|].
    clear -Hmsg. induction Hmsg as [|v k Hv Hk IH]; [done|].
    rewrite fmap_cons, bound_violation_id by done. by rewrite <-IH.
  - by apply bounded_outcome_valid.
  - intros Hl. apply bounded_valid_all in Hl; [|done]. by apply kept_canonical.
Qed.
End bounded_summary.

(** ** Hints *)
Section hints.
Implicit Types (r : RequestedContext) (e : EffectiveContext).

Definition pair_tok (p : bytes * bytes) : Prop := tok p.1 ∧ tok p.2.

Record hints_valid r : Prop := {
  hv_kb : opt_all (λ kb, pair_tok (kb_pair kb)) (rq_base_kb r);
  hv_ontology : opt_all (λ o, pair_tok (ontology_pair o)) (rq_ontology r);
  hv_shapes : opt_all (λ s, pair_tok (shapes_pair s)) (rq_shapes r);
  hv_profile : opt_all tok (rq_reasoning_profile r);
  hv_sources : opt_all tok (rq_sources_revision r)
}.

Lemma requested_validate_Ok r u : requested_validate r = Ok u ↔ hints_valid r.
Proof.
  unfold requested_validate. etrans; [checks|]. split.
  - intros (?&?&?&?&?). by split.
  - by intros [].
Qed.

Definition wire_pair (a : option (bytes * bytes)) : bytes :=
  match a with
  | None => [TAG_ABSENT]
  | Some (x, y) => TAG_PRESENT :: wire_field x ++ wire_field y
  end.

Lemma writes_pair a :
  writes (hint_pair a) (wire_pair a) (opt_all (λ p, fits_u32 p.1 ∧ fits_u32 p.2) a).
Proof.
  unfold hint_pair, wire_pair. destruct a as [[x y]|]; cbn [opt_all fst snd].
  - eapply writes_ext; [solve_writes|done|]. by cbn [app].
  - intros out out'. split; [by intros [= <-]|by intros [_ ->]].
Qed.

Definition hints_body r : bytes :=
  wire_pair (kb_pair <$> rq_base_kb r) ++ wire_pair (ontology_pair <$> rq_ontology r) ++
  wire_pair (shapes_pair <$> rq_shapes r) ++ wire_opt (rq_reasoning_profile r) ++
  wire_opt (rq_sources_revision r) ++ [].

Lemma hint_pair_fits {A} (f : A → bytes * bytes) o :
  opt_all (λ a, pair_tok (f a)) o → opt_all (λ p, fits_u32 p.1 ∧ fits_u32 p.2) (f <$> o).
Proof.
  intros Ho. apply opt_all_fmap. eapply opt_all_weaken; [|exact Ho].
  intros a [? ?]. split; by apply tok_fits.
Qed.

Lemma encode_into_Ok r out bs :
  encode_into r out = Ok bs ↔ hints_valid r ∧ bs = out ++ hints_body r.
Proof.
  unfold encode_into. apply check_then_Ok; [apply requested_validate_Ok|].
  intros [H1 H2 H3 H4 H5].
  assert (writes (λ out, out ← hint_pair (kb_pair <$> rq_base_kb r) out;
    out ← hint_pair (ontology_pair <$> rq_ontology r) out;
    out ← hint_pair (shapes_pair <$> rq_shapes r) out;
    out ← opt out (rq_reasoning_profile r); out ← opt out (rq_sources_revision r); Ok out)
    (hints_body r) True) as Hw.
  { eapply writes_ext; [do 3 (eapply writes_bind; [apply writes_pair|]); solve_writes| |done].
    pose proof (hint_pair_fits _ _ H1). pose proof (hint_pair_fits _ _ H2).
    pose proof (hint_pair_fits _ _ H3). pose proof (opt_token_fits _ _ H4).
    pose proof (opt_token_fits _ _ H5). assert (Z.of_nat MAX_IDENTIFIER_BYTES ≤ u32_max)%Z by done.
    tauto. }
  rewrite (Hw out bs). tauto.
Qed.

Lemma wire_pair_inj a b t t' :
  opt_all (λ p, fits_u32 p.1 ∧ fits_u32 p.2) a → opt_all (λ p, fits_u32 p.1 ∧ fits_u32 p.2) b →
  wire_pair a ++ t = wire_pair b ++ t' → a = b ∧ t = t'.
Proof.
  destruct a as [[x y]|], b as [[x' y']|]; cbn [opt_all fst snd wire_pair]; intros Ha Hb Heq.
  - cbn [app] in Heq. rewrite <-!app_assoc in Heq.
    assert (wire_field x ++ wire_field y ++ t = wire_field x' ++ wire_field y' ++ t') as Hf by congruence.
    apply wire_field_inj in Hf as [-> Hf]; [|tauto..].
    apply wire_field_inj in Hf as [-> ->]; [done|tauto..].
  - done.
  - done.
  - split; [done|]. cbn [app] in Heq. congruence.
Qed.

Lemma opt_fmap_inj {A B} (f : A → B) (o o' : option A) :
  (∀ a b, f a = f b → a = b) → f <$> o = f <$> o' → o = o'.
Proof.
  intros Hf. destruct o as [a|], o' as [b|]; cbn; [|done..].
  intros Heq. f_equal. apply Hf. congruence.
Qed.

(** C26. The hint encoding that enters request identity is a prefix code: exactly the valid
    hints are encoded, and two encodings that agree, whatever follows them, come from the same
    hints, so a present hint, its absence and its value are all request identity. *)
Theorem hint_encoding_binding r r' (out t t' bs bs' : bytes) :
  (requested_validate r = Ok tt ↔ ∃ bs, encode_into r out = Ok bs) ∧
  (encode_into r out = Ok bs → encode_into r' out = Ok bs' → bs ++ t = bs' ++ t' →
   r = r' ∧ t = t').
Proof.
  split.
  { rewrite requested_validate_Ok. setoid_rewrite encode_into_Ok. naive_solver. }
  intros [[A1 A2 A3 A4 A5] ->]%encode_into_Ok [[B1 B2 B3 B4 B5] ->]%encode_into_Ok Heq.
  rewrite <-!app_assoc in Heq. apply app_inv_head in Heq. unfold hints_body in Heq.
  rewrite <-!app_assoc in Heq.
  assert (∀ o : option bytes, opt_all tok o → opt_all fits_u32 o) as Hopt.
  { intros o Ho. eapply opt_all_weaken; [|exact Ho]. apply tok_fits. }
  apply wire_pair_inj in Heq as [E1 Heq]; [|by apply hint_pair_fits..].
  apply wire_pair_inj in Heq as [E2 Heq]; [|by apply hint_pair_fits..].
  apply wire_pair_inj in Heq as [E3 Heq]; [|by apply hint_pair_fits..].
  apply wire_opt_inj in Heq as [E4 Heq]; [|by apply Hopt..].
  apply wire_opt_inj in Heq as [E5 Heq]; [|by apply Hopt..].
  apply opt_fmap_inj in E1; [|intros [] [] [= -> ->]; done].
  apply opt_fmap_inj in E2; [|intros [] [] [= -> ->]; done].
  apply opt_fmap_inj in E3; [|intros [] [] [= -> ->]; done].
  split; [|done]. destruct r, r'; cbn in *. congruence.
Qed.

(** Every hint that is present is the value the validator used. *)
Definition honoured r e : Prop :=
  opt_all (λ kb, ec_base_kb e = kb) (rq_base_kb r) ∧
  opt_all (λ o, ec_ontology e = Some o) (rq_ontology r) ∧
  opt_all (λ s, ec_shapes e = s) (rq_shapes r) ∧
  opt_all (λ p, ∃ q, ec_reasoning e = Some q ∧ profile q = p) (rq_reasoning_profile r) ∧
  opt_all (λ v, ec_sources_revision e = Some v) (rq_sources_revision r).

Lemma differs_false {A} `{EqDecision A} (o : option A) v :
  differs o v = false ↔ opt_all (λ h, v = h) o.
Proof. destruct o; cbn; [case_bool_decide; naive_solver|done]. Qed.

Lemma some_differs_false {A} `{EqDecision A} (o o' : option A) :
  bool_decide (o ≠ None) && bool_decide (o ≠ o') = false ↔ opt_all (λ h, o' = Some h) o.
Proof.
  destruct o as [a|]; cbn [opt_all]; [|done]. rewrite bool_decide_eq_true_2 by done. cbn [andb].
  rewrite bool_decide_eq_false. split; [intros Hn|intros -> ?; congruence].
  destruct (decide (Some a = o')); [done|tauto].
Qed.

Lemma unmet_by_None r e : unmet_by r e = None ↔ honoured r e.
Proof.
  unfold unmet_by, honoured.
  rewrite <-differs_false, <-(some_differs_false (rq_ontology r)), <-differs_false,
    <-(some_differs_false (rq_sources_revision r)).
  destruct (differs (rq_base_kb r) _); [split; [done|by intros [? _]]|].
  destruct (_ && _); [split; [done|by intros (_ & ? & _)]|].
  destruct (differs (rq_shapes r) _); [split; [done|by intros (_ & _ & ? & _)]|].
  assert (match rq_reasoning_profile r with
          | Some p => bool_decide (profile <$> ec_reasoning e ≠ Some p) | None => false end = false ↔
          opt_all (λ p, ∃ q, ec_reasoning e = Some q ∧ profile q = p) (rq_reasoning_profile r)) as <-.
  { destruct (rq_reasoning_profile r) as [p|]; cbn [opt_all]; [|done].
    rewrite bool_decide_eq_false. destruct (ec_reasoning e) as [q|]; cbn.
    - split; [intros Hn|intros (? & [= <-] & <-) Hn; by apply Hn].
      exists q. split; [done|]. destruct (decide (profile q = p)); [done|].
      exfalso. apply Hn. congruence.
    - split; [intros Hn; exfalso; by apply Hn|by intros (? & ? & _)]. }
  destruct (match rq_reasoning_profile r with Some _ => _ | None => _ end);
    [split; [done|by intros (_ & _ & _ & ? & _)]|].
  destruct (bool_decide (rq_sources_revision r ≠ None) && _); [split; [done|by intros (_&_&_&_&?)]|].
  done.
Qed.
End hints.

(** ** Accepting a response *)
(** The context a response describes, under the ledger's own names. *)
Definition response_context (r : ValidatorResponse) (graph : GraphId) (candidate : CommitId)
    (state_digest : ContentId) (service : bytes) : SemanticExecutionContext :=
  let e := rs_context r in
  mkSemanticExecutionContext graph candidate state_digest (ec_base_kb e) (ec_ontology e)
    (ec_shapes e) (ec_reasoning e) (ec_sources_revision e) (ec_virtual_contexts e)
    (mkValidatorIdentity service (vv_service_version (ec_validator e))
       (vv_configuration_version (ec_validator e))).

(** C27. [into_context] accepts a response exactly when it speaks the response protocol,
    names the candidate and the state the ledger asked about, honours every hint that was
    set, and carries a valid context, outcome and report reference; it then returns that
    context under the graph, candidate, digest and service identity of the ledger, never of
    the response, and the context has canonical bytes. *)
Theorem into_context_correct (r : ValidatorResponse) (g : GraphId) (candidate : CommitId)
    (digest : ContentId) (service : bytes) (rq : RequestedContext) :
  ctx_wf (response_context r g candidate digest service) →
  (∀ x, into_context r g candidate digest service rq = Ok x ↔
     rs_protocol r = VALIDATION_RESPONSE_PROTOCOL ∧ rs_candidate_commit r = candidate ∧
     rs_candidate_state_digest r = digest ∧ honoured rq (rs_context r) ∧
     x = response_context r g candidate digest service ∧ ctx_valid x ∧
     outcome_valid (rs_outcome r) ∧
     opt_all (token_ok MAX_REPORT_REFERENCE_BYTES) (report_reference (rs_report r))) ∧
  (∀ x, into_context r g candidate digest service rq = Ok x →
     ∃ bs, ctx_canonical_bytes x = Ok bs).
Proof.
  intros Hwf.
  assert (∀ x, into_context r g candidate digest service rq = Ok x ↔
     rs_protocol r = VALIDATION_RESPONSE_PROTOCOL ∧ rs_candidate_commit r = candidate ∧
     rs_candidate_state_digest r = digest ∧ honoured rq (rs_context r) ∧
     x = response_context r g candidate digest service ∧ ctx_valid x ∧
     outcome_valid (rs_outcome r) ∧
     opt_all (token_ok MAX_REPORT_REFERENCE_BYTES) (report_reference (rs_report r))) as Hiff.
  { intros x. unfold into_context.
    case_bool_decide as H1; cbn [negb]; [|split; [done|tauto]].
    case_bool_decide as H2; cbn [negb]; [|split; [done|tauto]].
    case_bool_decide as H3; cbn [negb]; [|split; [done|tauto]].
    rewrite <-unmet_by_None. destruct (unmet_by rq (rs_context r)) as [h|]; [split; [done|by intros (_&_&_&?&_)]|].
    cbv zeta. fold (response_context r g candidate digest service).
    rewrite (check_bind_Ok _ _ (ctx_valid (response_context r g candidate digest service)))
      by (intros u; apply ctx_validate_Ok, Hwf).
    rewrite (check_bind_Ok _ _ (outcome_valid (rs_outcome r))) by apply outcome_validate_Ok.
    rewrite (check_bind_Ok _ _ (opt_all (token_ok MAX_REPORT_REFERENCE_BYTES) (report_reference (rs_report r)))).
    2: { intros u. apply if_some_Ok. intros a ?. unfold lift. rewrite map_err_Ok. apply validate_token_Ok. }
    split; [intros (?&?&?&[= <-]); tauto|]. intros (_&_&_&_&->&?&?&?). tauto. }
  split; [done|]. intros x (_ & _ & _ & _ & -> & Hv & _)%Hiff. eexists.
  by apply ctx_canonical_bytes_Ok.
Qed.
