(* ===== verification/Projection.v ===== *)
(** * Accepted-state projection: target identity, marker and decision table

    Source: [crates/ledger-projection/src/{error,target,marker,plan,lib}.rs]: what a
    projection target carries about the ledger state it represents, and what a projector
    must do after observing it. The [ProjectionClient] trait is an interface; its adapters
    are elsewhere. *)

From Stdlib Require Import ZArith Lia String Strings.Byte.
From stdpp Require Import base gmap countable list strings.
From S2P Require Import Prelude BTree Bytes Text Core Identity Rdf Encoding.

Local Open Scope ledger_scope.

(** ** Errors ([error.rs]) *)
Inductive ErrorClass := Retryable | Permanent.

Inductive ProjectionErrorCode :=
  | TargetUnavailable
  | TargetTimeout
  | TargetThrottled
  | TargetServerError
  | TargetAuth
  | TargetProtocol
  | TargetNotTransactional
  | NamedGraphUnsupported
  | StateTooLarge
  | MarkerAhead
  | VerificationFailed
  | InvalidTargetGraph
  | LedgerUnavailable
  | LedgerState
  | TargetConflict.

#[export] Instance ErrorClass_eq_dec : EqDecision ErrorClass.
Proof. solve_decision. Defined.
#[export] Instance ProjectionErrorCode_eq_dec : EqDecision ProjectionErrorCode.
Proof. solve_decision. Defined.

(** [ProjectionErrorCode::as_str] *)
Definition error_code_str (c : ProjectionErrorCode) : bytes :=
  match c with
  | TargetUnavailable => B "TARGET_UNAVAILABLE"
  | TargetTimeout => B "TARGET_TIMEOUT"
  | TargetThrottled => B "TARGET_THROTTLED"
  | TargetServerError => B "TARGET_SERVER_ERROR"
  | TargetAuth => B "TARGET_AUTH"
  | TargetProtocol => B "TARGET_PROTOCOL"
  | TargetNotTransactional => B "TARGET_NOT_TRANSACTIONAL"
  | NamedGraphUnsupported => B "NAMED_GRAPH_UNSUPPORTED"
  | StateTooLarge => B "STATE_TOO_LARGE"
  | MarkerAhead => B "MARKER_AHEAD"
  | VerificationFailed => B "VERIFICATION_FAILED"
  | InvalidTargetGraph => B "INVALID_TARGET_GRAPH"
  | LedgerUnavailable => B "LEDGER_UNAVAILABLE"
  | LedgerState => B "LEDGER_STATE"
  | TargetConflict => B "TARGET_CONFLICT"
  end.

(** [ProjectionErrorCode::ALL] *)
Definition ALL_CODES : list ProjectionErrorCode :=
  [TargetUnavailable; TargetTimeout; TargetThrottled; TargetServerError; TargetAuth;
   TargetProtocol; TargetNotTransactional; NamedGraphUnsupported; StateTooLarge; MarkerAhead;
   VerificationFailed; InvalidTargetGraph; LedgerUnavailable; LedgerState; TargetConflict].

(** [struct ProjectionError]; the message is human-readable text. *)
Record ProjectionError := mkProjectionError {
  pe_class : ErrorClass; pe_code : ProjectionErrorCode; pe_message : Reason
}.
#[export] Instance ProjectionError_eq_dec : EqDecision ProjectionError.
Proof. solve_decision. Defined.

Definition permanent (code : ProjectionErrorCode) (message : Reason) : ProjectionError :=
  mkProjectionError Permanent code message.
Definition retryable (code : ProjectionErrorCode) (message : Reason) : ProjectionError :=
  mkProjectionError Retryable code message.
Definition is_retryable (e : ProjectionError) : bool := bool_decide (pe_class e = Retryable).

Abbreviation jresult := (result ProjectionError).

(** ** Target graph identity ([target.rs]) *)
Definition MARKER_GRAPH : bytes := B "urn:sculpin:ledger-projection:v1:markers".
Definition TARGET_SUBJECT : bytes := B "urn:sculpin:ledger-projection:v1:target".
Definition WRITE_SUBJECT : bytes := B "urn:sculpin:ledger-projection:v1:write".
Definition PROBE_GRAPH : bytes := B "urn:sculpin:ledger-projection:v1:probe".
Definition PREFIX : bytes := B "urn:sculpin:kb:".
Definition SUFFIX : bytes := B ":cognitive".

Definition unreserved (b : byte) : bool :=
  is_ascii_alphanumeric b ||
  (bool_decide (b = "-"%byte) || bool_decide (b = "."%byte) ||
   bool_decide (b = "_"%byte) || bool_decide (b = "~"%byte)).

(** One uppercase hexadecimal digit. *)
Definition hex_upper (d : Z) : byte := byte_of_Z (if (d <? 10)%Z then 48 + d else 55 + d).
Definition is_hex_upper (b : byte) : bool := is_ascii_digit b || in_range 65 (Z_of_byte b) 70.
Definition hex_value (b : byte) : Z :=
  if is_ascii_digit b then (Z_of_byte b - 48)%Z else (Z_of_byte b - 55)%Z.

(** One byte of [pct_encode]: itself, or [%XX]. *)
Definition pct_byte (b : byte) : bytes :=
  if unreserved b then [b]
  else ["%"%byte; hex_upper (Z.shiftr (Z_of_byte b) 4); hex_upper (Z.land (Z_of_byte b) 15)].

Definition pct_encode (value : bytes) : bytes := concat (pct_byte <$> value).

(** The loop of [pct_decode] over the bytes left. *)
Fixpoint pct_loop (s : bytes) : option bytes :=
  match s with
  | [] => Some []
  | b :: rest =>
      if bool_decide (b = "%"%byte) then
        match rest with
        | h :: l :: rest' =>
            if is_hex_upper h && is_hex_upper l then
              let byte := byte_of_Z (hex_value h * 16 + hex_value l) in
              if unreserved byte then None else cons byte <$> pct_loop rest'
            else None
        | _ => None
        end
      else if unreserved b then cons b <$> pct_loop rest
      else None
  end.

Definition pct_decode (value : bytes) : option bytes :=
  match pct_loop value with
  | Some out => if utf8_valid out then Some out else None
  | None => None
  end.

(** [struct CognitiveGraph(String)] *)
Record CognitiveGraph := mkCognitiveGraph { as_iri : bytes }.
#[export] Instance CognitiveGraph_eq_dec : EqDecision CognitiveGraph.
Proof. solve_decision. Defined.

(** [CognitiveGraph::for_knowledge_base] *)
Definition for_knowledge_base (knowledge_base_id : bytes) : jresult CognitiveGraph :=
  map_err (λ e, permanent InvalidTargetGraph (Rendered e))
    (validate_token "knowledge_base_id" knowledge_base_id MAX_IDENTIFIER_BYTES) ;;
  Ok (mkCognitiveGraph (PREFIX ++ pct_encode knowledge_base_id ++ SUFFIX)).

(** [CognitiveGraph::parse] *)
Definition cognitive_graph_parse (iri : bytes) : jresult CognitiveGraph :=
  let invalid := permanent InvalidTargetGraph
    (Prose "not a sculpin-ledger-projection/v1 cognitive graph IRI") in
  rest ← ok_or (strip_prefix PREFIX iri) invalid;
  encoded ← ok_or (strip_suffix SUFFIX rest) invalid;
  kb ← ok_or (pct_decode encoded) invalid;
  graph ← for_knowledge_base kb;
  if negb (bool_decide (as_iri graph = iri)) then Err invalid else Ok graph.

(** [CognitiveGraph::knowledge_base_id]: the slice between prefix and suffix, decoded. *)
Definition graph_knowledge_base_id (g : CognitiveGraph) : jresult bytes :=
  let encoded := take (length (as_iri g) - length SUFFIX - length PREFIX)
                   (drop (length PREFIX) (as_iri g)) in
  match pct_decode encoded with
  | Some kb => Ok kb
  | None => Panic "constructed from a valid id"
  end.

(** ** The marker ([marker.rs]) *)
Definition PROJECTION_PROTOCOL : bytes := B "sculpin-ledger-projection/v1".
Definition LP_NAMESPACE : bytes := B "urn:sculpin:ledger-projection:v1#".
Definition XSD_INTEGER : bytes := B "http://www.w3.org/2001/XMLSchema#integer".
Definition XSD_STRING : bytes := B "http://www.w3.org/2001/XMLSchema#string".
Definition MAX_BRANCH_BYTES : nat := 128.
Definition MAX_WRITE_ID_BYTES : nat := 128.

Definition marker_predicates : list bytes :=
  (λ local, LP_NAMESPACE ++ B local) <$>
  ["protocol"; "graphId"; "branch"; "commitId"; "refVersion"; "stateDigest"; "writeId";
   "tripleCount"]%string.

(** [ref_version] is an [i64], [triple_count] a [u64]. *)
Record ProjectionMarker := mkProjectionMarker {
  pm_graph_id : GraphId;
  pm_branch : bytes;
  pm_commit : CommitId;
  pm_ref_version : Z;
  pm_state_digest : ContentId;
  pm_triple_count : Z;
  pm_write_id : bytes
}.

Record MarkerTerm := mkMarkerTerm {
  mt_value : bytes;
  mt_datatype : option bytes;
  mt_is_literal : bool;
  mt_is_blank : bool;
  mt_language : option bytes
}.

Inductive MarkerRead :=
  | Absent
  | Malformed (reason : Reason)
  | Present (marker : ProjectionMarker).

#[export] Instance ProjectionMarker_eq_dec : EqDecision ProjectionMarker.
Proof. solve_decision. Defined.
#[export] Instance MarkerTerm_eq_dec : EqDecision MarkerTerm.
Proof. solve_decision. Defined.
#[export] Instance MarkerRead_eq_dec : EqDecision MarkerRead.
Proof. solve_decision. Defined.

(** [escape]: the four escaped characters are ASCII, so escaping bytes is escaping
    characters. *)
Definition escape_byte (b : byte) : bytes :=
  if bool_decide (b = "\"%byte) then B "\\"
  else if bool_decide (b = x22) then "\"%byte :: [x22]
  else if bool_decide (b = LF) then B "\n"
  else if bool_decide (b = CR) then B "\r"
  else [b].
Definition escape (value : bytes) : bytes := concat (escape_byte <$> value).

(** [i64::to_string] *)
Definition i64_str (n : Z) : bytes := if (n <? 0)%Z then "-"%byte :: dec (- n) else dec n.

Definition quoted (v : bytes) : bytes := [x22] ++ v ++ [x22].

(** [ProjectionMarker::triples] *)
Definition marker_triples (m : ProjectionMarker) (graph : CognitiveGraph) : list bytes :=
  let s := B "<" ++ as_iri graph ++ B ">" in
  let text v := quoted (escape v) in
  let int v := quoted v ++ B "^^<" ++ XSD_INTEGER ++ B ">" in
  let statement p o := s ++ B " <" ++ p ++ B "> " ++ o ++ B " ." in
  zip_with statement marker_predicates
    [text PROJECTION_PROTOCOL; text (graph_str (pm_graph_id m)); text (pm_branch m);
     text (commit_id_str (pm_commit m)); int (i64_str (pm_ref_version m));
     text (cid_str (pm_state_digest m)); text (pm_write_id m)].

(** The first loop of [parse_terms]: one slot per predicate. *)
Fixpoint collect_terms (pairs : list (bytes * MarkerTerm)) (values : list (option MarkerTerm))
    : result Reason (list (option MarkerTerm)) :=
  match pairs with
  | [] => Ok values
  | (predicate, term) :: pairs =>
      match list_find (λ p, p = predicate) marker_predicates with
      | None => Err (Prose "unexpected predicate on the marker subject")
      | Some (index, _) =>
          match values !! index with
          | Some None => collect_terms pairs (<[index := Some term]> values)
          | _ => Err (Composed (B "predicate " ++ predicate ++ B " appears more than once"))
          end
      end
  end.

Section closures.
Context (values : list (option MarkerTerm)).

(** [predicates[i]] *)
Definition predicate_at (i : nat) : bytes := default [] (marker_predicates !! i).

(** The closures [get], [string] and [integer] of [parse_terms]. *)
Definition get_term (i : nat) : result Reason MarkerTerm :=
  match values !! i with Some (Some t) => Ok t | _ => Err (Composed (B "missing " ++ predicate_at i)) end.

Definition string_at (i : nat) : result Reason bytes :=
  term ← get_term i;
  let plain := match mt_datatype term with
               | None => true
               | Some d => bool_decide (d = XSD_STRING)
               end && bool_decide (mt_language term = None) in
  if mt_is_literal term && plain then Ok (mt_value term)
  else Err (Composed (predicate_at i ++ B " is not a string literal")).

Definition canonical_integer (v : bytes) : bool :=
  negb (bool_decide (v = [])) && forallb is_ascii_digit v &&
  (bool_decide (v = B "0") || negb (starts_with (B "0") v)).

Definition integer_at (i : nat) : result Reason bytes :=
  term ← get_term i;
  if mt_is_literal term && bool_decide (mt_datatype term = Some XSD_INTEGER) &&
     canonical_integer (mt_value term)
  then Ok (mt_value term)
  else Err (Composed (predicate_at i ++ B " is not a canonical non-negative xsd:integer")).
End closures.

(** [str::parse] of a digit string into an integer type with maximum [max]. *)
Definition parse_int (max : Z) (s : bytes) (e : Reason) : result Reason Z :=
  if (dec_value s <=? max)%Z then Ok (dec_value s) else Err e.
Definition i64_max : Z := 9223372036854775807.
Definition u64_max : Z := 18446744073709551615.

(** [ProjectionMarker::parse_terms] *)
Definition parse_terms (pairs : list (bytes * MarkerTerm)) : result Reason ProjectionMarker :=
  values ← collect_terms pairs (replicate 8 None);
  protocol ← string_at values 0;
  if negb (bool_decide (protocol = PROJECTION_PROTOCOL)) then
    Err (Prose "unknown projection protocol")
  else
    s ← string_at values 1;
    graph_id ← map_err Rendered (graph_id_new s);
    branch ← string_at values 2;
    map_err Rendered (validate_token "branch" branch MAX_BRANCH_BYTES) ;;
    s ← string_at values 3;
    commit ← map_err Rendered (commit_id_from_str s);
    s ← integer_at values 4;
    ref_version ← parse_int i64_max s (Prose "refVersion out of range");
    if (ref_version <? 1)%Z then Err (Prose "refVersion must be >= 1")
    else
      s ← string_at values 5;
      state_digest ← map_err Rendered (content_id_from_str s);
      write_id ← string_at values 6;
      map_err Rendered (validate_token "writeId" write_id MAX_WRITE_ID_BYTES) ;;
      s ← integer_at values 7;
      triple_count ← parse_int u64_max s (Prose "tripleCount out of range");
      Ok (mkProjectionMarker graph_id branch commit ref_version state_digest triple_count
            write_id).

(** [ProjectionMarker::from_terms] *)
Definition from_terms (pairs : list (bytes * MarkerTerm)) : MarkerRead :=
  let write_id := default [] (marker_predicates !! 6) in
  if forallb (λ '(p, _), bool_decide (p = write_id)) pairs && (length pairs <=? 1)
  then Absent
  else match parse_terms pairs with
       | Ok marker => Present marker
       | Err reason => Malformed reason
       | Panic _ => Malformed (Prose "unreachable")
       end.

(** ** Projected states and observations ([lib.rs]) *)
Record ProjectedState := mkProjectedState { ps_triples : list bytes; ps_digest : ContentId }.

(** The loop of [ProjectedState::from_state]; [default_graph_triple] may panic on a quad
    that does not hold one N-Quad, which is a [Panic] here too. *)
Fixpoint project_triples `{OxRdf} (s : state) : jresult (list bytes) :=
  match s with
  | [] => Ok []
  | quad :: s =>
      match default_graph_triple quad with
      | Ok (Some triple) => rest ← project_triples s; Ok (triple :: rest)
      | Ok None =>
          Err (permanent NamedGraphUnsupported
            (Prose "the accepted state contains quads in a named graph"))
      | Err _ => Panic "default_graph_triple does not fail"
      | Panic m => Panic m
      end
  end.

(** [ProjectedState::from_state] *)
Definition from_state `{OxRdf, Sha256} (s : state) : jresult ProjectedState :=
  triples ← project_triples s;
  Ok (mkProjectedState triples (state_digest s)).

Definition triple_count (p : ProjectedState) : nat := length (ps_triples p).
Definition byte_len (p : ProjectedState) : nat :=
  sum_list_with (λ t, length t + 1) (ps_triples p).

Record Observation := mkObservation {
  ob_marker : MarkerRead;
  ob_triple_count : Z;
  ob_max_ref_version : option Z;
  ob_terms : list (bytes * MarkerTerm)
}.

Inductive WriteMode := Conditional | Replace.

(** ** The decision table ([plan.rs]) *)
Record LedgerView := mkLedgerView {
  lv_graph_id : GraphId;
  lv_branch : bytes;
  lv_target_commit : CommitId;
  lv_target_version : Z;
  lv_head_version : Z;
  lv_commit_at_marker_version : option CommitId;
  lv_recorded_version : option Z
}.

Inductive RebuildReason :=
  | MarkerMalformed
  | MarkerCommitMismatch
  | TripleCountMismatch
  | UnmarkedContent
  | TargetLost.

(** [RebuildReason::as_str] *)
Definition rebuild_reason_str (r : RebuildReason) : bytes :=
  match r with
  | MarkerMalformed => B "marker_malformed"
  | MarkerCommitMismatch => B "marker_commit_mismatch"
  | TripleCountMismatch => B "triple_count_mismatch"
  | UnmarkedContent => B "unmarked_content"
  | TargetLost => B "target_lost"
  end.

Inductive Plan :=
  | AlreadyProjected
  | AcknowledgeBeyond (commit : CommitId) (version : Z)
  | Write (rebuild : option RebuildReason)
  | RecoveryRequired (error : ProjectionError).

#[export] Instance RebuildReason_eq_dec : EqDecision RebuildReason.
Proof. solve_decision. Defined.
#[export] Instance Plan_eq_dec : EqDecision Plan.
Proof. solve_decision. Defined.

Definition plan (view : LedgerView) (observation : Observation) : Plan :=
  let rebuild reason := Write (Some reason) in
  match ob_marker observation with
  | Absent =>
      if (ob_triple_count observation =? 0)%Z then
        match lv_recorded_version view with
        | Some _ => rebuild TargetLost
        | None => Write None
        end
      else rebuild UnmarkedContent
  | Malformed _ =>
      if match ob_max_ref_version observation with
         | Some v => (lv_head_version view <? v)%Z
         | None => false
         end
      then RecoveryRequired (permanent MarkerAhead
             (Prose "the target's (malformed) marker names a ref version beyond the ledger head; an operator rebuild must decide (ADR-0020)"))
      else rebuild MarkerMalformed
  | Present marker =>
      if negb (bool_decide (pm_graph_id marker = lv_graph_id view)) ||
         negb (bool_decide (pm_branch marker = lv_branch view))
      then RecoveryRequired (permanent TargetConflict
             (Prose "the cognitive graph holds another stream's projection; an operator rebuild must decide (ADR-0020)"))
      else if (lv_head_version view <? pm_ref_version marker)%Z
      then RecoveryRequired (permanent MarkerAhead
             (Composed (B "the target marker names ref version " ++ i64_str (pm_ref_version marker) ++
                B " beyond the ledger head " ++ i64_str (lv_head_version view) ++
                B "; an operator rebuild must decide (ADR-0020)")))
      else if negb (bool_decide (lv_commit_at_marker_version view = Some (pm_commit marker)))
      then rebuild MarkerCommitMismatch
      else if negb (pm_triple_count marker =? ob_triple_count observation)%Z
      then rebuild TripleCountMismatch
      else if (pm_ref_version marker <? lv_target_version view)%Z then Write None
      else if (pm_ref_version marker =? lv_target_version view)%Z then AlreadyProjected
      else AcknowledgeBeyond (pm_commit marker) (pm_ref_version marker)
  end.

Definition write_mode (rebuild : option RebuildReason) : WriteMode :=
  match rebuild with None => Conditional | Some _ => Replace end.

#[global] Arguments pct_encode : simpl never.
#[global] Arguments PREFIX : simpl never.
#[global] Arguments SUFFIX : simpl never.

(** ** Percent-encoding is exactly invertible *)
Section percent.
Implicit Types (b : byte) (s v : bytes).

Lemma pct_loop_byte b r : pct_loop (pct_byte b ++ r) = cons b <$> pct_loop r.
Proof. destruct b; reflexivity. Qed.

Lemma pct_loop_encode v : pct_loop (pct_encode v) = Some v.
Proof.
  induction v as [|b v IH]; [done|]. unfold pct_encode in *. rewrite fmap_cons. cbn [concat].
  by rewrite pct_loop_byte, IH.
Qed.

Lemma hex_upper_value b : is_hex_upper b = true →
  (0 ≤ hex_value b < 16)%Z ∧ hex_upper (hex_value b) = b.
Proof. destruct b; intros Hb; try discriminate Hb; by vm_compute. Qed.

Lemma pct_byte_of_hex h l : is_hex_upper h = true → is_hex_upper l = true →
  let b := byte_of_Z (hex_value h * 16 + hex_value l) in
  unreserved b = false → pct_byte b = ["%"%byte; h; l].
Proof.
  intros [Hh Eh]%hex_upper_value [Hl El]%hex_upper_value b Hu. unfold pct_byte. rewrite Hu.
  assert (Z_of_byte b = hex_value h * 16 + hex_value l)%Z as Hb.
  { unfold b. rewrite Z_of_byte_of_Z, Z.mod_small; lia. }
  rewrite Hb, Z.shiftr_div_pow2 by lia. change 15%Z with (Z.ones 4). rewrite Z.land_ones by lia.
  change (2 ^ 4)%Z with 16%Z.
  replace ((hex_value h * 16 + hex_value l) / 16)%Z with (hex_value h) by (Z.div_mod_to_equations; lia).
  replace ((hex_value h * 16 + hex_value l) mod 16)%Z with (hex_value l) by (Z.div_mod_to_equations; lia).
  by rewrite Eh, El.
Qed.

Lemma pct_loop_Some s v : pct_loop s = Some v → s = pct_encode v.
Proof.
  revert v. induction s as [s IH] using (induction_ltof1 _ (@length byte)). unfold ltof in IH.
  intros v. destruct s as [|b rest]; cbn [pct_loop]; [by intros [= <-]|].
  case_bool_decide as Hb.
  - destruct rest as [|h [|l rest']]; [done..|].
    destruct (is_hex_upper h && is_hex_upper l) eqn:Hhl; [|done].
    apply andb_true_iff in Hhl as [Hh Hl].
    destruct (unreserved _) eqn:Hu; [done|].
    destruct (pct_loop rest') as [out|] eqn:Eo; [|done]. intros [= <-].
    apply IH in Eo; [|cbn; lia]. unfold pct_encode in *. rewrite fmap_cons. cbn [concat].
    rewrite pct_byte_of_hex by done. by rewrite Hb, Eo.
  - destruct (unreserved b) eqn:Hu; [|done].
    destruct (pct_loop rest) as [out|] eqn:Eo; [|done]. intros [= <-].
    apply IH in Eo; [|cbn; lia]. unfold pct_encode in *. rewrite fmap_cons. cbn [concat].
    unfold pct_byte at 1. by rewrite Hu, Eo.
Qed.

Lemma pct_decode_exact s v : pct_decode s = Some v ↔ utf8_valid v = true ∧ s = pct_encode v.
Proof.
  unfold pct_decode. split.
  - destruct (pct_loop s) as [out|] eqn:E; [|done]. destruct (utf8_valid out) eqn:Hu; [|done].
    intros [= <-]. split; [done|]. by apply pct_loop_Some.
  - intros [Hu ->]. by rewrite pct_loop_encode, Hu.
Qed.

Lemma for_knowledge_base_Ok kb g :
  for_knowledge_base kb = Ok g ↔
    token_ok MAX_IDENTIFIER_BYTES kb ∧ g = mkCognitiveGraph (PREFIX ++ pct_encode kb ++ SUFFIX).
Proof.
  unfold for_knowledge_base. rewrite (check_bind_Ok _ _ (token_ok MAX_IDENTIFIER_BYTES kb)).
  - naive_solver.
  - intros u. rewrite map_err_Ok. apply validate_token_Ok.
Qed.

Lemma for_knowledge_base_inj kb kb' g :
  for_knowledge_base kb = Ok g → for_knowledge_base kb' = Ok g → kb = kb'.
Proof.
  intros [_ ->]%for_knowledge_base_Ok [_ Heq]%for_knowledge_base_Ok.
  assert (pct_encode kb = pct_encode kb') as He.
  { assert (PREFIX ++ pct_encode kb ++ SUFFIX = PREFIX ++ pct_encode kb' ++ SUFFIX) as H by congruence.
    apply app_inv_head in H. by apply app_inv_tail in H. }
  apply (f_equal pct_loop) in He. rewrite !pct_loop_encode in He. congruence.
Qed.

Lemma parse_exact iri g :
  cognitive_graph_parse iri = Ok g ↔
    as_iri g = iri ∧ ∃ kb, utf8_valid kb = true ∧ for_knowledge_base kb = Ok g.
Proof.
  unfold cognitive_graph_parse. split.
  - intros Hp. inv_res. destruct (bool_decide (as_iri a2 = iri)) eqn:Hi; [|done]. cbn [negb] in Hp.
    bool_prop. injection Hp as <-. split; [done|]. exists a1. split; [|done].
    by apply pct_decode_exact in E1 as [? _].
  - intros [<- (kb & Hu & Hk)]. pose proof Hk as [Ht ->]%for_knowledge_base_Ok. cbn [as_iri].
    rewrite strip_prefix_app. run_res. rewrite (proj2 (strip_suffix_Some SUFFIX _ (pct_encode kb))) by done.
    run_res. rewrite (proj2 (pct_decode_exact _ kb)) by done. run_res. rewrite Hk. run_res.
    by rewrite bool_decide_eq_true_2.
Qed.

(** C28. The cognitive graph of a knowledge base is an exact, injective name: an IRI parses
    if and only if it is the one a valid UTF-8 knowledge-base id maps to; the id is recovered
    exactly and the recovery never panics; distinct ids get distinct graphs; and no reserved
    protocol IRI is a cognitive graph. *)
Theorem cognitive_graph_exact (iri : bytes) (g : CognitiveGraph) :
  (cognitive_graph_parse iri = Ok g ↔
     as_iri g = iri ∧ ∃ kb, utf8_valid kb = true ∧ for_knowledge_base kb = Ok g) ∧
  (∀ kb, utf8_valid kb = true → for_knowledge_base kb = Ok g → graph_knowledge_base_id g = Ok kb) ∧
  (∀ kb kb', for_knowledge_base kb = Ok g → for_knowledge_base kb' = Ok g → kb = kb') ∧
  Forall (λ reserved, is_ok (cognitive_graph_parse reserved) = false)
    [MARKER_GRAPH; TARGET_SUBJECT; WRITE_SUBJECT; PROBE_GRAPH].
Proof.
  split_and!.
  - apply parse_exact.
  - intros kb Hu [Ht ->]%for_knowledge_base_Ok. unfold graph_knowledge_base_id. cbn [as_iri].
    rewrite drop_app_length, !length_app.
    replace (length PREFIX + (length (pct_encode kb) + length SUFFIX) - length SUFFIX - length PREFIX)
      with (length (pct_encode kb)) by lia.
    rewrite take_app_length. by rewrite (proj2 (pct_decode_exact _ kb)).
  - intros kb kb'. apply for_knowledge_base_inj.
  - by repeat constructor.
Qed.
End percent.

(** ** The decision table never regresses a target *)
Section decision.
Implicit Types (v : LedgerView) (o : Observation) (m : ProjectionMarker).

(** The marker belongs to the stream being projected. *)
Definition own_stream v m : Prop := pm_graph_id m = lv_graph_id v ∧ pm_branch m = lv_branch v.

(** The marker is this stream's, within the ledger's history, and describes the graph. *)
Definition trusted v o m : Prop :=
  ob_marker o = Present m ∧ own_stream v m ∧ (pm_ref_version m ≤ lv_head_version v)%Z ∧
  lv_commit_at_marker_version v = Some (pm_commit m) ∧ pm_triple_count m = ob_triple_count o.

(** The target shows a version beyond the ledger head, in whatever pieces of a marker it has. *)
Definition names_beyond v o : Prop := ∃ n, ob_max_ref_version o = Some n ∧ (lv_head_version v < n)%Z.

(** Why a target is rebuilt. *)
Definition rebuilds v o (r : RebuildReason) : Prop :=
  match r with
  | TargetLost => ob_marker o = Absent ∧ ob_triple_count o = 0%Z ∧ lv_recorded_version v ≠ None
  | UnmarkedContent => ob_marker o = Absent ∧ ob_triple_count o ≠ 0%Z
  | MarkerMalformed => (∃ why, ob_marker o = Malformed why) ∧ ¬ names_beyond v o
  | MarkerCommitMismatch => ∃ m, ob_marker o = Present m ∧ own_stream v m ∧
      (pm_ref_version m ≤ lv_head_version v)%Z ∧ lv_commit_at_marker_version v ≠ Some (pm_commit m)
  | TripleCountMismatch => ∃ m, ob_marker o = Present m ∧ own_stream v m ∧
      (pm_ref_version m ≤ lv_head_version v)%Z ∧ lv_commit_at_marker_version v = Some (pm_commit m) ∧
      pm_triple_count m ≠ ob_triple_count o
  end.

(** Why a projector stops for an operator. *)
Definition stops v o (code : ProjectionErrorCode) : Prop :=
  match code with
  | TargetConflict => ∃ m, ob_marker o = Present m ∧ ¬ own_stream v m
  | MarkerAhead =>
      (∃ why, ob_marker o = Malformed why ∧ names_beyond v o) ∨
      (∃ m, ob_marker o = Present m ∧ own_stream v m ∧ (lv_head_version v < pm_ref_version m)%Z)
  | _ => False
  end.

(** The condition of each row of the table. *)
Definition row v o (p : Plan) : Prop :=
  match p with
  | AlreadyProjected => ∃ m, trusted v o m ∧ pm_ref_version m = lv_target_version v
  | AcknowledgeBeyond c n => ∃ m, trusted v o m ∧ (lv_target_version v < pm_ref_version m)%Z ∧
      c = pm_commit m ∧ n = pm_ref_version m
  | Write None => (ob_marker o = Absent ∧ ob_triple_count o = 0%Z ∧ lv_recorded_version v = None) ∨
      (∃ m, trusted v o m ∧ (pm_ref_version m < lv_target_version v)%Z)
  | Write (Some r) => rebuilds v o r
  | RecoveryRequired e => pe_class e = Permanent ∧ stops v o (pe_code e)
  end.

Lemma own_stream_spec v m :
  negb (bool_decide (pm_graph_id m = lv_graph_id v)) || negb (bool_decide (pm_branch m = lv_branch v)) = false ↔
  own_stream v m.
Proof. unfold own_stream. repeat case_bool_decide; cbn; naive_solver. Qed.
Lemma beyond_spec v o :
  match ob_max_ref_version o with Some n => (lv_head_version v <? n)%Z | None => false end = true ↔ names_beyond v o.
Proof.
  unfold names_beyond. destruct (ob_max_ref_version o) as [n|]; [rewrite Z.ltb_lt|]; naive_solver.
Qed.

(** The table decides by the condition of the row it picks. *)
Lemma plan_row v o : row v o (plan v o).
Proof.
  unfold plan. destruct (ob_marker o) as [|why|m] eqn:Hm.
  - destruct (Z.eqb_spec (ob_triple_count o) 0); [destruct (lv_recorded_version v) eqn:Hr|]; cbn.
    + by rewrite Hr.
    + by left.
    + done.
  - pose proof (beyond_spec v o) as Hb.
    match type of Hb with (?b = true ↔ _) => destruct b; cbn end.
    + split; [done|]. left. exists why. split; [done|]. by apply Hb.
    + split; [by exists why|]. intros ?%Hb. done.
  - pose proof (own_stream_spec v m) as Ho. destruct (_ || _); cbn.
    { split; [done|]. exists m. split; [done|]. intros ?%Ho. done. }
    assert (own_stream v m) as Hown by by apply Ho.
    destruct (Z.ltb_spec (lv_head_version v) (pm_ref_version m)) as [|Hv]; [split; [done|]; right; by exists m|].
    case_bool_decide as Hc; cbn [negb]; [|by exists m].
    destruct (Z.eqb_spec (pm_triple_count m) (ob_triple_count o)) as [Ht|Ht]; cbn [negb]; [|by exists m].
    assert (trusted v o m) as Htr by by split_and!.
    destruct (Z.ltb_spec (pm_ref_version m) (lv_target_version v)); [right; by exists m|].
    destruct (Z.eqb_spec (pm_ref_version m) (lv_target_version v)); [by exists m|].
    exists m. split_and!; [done|lia|done|done].
Qed.

(** The conditions exclude one another: only the text of an error is left open. *)
Lemma row_unique v o p : row v o p →
  match p with RecoveryRequired e => ∃ e', plan v o = RecoveryRequired e' ∧ pe_code e' = pe_code e | _ => plan v o = p end.
Proof.
  assert (∀ m, own_stream v m → negb (bool_decide (pm_graph_id m = lv_graph_id v)) ||
    negb (bool_decide (pm_branch m = lv_branch v)) = false) as Ho by (intros m; apply own_stream_spec).
  assert (∀ m, trusted v o m → plan v o =
    if (pm_ref_version m <? lv_target_version v)%Z then Write None
    else if (pm_ref_version m =? lv_target_version v)%Z then AlreadyProjected
    else AcknowledgeBeyond (pm_commit m) (pm_ref_version m)) as Htr.
  { intros m (Hm & Hs & Hv & Hc & Ht). unfold plan. rewrite Hm, (Ho m Hs), (proj2 (Z.ltb_ge _ _) Hv), Hc, Ht.
    by rewrite bool_decide_eq_true_2, Z.eqb_refl. }
  destruct p as [|c n|[r|]|e]; cbn [row].
  - intros (m & Ht & Heq). by rewrite (Htr m Ht), Heq, Z.ltb_irrefl, Z.eqb_refl.
  - intros (m & Ht & Hlt & -> & ->). rewrite (Htr m Ht), (proj2 (Z.ltb_ge _ _)), (proj2 (Z.eqb_neq _ _)) by lia. done.
  - destruct r; cbn [rebuilds]; unfold plan.
    + intros [[why ->] Hb]. rewrite <-beyond_spec in Hb. by apply not_true_is_false in Hb as ->.
    + intros (m & -> & Hs & Hv & Hc). by rewrite (Ho m Hs), (proj2 (Z.ltb_ge _ _) Hv), bool_decide_eq_false_2.
    + intros (m & -> & Hs & Hv & Hc & Ht). rewrite (Ho m Hs), (proj2 (Z.ltb_ge _ _) Hv), bool_decide_eq_true_2 by done.
      by rewrite (proj2 (Z.eqb_neq _ _) Ht).
    + intros [-> Hz]. by rewrite (proj2 (Z.eqb_neq _ _) Hz).
    + intros (-> & -> & Hr). cbn. by destruct (lv_recorded_version v).
  - intros [(Ha & Hz & Hr)|(m & Ht & Hlt)]; [unfold plan; by rewrite Ha, Hz, Hr|].
    by rewrite (Htr m Ht), (proj2 (Z.ltb_lt _ _)).
  - intros [_ Hs]. unfold plan. destruct (pe_code e); try done; cbn [stops] in Hs.
    + destruct Hs as [(why & -> & Hb)|(m & -> & Hown & Hv)].
      * rewrite (proj2 (beyond_spec v o) Hb). by eexists.
      * rewrite (Ho m Hown), (proj2 (Z.ltb_lt _ _) Hv). by eexists.
    + destruct Hs as (m & -> & Hown). destruct (_ || _) eqn:E; [by eexists|]. by destruct Hown; apply own_stream_spec.
Qed.

(** A marker is replaced only where it cannot be trusted. *)
Lemma rebuilds_untrusted v o r m : rebuilds v o r → ob_marker o = Present m →
  own_stream v m ∧ (pm_ref_version m ≤ lv_head_version v)%Z ∧ ¬ trusted v o m.
Proof.
  intros Hr Hm. unfold trusted. destruct r; cbn [rebuilds] in Hr; rewrite Hm in Hr; try naive_solver.
Qed.

(** C29. The decision table, row by row. The target is acknowledged exactly when a trustworthy
    marker of this stream (its commit is the ledger's at that version, and the triple count
    matches) shows the target version or a later one of the history; it is written conditionally
    exactly on a first projection into an empty, never-recorded target or over a trustworthy
    older marker; it is rebuilt for each of the five reasons exactly when that reason holds; and
    the projector stops for an operator, with a permanent error, exactly when the target shows
    another stream ([TargetConflict]) or a version beyond the ledger head ([MarkerAhead]). So
    whenever a marker is written over, it is of this stream and within the ledger's history:
    conditionally only if it is trustworthy and older than the target version, and by a
    replacement only if it is not trustworthy, whatever version it names. *)
Theorem plan_exact v o :
  (plan v o = AlreadyProjected ↔
     ∃ m, trusted v o m ∧ pm_ref_version m = lv_target_version v) ∧
  (∀ c n, plan v o = AcknowledgeBeyond c n ↔
     ∃ m, trusted v o m ∧ (lv_target_version v < pm_ref_version m)%Z ∧
          c = pm_commit m ∧ n = pm_ref_version m) ∧
  (plan v o = Write None ↔
     (ob_marker o = Absent ∧ ob_triple_count o = 0%Z ∧ lv_recorded_version v = None) ∨
     (∃ m, trusted v o m ∧ (pm_ref_version m < lv_target_version v)%Z)) ∧
  (∀ r, plan v o = Write (Some r) ↔ rebuilds v o r) ∧
  (∀ code, (∃ e, plan v o = RecoveryRequired e ∧ pe_code e = code) ↔ stops v o code) ∧
  (∀ e, plan v o = RecoveryRequired e → is_retryable e = false) ∧
  (∀ r m, plan v o = Write r → ob_marker o = Present m →
     own_stream v m ∧ (pm_ref_version m ≤ lv_head_version v)%Z ∧
     match write_mode r with
     | Conditional => trusted v o m ∧ (pm_ref_version m < lv_target_version v)%Z
     | Replace => ¬ trusted v o m
     end).
Proof.
  assert (∀ p, plan v o = p → row v o p) as Hrow by (intros p <-; apply plan_row).
  assert (∀ p, row v o p → match p with RecoveryRequired _ => True | _ => plan v o = p end) as Huniq.
  { intros p Hp%row_unique. by destruct p. }
  split_and!.
  - split; [apply (Hrow AlreadyProjected)|apply (Huniq AlreadyProjected)].
  - intros c n. split; [apply (Hrow (AcknowledgeBeyond c n))|apply (Huniq (AcknowledgeBeyond c n))].
  - split; [apply (Hrow (Write None))|apply (Huniq (Write None))].
  - intros r. split; [apply (Hrow (Write (Some r)))|apply (Huniq (Write (Some r)))].
  - intros code. split; [intros (e & [_ Hs]%Hrow & <-); done|].
    intros Hs. by apply (row_unique v o (RecoveryRequired (permanent code (Prose "stop")))).
  - intros e [Hc _]%Hrow. unfold is_retryable. by rewrite Hc.
  - intros [r|] m Hp%Hrow Hm; cbn [row write_mode] in *.
    + by eapply rebuilds_untrusted.
    + destruct Hp as [(? & _)|(m' & Ht & Hlt)]; [congruence|]. pose proof Ht as (Hm' & Hs & Hv & _).
      assert (m' = m) as -> by congruence. done.
Qed.
End decision.

(** ** The marker parser is exact *)
Section marker.
Implicit Types (m : ProjectionMarker) (t : MarkerTerm) (ts : list MarkerTerm)
  (pairs : list (bytes * MarkerTerm)) (values : list (option MarkerTerm)).

Record marker_wf m : Prop := {
  pm_wf_graph : graph_id_wf (pm_graph_id m);
  pm_wf_branch : token_ok MAX_BRANCH_BYTES (pm_branch m);
  pm_wf_commit : commit_id_wf (pm_commit m);
  pm_wf_version : (1 ≤ pm_ref_version m ≤ i64_max)%Z;
  pm_wf_digest : cid_wf (pm_state_digest m);
  pm_wf_write : token_ok MAX_WRITE_ID_BYTES (pm_write_id m);
  pm_wf_count : (0 ≤ pm_triple_count m ≤ u64_max)%Z
}.

(** A plain string literal [v]; a canonical [xsd:integer] literal [n]. *)
Definition term_is_string t (v : bytes) : Prop :=
  mt_is_literal t = true ∧ mt_language t = None ∧
  (mt_datatype t = None ∨ mt_datatype t = Some XSD_STRING) ∧ mt_value t = v.
Definition term_is_integer t (n : Z) : Prop :=
  mt_is_literal t = true ∧ mt_datatype t = Some XSD_INTEGER ∧ mt_value t = dec n.

(** The terms of a marker, in predicate order. *)
Definition marker_terms m ts : Prop :=
  match ts with
  | [t0; t1; t2; t3; t4; t5; t6; t7] =>
      term_is_string t0 PROJECTION_PROTOCOL ∧ term_is_string t1 (graph_str (pm_graph_id m)) ∧
      term_is_string t2 (pm_branch m) ∧ term_is_string t3 (commit_id_str (pm_commit m)) ∧
      term_is_integer t4 (pm_ref_version m) ∧ term_is_string t5 (cid_str (pm_state_digest m)) ∧
      term_is_string t6 (pm_write_id m) ∧ term_is_integer t7 (pm_triple_count m)
  | _ => False
  end.

Lemma marker_predicates_NoDup : NoDup marker_predicates.
Proof. eapply bool_decide_eq_true_1. vm_compute. reflexivity. Qed.

Lemma find_predicate i p : marker_predicates !! i = Some p →
  list_find (λ q, q = p) marker_predicates = Some (i, p).
Proof.
  intros Hp. apply list_find_Some. split_and!; [done|done|]. intros j q Hj Hlt ->.
  assert (j = i) by (by eapply NoDup_lookup; [apply marker_predicates_NoDup|..]). lia.
Qed.

Lemma find_predicate_inv p i q :
  list_find (λ q, q = p) marker_predicates = Some (i, q) → marker_predicates !! i = Some p.
Proof. by intros (Hi & -> & _)%list_find_Some. Qed.

(** What a successful first loop has established. *)
Lemma collect_terms_sound pairs values values' : collect_terms pairs values = Ok values' →
  length values' = length values ∧ NoDup pairs.*1 ∧
  (∀ p t, (p, t) ∈ pairs →
     ∃ i, marker_predicates !! i = Some p ∧ values !! i = Some None ∧ values' !! i = Some (Some t)) ∧
  (∀ i t, values' !! i = Some (Some t) →
     values !! i = Some (Some t) ∨ ∃ p, marker_predicates !! i = Some p ∧ (p, t) ∈ pairs) ∧
  (∀ i t, values !! i = Some (Some t) → values' !! i = Some (Some t)).
Proof.
  revert values. induction pairs as [|[p t] pairs IH]; intros values; cbn [collect_terms].
  { intros [= <-]. split_and!; [done|constructor|by intros ? ? ?%elem_of_nil|by left|done]. }
  destruct (list_find _ _) as [[i q]|] eqn:Ef; [|done]. apply find_predicate_inv in Ef.
  destruct (values !! i) as [[t'|]|] eqn:Ei; [done| |done]. intros Hc.
  destruct (IH _ Hc) as (H1 & H2 & H3 & H4 & H5).
  assert (i < length values) as Hlt by (by eapply lookup_lt_Some).
  assert (values' !! i = Some (Some t)) as Hi by (apply H5, list_lookup_insert_eq; done).
  rewrite length_insert in H1. split_and!.
  - done.
  - rewrite fmap_cons. constructor; [|done]. intros Hin. apply list_elem_of_fmap in Hin as ([p' t'] & Hp & Hin).
    cbn in Hp. subst p'. destruct (H3 p t' Hin) as (j & Hj & Hn & _).
    assert (j = i) as -> by (by eapply NoDup_lookup; [apply marker_predicates_NoDup|..]).
    rewrite list_lookup_insert_eq in Hn by done. done.
  - intros p' t'. rewrite elem_of_cons. intros [[= -> ->]|Hin]; [by exists i|].
    destruct (H3 p' t' Hin) as (j & Hj & Hn & Hv). exists j. split_and!; [done| |done].
    destruct (decide (j = i)) as [->|Hne]; [by rewrite list_lookup_insert_eq in Hn|].
    by rewrite list_lookup_insert_ne in Hn.
  - intros j t' Hj. destruct (H4 j t' Hj) as [Hv|(p' & Hp' & Hin)].
    + destruct (decide (j = i)) as [->|Hne].
      * rewrite list_lookup_insert_eq in Hv by done. injection Hv as <-.
        right. exists p. split; [done|by left].
      * left. by rewrite list_lookup_insert_ne in Hv.
    + right. exists p'. split; [done|by right].
  - intros j t' Hj. apply H5. rewrite list_lookup_insert_ne; [done|]. intros ->. congruence.
Qed.

Lemma collect_terms_complete pairs values :
  NoDup pairs.*1 →
  (∀ p t, (p, t) ∈ pairs → ∃ i, marker_predicates !! i = Some p ∧ values !! i = Some None) →
  ∃ values', collect_terms pairs values = Ok values'.
Proof.
  revert values. induction pairs as [|[p t] pairs IH]; intros values Hnd Hin; cbn [collect_terms].
  { by eexists. }
  rewrite fmap_cons in Hnd. apply NoDup_cons in Hnd as [Hp Hnd].
  destruct (Hin p t ltac:(left)) as (i & Hi & Hv). rewrite (find_predicate i p Hi), Hv.
  apply IH; [done|]. intros p' t' Hin'. destruct (Hin p' t' ltac:(by right)) as (j & Hj & Hn).
  exists j. split; [done|]. rewrite list_lookup_insert_ne; [done|]. intros ->.
  apply Hp. assert (p = p') as -> by congruence. by apply (list_elem_of_fmap_2 fst _ (p', t')).
Qed.

Lemma elem_of_zip_terms p t ts : length ts = 8 →
  (p, t) ∈ zip marker_predicates ts ↔ ∃ i, marker_predicates !! i = Some p ∧ ts !! i = Some t.
Proof.
  intros Hl. rewrite list_elem_of_lookup. split.
  - intros (i & Hi). exists i. apply lookup_zip_with_Some in Hi as (p' & t' & [= -> ->] & ? & ?). done.
  - intros (i & Hp & Ht). exists i. apply lookup_zip_with_Some. by exists p, t.
Qed.

Lemma zip_terms_NoDup ts : length ts = 8 → NoDup (zip marker_predicates ts).*1.
Proof.
  intros Hl. rewrite fst_zip; [apply marker_predicates_NoDup|]. by rewrite Hl.
Qed.

(** The slots are all filled exactly when the pairs are the eight predicates, each once. *)
Lemma collect_terms_full pairs ts : length ts = 8 →
  collect_terms pairs (replicate 8 None) = Ok (Some <$> ts) ↔ pairs ≡ₚ zip marker_predicates ts.
Proof.
  intros Hl. split.
  - intros (_ & Hnd & H3 & H4 & _)%collect_terms_sound.
    apply NoDup_Permutation; [by eapply NoDup_fmap_1|by eapply NoDup_fmap_1, zip_terms_NoDup|].
    intros [p t]. rewrite elem_of_zip_terms by done. split.
    + intros (i & Hi & _ & Ht)%H3. exists i. split; [done|].
      rewrite list_lookup_fmap in Ht. destruct (ts !! i); cbn in Ht; congruence.
    + intros (i & Hp & Ht). destruct (H4 i t) as [Hr|(p' & Hp' & ?)].
      * by rewrite list_lookup_fmap, Ht.
      * apply lookup_replicate in Hr as [? _]. done.
      * by replace p with p' by congruence.
  - intros Hperm.
    destruct (collect_terms_complete pairs (replicate 8 None)) as [values' Hc].
    { rewrite Hperm. by apply zip_terms_NoDup. }
    { intros p t. rewrite Hperm, elem_of_zip_terms by done. intros (i & Hp & Ht). exists i.
      split; [done|]. apply lookup_replicate. split; [done|].
      apply lookup_lt_Some in Ht. lia. }
    rewrite Hc. f_equal. destruct (collect_terms_sound _ _ _ Hc) as (Hlen & _ & H3 & _).
    apply list_eq. intros i. rewrite list_lookup_fmap. destruct (ts !! i) as [t|] eqn:Ht; cbn.
    + assert (i < length marker_predicates) as [p Hp]%lookup_lt_is_Some_2.
      { apply lookup_lt_Some in Ht. change (length marker_predicates) with 8. lia. }
      destruct (H3 p t) as (j & Hj & _ & Hv).
      { rewrite Hperm, elem_of_zip_terms by done. by exists i. }
      by assert (j = i) as -> by (by eapply NoDup_lookup; [apply marker_predicates_NoDup|..]).
    + apply lookup_ge_None_1 in Ht. apply lookup_ge_None_2. rewrite Hlen, length_replicate. lia.
Qed.

Lemma get_term_Ok values i t : get_term values i = Ok t ↔ values !! i = Some (Some t).
Proof. unfold get_term. destruct (values !! i) as [[|]|]; naive_solver. Qed.

Lemma string_at_Ok values i v :
  string_at values i = Ok v ↔ ∃ t, values !! i = Some (Some t) ∧ term_is_string t v.
Proof.
  unfold string_at, term_is_string. rewrite bind_Ok. setoid_rewrite get_term_Ok. split.
  - intros (t & Ht & Hv). exists t. split; [done|].
    destruct (mt_is_literal t); [|done]. destruct (mt_datatype t) as [d|]; cbn [andb] in Hv.
    + destruct (bool_decide (d = XSD_STRING)) eqn:Hd; [|done]. case_bool_decide; [|done].
      bool_prop. subst d. injection Hv as <-. tauto.
    + case_bool_decide; [|done]. injection Hv as <-. tauto.
  - intros (t & Ht & Hlit & Hlang & Hd & <-). exists t. split; [done|]. rewrite Hlit, Hlang.
    destruct Hd as [->| ->]; done.
Qed.

Lemma canonical_integer_dec v :
  canonical_integer v = true ↔ (0 ≤ dec_value v)%Z ∧ v = dec (dec_value v).
Proof.
  unfold canonical_integer. split.
  - intros Hc. bool_prop.
    assert (∀ r, v = digit_byte 0 :: r → r = []) as Hz.
    { intros r ->. apply orb_true_iff in H0 as [H0|H0]; bool_prop.
      - by apply (f_equal (@length byte)) in H0; destruct r.
      - exfalso. revert H0. unfold starts_with.
        replace (digit_byte 0 :: r) with (B "0" ++ r) by reflexivity. by rewrite strip_prefix_app. }
    split; [by apply dec_value_nonneg|]. symmetry. by apply dec_canonical.
  - intros [Hn ->]. rewrite (dec_all_digits _ Hn), andb_true_r. apply andb_true_iff. split.
    + apply negb_true_iff, bool_decide_eq_false. intros He.
      pose proof (dec_value_dec _ Hn) as Hv. unfold dec in He.
      by apply dec_digits_ok in He; [|apply dec_fuel|lia].
    + destruct (starts_with (B "0") (dec (dec_value v))) eqn:Hs; [|apply orb_true_r].
      apply orb_true_iff. left. apply bool_decide_eq_true.
      apply starts_with_true in Hs as [r Hr]. change (B "0" ++ r) with (digit_byte 0 :: r) in Hr.
      rewrite Hr, (dec_no_zero _ _ Hn Hr). done.
Qed.

(** Reading an integer and converting it, as one step. *)
Lemma integer_bind_Ok {A} values i max e (k : Z → result Reason A) b :
  (s ← integer_at values i; n ← parse_int max s e; k n) = Ok b ↔
  ∃ n t, (0 ≤ n ≤ max)%Z ∧ values !! i = Some (Some t) ∧ term_is_integer t n ∧ k n = Ok b.
Proof.
  unfold integer_at, parse_int, term_is_integer. split.
  - intros Hr. apply bind_Ok in Hr as (s & Hs & Hr). apply bind_Ok in Hr as (n & Hn & Hr).
    inv_res. apply get_term_Ok in E. destruct (_ && _ && _) eqn:Hc; [|done].
    injection Hs as <-. bool_prop. apply canonical_integer_dec in H0 as [H0 Hv].
    destruct (Z.leb_spec (dec_value (mt_value a)) max); [|done]. injection Hn as <-.
    by exists (dec_value (mt_value a)), a.
  - intros (n & t & Hn & Ht & (Hlit & Hd & Hv) & Hk).
    rewrite (proj2 (get_term_Ok values i t) Ht). run_res.
    rewrite Hlit, Hd, Hv. rewrite bool_decide_eq_true_2 by done.
    assert (canonical_integer (dec n) = true) as ->.
    { apply canonical_integer_dec. rewrite dec_value_dec by lia. split; [lia|done]. }
    cbn [andb]. run_res. rewrite dec_value_dec by lia. by rewrite (proj2 (Z.leb_le _ _)) by lia.
Qed.

(** Reading a string, as one step. *)
Lemma string_bind_Ok {A} values i (k : bytes → result Reason A) b :
  (s ← string_at values i; k s) = Ok b ↔
  ∃ v t, values !! i = Some (Some t) ∧ term_is_string t v ∧ k v = Ok b.
Proof. rewrite bind_Ok. setoid_rewrite string_at_Ok. naive_solver. Qed.

(** Converting with an error mapping, as one step. *)
Lemma convert_bind_Ok {A C} (r : lresult A) (k : A → result Reason C) b :
  (a ← map_err Rendered r; k a) = Ok b ↔ ∃ a, r = Ok a ∧ k a = Ok b.
Proof. rewrite bind_Ok. by setoid_rewrite map_err_Ok. Qed.

Lemma parse_terms_sound pairs m : parse_terms pairs = Ok m →
  marker_wf m ∧ ∃ ts, length ts = 8 ∧ marker_terms m ts ∧
    collect_terms pairs (replicate 8 None) = Ok (Some <$> ts).
Proof.
  unfold parse_terms. intros Hp. apply bind_Ok in Hp as (values & Hc & Hp).
  pose proof (collect_terms_sound _ _ _ Hc) as (Hlen & _).
  apply string_bind_Ok in Hp as (v0 & t0 & L0 & T0 & Hp).
  case_bool_decide as Hproto; [subst v0|done]. cbn [negb] in Hp.
  apply string_bind_Ok in Hp as (v1 & t1 & L1 & T1 & Hp). apply convert_bind_Ok in Hp as (g & [-> Wg]%graph_id_new_Ok & Hp).
  apply string_bind_Ok in Hp as (v2 & t2 & L2 & T2 & Hp). apply convert_bind_Ok in Hp as ([] & Wb%validate_token_Ok & Hp).
  apply string_bind_Ok in Hp as (v3 & t3 & L3 & T3 & Hp). apply convert_bind_Ok in Hp as (cm & [-> Wc]%commit_id_from_str_Ok & Hp).
  apply integer_bind_Ok in Hp as (n4 & t4 & B4 & L4 & T4 & Hp).
  destruct (Z.ltb_spec n4 1) as [|H1]; [done|].
  apply string_bind_Ok in Hp as (v5 & t5 & L5 & T5 & Hp). apply convert_bind_Ok in Hp as (dg & [-> Wd]%content_id_exact & Hp).
  apply string_bind_Ok in Hp as (v6 & t6 & L6 & T6 & Hp). apply convert_bind_Ok in Hp as ([] & Ww%validate_token_Ok & Hp).
  apply integer_bind_Ok in Hp as (n7 & t7 & B7 & L7 & T7 & Hp). injection Hp as <-.
  split; [split; cbn; try done; lia|].
  exists [t0; t1; t2; t3; t4; t5; t6; t7]. split; [done|]. split; [by split_and!|]. rewrite Hc. f_equal.
  rewrite length_replicate in Hlen.
  destruct values as [|? [|? [|? [|? [|? [|? [|? [|? [|]]]]]]]]]; try done. cbn in *. congruence.
Qed.

Lemma parse_terms_complete pairs m ts : marker_wf m → marker_terms m ts →
  collect_terms pairs (replicate 8 None) = Ok (Some <$> ts) → parse_terms pairs = Ok m.
Proof.
  intros [Wg Wb Wc Wv Wd Ww Wn] Hts Hc. unfold parse_terms. rewrite Hc. run_res.
  destruct ts as [|t0 [|t1 [|t2 [|t3 [|t4 [|t5 [|t6 [|t7 [|]]]]]]]]]; try done.
  destruct Hts as (T0 & T1 & T2 & T3 & T4 & T5 & T6 & T7).
  apply string_bind_Ok. exists PROJECTION_PROTOCOL, t0. split; [done|]. split; [done|].
  rewrite bool_decide_eq_true_2 by done. cbn [negb].
  apply string_bind_Ok. do 2 eexists. split; [done|]. split; [exact T1|].
  rewrite (proj2 (graph_id_new_Ok _ (pm_graph_id m))) by done. run_res.
  apply string_bind_Ok. do 2 eexists. split; [done|]. split; [exact T2|].
  rewrite (proj2 (validate_token_Ok _ _ _ tt) Wb). run_res.
  apply string_bind_Ok. do 2 eexists. split; [done|]. split; [exact T3|].
  rewrite (proj2 (commit_id_from_str_Ok _ (pm_commit m))) by done. run_res.
  apply integer_bind_Ok. exists (pm_ref_version m), t4. split; [lia|]. split; [done|]. split; [done|].
  rewrite (proj2 (Z.ltb_ge _ _)) by lia.
  apply string_bind_Ok. do 2 eexists. split; [done|]. split; [exact T5|].
  rewrite (proj2 (content_id_exact _ (pm_state_digest m))) by done. run_res.
  apply string_bind_Ok. do 2 eexists. split; [done|]. split; [exact T6|].
  rewrite (proj2 (validate_token_Ok _ _ _ tt) Ww). run_res.
  apply integer_bind_Ok. exists (pm_triple_count m), t7. split; [lia|]. split; [done|]. split; [done|].
  by destruct m.
Qed.

(** The parser has no panicking branch. *)
Lemma parse_terms_no_panic pairs : is_panic (parse_terms pairs) = false.
Proof.
  assert (∀ E A (r : result E A) C (f : A → result E C),
    is_panic r = false → (∀ a, is_panic (f a) = false) → is_panic (rbind r f) = false) as Hb.
  { intros E A [a|e|p] C f; cbn; auto. }
  assert (∀ A (r : lresult A), is_panic r = false → is_panic (map_err Rendered r) = false) as He.
  { by intros A [a|e|p]. }
  assert (∀ ps vs, is_panic (collect_terms ps vs) = false) as Hc.
  { induction ps as [|[p t] ps IH]; intros vs; cbn [collect_terms]; [done|].
    destruct (list_find _ _) as [[i ?]|]; [|done]. by destruct (vs !! i) as [[|]|]. }
  assert (∀ vs i, is_panic (get_term vs i) = false) as Hg.
  { intros vs i. unfold get_term. by destruct (vs !! i) as [[|]|]. }
  assert (∀ vs i, is_panic (string_at vs i) = false) as Hs.
  { intros vs i. unfold string_at. apply Hb; [apply Hg|]. intros t. cbv zeta. by match goal with |- context [if ?b then _ else _] => destruct b end. }
  assert (∀ vs i, is_panic (integer_at vs i) = false) as Hi.
  { intros vs i. unfold integer_at. apply Hb; [apply Hg|]. intros t. by match goal with |- context [if ?b then _ else _] => destruct b end. }
  assert (∀ mx v e, is_panic (parse_int mx v e) = false) as Hn.
  { intros mx v e. unfold parse_int. by destruct (_ <=? _)%Z. }
  assert (∀ f v mx, is_panic (validate_token f v mx) = false) as Hv.
  { intros f v mx. unfold validate_token. case_bool_decide; [done|].
    destruct (_ <? _); [done|]. by destruct (has_control v). }
  assert (∀ v, is_panic (content_id_from_str v) = false) as Hci.
  { intros v. unfold content_id_from_str. destruct (strip_prefix _ v); [|done]. by destruct (_ || _). }
  unfold parse_terms, graph_id_new, validate_graph_id, commit_id_from_str.
  repeat first [ done | apply Hb | apply He | apply Hc | apply Hs | apply Hi | apply Hn | apply Hv
               | apply Hci | intros ?
               | match goal with |- context [if ?b then _ else _] => destruct b end ].
Qed.

(** Nothing but, at most, the write id a fence left. *)
Definition no_marker pairs : Prop :=
  pairs = [] ∨ ∃ t, pairs = [(LP_NAMESPACE ++ B "writeId", t)].

Lemma absent_test pairs :
  forallb (λ '(p, _), bool_decide (p = default [] (marker_predicates !! 6))) pairs &&
  (length pairs <=? 1) = true ↔ no_marker pairs.
Proof.
  unfold no_marker. change (default [] (marker_predicates !! 6)) with (LP_NAMESPACE ++ B "writeId").
  destruct pairs as [|[p t] [|q pairs]].
  - split; [by left|done].
  - cbn [forallb length]. rewrite !andb_true_r, bool_decide_eq_true. naive_solver.
  - split; [|naive_solver]. by rewrite andb_false_r.
Qed.

(** C30. The marker parser never guesses: what a target holds about a cognitive graph is read
    as the marker [m] if and only if [m] is valid and the pairs are exactly the eight
    protocol predicates, each once and in any order, with the literals of [m] (plain strings,
    canonical non-negative integers); it is read as absent exactly when there is nothing but
    at most a write id; everything else is malformed, and parsing never panics. *)
Theorem marker_read_exact pairs :
  (∀ m, from_terms pairs = Present m ↔
     marker_wf m ∧ ∃ ts, marker_terms m ts ∧ pairs ≡ₚ zip marker_predicates ts) ∧
  (from_terms pairs = Absent ↔ no_marker pairs) ∧
  is_panic (parse_terms pairs) = false.
Proof.
  assert (∀ m ts, marker_terms m ts → length ts = 8) as Hlen.
  { intros m ts Hts. by destruct ts as [|? [|? [|? [|? [|? [|? [|? [|? [|]]]]]]]]]. }
  assert (∀ m, parse_terms pairs = Ok m ↔
     marker_wf m ∧ ∃ ts, marker_terms m ts ∧ pairs ≡ₚ zip marker_predicates ts) as Hparse.
  { intros m. split.
    - intros (Hwf & ts & Hl & Hts & Hc)%parse_terms_sound. split; [done|]. exists ts.
      split; [done|]. by apply collect_terms_full in Hc.
    - intros (Hwf & ts & Hts & Hp). apply (parse_terms_complete pairs m ts); [done|done|].
      apply collect_terms_full; [by eapply Hlen|done]. }
  pose proof (absent_test pairs) as Habs. unfold from_terms. cbv zeta.
  destruct (forallb _ pairs && _) eqn:Ht.
  - assert (no_marker pairs) as Hn by (by apply Habs). split_and!; [|done|apply parse_terms_no_panic].
    intros m. split; [done|]. intros (_ & ts & Hts & Hp). apply Permutation_length in Hp.
    rewrite length_zip, (Hlen m ts Hts) in Hp. by destruct Hn as [->|(t & ->)].
  - assert (¬ no_marker pairs) as Hn by (rewrite <-Habs; done).
    split_and!; [|split; [by destruct (parse_terms pairs)|done]|apply parse_terms_no_panic].
    intros m. rewrite <-Hparse. destruct (parse_terms pairs); naive_solver.
Qed.
End marker.

(** ** Projected states *)
Section projected.
Context `{OxRdfOk}.

Lemma project_triples_Ok s : Forall quad_wf s →
  ∀ ts, project_triples s = Ok ts ↔
    ts = quad_str <$> s ∧ Forall (λ q, default_graph_triple q ≠ Ok None) s.
Proof.
  induction 1 as [|q s Hq Hs IH]; intros ts; cbn [project_triples].
  { rewrite Forall_nil. naive_solver. }
  rewrite Forall_cons, fmap_cons.
  destruct (default_graph_triple_total q Hq) as [-> | ->].
  - rewrite bind_Ok. setoid_rewrite IH. split.
    + intros (r & [-> ?] & [= <-]). by split.
    + intros [-> [_ ?]]. by eexists.
  - split; [done|]. naive_solver.
Qed.

Lemma project_triples_named s : Forall quad_wf s →
  (∃ q, q ∈ s ∧ default_graph_triple q = Ok None) →
  ∃ e, project_triples s = Err e ∧ pe_code e = NamedGraphUnsupported ∧ is_retryable e = false.
Proof.
  induction 1 as [|q s Hq Hs IH]; intros (q' & Hin & Hnone); [by apply elem_of_nil in Hin|].
  cbn [project_triples]. destruct (default_graph_triple_total q Hq) as [Hd|Hd]; rewrite Hd.
  - apply elem_of_cons in Hin as [->|Hin]; [congruence|].
    destruct IH as (e & -> & ? & ?); [by exists q'|]. by exists e.
  - by eexists.
Qed.

(** C31. A state is projected exactly when it lies in the default graph: [from_state] then
    yields one statement per quad, the quad's own canonical text, in canonical order without
    duplicates, with the digest of the state; a state with a named-graph quad is refused
    with the permanent named-graph error; it never panics. *)
Theorem projected_state_exact `{Sha256} (s : state) :
  ascending s → Forall quad_wf s →
  (∀ p, from_state s = Ok p ↔
     Forall (λ q, default_graph_triple q ≠ Ok None) s ∧
     p = mkProjectedState (quad_str <$> s) (state_digest s)) ∧
  (∀ p, from_state s = Ok p → NoDup (ps_triples p) ∧ triple_count p = length s) ∧
  ((∃ q, q ∈ s ∧ default_graph_triple q = Ok None) →
     ∃ e, from_state s = Err e ∧ pe_code e = NamedGraphUnsupported ∧ is_retryable e = false).
Proof.
  intros Ha Hwf.
  assert (∀ p, from_state s = Ok p ↔
     Forall (λ q, default_graph_triple q ≠ Ok None) s ∧
     p = mkProjectedState (quad_str <$> s) (state_digest s)) as Hiff.
  { intros p. unfold from_state. rewrite bind_Ok. setoid_rewrite (project_triples_Ok s Hwf). split.
    - intros (ts & [-> ?] & [= <-]). done.
    - intros [? ->]. by eexists. }
  split_and!; [done| |].
  - intros p [_ ->]%Hiff. unfold triple_count. cbn [ps_triples]. rewrite length_fmap. split; [|done].
    apply NoDup_fmap_2; [|by apply ascending_nodup]. intros [a] [b]; cbn; congruence.
  - intros Hn. unfold from_state.
    destruct (project_triples_named s Hwf Hn) as (e & -> & ? & ?). by exists e.
Qed.
End projected.
