(* ===== verification/Reference.v ===== *)
(** * Concrete stand-ins for the external crates

    Executable instances of the parameters [Sha256], [TimeCrate] and [OxRdf], with proofs of the laws
    the theorems assume of them. They show that the laws can hold together, and let the
    witnesses run the modelled code on concrete inputs. *)

From Stdlib Require Import ZArith Lia String Strings.Byte.
From stdpp Require Import base gmap countable list.
From S2P Require Import Prelude BTree Bytes Text Core Temporal Rdf.

Local Open Scope ledger_scope.
Local Open Scope Z_scope.

(** ** A digest: a polynomial hash modulo 2^256, printed as 64 hexadecimal digits *)
Definition hex_digit (d : Z) : byte :=
  if d <? 10 then byte_of_Z (48 + d) else byte_of_Z (87 + d).

Fixpoint hex_digits (w : nat) (n : Z) : bytes :=
  match w with
  | O => []
  | S w => hex_digits w (n / 16) ++ [hex_digit (n mod 16)]
  end.

Definition poly_hash (bs : bytes) : Z :=
  fold_left (λ h b, (h * 1000003 + Z_of_byte b + 1) mod 2 ^ 256) bs 7.

#[export] Instance ref_sha256 : Sha256 := λ bs, hex_digits 64 (poly_hash bs).

Lemma hex_digit_lower d : 0 ≤ d < 16 → is_lower_hex (hex_digit d) = true.
Proof.
  intros Hd. assert (d ∈ seqZ 0 16) as Hin by (apply elem_of_seqZ; lia).
  revert Hin. generalize d. apply Forall_forall. repeat constructor.
Qed.

#[export] Instance ref_sha256_ok : Sha256Ok.
Proof.
  constructor; intros bs; unfold sha256_hex, ref_sha256; generalize (poly_hash bs) as n.
  - change 64%nat with (0 + 64)%nat at 2. generalize 64%nat. intros w.
    induction w as [|w IH]; intros n; [done|]. cbn [hex_digits]. rewrite length_app, IH. simpl. lia.
  - generalize 64%nat. intros w. induction w as [|w IH]; intros n; [done|]. cbn [hex_digits].
    rewrite forallb_app, IH. cbn [forallb andb]. rewrite hex_digit_lower; [done|].
    apply Z.mod_pos_bound. lia.
Qed.

(** ** A calendar: validated UTC date-times and the six-digit [Z] form of RFC 3339 *)
Record utc_fields := mkUtc {
  f_year : Z; f_month : Z; f_day : Z; f_hour : Z; f_minute : Z; f_second : Z; f_nano : Z
}.
#[export] Instance utc_fields_eq_dec : EqDecision utc_fields.
Proof. solve_decision. Defined.

Definition utc_fields_ok (f : utc_fields) : bool :=
  in_range (-9999) (f_year f) 9999 && in_range 1 (f_month f) 12 && in_range 1 (f_day f) 31 &&
  in_range 0 (f_hour f) 23 && in_range 0 (f_minute f) 59 && in_range 0 (f_second f) 59 &&
  in_range 0 (f_nano f) 999999999.

Definition utc_time : Type := { f : utc_fields | utc_fields_ok f = true }.

Lemma utc_time_eq (t u : utc_time) : `t = `u → t = u.
Proof. intros Heq. apply (sig_eq_pi (λ f, utc_fields_ok f = true)). done. Qed.

Definition utc_make (f : utc_fields) : option utc_time :=
  match decide (utc_fields_ok f = true) with left p => Some (f ↾ p) | right _ => None end.

Lemma utc_make_Some f t : utc_make f = Some t ↔ `t = f.
Proof.
  unfold utc_make. case_decide as Hf.
  - split; [by intros [= <-]|]. intros <-. f_equal. by apply utc_time_eq.
  - split; [done|]. intros <-. by destruct t.
Qed.

Definition with_nano (f : utc_fields) (n : Z) : utc_fields :=
  mkUtc (f_year f) (f_month f) (f_day f) (f_hour f) (f_minute f) (f_second f) n.

Definition field_at (i w : nat) (s : bytes) : Z := dec_value (take w (drop i s)).

Definition utc_parse (s : bytes) : option utc_time :=
  utc_make (mkUtc (field_at 0 4 s) (field_at 5 2 s) (field_at 8 2 s) (field_at 11 2 s)
                  (field_at 14 2 s) (field_at 17 2 s) (field_at 20 6 s * 1000)).

#[export] Instance ref_time : TimeCrate := {|
  OffsetDateTime := utc_time;
  odt_eq_dec := _;
  odt_year t := f_year (`t);
  odt_month t := f_month (`t);
  odt_day t := f_day (`t);
  odt_hour t := f_hour (`t);
  odt_minute t := f_minute (`t);
  odt_second t := f_second (`t);
  odt_nanosecond t := f_nano (`t);
  odt_parse := utc_parse;
  odt_to_utc := Some;
  odt_replace_nanosecond t n := utc_make (with_nano (`t) n)
|}.

Lemma utc_time_ranges (t : utc_time) :
  1 ≤ f_month (`t) ≤ 12 ∧ 1 ≤ f_day (`t) ≤ 31 ∧ 0 ≤ f_hour (`t) ≤ 23 ∧
  0 ≤ f_minute (`t) ≤ 59 ∧ 0 ≤ f_second (`t) ≤ 59 ∧ 0 ≤ f_nano (`t) ≤ 999999999.
Proof.
  destruct t as [f Hf]. unfold utc_fields_ok, in_range in Hf.
  bool_prop. simpl. lia.
Qed.

Lemma field_at_stamp i w a b s n :
  s = a ++ pad_dec w n ++ b → length a = i → (1 ≤ w)%nat → 0 ≤ n < 10 ^ Z.of_nat w →
  field_at i w s = n.
Proof.
  intros -> <- Hw Hn. unfold field_at. rewrite drop_app_length.
  rewrite take_app_length' by (by rewrite length_pad_dec). apply dec_value_pad. lia.
Qed.

Lemma utc_parse_canonical (t : utc_time) :
  1 ≤ f_year (`t) ≤ 9999 → f_nano (`t) mod 1000 = 0 →
  utc_parse (ts_canonical (mkTimestamp t)) = Some t.
Proof.
  intros Hy Hn. pose proof (utc_time_ranges t) as (? & ? & ? & ? & ? & ?).
  apply utc_make_Some. unfold ts_canonical; cbn [ts_odt odt_year odt_month odt_day odt_hour
    odt_minute odt_second ref_time]. unfold odt_microsecond; cbn [odt_nanosecond ref_time].
  destruct (`t) as [y mo d h mi s n]; simpl f_year in *; simpl f_month in *; simpl f_day in *;
    simpl f_hour in *; simpl f_minute in *; simpl f_second in *; simpl f_nano in *.
  assert (0 ≤ n / 1000 < 1000000) by (Z.div_mod_to_equations; lia).
  set (sy := pad_dec 4 y). set (smo := pad_dec 2 mo). set (sd := pad_dec 2 d).
  set (sh := pad_dec 2 h). set (smi := pad_dec 2 mi). set (ss := pad_dec 2 s).
  assert (length sy = 4%nat ∧ length smo = 2%nat ∧ length sd = 2%nat ∧ length sh = 2%nat ∧
          length smi = 2%nat ∧ length ss = 2%nat) as (? & ? & ? & ? & ? & ?).
  { unfold sy, smo, sd, sh, smi, ss. rewrite !length_pad_dec by lia. done. }
  set (whole := sy ++ _).
  assert (∀ i w a n', (∃ b, whole = a ++ pad_dec w n' ++ b) → length a = i → (1 ≤ w)%nat →
    0 ≤ n' < 10 ^ Z.of_nat w → n' = field_at i w whole) as Hat.
  { intros i w a n' [b Hb] ???. symmetry. by eapply field_at_stamp. }
  rewrite <-(Hat 0%nat 4%nat [] y), <-(Hat 5%nat 2%nat (sy ++ B "-") mo),
    <-(Hat 8%nat 2%nat (sy ++ B "-" ++ smo ++ B "-") d),
    <-(Hat 11%nat 2%nat (sy ++ B "-" ++ smo ++ B "-" ++ sd ++ B "T") h),
    <-(Hat 14%nat 2%nat (sy ++ B "-" ++ smo ++ B "-" ++ sd ++ B "T" ++ sh ++ B ":") mi),
    <-(Hat 17%nat 2%nat (sy ++ B "-" ++ smo ++ B "-" ++ sd ++ B "T" ++ sh ++ B ":" ++ smi ++ B ":") s),
    <-(Hat 20%nat 6%nat (sy ++ B "-" ++ smo ++ B "-" ++ sd ++ B "T" ++ sh ++ B ":" ++ smi ++ B ":" ++
               ss ++ B ".") (n / 1000));
    first [ done | lia
          | eexists; unfold whole; rewrite <-?app_assoc; reflexivity
          | rewrite !length_app; repeat match goal with L : length _ = _ |- _ => rewrite L end; reflexivity
          | f_equal; Z.div_mod_to_equations; lia ].
Qed.

#[export] Instance ref_time_ok : TimeCrateOk.
Proof.
  constructor; cbn [OffsetDateTime odt_year odt_month odt_day odt_hour odt_minute odt_second
    odt_nanosecond odt_parse odt_to_utc odt_replace_nanosecond ref_time]; try (intros t; apply utc_time_ranges).
  - congruence.
  - intros [f Hf] n Hn. unfold utc_fields_ok, in_range in Hf.
    bool_prop. unfold utc_make. case_decide as Hd; [by eexists|]. destruct Hd.
    unfold utc_fields_ok, in_range. cbn.
    rewrite !andb_true_iff, !Z.leb_le. simpl in *. lia.
  - intros t n u Hu%utc_make_Some. by rewrite Hu.
  - done.
  - intros t. apply utc_make_Some. by destruct (`t).
  - intros t _ Hy Hn. by apply utc_parse_canonical.
Qed.

(** ** RDF: statements of three or four space-separated graphic tokens *)
Definition tok_ok (t : bytes) : bool := negb (bool_decide (t = [])) && forallb is_ascii_graphic t.
Definition tok_blank (t : bytes) : bool := starts_with (B "_:") t.

Record ref_quad := mkRefQuad {
  rq_subject : bytes; rq_predicate : bytes; rq_object : bytes; rq_graph : option bytes
}.

Definition ref_quad_ok (q : ref_quad) : bool :=
  tok_ok (rq_subject q) && tok_ok (rq_predicate q) && tok_ok (rq_object q) &&
  match rq_graph q with Some g => tok_ok g | None => true end.

Definition ref_show (q : ref_quad) : bytes :=
  rq_subject q ++ B " " ++ rq_predicate q ++ B " " ++ rq_object q ++
  match rq_graph q with Some g => B " " ++ g | None => [] end.

Definition ref_split (s : bytes) : option ref_quad :=
  match split_once " "%byte s with
  | Some (a, r) =>
      match split_once " "%byte r with
      | Some (b, r) =>
          match split_once " "%byte r with
          | Some (c, g) => Some (mkRefQuad a b c (Some g))
          | None => Some (mkRefQuad a b r None)
          end
      | None => None
      end
  | None => None
  end.

Definition ref_items (s : bytes) : list (option ref_quad) :=
  match strip_suffix (B " .") s with
  | Some body => match ref_split body with
                 | Some q => [if ref_quad_ok q then Some q else None]
                 | None => [None]
                 end
  | None => [None]
  end.

#[export] Instance ref_rdf : OxRdf := {|
  OxQuad := ref_quad;
  nquads_items := ref_items;
  ox_subject_blank q := tok_blank (rq_subject q);
  ox_object_blank q := tok_blank (rq_object q);
  ox_graph_blank q := match rq_graph q with Some g => tok_blank g | None => false end;
  ox_graph_default q := match rq_graph q with Some _ => false | None => true end;
  ox_subject := rq_subject;
  ox_predicate := rq_predicate;
  ox_object := rq_object;
  ox_graph q := match rq_graph q with Some g => g | None => B "DEFAULT" end;
  ox_show := ref_show
|}.

Lemma ref_items_ok s q : Some q ∈ ref_items s → ref_quad_ok q = true.
Proof.
  unfold ref_items. destruct (strip_suffix _ s) as [b|]; [|by intros ?%list_elem_of_singleton].
  destruct (ref_split b) as [q'|]; [|by intros ?%list_elem_of_singleton].
  intros Hq%list_elem_of_singleton. destruct (ref_quad_ok q') eqn:Hok; congruence.
Qed.

Lemma tok_ok_bytes t b : tok_ok t = true → is_ascii_graphic b = false → b ∉ t.
Proof.
  unfold tok_ok. intros [_ Ht]%andb_true_iff Hb Hin. rewrite forallb_Forall, Forall_forall in Ht.
  specialize (Ht b Hin). simpl in Ht. congruence.
Qed.

Lemma tok_ok_ascii t : tok_ok t = true → is_ascii t = true.
Proof.
  unfold tok_ok, is_ascii. intros [_ Ht]%andb_true_iff. rewrite !forallb_Forall in *.
  eapply Forall_weaken; [exact Ht|]. intros b. destruct b; vm_compute; congruence.
Qed.

Lemma split_once_None c s : c ∉ s → split_once c s = None.
Proof.
  induction s as [|x s IH]; simpl; [done|]. rewrite not_elem_of_cons. intros [? ?].
  rewrite decide_False by done. by rewrite IH.
Qed.

Lemma ref_show_split q : ref_quad_ok q = true → ref_split (ref_show q) = Some q.
Proof.
  destruct q as [a b c g]. unfold ref_quad_ok, ref_show, ref_split; cbn. intros Hq. bool_prop.
  assert (∀ t, tok_ok t = true → " "%byte ∉ t) as Hsp by (intros; by apply tok_ok_bytes).
  change (B " ") with [" "%byte]. cbn [app].
  rewrite split_once_app by auto. rewrite split_once_app by auto. destruct g as [g|].
  - by rewrite split_once_app by auto.
  - rewrite app_nil_r. by rewrite split_once_None by auto.
Qed.

Lemma ref_show_bytes q b : ref_quad_ok q = true → is_ascii_graphic b = false → b ≠ " "%byte →
  b ∉ ref_show q.
Proof.
  destruct q as [a p c g]. unfold ref_quad_ok, ref_show; cbn. intros Hq Hb Hne. bool_prop.
  change (B " ") with [" "%byte].
  rewrite !not_elem_of_app, !list_elem_of_singleton.
  split_and!; try done; try (by apply tok_ok_bytes).
  destruct g as [g|]; [|apply not_elem_of_nil].
  rewrite not_elem_of_app, list_elem_of_singleton. split; [done|]. by apply tok_ok_bytes.
Qed.

#[export] Instance ref_rdf_ok : OxRdfOk.
Proof.
  constructor; cbn [OxQuad nquads_items ox_show ox_graph_default ox_subject ox_predicate ox_object ref_rdf];
    intros s q Hq%ref_items_ok.
  - unfold ref_items. rewrite (proj2 (strip_suffix_Some _ _ (ref_show q))) by done.
    by rewrite ref_show_split, Hq.
  - split; by apply ref_show_bytes.
  - apply ascii_utf8. destruct q as [a p c g]. unfold ref_quad_ok, ref_show in *; cbn in *. bool_prop.
    rewrite !is_ascii_app, (tok_ok_ascii a), (tok_ok_ascii p), (tok_ok_ascii c) by done.
    destruct g as [g|]; [|done]. by rewrite is_ascii_app, (tok_ok_ascii g).
  - unfold ref_show. destruct (rq_graph q); [done|]. by rewrite app_nil_r.
Qed.
