(* ===== verification/Witnesses.v ===== *)
(** * Witnesses

    Each theorem with hypotheses applied at a concrete input, with the external crates
    instantiated by [Reference]. *)

From Stdlib Require Import ZArith Lia String Strings.Byte.
From stdpp Require Import base gmap countable list.
From S2P Require Import Prelude BTree Bytes Text Core Identity Temporal CommitV2 Rdf Dag DagWalk MergeBase Merge Reference.

Local Open Scope ledger_scope.

(** A decidable closed goal, by evaluation. *)
Ltac by_eval := eapply bool_decide_eq_true_1; vm_compute; reflexivity.

(** ** Sample values *)
Definition w_cid (s : string) : ContentId := for_bytes (B s).
Definition w_time : LedgerTimestamp :=
  @mkTimestamp ref_time
    (exist (λ f, utc_fields_ok f = true) (mkUtc 2026 9 24 10 0 0 123456000) eq_refl).
Definition w_v1 : Commit :=
  mkCommit [mkCommitId (w_cid "p")] (mkPatchId (w_cid "patch")) (B "ada") (B "first")
    (B "2026-09-24T10:00:00Z") (B "2026-09-24T10:00:01Z").
Definition w_v2 (evidence : list bytes) : CommitV2 :=
  mkCommitV2 (mkGraphId (B "graph-1")) [mkCommitId (w_cid "p"); mkCommitId (w_cid "q")]
    (mkPatchId (w_cid "patch")) (mkActor (mkPrincipalId (B "ada")) Agent None) (B "curate")
    (Some w_time) w_time evidence (Some (B "crm")) (B "merge").
Definition w_bytes (r : lresult bytes) : bytes := match r with Ok b => b | _ => [] end.
Definition w_v2_bytes : bytes :=
  Eval vm_compute in w_bytes (v2_canonical_bytes (w_v2 [B "doc:1"; B "doc:2"])).

Lemma w_v2_wf evidence : Forall utf8 evidence → v2_wf (w_v2 evidence).
Proof.
  intros He. split; cbn; try done.
  - split; [by_eval|done].
  - repeat constructor.
  - split; [by_eval|done].
Qed.

(** C1 *)
Lemma commit_codec_exact_witness :
  any_from_canonical_bytes w_v2_bytes = Ok (V2 (w_v2 [B "doc:1"; B "doc:2"])) ∧
  any_id (V2 (w_v2 [B "doc:1"; B "doc:2"])) = Ok (mkCommitId (for_bytes w_v2_bytes)).
Proof.
  assert (any_from_canonical_bytes w_v2_bytes = Ok (V2 (w_v2 [B "doc:1"; B "doc:2"]))) as Hd
    by by_eval.
  split; [exact Hd|]. exact (proj1 (proj2 (commit_codec_exact w_v2_bytes)) _ Hd).
Defined.

(** C2 *)
Lemma commit_v2_evidence_is_a_set_witness :
  v2_canonical_bytes (w_v2 [B "doc:2"; B "doc:1"; B "doc:2"]) = Ok w_v2_bytes.
Proof.
  refine (proj1 (commit_v2_evidence_is_a_set (w_v2 [B "doc:1"; B "doc:2"])
    [B "doc:2"; B "doc:1"; B "doc:2"] w_v2_bytes _ _ _)).
  - apply w_v2_wf. repeat constructor.
  - cbn [w_v2 v2_evidence_refs]. intros e. rewrite !elem_of_cons. tauto.
  - by_eval.
Defined.

(** ** RDF *)
Definition w_quad (s : string) : Quad := mkQuad (B s).
Definition w_q1 : Quad := w_quad "<urn:s> <urn:p> <urn:a> .".
Definition w_q2 : Quad := w_quad "<urn:s> <urn:p> <urn:b> .".
Definition w_q3 : Quad := w_quad "<urn:s> <urn:p> <urn:c> <urn:g> .".
Definition w_patch : Patch := mkPatch [mkOp Add w_q2; mkOp Add w_q3; mkOp Delete w_q1].

Lemma w_quads_wf : quad_wf w_q1 ∧ quad_wf w_q2 ∧ quad_wf w_q3.
Proof. split_and!; vm_compute; reflexivity. Qed.

Ltac w_ascending := repeat (constructor; [|repeat constructor]); constructor.

Lemma w_patch_wf : patch_wf w_patch.
Proof.
  destruct w_quads_wf as (? & ? & ?). split.
  - cbn [operations w_patch]. w_ascending.
  - intros q. cbn [operations w_patch]. rewrite !elem_of_cons, !elem_of_nil.
    intros [Ha Hd]. destruct Ha as [[= ->]|[[= ->]|[[=]|[]]]]; destruct Hd as [[=]|[[=]|[[=]|[]]]].
  - by repeat constructor.
Qed.

(** C3 *)
Lemma patch_codec_exact_witness :
  patch_from_canonical_bytes (patch_canonical_bytes w_patch) = Ok w_patch.
Proof. apply (patch_codec_exact (patch_canonical_bytes w_patch) w_patch). split; [apply w_patch_wf|done]. Defined.

(** C4 *)
Lemma canonical_state_bytes_injective_witness :
  canonical_state_bytes (bts_collect [w_q2; w_q1]) = canonical_state_bytes (bts_collect [w_q1; w_q2; w_q1]).
Proof.
  destruct w_quads_wf as (? & ? & ?).
  apply (canonical_state_bytes_injective [w_q2; w_q1] [w_q1; w_q2; w_q1]); [by repeat constructor..|].
  intros q. rewrite !elem_of_cons. tauto.
Defined.

(** C5 *)
Lemma effective_delta_correct_witness :
  effective_contract [w_q1; w_q2] w_patch Strict (effective_delta [w_q1; w_q2] w_patch Strict).
Proof.
  refine (proj1 (effective_delta_correct [w_q1; w_q2] w_patch Strict _ w_patch_wf)).
  w_ascending.
Defined.

(** C6 *)
Lemma diff_patch_correct_witness :
  ∃ p, to_patch (diff [w_q1; w_q2] [w_q2; w_q3]) = Ok p ∧ patch_wf p ∧
       apply_patch [w_q1; w_q2] p = [w_q2; w_q3].
Proof.
  destruct w_quads_wf as (? & ? & ?).
  destruct (diff_patch_correct [w_q1; w_q2] [w_q2; w_q3]) as (p & Hp & Hwf & Happ & _);
    [w_ascending|w_ascending|by repeat constructor|by repeat constructor|].
  by exists p.
Defined.

(** ** The DAG: a diamond with a side root, and a provider for it at any window *)
Definition w_commit (s : string) : CommitId := mkCommitId (w_cid s).
Definition w_dag (window : N) : MemoryDag :=
  with_window (md_insert (md_insert (md_insert (md_insert (md_insert memory_dag_new
    (w_commit "r") []) (w_commit "a") [w_commit "r"]) (w_commit "b") [w_commit "r"])
    (w_commit "m") [w_commit "a"; w_commit "b"]) (w_commit "x") []) window.
Definition w_clock : nat → Z := λ _, 0%Z.
Definition w_limits : TraversalLimits := mkLimits 10 None.

(** C7: at fuel 20 the walk has finished, so the promised answer is the evaluated one. *)
Lemma is_ancestor_correct_witness :
  ∃ r, is_ancestor_post (memory_provider (w_dag 2)) w_limits (w_commit "r") (w_commit "m") r ∧
       ∃ fuel0, is_ancestor (P:=memory_provider (w_dag 2)) w_clock w_limits fuel0
                  (w_commit "r") (w_commit "m") = Some r.
Proof.
  destruct (is_ancestor_correct (memory_provider (w_dag 2)) w_clock w_limits (w_commit "r") (w_commit "m"))
    as (fuel0 & r & Hr & Hpost & _).
  exists r. split; [exact Hpost|]. exists fuel0. by apply Hr.
Defined.

(** C8 *)
Lemma ancestors_correct_witness :
  ∃ r, ancestors_post (memory_provider (w_dag 2)) w_limits (w_commit "m") r.
Proof.
  destruct (ancestors_correct (memory_provider (w_dag 2)) w_clock w_limits (w_commit "m"))
    as (fuel0 & r & _ & Hpost & _).
  by exists r.
Defined.

(** The same limits with a deadline that the clock never reaches within the walk. *)
Definition w_deadline : TraversalLimits := mkLimits (max_visited w_limits) (Some 1000%Z).

(** C9 *)
Lemma windows_are_transparent_witness :
  agree w_deadline (ancestors (P:=memory_provider (w_dag 256)) w_clock w_deadline 30 (w_commit "m"))
                   (ancestors (P:=memory_provider (w_dag 1)) w_clock w_deadline 30 (w_commit "m")) ∧
  is_ancestor (P:=memory_provider (w_dag 256)) w_clock w_limits 30 (w_commit "m") (w_commit "r") =
  is_ancestor (P:=memory_provider (w_dag 1)) w_clock w_limits 30 (w_commit "m") (w_commit "r").
Proof.
  assert (∀ c, @pp_parents _ (memory_provider (w_dag 256)) c = @pp_parents _ (memory_provider (w_dag 1)) c) as Hsame
    by reflexivity.
  split.
  - exact (proj1 (proj2 (windows_are_transparent (memory_provider (w_dag 256)) (memory_provider (w_dag 1))
      Hsame w_clock w_clock w_deadline 30 (w_commit "m") (w_commit "r") 5))).
  - apply (agree_no_deadline w_limits); [reflexivity|].
    exact (proj1 (windows_are_transparent (memory_provider (w_dag 256)) (memory_provider (w_dag 1))
      Hsame w_clock w_clock w_limits 30 (w_commit "m") (w_commit "r") 5)).
Defined.

(** C10 *)
Lemma merge_base_correct_witness :
  ∃ r, (∃ fuel, merge_base (P:=memory_provider (w_dag 4)) w_clock w_limits fuel (w_commit "a") (w_commit "b") = Some r) ∧
       match r with
       | Ok mb => merge_base_of (memory_provider (w_dag 4)) (w_commit "a") (w_commit "b") mb
       | Err e => pair_error (memory_provider (w_dag 4)) w_limits (w_commit "a") (w_commit "b") e
       | Panic _ => False
       end.
Proof.
  destruct (merge_base_correct (memory_provider (w_dag 4)) w_clock w_limits (w_commit "a") (w_commit "b"))
    as (fuel0 & r & Hr & Hpost & _).
  exists r. split; [exists fuel0; by apply Hr|exact Hpost].
Defined.

(** C11 *)
Lemma analyze_correct_witness :
  ∃ r, ∃ fuel, analyze (P:=memory_provider (w_dag 4)) w_clock w_limits fuel (w_commit "a") (w_commit "x") = Some r.
Proof.
  destruct (analyze_correct (memory_provider (w_dag 4)) w_clock w_limits (w_commit "a") (w_commit "x"))
    as (fuel0 & r & Hr & _).
  exists r, fuel0. by apply Hr.
Defined.

(** C12 *)
Lemma window_calls_production_witness :
  window_calls 100000 256 = Ok (4 + ceil_div 99915 256)%N ∧
  window_calls usize_max 256 = Panic "attempt to add with overflow".
Proof.
  split.
  - exact (window_calls_production 100000 ltac:(by vm_compute)).
  - exact (window_calls_production usize_max ltac:(by vm_compute)).
Defined.

(** C13 *)
Lemma providers_keep_contract_witness :
  ParentProviderOk (default_provider (λ c, Ok (md_parents (w_dag 1) !! c) : result unit _)).
Proof. apply (proj2 providers_keep_contract). done. Defined.

(** C14 *)
Lemma first_parent_history_correct_witness :
  first_parent_post (memory_provider (w_dag 3)) w_limits (w_commit "m") 5
    (first_parent_history (P:=memory_provider (w_dag 3)) w_clock w_limits (w_commit "m") 5).
Proof. apply (first_parent_history_correct (memory_provider (w_dag 3)) w_clock w_limits). Defined.

(** The queries evaluated on the sample graph. *)
Example w_merge_base :
  merge_base (P:=memory_provider (w_dag 4)) w_clock w_limits 30 (w_commit "a") (w_commit "b")
  = Some (Ok (Unique (w_commit "r"))).
Proof. vm_compute. reflexivity. Qed.

Example w_is_ancestor :
  is_ancestor (P:=memory_provider (w_dag 2)) w_clock w_limits 30 (w_commit "r") (w_commit "m") = Some (Ok true) ∧
  is_ancestor (P:=memory_provider (w_dag 2)) w_clock w_limits 30 (w_commit "x") (w_commit "m") = Some (Ok false).
Proof. vm_compute. by split. Qed.

(** ** Merging *)
Definition w_base : list Quad := [w_q1].
Definition w_target : list Quad := [w_q1; w_q3].
Definition w_source : list Quad := [w_q2].

Lemma w_states_wf : state_wf w_base ∧ state_wf w_target ∧ state_wf w_source.
Proof.
  destruct w_quads_wf as (? & ? & ?).
  split_and!; (split; [w_ascending|by repeat constructor]).
Qed.

(** C15 *)
Lemma three_way_correct_witness :
  ∃ w, three_way_reported w_base w_target w_source Union REPORT_DEFAULT = Ok w ∧
       (merged w = None ↔ Union = Abort_ ∧ conflict_count w ≠ 0).
Proof.
  destruct w_states_wf as (Hb & Ht & Hs).
  destruct (three_way_correct w_base w_target w_source Union REPORT_DEFAULT Hb Ht Hs) as (w & Hw & _ & Hn & _).
  by exists w.
Defined.

(** C16 *)
Lemma three_way_laws_witness :
  ∃ w, three_way_reported w_base w_base w_source Abort_ REPORT_SMALLEST = Ok w ∧
       merged w = Some w_source ∧ conflict_count w = 0.
Proof.
  destruct w_states_wf as (Hb & Ht & Hs).
  exact (proj1 (proj2 (three_way_laws w_base w_target w_source Abort_ REPORT_SMALLEST Hb Ht Hs))).
Defined.

(** C17: a report too small for the one conflict there is. *)
Lemma conflict_report_bounded_witness :
  ∃ w, three_way_reported w_base [w_q2] [] TakeTarget (mkReportLimits 1 1 200) = Ok w ∧
       report_cost (conflicts w) ≤ 200 ∧ length (conflicts w) ≤ 1.
Proof.
  destruct w_states_wf as (Hb & Ht & Hs). destruct w_quads_wf as (? & ? & ?).
  destruct (conflict_report_bounded w_base [w_q2] [] TakeTarget (mkReportLimits 1 1 200))
    as (w & ks & Hw & _ & _ & _ & Hc & Hl & _); [done|exact Hs| |by exists w].
  split; [constructor|constructor].
Defined.

Definition w_preview (strategy : Strategy) : PreviewIdentity :=
  mkPreview (mkGraphId (B "graph-1")) (B "feature") (w_commit "a") (B "main") (w_commit "b")
    (w_commit "r") CFastForward strategy (w_cid "state").

Lemma w_preview_wf strategy : preview_wf (w_preview strategy).
Proof. split_and!; by_eval. Qed.

(** C18: a fast-forward token does not depend on the requested strategy. *)
Lemma preview_bytes_binding_witness :
  preview_canonical_bytes (w_preview Union) = preview_canonical_bytes (w_preview TakeSource).
Proof.
  apply (proj2 (preview_bytes_binding (w_preview Union) (w_preview TakeSource)
    (w_preview_wf Union) (w_preview_wf TakeSource))). by split_and!.
Defined.
