(* ===== verification/ValidationWitnesses.v ===== *)
(** * Witnesses for the validation protocol

    Each theorem of the validation-protocol files applied at a concrete input. *)

From Stdlib Require Import ZArith Lia String Strings.Byte Sorted.
From stdpp Require Import base gmap countable list.
From S2P Require Import Prelude BTree Bytes Text Core Identity Temporal CommitV2 Encoding.
From S2P Require Import SemanticContext ValidationRecord ValidationClient Reference Witnesses.

Local Open Scope string_scope.
Local Open Scope list_scope.
Local Open Scope ledger_scope.

(** ** Sample values *)
Definition w_principal : AuthenticatedPrincipal :=
  mkAuthenticatedPrincipal (mkPrincipalId (B "svc-1")) Service (mkTenantId (B "acme"))
    (Some (mkPrincipalId (B "ada"))).

Definition w_graph : GraphId := mkGraphId (B "graph-1").
Definition w_candidate : CommitId := mkCommitId (w_cid "candidate").
Definition w_vref (dataset : string) (refs : list string) : VirtualContextRef :=
  mkVirtualContextRef (B dataset) (B "2026-09") (B <$> refs) (w_cid "query") (w_cid "plan").
Definition w_context (l : list VirtualContextRef) : SemanticExecutionContext :=
  mkSemanticExecutionContext w_graph w_candidate (w_cid "state") (mkBaseKb (B "kb") (B "r7"))
    (Some (mkOntology (B "onto") (B "3"))) (mkShapeSet (B "shapes") (B "12"))
    (Some (mkReasoning (B "owl-rl") (B "sculpin") (B "1.4"))) (Some (B "catalog-5")) l
    (mkValidatorIdentity (B "sculpin") (B "2.0") (B "c1")).
Definition w_contexts_a : list VirtualContextRef :=
  [w_vref "erp" ["order:10"; "order:9"]; w_vref "crm" ["c:1"]].
Definition w_contexts_b : list VirtualContextRef :=
  [w_vref "crm" ["c:1"; "c:1"]; w_vref "erp" ["order:9"; "order:10"]; w_vref "crm" ["c:1"]].

Definition w_pbytes (r : presult bytes) : bytes := match r with Ok b => b | _ => [] end.
Definition w_context_bytes : bytes := Eval vm_compute in w_pbytes (ctx_canonical_bytes (w_context w_contexts_a)).

(** [wf_eval] closes the type invariants of a concrete value. *)
Ltac wf_eval := first [by_eval | vm_compute; reflexivity | done].

Lemma w_invocation_wf key digest :
  cid_wf digest → invocation_wf (for_request w_principal w_graph key digest).
Proof. intros Hd. split; [by_eval|by_eval|cbn; by_eval|by_eval|done]. Qed.

(** C19 *)
Definition w_invocation (key : string) : ValidationInvocation :=
  for_request w_principal w_graph (B key) (w_cid "r").
Lemma invocation_bytes_binding_witness :
  invocation_canonical_bytes (w_invocation "key-1") =
    Ok (w_pbytes (invocation_canonical_bytes (w_invocation "key-1"))) ∧
  invocation_canonical_bytes (w_invocation "key-2") ≠
    Ok (w_pbytes (invocation_canonical_bytes (w_invocation "key-1"))).
Proof.
  assert (cid_wf (w_cid "r")) as Hd by by_eval.
  assert (invocation_canonical_bytes (w_invocation "key-1") =
    Ok (w_pbytes (invocation_canonical_bytes (w_invocation "key-1")))) as H1 by by_eval.
  split; [exact H1|]. intros H2.
  pose proof (proj2 (invocation_bytes_binding w_principal w_principal w_graph w_graph (B "key-1") (B "key-2")
    (w_cid "r") (w_cid "r") (w_invocation_wf _ _ Hd) (w_invocation_wf _ _ Hd)) _ H1 H2)
    as (_ & _ & Hk & _).
  revert Hk. vm_compute. discriminate.
Defined.

Lemma w_vref_wf d refs :
  utf8 (B d) → Forall (λ r, utf8 (B r)) refs → vc_wf (w_vref d refs).
Proof.
  intros Hd Hr. split; [done|by_eval|by apply Forall_fmap|by_eval|by_eval].
Qed.

Lemma w_context_wf l : Forall vc_wf l → ctx_wf (w_context l).
Proof.
  intros Hl. split; [by_eval|by_eval|by_eval| |done|by split_and!].
  split; cbn; by repeat split.
Qed.

Lemma w_contexts_wf : Forall vc_wf w_contexts_a ∧ Forall vc_wf w_contexts_b.
Proof.
  unfold w_contexts_a, w_contexts_b.
  split; repeat constructor; apply w_vref_wf; try done; by repeat constructor.
Qed.

Lemma w_contexts_equiv : ctx_equiv (w_context w_contexts_a) (w_context w_contexts_b).
Proof.
  assert (vc_equiv (w_vref "crm" ["c:1"]) (w_vref "crm" ["c:1"; "c:1"])) as H1.
  { split_and!; try done. intros r. cbn. rewrite !elem_of_cons, !elem_of_nil. tauto. }
  assert (vc_equiv (w_vref "erp" ["order:10"; "order:9"]) (w_vref "erp" ["order:9"; "order:10"])) as H2.
  { split_and!; try done. intros r. cbn. rewrite !elem_of_cons, !elem_of_nil. tauto. }
  split; [done|]. cbn [w_context sc_virtual_contexts]. unfold w_contexts_a, w_contexts_b. split.
  - intros v. rewrite !elem_of_cons. intros [->|[->|Hv]]; [| |by apply elem_of_nil in Hv].
    + exists (w_vref "erp" ["order:9"; "order:10"]). split; [|done]. right. by left.
    + exists (w_vref "crm" ["c:1"; "c:1"]). split; [|done]. by left.
  - intros v. rewrite !elem_of_cons. intros [->|[->|[->|Hv]]]; [| | |by apply elem_of_nil in Hv].
    + exists (w_vref "crm" ["c:1"]). split; [|done]. right. by left.
    + exists (w_vref "erp" ["order:10"; "order:9"]). split; [|done]. by left.
    + exists (w_vref "crm" ["c:1"]). split; [|reflexivity]. right. by left.
Qed.

(** C20 *)
Definition w_env_bytes : bytes :=
  Eval vm_compute in w_pbytes (env_canonical_bytes (environment (w_context []))).
Lemma semantic_codecs_exact_witness :
  env_from_canonical_bytes w_env_bytes = Ok (environment (w_context [])) ∧
  env_canonical_bytes (environment (w_context [])) = Ok w_env_bytes.
Proof.
  assert (env_from_canonical_bytes w_env_bytes = Ok (environment (w_context []))) as Hd by by_eval.
  split; [exact Hd|]. exact (proj2 (proj1 (proj1 (semantic_codecs_exact w_env_bytes) _) Hd)).
Defined.

(** C21 *)
Lemma context_identity_is_set_based_witness :
  ctx_canonical_bytes (w_context w_contexts_b) = Ok w_context_bytes ∧
  ctx_id (w_context w_contexts_b) = ctx_id (w_context w_contexts_a).
Proof.
  destruct (context_identity_is_set_based (w_context w_contexts_a) w_context_bytes) as (H1 & H2 & _).
  - apply w_context_wf, w_contexts_wf.
  - by_eval.
  - split.
    + apply H1; [apply w_context_wf, w_contexts_wf|apply w_contexts_equiv].
    + apply H2, w_contexts_equiv.
Defined.

(** C22 *)
Lemma canonical_object_refs_agree_witness :
  encoded_object_refs (w_vref "erp" ["order:10"; "order:9"; "order:10"]) =
  Ok (wire_field <$> [B "order:9"; B "order:10"]).
Proof.
  refine (proj1 (canonical_object_refs_agree (w_vref "erp" ["order:10"; "order:9"; "order:10"]) _)).
  split; [by_eval|by_eval|by_eval|].
  assert (ref_set (w_vref "erp" ["order:10"; "order:9"; "order:10"]) =
    wire_field <$> [B "order:9"; B "order:10"]) as -> by by_eval.
  cbn. unfold MAX_OBJECT_REFS. lia.
Defined.

(** C23 *)
Lemma environment_is_candidate_independent_witness :
  env_canonical_bytes (environment (w_context w_contexts_a)) =
  env_canonical_bytes (environment (w_context [])).
Proof.
  refine (proj2 (proj2 (environment_is_candidate_independent (w_context w_contexts_a) (w_context [])
    w_context_bytes (w_pbytes (ctx_canonical_bytes (w_context []))) _ _ _ _)) _).
  - apply w_context_wf, w_contexts_wf.
  - by apply w_context_wf.
  - by_eval.
  - by_eval.
  - done.
Defined.

(** ** Records *)
Definition w_vs (s c m : string) : ViolationSummary := mkViolationSummary (B s) (B c) (B m).
Definition w_record (l : list ViolationSummary) : ValidationRecord :=
  mkValidationRecord w_graph w_candidate (w_cid "state") (mkSemanticContextId (w_cid "context"))
    (mkValidatorIdentity (B "sculpin") (B "2.0") (B "c1"))
    (mkValidationOutcome Violations 3 l) w_time (w_cid "report") (Some (B "s3://reports/1")).
Definition w_entries_a : list ViolationSummary :=
  [w_vs "error" "sh:minCount" "missing name"; w_vs "error" "sh:datatype" EmptyString].
Definition w_entries_b : list ViolationSummary :=
  [w_vs "error" "sh:datatype" EmptyString; w_vs "error" "sh:minCount" "missing name";
   w_vs "error" "sh:datatype" EmptyString].
Definition w_record_bytes : bytes :=
  Eval vm_compute in w_pbytes (record_canonical_bytes (w_record w_entries_a)).

Lemma w_record_wf l : Forall vs_wf l → record_wf (w_record l).
Proof.
  intros Hl. split; cbn; try done.
  - by_eval.
Qed.

(** C24 *)
Lemma record_codec_exact_witness :
  record_canonical_bytes (w_record w_entries_b) = Ok w_record_bytes ∧
  record_id (w_record w_entries_b) = record_id (w_record w_entries_a).
Proof.
  destruct (record_codec_exact w_record_bytes) as [_ Hid].
  destruct (Hid (w_record w_entries_a)) as (H1 & H2 & _).
  - apply w_record_wf. by repeat constructor.
  - by_eval.
  - assert (record_equiv (w_record w_entries_a) (w_record w_entries_b)) as Heq.
    { split; [done|]. intros v. cbn. unfold w_entries_a, w_entries_b.
      rewrite !elem_of_cons, !elem_of_nil. tauto. }
    split; [apply H1; [apply w_record_wf; by repeat constructor|done]|by apply H2].
Defined.

(** ** Responses *)
Definition w_response (l : list ViolationSummary) : ValidatorResponse :=
  mkValidatorResponse VALIDATION_RESPONSE_PROTOCOL w_candidate (w_cid "state")
    (mkEffectiveContext (mkBaseKb (B "kb") (B "r7")) (Some (mkOntology (B "onto") (B "3")))
       (mkShapeSet (B "shapes") (B "12")) (Some (mkReasoning (B "owl-rl") (B "sculpin") (B "1.4")))
       (Some (B "catalog-5")) [] (mkValidatorVersions (B "2.0") (B "c1")))
    (mkValidationOutcome Violations 3 l) (mkReportReference (w_cid "report") None).
Definition w_multiline : ViolationSummary :=
  mkViolationSummary (B "error") (B "sh:minCount") (B "missing" ++ [x0a] ++ B "name").

(** C25 *)
Lemma bounded_summary_correct_witness :
  outcome_validate (rs_outcome (with_bounded_summary (w_response [w_multiline; w_multiline]))) = Ok tt.
Proof.
  refine (proj2 (proj1 (proj2 (proj2 (proj2 (bounded_summary_correct
    (w_response [w_multiline; w_multiline]) _))))) _).
  - by repeat constructor.
  - split; [|split].
    + cbn [w_response rs_outcome violations]. repeat constructor; by_eval.
    + done.
    + assert (violations (rs_outcome (with_bounded_summary (w_response [w_multiline; w_multiline]))) =
        [w_vs "error" "sh:minCount" "missing name"]) as -> by by_eval.
      done.
Defined.

(** C26 *)
Definition w_hints (p : string) : RequestedContext :=
  mkRequestedContext (Some (mkBaseKb (B "kb") (B "r7"))) None (Some (mkShapeSet (B "shapes") (B "12")))
    (Some (B p)) None.
Lemma hint_encoding_binding_witness :
  encode_into (w_hints "owl-rl") [] = Ok (w_pbytes (encode_into (w_hints "owl-rl") [])) ∧
  encode_into (w_hints "owl-rl") [] ≠ encode_into (w_hints "rdfs") [].
Proof.
  assert (encode_into (w_hints "owl-rl") [] = Ok (w_pbytes (encode_into (w_hints "owl-rl") []))) as H1
    by by_eval.
  assert (encode_into (w_hints "rdfs") [] = Ok (w_pbytes (encode_into (w_hints "rdfs") []))) as H2
    by by_eval.
  split; [exact H1|]. intros Heq. rewrite Heq in H1.
  pose proof (proj1 (proj2 (hint_encoding_binding (w_hints "owl-rl") (w_hints "rdfs") [] [] [] _ _)
    ltac:(rewrite Heq; exact H2) H2 eq_refl)) as Hw.
  revert Hw. vm_compute. discriminate.
Defined.

(** C27 *)
Lemma into_context_correct_witness :
  ∃ bs, ctx_canonical_bytes (w_context []) = Ok bs.
Proof.
  refine (proj2 (into_context_correct (w_response [w_vs "error" "sh:minCount" "m"]) w_graph w_candidate
    (w_cid "state") (B "sculpin") (w_hints "owl-rl") _) (w_context []) _).
  - by apply (w_context_wf []).
  - by_eval.
Defined.
