(* ===== verification/ProjectionWitnesses.v ===== *)
(** * Witnesses for the projection protocol

    Each theorem of [Projection] applied at a concrete input. *)

From Stdlib Require Import ZArith Lia String Strings.Byte Sorted.
From stdpp Require Import base gmap countable list.
From S2P Require Import Prelude BTree Bytes Text Core Identity Rdf Encoding Projection Reference.
From S2P Require Import Witnesses.

Local Open Scope string_scope.
Local Open Scope list_scope.
Local Open Scope ledger_scope.

(** C28 *)
Definition w_kb_graph : CognitiveGraph := mkCognitiveGraph (B "urn:sculpin:kb:a%3Ab:cognitive").
Lemma cognitive_graph_exact_witness :
  cognitive_graph_parse (as_iri w_kb_graph) = Ok w_kb_graph ∧
  graph_knowledge_base_id w_kb_graph = Ok (B "a:b").
Proof.
  destruct (cognitive_graph_exact (as_iri w_kb_graph) w_kb_graph) as (Hp & Hid & _). split.
  - apply Hp. split; [done|]. exists (B "a:b"). split; [done|]. by_eval.
  - apply Hid; [done|]. by_eval.
Defined.

(** ** The decision table *)
Definition w_marker (version count : Z) : ProjectionMarker :=
  mkProjectionMarker (mkGraphId (B "graph-1")) (B "main") (mkCommitId (w_cid "c")) version
    (w_cid "state") count (B "w1").
Definition w_view (target head : Z) : LedgerView :=
  mkLedgerView (mkGraphId (B "graph-1")) (B "main") (mkCommitId (w_cid "t")) target head
    (Some (mkCommitId (w_cid "c"))) (Some 2%Z).
Definition w_observation (m : ProjectionMarker) (count : Z) : Observation :=
  mkObservation (Present m) count (Some (pm_ref_version m)) [].

(** C29 *)
Lemma plan_exact_witness :
  plan (w_view 5 6) (w_observation (w_marker 4 9) 9) = Write None ∧
  plan (w_view 5 6) (w_observation (w_marker 6 9) 9) = AcknowledgeBeyond (mkCommitId (w_cid "c")) 6 ∧
  plan (w_view 3 6) (w_observation (w_marker 5 9) 8) = Write (Some TripleCountMismatch) ∧
  ∃ e, plan (w_view 5 6) (w_observation (w_marker 7 9) 9) = RecoveryRequired e ∧ pe_code e = MarkerAhead.
Proof.
  split_and!.
  - apply (proj1 (proj2 (proj2 (plan_exact (w_view 5 6) (w_observation (w_marker 4 9) 9))))).
    right. exists (w_marker 4 9). by split_and!.
  - apply (proj1 (proj2 (plan_exact (w_view 5 6) (w_observation (w_marker 6 9) 9)))).
    exists (w_marker 6 9). by split_and!.
  - apply (proj1 (proj2 (proj2 (proj2 (plan_exact (w_view 3 6) (w_observation (w_marker 5 9) 8)))))).
    exists (w_marker 5 9). by split_and!.
  - apply (proj1 (proj2 (proj2 (proj2 (proj2 (plan_exact (w_view 5 6) (w_observation (w_marker 7 9) 9))))))).
    right. exists (w_marker 7 9). by split_and!.
Defined.

(** ** Markers *)
Definition w_text (v : bytes) : MarkerTerm := mkMarkerTerm v None true false None.
Definition w_int (v : bytes) : MarkerTerm := mkMarkerTerm v (Some XSD_INTEGER) true false None.
Definition w_terms : list MarkerTerm :=
  [w_text PROJECTION_PROTOCOL; w_text (B "graph-1"); w_text (B "main");
   w_text (cid_str (w_cid "c")); w_int (B "7"); w_text (cid_str (w_cid "state"));
   w_text (B "w1"); w_int (B "42")].

(** C30 *)
Lemma marker_read_exact_witness :
  from_terms (rev (zip marker_predicates w_terms)) = Present (w_marker 7 42).
Proof.
  apply (proj1 (marker_read_exact (rev (zip marker_predicates w_terms))) (w_marker 7 42)).
  split.
  - split; [by_eval|by_eval|by_eval|done|by_eval|by_eval|done].
  - exists w_terms. split; [|symmetry; apply Permutation_rev]. split_and!; repeat split; by left.
Defined.

(** C31 *)
Lemma projected_state_exact_witness :
  from_state [w_q1; w_q2] =
    Ok (mkProjectedState (quad_str <$> [w_q1; w_q2]) (state_digest [w_q1; w_q2])).
Proof.
  destruct w_quads_wf as (H1 & H2 & H3).
  refine (proj2 (proj1 (projected_state_exact [w_q1; w_q2] _ _) _) _).
  - w_ascending.
  - by repeat constructor.
  - split; [|done]. repeat constructor; vm_compute; discriminate.
Defined.
